(** * Krakatau: the bytecode assembler and the restructurer

    A shallow embedding of [Krakatau/assembler/assembler.py] (pool
    references, the instruction layout and emit passes, the Code attribute)
    and of [Krakatau/java/structuring.py] (the loop canonicalisation, the
    constraint tree with its checks and the passes that complete it), with
    the properties the specification states about them.

    Python values are embedded as follows.  Integers are [Z].  Byte strings
    are [list byte].  Dictionaries are [gmap]s, sets are [gset]s.  A Python
    exception is an [exn]; a function that may raise returns a [result], and
    a function that also mutates objects is a computation in the monad [M],
    which threads the object store and the constant pool and keeps the
    mutations made before an exception was raised. *)

From Stdlib Require Import ZArith List String Ascii Lia.
From Stdlib.Strings Require Import Byte.
From stdpp Require Import base option gmap strings list sorting.

Local Open Scope Z_scope.

(** ** Exceptions and results *)

Inductive exn : Type :=
| AssemblerError (msg : string)  (* raised by [error] *)
| StructError                    (* struct.error *)
| KeyError
| ValueError
| TypeError
| IndexError
| AttributeError
| RuntimeError                   (* recursion depth exceeded *)
| AssertionError                 (* a failed [assert] *)
| PoolError (msg : string).      (* raised inside the constant pool *)

Inductive result (A : Type) : Type :=
| Ok (a : A)
| Raise (e : exn).
Arguments Ok {A} a.
Arguments Raise {A} e.

Definition rbind {A B} (r : result A) (k : A -> result B) : result B :=
  match r with
  | Ok a => k a
  | Raise e => Raise e
  end.

Fixpoint rmap {A B} (f : A -> result B) (l : list A) : result (list B) :=
  match l with
  | [] => Ok []
  | x :: l' =>
      rbind (f x) (fun y => rbind (rmap f l') (fun ys => Ok (y :: ys)))
  end.

(** [error(msg)] *)
Definition error {A} (msg : string) : result A := Raise (AssemblerError msg).

(** ** Byte strings and the [struct] module

    Only the big-endian format characters the assembler uses are modelled:
    [B b H h I i].  [struct.pack] raises [struct.error] when the number of
    arguments differs from the number of format characters, when an argument
    is not an integer, and when an integer is out of the range of its
    format character. *)

Definition byte_of_Z (z : Z) : byte :=
  match Byte.of_N (Z.to_N (z mod 256)) with
  | Some b => b
  | None => x00
  end.

Definition Z_of_byte (b : byte) : Z := Z.of_N (Byte.to_N b).

(** the [n] low bytes of [z], most significant first *)
Fixpoint be_bytes (n : nat) (z : Z) : list byte :=
  match n with
  | O => []
  | S n' => be_bytes n' (z / 256) ++ [byte_of_Z z]
  end.

(** big-endian unsigned decoding *)
Definition be_decode (bs : list byte) : Z :=
  fold_left (fun acc b => acc * 256 + Z_of_byte b) bs 0.

Inductive fchar : Type := fB | fb | fH | fh | fI | fi.

Definition fsize (c : fchar) : nat :=
  match c with
  | fB | fb => 1
  | fH | fh => 2
  | fI | fi => 4
  end%nat.

Definition fmin (c : fchar) : Z :=
  match c with
  | fB | fH | fI => 0
  | fb => -128
  | fh => -32768
  | fi => -2147483648
  end.

Definition fmax (c : fchar) : Z :=
  match c with
  | fB => 255
  | fb => 127
  | fH => 65535
  | fh => 32767
  | fI => 4294967295
  | fi => 2147483647
  end.

(** [struct.Struct(fmt).size] *)
Definition calcsize (fmt : list fchar) : Z :=
  Z.of_nat (list_sum (map fsize fmt)).

Definition pack1 (c : fchar) (z : Z) : result (list byte) :=
  if (fmin c <=? z) && (z <=? fmax c) then Ok (be_bytes (fsize c) z)
  else Raise StructError.

(** [struct.pack(fmt, *args)] on integer arguments *)
Fixpoint pack (fmt : list fchar) (args : list Z) : result (list byte) :=
  match fmt, args with
  | [], [] => Ok []
  | c :: fmt', z :: args' =>
      rbind (pack1 c z) (fun b => rbind (pack fmt' args') (fun bs => Ok (b ++ bs)))
  | _, _ => Raise StructError
  end.

(** [len(s)] of a byte string, as a Python integer *)
Definition blen (bs : list byte) : Z := Z.of_nat (length bs).

(** ** Values of the assembly tree

    The parser is not part of the embedded sources; the shapes below are
    the ones [assembler.py] destructures.  An instruction is the tuple
    [(op, operand, ...)].  The operand of [wide] is the pair
    [(subop, args)], the operand of a switch is the triple
    [(param, jumps, default)] where [jumps] is a list of labels for
    [tableswitch] and a list of [(key, label)] pairs for [lookupswitch]
    (whose [param] is unused).  Applying an operation to a value of another
    shape than the one it destructures raises [TypeError]. *)

Definition ref := positive.

Inductive value : Type :=
| VInt (n : Z)
| VStr (s : string)
| VPoolRef (r : ref)
| VInts (args : list Z)
| VWide (subop : string) (args : list Z)
| VTable (param : Z) (jumps : list string) (default : string)
| VLookup (jumps : list (Z * string)) (default : string).

Definition instruction : Type := string * list value.

(** [', '.join(l)] *)
Definition join (sep : string) (l : list string) : string := String.concat sep l.

Definition newline : string := String (ascii_of_nat 10) EmptyString.

(** [x in l] for a tuple or list of strings *)
Definition str_in (x : string) (l : list string) : bool :=
  existsb (String.eqb x) l.

(** [l.index(x)], [None] standing for the [ValueError] *)
Fixpoint index_of (x : string) (l : list string) : option nat :=
  match l with
  | [] => None
  | y :: l' => if String.eqb x y then Some O else option_map S (index_of x l')
  end.

(** ** The instruction catalogue

    [Krakatau/assembler/instructions.py] is not part of the embedded
    sources; its three tables are a parameter of the development. *)

Record instructions : Type := {
  allinstructions : list string;
  instrs_noarg : list string;
  instrs_lbl : list string
}.

(** [chr(instructions.allinstructions.index(op))]: [index] raises
    [ValueError] for an unknown mnemonic and [chr] for an index above 255. *)
Definition opcode (ins : instructions) (op : string) : result byte :=
  match index_of op (allinstructions ins) with
  | Some i => if (Z.of_nat i <? 256) then Ok (byte_of_Z (Z.of_nat i))
              else Raise ValueError
  | None => Raise ValueError
  end.

(** [_format_ops], in the order in which the keys are written *)
Definition _format_ops (ins : instructions) : list (list fchar * list string) :=
  [ ([], instrs_noarg ins);
    ([fB], ["iload"; "lload"; "fload"; "dload"; "aload"; "istore"; "lstore";
            "fstore"; "dstore"; "astore"; "ret"; "ldc"; "newarray"]);
    ([fh], ["ifeq"; "ifne"; "iflt"; "ifge"; "ifgt"; "ifle"; "if_icmpeq";
            "if_icmpne"; "if_icmplt"; "if_icmpge"; "if_icmpgt"; "if_icmple";
            "if_acmpeq"; "if_acmpne"; "goto"; "jsr"; "ifnull"; "ifnonnull";
            "sipush"]);
    ([fH], ["ldc_w"; "ldc2_w"; "getstatic"; "putstatic"; "getfield";
            "putfield"; "invokevirtual"; "invokespecial"; "invokestatic";
            "invokedynamic"; "new"; "anewarray"; "checkcast"; "instanceof"]);
    ([fb], ["bipush"]);
    ([fB; fb], ["iinc"]);
    ([fH; fB], ["invokeinterface"; "multianewarray"]);
    ([fi], ["goto_w"; "jsr_w"]) ]%string.

(** [_op_structs]: the format of [op], if it has a fixed layout.  The
    mnemonics written out above are pairwise distinct, so the order in which
    the dictionary is filled only matters for a mnemonic that the catalogue
    also lists in [instrs_noarg]. *)
Fixpoint lookup_format (op : string) (tbl : list (list fchar * list string))
  : option (list fchar) :=
  match tbl with
  | [] => None
  | (fmt, ops) :: tbl' =>
      if str_in op ops then Some fmt else lookup_format op tbl'
  end.

Definition _op_structs (ins : instructions) (op : string) : option (list fchar) :=
  lookup_format op (_format_ops ins).

(** ** The layout pass *)

Definition getPadding (pos : Z) : Z := (3 - pos) mod 4.

(** [len(v)] *)
Definition py_len (v : value) : result Z :=
  match v with
  | VInt _ | VPoolRef _ => Raise TypeError
  | VStr s => Ok (Z.of_nat (String.length s))
  | VInts args => Ok (Z.of_nat (length args))
  | VWide _ _ => Ok 2
  | VTable _ _ _ | VLookup _ _ => Ok 3
  end.

(** [len(v[1])] *)
Definition py_len_item1 (v : value) : result Z :=
  match v with
  | VInt _ | VPoolRef _ => Raise TypeError
  | VStr s => if (2 <=? String.length s)%nat then Ok 1 else Raise IndexError
  | VInts args => if (2 <=? length args)%nat then Raise TypeError else Raise IndexError
  | VWide _ args => Ok (Z.of_nat (length args))
  | VTable _ jumps _ => Ok (Z.of_nat (length jumps))
  | VLookup jumps _ => Ok (Z.of_nat (length jumps))
  end.

Definition getInstrLen (ins : instructions) (instr : instruction) (pos : Z)
  : result Z :=
  let op := fst instr in
  match _op_structs ins op with
  | Some fmt => Ok (1 + calcsize fmt)
  | None =>
      if String.eqb op "wide" then
        match snd instr with
        | v :: _ => rbind (py_len v) (fun n => Ok (2 * n))
        | [] => Raise IndexError
        end
      else
        let padding := getPadding pos in
        match snd instr with
        | v :: _ =>
            rbind (py_len_item1 v) (fun count =>
              if String.eqb op "tableswitch" then Ok (13 + padding + 4 * count)
              else Ok (9 + padding + 8 * count))
        | [] => Raise IndexError
        end
  end.

(** ** Pool references and the constant-pool handle

    A [PoolRef] object has the fields [index], [lbl] and [args]; [args] is
    the tuple given to the constructor until [toIndex] replaces it by a list
    ([args_list] records which of the two it is).  Objects live in a store
    indexed by references, so that the memoisation done by [toIndex] is
    visible through every alias.

    [Krakatau/constant_pool.py] is not part of the embedded sources: the
    type of the pool and its [getItemRaw] are parameters. *)

Inductive arg : Type :=
| AStr (s : string)
| AInt (n : Z)
| APool (r : ref).

Record PoolRef : Type := mkPoolRef {
  index : option Z;
  lbl : option string;
  args : list arg;
  args_list : bool
}.

Definition set_index (i : Z) (o : PoolRef) : PoolRef :=
  {| index := Some i; lbl := lbl o; args := args o; args_list := args_list o |}.

Definition set_args (a : list arg) (o : PoolRef) : PoolRef :=
  {| index := index o; lbl := lbl o; args := a; args_list := true |}.

(** the truth value of [self.lbl]: [None] and the empty string are false *)
Definition lbl_true (o : PoolRef) : option string :=
  match lbl o with
  | Some l => if String.eqb l "" then None else Some l
  | None => None
  end.

(** the key of a label statement in the [labels] dictionary: the label, or
    [None] for a statement without one *)
Abbreviation labels_t := (gmap (option string) Z).
Abbreviation lbls_t := (gmap string ref).

Section Assembler.

Context (ins : instructions).
Context {ConstPool : Type}.
Context (getItemRaw : ConstPool -> arg * list arg -> ConstPool * result Z).

Record state : Type := mkState {
  heap : gmap ref PoolRef;
  cpool : ConstPool
}.

Definition M (A : Type) : Type := state -> state * result A.

Definition ret {A} (a : A) : M A := fun s => (s, Ok a).
Definition raiseM {A} (e : exn) : M A := fun s => (s, Raise e).
Definition bind {A B} (m : M A) (k : A -> M B) : M B :=
  fun s => match m s with
           | (s', Ok a) => k a s'
           | (s', Raise e) => (s', Raise e)
           end.
Definition liftR {A} (r : result A) : M A := fun s => (s, r).

Notation "'let*' x := m 'in' k" := (bind m (fun x => k))
  (at level 10, x name, m at level 100, k at level 200).
Notation "'seq*' m 'in' k" := (bind m (fun _ => k))
  (at level 10, m at level 100, k at level 200).

Fixpoint mapM {A B} (f : A -> M B) (l : list A) : M (list B) :=
  match l with
  | [] => ret []
  | x :: l' => let* y := f x in let* ys := mapM f l' in ret (y :: ys)
  end.

(** reading and writing the fields of an object *)
Definition deref (r : ref) : M PoolRef :=
  fun s => match heap s !! r with
           | Some o => (s, Ok o)
           | None => (s, Raise TypeError)
           end.

Definition modify (r : ref) (f : PoolRef -> PoolRef) : M unit :=
  fun s => ({| heap := alter f r (heap s); cpool := cpool s |}, Ok tt).

(** [PoolInfo.getItem(type_, *args)], called as [getItem( *l )] *)
Definition getItem (l : list arg) : M Z :=
  match l with
  | [] => raiseM TypeError
  | type_ :: rest =>
      fun s => let (cp, r) := getItemRaw (cpool s) (type_, rest) in
               ({| heap := heap s; cpool := cp |}, r)
  end.

(** [PoolInfo.Utf8(s)] *)
Definition Utf8 (s : string) : M Z := getItem [AStr "Utf8"; AStr s].

(** [PoolInfo.getLabel(lbl, forbidden)], over the [toIndex] it calls *)
Definition getLabel_body (rec : ref -> list string -> M Z)
    (lbls : lbls_t) (lbl : string) (forbidden : list string) : M Z :=
  if str_in lbl forbidden then
    liftR (error ("Recursive constant pool reference: " +:+ join ", " forbidden))
  else
    let forbidden := forbidden ++ [lbl] in
    match lbls !! lbl with
    | Some r => rec r forbidden
    | None => raiseM KeyError
    end.

(** [PoolRef.toIndex(pool, forbidden)].  [pool] is the label table [lbls]
    together with the constant pool of the state.  The recursion of the
    source is not bounded by its arguments (a structural reference resolves
    its sub-references with an empty [forbidden]); [fuel] is the recursion
    depth left, and running out of it is Python's [RuntimeError]. *)
Fixpoint toIndex (fuel : nat) (lbls : lbls_t) (self : ref)
    (forbidden : list string) : M Z :=
  match fuel with
  | O => raiseM RuntimeError
  | S fuel' =>
      let* o := deref self in
      match index o with
      | Some i => ret i
      | None =>
          match lbl_true o with
          | Some l =>
              let* i := getLabel_body (toIndex fuel' lbls) lbls l forbidden in
              seq* modify self (set_index i) in
              ret i
          | None =>
              let* a := mapM (fun x => match x with
                                       | APool r => let* i := toIndex fuel' lbls r [] in
                                                    ret (AInt i)
                                       | _ => ret x
                                       end) (args o) in
              seq* modify self (set_args a) in
              let* i := getItem a in
              seq* modify self (set_index i) in
              ret i
          end
      end
  end.

Definition getLabel (fuel : nat) (lbls : lbls_t) (lbl : string)
    (forbidden : list string) : M Z :=
  getLabel_body (toIndex fuel lbls) lbls lbl forbidden.

(** ** The emit pass *)

(** Python 2 compares byte strings bytewise *)
Definition str_le (a b : string) : Prop := String.leb a b = true.
Local Instance str_le_dec a b : Decision (str_le a b).
Proof. unfold str_le. apply _. Defined.

(** [sorted(labels)] once [labels[None]] is deleted *)
Definition sorted_labels (labels : labels_t) : list string :=
  merge_sort str_le (omap fst (map_to_list (delete None labels))).

(** the local function [lbl2Off] of [assembleInstruction] *)
Definition lbl2Off (labels : labels_t) (pos : Z) (lbl : string) : result Z :=
  match labels !! Some lbl with
  | Some off => Ok (off - pos)
  | None =>
      match labels !! None with
      | None => Raise KeyError (* [del labels[None]] *)
      | Some _ =>
          error ("Undefined label: " +:+ lbl +:+ newline +:+
                 "Defined labels for current method are: " +:+
                 join ", " (sorted_labels labels))
      end
  end.

(** [x.toIndex(pool) if isinstance(x, PoolRef) else x] *)
Definition resolve (fuel : nat) (lbls : lbls_t) (x : value) : M value :=
  match x with
  | VPoolRef r => let* i := toIndex fuel lbls r [] in ret (VInt i)
  | _ => ret x
  end.

(** [struct.pack(fmt, *vs)] on values *)
Definition as_int (v : value) : result Z :=
  match v with
  | VInt n => Ok n
  | _ => Raise StructError
  end.

Definition pack_values (fmt : list fchar) (vs : list value) : result (list byte) :=
  rbind (rmap as_int vs) (pack fmt).

(** the order of Python on pairs of integers *)
Definition pair_le (a b : Z * Z) : Prop :=
  fst a < fst b \/ (fst a = fst b /\ snd a <= snd b).
Local Instance pair_le_dec a b : Decision (pair_le a b).
Proof. unfold pair_le. apply _. Defined.

(** [{k: v for k, v in l}] *)
Definition dict_of (l : list (Z * Z)) : gmap Z Z :=
  foldl (fun d kv => <[fst kv := snd kv]> d) ∅ l.

(** [sorted(d.items())] *)
Definition sorted_items (d : gmap Z Z) : list (Z * Z) :=
  merge_sort pair_le (map_to_list d).

Definition zeros (n : Z) : list byte := repeat x00 (Z.to_nat n).

(** the [tableswitch] branch *)
Definition assemble_tableswitch (first : byte) (labels : labels_t) (pos : Z)
    (param : Z) (jumps : list string) (default : string) : result (list byte) :=
  let padding := getPadding pos in
  rbind (lbl2Off labels pos default) (fun default =>
  rbind (rmap (lbl2Off labels pos) jumps) (fun jumps =>
  let low := param in
  let high := param + Z.of_nat (length jumps) - 1 in
  rbind (pack [fi; fi; fi] [default; low; high]) (fun hdr =>
  let part1 := first :: zeros padding ++ hdr in
  rbind (rmap (fun j => pack [fi] [j]) jumps) (fun body =>
  Ok (part1 ++ concat body))))).

(** the case table of a [lookupswitch]: the dictionary comprehension
    followed by [sorted] *)
Definition lookup_table (labels : labels_t) (pos : Z)
    (jumps : list (Z * string)) : result (list (Z * Z)) :=
  rbind (rmap (fun kl => rbind (lbl2Off labels pos (snd kl))
                               (fun off => Ok (fst kl, off))) jumps)
        (fun l => Ok (sorted_items (dict_of l))).

(** the [lookupswitch] branch *)
Definition assemble_lookupswitch (first : byte) (labels : labels_t) (pos : Z)
    (jumps : list (Z * string)) (default : string) : result (list byte) :=
  let padding := getPadding pos in
  rbind (lbl2Off labels pos default) (fun default =>
  rbind (lookup_table labels pos jumps) (fun jumps =>
  rbind (pack [fi; fi] [default; Z.of_nat (length jumps)]) (fun hdr =>
  let part1 := first :: zeros padding ++ hdr in
  rbind (rmap (fun kv => pack [fi; fi] [fst kv; snd kv]) jumps) (fun part2 =>
  Ok (part1 ++ concat part2))))).

(** [assembleInstruction(instr, labels, pos, pool)]; the result is [None]
    when the function falls off its end *)
Definition assembleInstruction (fuel : nat) (instr : instruction)
    (labels : labels_t) (pos : Z) (lbls : lbls_t) : M (option (list byte)) :=
  let op := fst instr in
  let* first := liftR (opcode ins op) in
  let* instr := mapM (resolve fuel lbls) (snd instr) in
  let* instr := (if str_in op (instrs_lbl ins) then
              match instr with
              | VStr l :: rest =>
                  let* off := liftR (lbl2Off labels pos l) in ret (VInt off :: rest)
              | _ :: _ => raiseM TypeError
              | [] => raiseM IndexError
              end
            else ret instr) in
  match _op_structs ins op with
  | Some fmt =>
      let* rest := liftR (pack_values fmt instr) in
      ret (Some (first :: rest))
  | None =>
      if String.eqb op "wide" then
        match instr with
        | VWide subop args :: _ =>
            let* prefix := liftR (opcode ins subop) in
            let* rest := liftR (pack_values (repeat fH (length args)) [VInts args]) in
            ret (Some (first :: prefix :: rest))
        | _ :: _ => raiseM TypeError
        | [] => raiseM IndexError
        end
      else
        match instr with
        | VTable param jumps default :: _ =>
            if String.eqb op "tableswitch" then
              let* b := liftR (assemble_tableswitch first labels pos param jumps default) in
              ret (Some b)
            else if String.eqb op "lookupswitch" then raiseM TypeError
            else seq* liftR (lbl2Off labels pos default) in ret None
        | VLookup jumps default :: _ =>
            if String.eqb op "tableswitch" then raiseM TypeError
            else if String.eqb op "lookupswitch" then
              let* b := liftR (assemble_lookupswitch first labels pos jumps default) in
              ret (Some b)
            else seq* liftR (lbl2Off labels pos default) in ret None
        | _ :: _ => raiseM TypeError
        | [] => raiseM IndexError
        end
  end.

(** ** The Code attribute

    A statement is [('dir', directive)] or [('ins', label, instruction)],
    where the label and the instruction may each be [None]; statements with
    another tag are skipped by both list comprehensions.  A directive is
    [('catch', name, start, end, target)], [('stack', n)] or
    [('locals', n)]; others are ignored. *)

Inductive directive : Type :=
| DCatch (name : ref) (start end_ target : string)
| DStack (n : Z)
| DLocals (n : Z)
| DOther.

Inductive statement : Type :=
| SDir (d : directive)
| SIns (lbl : option string) (instr : option instruction)
| SOther.

Definition directives_of (statements : list statement) : list directive :=
  omap (fun x => match x with SDir d => Some d | _ => None end) statements.

Definition lines_of (statements : list statement)
  : list (option string * option instruction) :=
  omap (fun x => match x with SIns l i => Some (l, i) | _ => None end) statements.

(** the first loop of [assembleCodeAttr]: the state of the loop is
    [(labels, offsets, pos)] *)
Fixpoint layout (lines : list (option string * option instruction))
    (labels : labels_t) (offsets : list Z) (pos : Z)
  : result (labels_t * list Z * Z) :=
  match lines with
  | [] => Ok (labels, offsets, pos)
  | (lbl, instr) :: lines' =>
      let labels := <[lbl := pos]> labels in
      match instr with
      | Some instr =>
          rbind (getInstrLen ins instr pos) (fun n =>
            layout lines' labels (offsets ++ [pos]) (pos + n))
      | None => layout lines' labels offsets pos
      end
  end.

(** the second loop: the state of the loop is [code_bytes] *)
Fixpoint emit (fuel : nat) (lines : list (option string * option instruction))
    (labels : labels_t) (lbls : lbls_t) (code_bytes : list byte)
  : M (list byte) :=
  match lines with
  | [] => ret code_bytes
  | (lbl, instr) :: lines' =>
      match instr with
      | Some instr =>
          let* b := assembleInstruction fuel instr labels (blen code_bytes) lbls in
          match b with
          | Some b => emit fuel lines' labels lbls (code_bytes ++ b)
          | None => raiseM TypeError
          end
      | None => emit fuel lines' labels lbls code_bytes
      end
  end.

Global Instance arg_eq_dec : EqDecision arg.
Proof. solve_decision. Defined.

(** [name.args and (name.args[1].args == ('Utf8','all'))] *)
Definition jasmin_all (name : ref) : M bool :=
  let* o := deref name in
  match args o with
  | [] => ret false
  | [_] => raiseM IndexError
  | _ :: APool r :: _ =>
      let* o1 := deref r in
      ret (negb (args_list o1) && bool_decide (args o1 = [AStr "Utf8"; AStr "all"]))
  | _ :: _ :: _ => raiseM AttributeError
  end.

(** the loop over the directives: the state of the loop is
    [(stack, locals_, excepts)] *)
Fixpoint do_directives (fuel : nat) (ds : list directive) (labels : labels_t)
    (lbls : lbls_t) (jasmode : bool) (stack locals_ : Z)
    (excepts : list (list byte)) : M (Z * Z * list (list byte)) :=
  match ds with
  | [] => ret (stack, locals_, excepts)
  | DCatch name start end_ target :: ds' =>
      let* hack := (if jasmode then jasmin_all name else ret false) in
      seq* (if hack then modify name (set_index 0) else ret tt) in
      match labels !! Some start, labels !! Some end_, labels !! Some target with
      | Some s, Some e, Some t =>
          let* i := toIndex fuel lbls name [] in
          let* b := liftR (pack [fH; fH; fH; fH] [s; e; t; i]) in
          do_directives fuel ds' labels lbls jasmode stack locals_ (excepts ++ [b])
      | _, _, _ => raiseM KeyError
      end
  | DStack n :: ds' =>
      do_directives fuel ds' labels lbls jasmode (Z.min stack n) locals_ excepts
  | DLocals n :: ds' =>
      do_directives fuel ds' labels lbls jasmode stack (Z.min locals_ n) excepts
  | DOther :: ds' =>
      do_directives fuel ds' labels lbls jasmode stack locals_ excepts
  end.

(** [sum(map(len, l))] *)
Definition sum_len (l : list (list byte)) : Z :=
  fold_right (fun b acc => blen b + acc) 0 l.

(** the LineNumberTable attribute *)
Definition line_numbers (offsets : list Z) : M (list byte) :=
  let* lntable := liftR (rmap (fun x => pack [fH; fH] [x; x]) offsets) in
  let* name := Utf8 "LineNumberTable" in
  let n := Z.of_nat (length lntable) in
  let* hdr := liftR (pack [fH; fI; fH] [name; 2 + 4 * n; n]) in
  ret (hdr ++ concat lntable).

(** [assembleCodeAttr(statements, pool, addLineNumbers, jasmode)]; the
    result is [None] for a method without statements *)
Definition assembleCodeAttr (fuel : nat) (statements : list statement)
    (lbls : lbls_t) (addLineNumbers jasmode : bool) : M (option (list byte)) :=
  match statements with
  | [] => ret None
  | _ :: _ =>
      let directives := directives_of statements in
      let lines := lines_of statements in
      let* lay := liftR (layout lines ∅ [] 0) in
      let '(labels, offsets, _) := lay in
      let* code_bytes := emit fuel lines labels lbls [] in
      let* dirs := do_directives fuel directives labels lbls jasmode 65535 65535 [] in
      let '(stack, locals_, excepts) := dirs in
      let* attributes := (if addLineNumbers then
                            let* ln_attr := line_numbers offsets in ret [ln_attr]
                          else ret []) in
      let* name_ind := Utf8 "Code" in
      let attr_len := 12 + blen code_bytes + 8 * Z.of_nat (length excepts)
                      + sum_len attributes in
      let* hdr := liftR (pack [fH; fI; fH; fH; fI]
                           [name_ind; attr_len; stack; locals_; blen code_bytes]) in
      let* ne := liftR (pack [fH] [Z.of_nat (length excepts)]) in
      let* na := liftR (pack [fH] [Z.of_nat (length attributes)]) in
      ret (Some (hdr ++ code_bytes ++ (ne ++ concat excepts)
                     ++ (na ++ concat attributes)))
  end.

End Assembler.

Arguments mkState {ConstPool} heap cpool.
Arguments heap {ConstPool} s.
Arguments cpool {ConstPool} s.

(** ** An instance of the parameters

    The mnemonics of the Java virtual machine in the order of their opcodes,
    and a constant pool that interns items in a list, numbered from 1. *)

Definition jvm_all : list string := [
    "nop"; "aconst_null"; "iconst_m1"; "iconst_0"; "iconst_1"; "iconst_2";
    "iconst_3"; "iconst_4"; "iconst_5"; "lconst_0"; "lconst_1"; "fconst_0";
    "fconst_1"; "fconst_2"; "dconst_0"; "dconst_1"; "bipush"; "sipush";
    "ldc"; "ldc_w"; "ldc2_w"; "iload"; "lload"; "fload"; "dload"; "aload";
    "iload_0"; "iload_1"; "iload_2"; "iload_3"; "lload_0"; "lload_1";
    "lload_2"; "lload_3"; "fload_0"; "fload_1"; "fload_2"; "fload_3";
    "dload_0"; "dload_1"; "dload_2"; "dload_3"; "aload_0"; "aload_1";
    "aload_2"; "aload_3"; "iaload"; "laload"; "faload"; "daload"; "aaload";
    "baload"; "caload"; "saload"; "istore"; "lstore"; "fstore"; "dstore";
    "astore"; "istore_0"; "istore_1"; "istore_2"; "istore_3"; "lstore_0";
    "lstore_1"; "lstore_2"; "lstore_3"; "fstore_0"; "fstore_1"; "fstore_2";
    "fstore_3"; "dstore_0"; "dstore_1"; "dstore_2"; "dstore_3"; "astore_0";
    "astore_1"; "astore_2"; "astore_3"; "iastore"; "lastore"; "fastore";
    "dastore"; "aastore"; "bastore"; "castore"; "sastore"; "pop"; "pop2";
    "dup"; "dup_x1"; "dup_x2"; "dup2"; "dup2_x1"; "dup2_x2"; "swap"; "iadd";
    "ladd"; "fadd"; "dadd"; "isub"; "lsub"; "fsub"; "dsub"; "imul"; "lmul";
    "fmul"; "dmul"; "idiv"; "ldiv"; "fdiv"; "ddiv"; "irem"; "lrem"; "frem";
    "drem"; "ineg"; "lneg"; "fneg"; "dneg"; "ishl"; "lshl"; "ishr"; "lshr";
    "iushr"; "lushr"; "iand"; "land"; "ior"; "lor"; "ixor"; "lxor"; "iinc";
    "i2l"; "i2f"; "i2d"; "l2i"; "l2f"; "l2d"; "f2i"; "f2l"; "f2d"; "d2i";
    "d2l"; "d2f"; "i2b"; "i2c"; "i2s"; "lcmp"; "fcmpl"; "fcmpg"; "dcmpl";
    "dcmpg"; "ifeq"; "ifne"; "iflt"; "ifge"; "ifgt"; "ifle"; "if_icmpeq";
    "if_icmpne"; "if_icmplt"; "if_icmpge"; "if_icmpgt"; "if_icmple";
    "if_acmpeq"; "if_acmpne"; "goto"; "jsr"; "ret"; "tableswitch";
    "lookupswitch"; "ireturn"; "lreturn"; "freturn"; "dreturn"; "areturn";
    "return"; "getstatic"; "putstatic"; "getfield"; "putfield";
    "invokevirtual"; "invokespecial"; "invokestatic"; "invokeinterface";
    "invokedynamic"; "new"; "newarray"; "anewarray"; "arraylength"; "athrow";
    "checkcast"; "instanceof"; "monitorenter"; "monitorexit"; "wide";
    "multianewarray"; "ifnull"; "ifnonnull"; "goto_w"; "jsr_w" ]%string.

Definition jvm_noarg : list string := [
    "nop"; "aconst_null"; "iconst_m1"; "iconst_0"; "iconst_1"; "iconst_2";
    "iconst_3"; "iconst_4"; "iconst_5"; "lconst_0"; "lconst_1"; "fconst_0";
    "fconst_1"; "fconst_2"; "dconst_0"; "dconst_1"; "iload_0"; "iload_1";
    "iload_2"; "iload_3"; "lload_0"; "lload_1"; "lload_2"; "lload_3";
    "fload_0"; "fload_1"; "fload_2"; "fload_3"; "dload_0"; "dload_1";
    "dload_2"; "dload_3"; "aload_0"; "aload_1"; "aload_2"; "aload_3";
    "iaload"; "laload"; "faload"; "daload"; "aaload"; "baload"; "caload";
    "saload"; "istore_0"; "istore_1"; "istore_2"; "istore_3"; "lstore_0";
    "lstore_1"; "lstore_2"; "lstore_3"; "fstore_0"; "fstore_1"; "fstore_2";
    "fstore_3"; "dstore_0"; "dstore_1"; "dstore_2"; "dstore_3"; "astore_0";
    "astore_1"; "astore_2"; "astore_3"; "iastore"; "lastore"; "fastore";
    "dastore"; "aastore"; "bastore"; "castore"; "sastore"; "pop"; "pop2";
    "dup"; "dup_x1"; "dup_x2"; "dup2"; "dup2_x1"; "dup2_x2"; "swap"; "iadd";
    "ladd"; "fadd"; "dadd"; "isub"; "lsub"; "fsub"; "dsub"; "imul"; "lmul";
    "fmul"; "dmul"; "idiv"; "ldiv"; "fdiv"; "ddiv"; "irem"; "lrem"; "frem";
    "drem"; "ineg"; "lneg"; "fneg"; "dneg"; "ishl"; "lshl"; "ishr"; "lshr";
    "iushr"; "lushr"; "iand"; "land"; "ior"; "lor"; "ixor"; "lxor"; "i2l";
    "i2f"; "i2d"; "l2i"; "l2f"; "l2d"; "f2i"; "f2l"; "f2d"; "d2i"; "d2l";
    "d2f"; "i2b"; "i2c"; "i2s"; "lcmp"; "fcmpl"; "fcmpg"; "dcmpl"; "dcmpg";
    "ireturn"; "lreturn"; "freturn"; "dreturn"; "areturn"; "return";
    "arraylength"; "athrow"; "monitorenter"; "monitorexit" ]%string.

Definition jvm_lbl : list string :=
  [ "ifeq"; "ifne"; "iflt"; "ifge"; "ifgt"; "ifle"; "if_icmpeq"; "if_icmpne";
    "if_icmplt"; "if_icmpge"; "if_icmpgt"; "if_icmple"; "if_acmpeq";
    "if_acmpne"; "goto"; "jsr"; "ifnull"; "ifnonnull"; "goto_w"; "jsr_w" ]%string.

Definition jvm : instructions :=
  {| allinstructions := jvm_all; instrs_noarg := jvm_noarg; instrs_lbl := jvm_lbl |}.

Definition list_pool : Type := list (arg * list arg).

Fixpoint find_item (item : arg * list arg) (l : list_pool) (i : Z) : option Z :=
  match l with
  | [] => None
  | x :: l' => if bool_decide (x = item) then Some i else find_item item l' (i + 1)
  end.

Definition list_getItemRaw (cp : list_pool) (item : arg * list arg)
  : list_pool * result Z :=
  match find_item item cp 1 with
  | Some i => (cp, Ok i)
  | None => (cp ++ [item], Ok (Z.of_nat (length cp) + 1))
  end.

(** ** Notions used in the statements *)

(** the keys listed by a [lookupswitch] instruction are pairwise distinct *)
Definition distinct_keys (instr : instruction) : Prop :=
  match snd instr with
  | VLookup jumps _ :: _ => NoDup (map fst jumps)
  | _ => True
  end.

(** the default label of a switch operand *)
Definition switch_default (v : value) : option string :=
  match v with
  | VTable _ _ d | VLookup _ d => Some d
  | _ => None
  end.

(** [b] are the bytes of a switch emitted at [pos] for the operands [vs]:
    the opcode, [getPadding pos] bytes of padding, then the 4-byte offset of
    the default label *)
Definition default_field_after_padding (labels : labels_t) (pos : Z)
    (vs : list value) (b : list byte) : Prop :=
  exists first d off rest,
    head vs ≫= switch_default = Some d /\
    lbl2Off labels pos d = Ok off /\
    b = (first :: zeros (getPadding pos)) ++ be_bytes 4 off ++ rest /\
    blen (first :: zeros (getPadding pos)) = 1 + getPadding pos.

(** the value that the last case listed for key [k] gives it *)
Fixpoint last_case {V : Type} (k : Z) (jumps : list (Z * V)) : option V :=
  match jumps with
  | [] => None
  | (k', l) :: rest =>
      match last_case k rest with
      | Some l' => Some l'
      | None => if k =? k' then Some l else None
      end
  end.

(** [b] are the bytes of a [lookupswitch] whose case table [tbl] has its
    keys in increasing order and holds, for every key listed in [jumps],
    the offset of the label of the last case listed for that key *)
Definition case_table_emitted (labels : labels_t) (pos : Z)
    (jumps : list (Z * string)) (b : list byte) : Prop :=
  exists first off tbl,
    b = (first :: zeros (getPadding pos)) ++ be_bytes 4 off
        ++ be_bytes 4 (Z.of_nat (length tbl))
        ++ concat (map (fun kv => be_bytes 4 (fst kv) ++ be_bytes 4 (snd kv)) tbl) /\
    StronglySorted Z.lt (map fst tbl) /\
    (forall k o, (k, o) ∈ tbl <->
       exists lab, last_case k jumps = Some lab /\ lbl2Off labels pos lab = Ok o) /\
    (length tbl <= length jumps)%nat.

(** the [code] field of a Code attribute: the attribute is
    [u16 name; u32 length; u16 max-stack; u16 max-locals; u32 code-length;
    code; ...] *)
Definition code_of_attr (attr : list byte) : list byte :=
  take (Z.to_nat (be_decode (take 4 (drop 10 attr)))) (drop 14 attr).

(** the layout of a Code attribute, with the length field it declares *)
Definition code_attr_layout (attr : list byte) : Prop :=
  exists name_ind stack locals_ code excepts attributes,
    let attr_len := 12 + blen code + 8 * Z.of_nat (length excepts)
                    + sum_len attributes in
    attr = be_bytes 2 name_ind ++ be_bytes 4 attr_len
           ++ (be_bytes 2 stack ++ be_bytes 2 locals_ ++ be_bytes 4 (blen code)
               ++ code
               ++ be_bytes 2 (Z.of_nat (length excepts)) ++ concat excepts
               ++ be_bytes 2 (Z.of_nat (length attributes)) ++ concat attributes) /\
    blen attr - 6 = attr_len /\
    be_decode (take 4 (drop 2 attr)) = blen attr - 6.

(** the object at [r] is a labelled reference naming [l]: it has no index
    and its label is true *)
Definition labelled (h : gmap ref PoolRef) (r : ref) (l : string) : Prop :=
  exists o, h !! r = Some o /\ index o = None /\ lbl_true o = Some l.

(** [getLabel] fails with the recursive-pool-reference error, listing the
    forbidden labels, when it is entered with a forbidden label; otherwise
    it descends into the reference bound to the label, with the label
    appended to the forbidden ones *)
Definition getLabel_descends {ConstPool : Type}
    (getItemRaw : ConstPool -> arg * list arg -> ConstPool * result Z)
    (lbls : lbls_t) : Prop :=
  forall fuel lbl forbidden (s : @state ConstPool),
    (str_in lbl forbidden = true ->
     getLabel getItemRaw fuel lbls lbl forbidden s =
       (s, Raise (AssemblerError
                    ("Recursive constant pool reference: " +:+
                     join ", " forbidden)))) /\
    (str_in lbl forbidden = false ->
     getLabel getItemRaw fuel lbls lbl forbidden s =
       match lbls !! lbl with
       | Some r => toIndex getItemRaw fuel lbls r (forbidden ++ [lbl]) s
       | None => (s, Raise KeyError)
       end).

(** the object at [r] has the index [i] *)
Definition resolved (h : gmap ref PoolRef) (r : ref) (i : Z) : Prop :=
  exists o, h !! r = Some o /\ index o = Some i.

(** a call [x.toIndex(pool, forbidden)]: the reference, the pool (its label
    table and its constant pool) and the forbidden tuple *)
Record call {ConstPool : Type} : Type := mkCall {
  c_fuel : nat;
  c_lbls : lbls_t;
  c_pool : ConstPool;
  c_ref : ref;
  c_forbidden : list string
}.
Arguments call ConstPool : clear implicits.

(** the object store after a call, whether it returns or raises *)
Definition run_call {ConstPool : Type}
    (getItemRaw : ConstPool -> arg * list arg -> ConstPool * result Z)
    (h : gmap ref PoolRef) (c : call ConstPool) : gmap ref PoolRef :=
  heap (fst (toIndex getItemRaw (c_fuel c) (c_lbls c) (c_ref c) (c_forbidden c)
               (mkState h (c_pool c)))).

(** every later call of [toIndex] on [r], after any calls [calls] made in
    between and with any arguments, returns [i] and changes nothing *)
Definition memoised {ConstPool : Type}
    (getItemRaw : ConstPool -> arg * list arg -> ConstPool * result Z)
    (h : gmap ref PoolRef) (r : ref) (i : Z) : Prop :=
  forall (calls : list (call ConstPool)) fuel' lbls' forbidden' cp',
    let h' := foldl (run_call getItemRaw) h calls in
    toIndex getItemRaw (S fuel') lbls' r forbidden' (mkState h' cp')
      = (mkState h' cp', Ok i).

(** *** The method of S1

    [L0: ldc [s1]], [bipush 5], [goto L0], with the facts about the
    catalogue that fix its opcodes and formats. *)

Definition S1_catalogue (ins : instructions) : Prop :=
  (opcode ins "ldc" = Ok x12 /\ opcode ins "bipush" = Ok x10 /\
   opcode ins "goto" = Ok xa7) /\
  (str_in "ldc" (instrs_lbl ins) = false /\
   str_in "bipush" (instrs_lbl ins) = false /\
   str_in "goto" (instrs_lbl ins) = true) /\
  (str_in "ldc" (instrs_noarg ins) = false /\
   str_in "bipush" (instrs_noarg ins) = false /\
   str_in "goto" (instrs_noarg ins) = false).

Definition S1_lines (r : ref) : list (option string * option instruction) :=
  [ (Some "L0", Some ("ldc", [VPoolRef r]));
    (None, Some ("bipush", [VInt 5]));
    (None, Some ("goto", [VStr "L0"])) ]%string.

Definition S1_statements (r : ref) : list statement :=
  map (fun li => SIns (fst li) (snd li)) (S1_lines r).

(** the label table that the layout pass builds for it *)
Definition S1_labels : labels_t :=
  <[None := 4]> (<[None := 2]> (<[Some "L0"%string := 0]> ∅)).

(** a store in which [s1] is bound to [Utf8 "x"], and a pool in which that
    item is interned third *)
Definition S1_heap : gmap ref PoolRef :=
  <[1%positive := mkPoolRef None (Some "s1"%string) [] false]>
    (<[2%positive := mkPoolRef None None [AStr "Utf8"; AStr "x"] false]> ∅).

Definition S1_lbls : lbls_t := <[ "s1"%string := 2%positive ]> ∅.

Definition S1_state : @state list_pool :=
  mkState S1_heap [(AStr "Utf8", [AStr "a"]); (AStr "Utf8", [AStr "b"])].

Definition S1_state' : @state list_pool :=
  mkState
    (<[1%positive := mkPoolRef (Some 3) (Some "s1"%string) [] false]>
      (<[2%positive := mkPoolRef (Some 3) None [AStr "Utf8"; AStr "x"] true]> ∅))
    [(AStr "Utf8", [AStr "a"]); (AStr "Utf8", [AStr "b"]); (AStr "Utf8", [AStr "x"])].

(** a store with the label cycle [a -> b -> a] *)
Definition cycle_heap : gmap ref PoolRef :=
  <[1%positive := mkPoolRef None (Some "b"%string) [] false]>
    (<[2%positive := mkPoolRef None (Some "a"%string) [] false]> ∅).

Definition cycle_lbls : lbls_t :=
  <[ "a"%string := 1%positive ]> (<[ "b"%string := 2%positive ]> ∅).

Definition cycle_state : @state list_pool := mkState cycle_heap [].

(** the computation [m] keeps the property [P] of the state, whether it
    returns or raises *)
Definition keeps {ConstPool A} (P : @state ConstPool -> Prop)
    (m : @state ConstPool -> @state ConstPool * result A) : Prop :=
  forall s, P s -> P (fst (m s)).

(** ** Further notions used in the statements *)

(** the positions at which the byte strings [chunks] start when they are
    written one after the other from [pos] on *)
Fixpoint starts (pos : Z) (chunks : list (list byte)) : list Z :=
  match chunks with
  | [] => []
  | c :: chunks' => pos :: starts (pos + blen c) chunks'
  end.

(** the values of the [stack] and of the [locals] directives *)
Definition stack_limits (ds : list directive) : list Z :=
  omap (fun d => match d with DStack n => Some n | _ => None end) ds.

Definition locals_limits (ds : list directive) : list Z :=
  omap (fun d => match d with DLocals n => Some n | _ => None end) ds.

(** [m] is the least of [init] and the values [l] *)
Definition least_of (init : Z) (l : list Z) (m : Z) : Prop :=
  m <= init /\ (forall n, n ∈ l -> m <= n) /\ (m = init \/ m ∈ l).

(** *** Instances for the further properties *)

(** a line that carries the label [L] *)
Definition label_line : option string * option instruction :=
  (Some "L"%string, Some ("nop"%string, [])).

(** a catch directive for the class name [all], as the parser builds it *)
Definition all_heap : gmap ref PoolRef :=
  <[1%positive := mkPoolRef None None [AStr "Class"; APool 2%positive] false]>
    (<[2%positive := mkPoolRef None None [AStr "Utf8"; AStr "all"] false]> ∅).

(** a class reference whose name is a label that is bound to the class
    reference itself *)
Definition loop_heap : gmap ref PoolRef :=
  <[1%positive := mkPoolRef None None [AStr "Class"; APool 2%positive] false]>
    (<[2%positive := mkPoolRef None (Some "a"%string) [] false]> ∅).

Definition loop_lbls : lbls_t := <[ "a"%string := 1%positive ]> ∅.


(** ** The class file: [assemble]

    [ClassFile.flagVals] and [Method.flagVals], and the methods [bytes] and
    [getArgs] of the constant pool, are not part of the embedded sources
    and are parameters; [Field.flagVals] is the table of
    [Krakatau/field.py].  A top-level item is [('const', (slot, value))],
    [('field', (flags, name, desc, const))] or
    [('method', ((mflags, (name, desc)), statements))]; [assemble] reads no
    other item. *)

Inductive topitem : Type :=
| TConst (slot value : ref)
| TField (flags : list string) (name desc : ref) (const : option ref)
| TMethod (mflags : list string) (name desc : ref) (statements : list statement)
| TOther.

(** [Field.flagVals] *)
Definition Field_flagVals : list (string * Z) :=
  [ ("PUBLIC", 0x0001); ("PRIVATE", 0x0002); ("PROTECTED", 0x0004);
    ("STATIC", 0x0008); ("FINAL", 0x0010); ("VOLATILE", 0x0040);
    ("TRANSIENT", 0x0080); ("SYNTHETIC", 0x1000); ("ENUM", 0x4000) ]%string.

(** [d.get(k)] for a dictionary that is given by the list of its items *)
Fixpoint dict_get (d : list (string * Z)) (k : string) : option Z :=
  match d with
  | [] => None
  | (k', v) :: d' => if String.eqb k k' then Some v else dict_get d' k
  end.

(** [reduce(operator.__or__, map(d.get, flags), 0)]: [|] raises
    [TypeError] on the [None] that [d.get] returns for a missing key *)
Fixpoint flag_bits (d : list (string * Z)) (flags : list string) (acc : Z)
  : result Z :=
  match flags with
  | [] => Ok acc
  | f :: flags' =>
      match dict_get d f with
      | Some m => flag_bits d flags' (Z.lor acc m)
      | None => Raise TypeError
      end
  end.

(** [self.flags] of [Field.__init__], from the flags of the class file *)
Definition Field_flags (flags : Z) : gset string :=
  list_to_set (fst <$> filter (fun nm => Z.land (snd nm) flags <> 0) Field_flagVals).

Section Assemble.

Context (ins : instructions).
Context {ConstPool : Type}.
Context (getItemRaw : ConstPool -> arg * list arg -> ConstPool * result Z).
Context (pool_bytes : ConstPool -> result (list byte)).
Context (getArgs : ConstPool -> Z -> result (list arg)).
Context (Method_flagVals ClassFile_flagVals : list (string * Z)).

Local Notation "'let*' x := m 'in' k" := (bind m (fun x => k))
  (at level 10, x name, m at level 100, k at level 200).

(** the loop [for slot, value in top_d['const']]; the state of the loop is
    [pool.lbls].  A slot without label gives the entry of the key [None],
    which no lookup reads, as [toIndex] looks up a label only when it is
    true. *)
Fixpoint assemble_consts (consts : list (ref * ref)) (lbls : lbls_t)
  : @M ConstPool lbls_t :=
  match consts with
  | [] => ret lbls
  | (slot, value) :: consts' =>
      let* o := deref slot in
      match index o with
      | Some _ =>
          liftR (error "Assigning to directly constant pool indices is not currently supported.")
      | None =>
          assemble_consts consts'
            (match lbl o with Some l => <[l := value]> lbls | None => lbls end)
      end
  end.

(** the body of the loop [for flags, name, desc, const in top_d['field']] *)
Definition assemble_field (fuel : nat) (lbls : lbls_t)
    (f : list string * ref * ref * option ref) : @M ConstPool (list byte) :=
  let '(flags, name, desc, const) := f in
  let* flagbits := liftR (flag_bits Field_flagVals flags 0) in
  let* name := toIndex getItemRaw fuel lbls name [] in
  let* desc := toIndex getItemRaw fuel lbls desc [] in
  let* fattrs := match const with
                 | Some c =>
                     let* u := Utf8 getItemRaw "ConstantValue" in
                     let* ci := toIndex getItemRaw fuel lbls c [] in
                     let* attr := liftR (pack [fH; fI; fH] [u; 2; ci]) in
                     ret [attr]
                 | None => ret []
                 end in
  let* hdr := liftR (pack [fH; fH; fH; fH]
                       [flagbits; name; desc; Z.of_nat (length fattrs)]) in
  ret (hdr ++ concat fattrs).

(** the body of the loop [for header, statements in top_d['method']] *)
Definition assemble_method (fuel : nat) (lbls : lbls_t)
    (addLineNumbers jasmode : bool)
    (m : list string * ref * ref * list statement) : @M ConstPool (list byte) :=
  let '(mflags, name, desc, statements) := m in
  let* name := toIndex getItemRaw fuel lbls name [] in
  let* desc := toIndex getItemRaw fuel lbls desc [] in
  let* flagbits := liftR (flag_bits Method_flagVals mflags 0) in
  let* code := assembleCodeAttr ins getItemRaw fuel statements lbls
                 addLineNumbers jasmode in
  let mattrs := match code with Some c => [c] | None => [] end in
  let* hdr := liftR (pack [fH; fH; fH; fH]
                       [flagbits; name; desc; Z.of_nat (length mattrs)]) in
  ret (hdr ++ concat mattrs).

(** [struct.pack('>H', len(stuff)) + ''.join(stuff)] for a list of byte
    strings *)
Definition counted (stuff : list (list byte)) : result (list byte) :=
  rbind (pack [fH] [Z.of_nat (length stuff)]) (fun n => Ok (n ++ concat stuff)).

(** the same for the list [interfaces], which holds the indices that
    [toIndex] returns: [''.join] raises [TypeError] on a list of
    integers that is not empty *)
Definition counted_indices (stuff : list Z) : result (list byte) :=
  rbind (pack [fH] [Z.of_nat (length stuff)]) (fun n =>
    match stuff with
    | [] => Ok n
    | _ :: _ => Raise TypeError
    end).

Definition consts_of (topitems : list topitem) : list (ref * ref) :=
  omap (fun t => match t with TConst s v => Some (s, v) | _ => None end) topitems.

Definition fields_of (topitems : list topitem)
  : list (list string * ref * ref * option ref) :=
  omap (fun t => match t with
                 | TField fl n d c => Some (fl, n, d, c)
                 | _ => None
                 end) topitems.

Definition methods_of (topitems : list topitem)
  : list (list string * ref * ref * list statement) :=
  omap (fun t => match t with
                 | TMethod fl n d st => Some (fl, n, d, st)
                 | _ => None
                 end) topitems.

(** the flags of the class: [cflags] is a set, to which [INTERFACE] and
    [SUPER] are added; the bits and the exception do not depend on the
    order in which the set is read *)
Definition class_flags (intf : bool) (cflags : list string) (jasmode : bool)
  : list string :=
  elements ((list_to_set cflags : gset string)
            ∪ (if intf then {[ "INTERFACE"%string ]} else ∅)
            ∪ (if jasmode then {[ "SUPER"%string ]} else ∅)).

(** [assemble(tree, addLineNumbers, jasmode)]; [tree] is
    [(classdec, superdec, interface_decs, topitems)] and [classdec] is
    [(intf, cflags, this)] *)
Definition assemble (fuel : nat)
    (tree : (bool * list string * ref) * ref * list ref * list topitem)
    (addLineNumbers jasmode : bool) : @M ConstPool (arg * list byte) :=
  let '(classdec, superdec, interface_decs, topitems) := tree in
  let* lbls := assemble_consts (consts_of topitems) ∅ in
  let* fields := mapM (assemble_field fuel lbls) (fields_of topitems) in
  let* methods := mapM (assemble_method fuel lbls addLineNumbers jasmode)
                    (methods_of topitems) in
  let* attributes := (if addLineNumbers then
                        let* a := Utf8 getItemRaw "SourceFile" in
                        let* b := Utf8 getItemRaw "SourceFile" in
                        let* sourceattr := liftR (pack [fH; fI; fH] [a; 2; b]) in
                        ret [sourceattr]
                      else ret []) in
  let* interfaces := mapM (fun x => toIndex getItemRaw fuel lbls x [])
                       interface_decs in
  let '(intf, cflags, this) := classdec in
  let* flagbits := liftR (flag_bits ClassFile_flagVals
                            (class_flags intf cflags jasmode) 0) in
  let* this := toIndex getItemRaw fuel lbls this [] in
  let* super_ := toIndex getItemRaw fuel lbls superdec [] in
  let* version := liftR (pack [fH; fH] [0; 49]) in
  let* pool := (fun s => (s, pool_bytes (cpool s))) in
  let* header := liftR (pack [fH; fH; fH] [flagbits; this; super_]) in
  let* t1 := liftR (counted_indices interfaces) in
  let* t2 := liftR (counted fields) in
  let* t3 := liftR (counted methods) in
  let* t4 := liftR (counted attributes) in
  let class_code := [xca; xfe; xba; xbe] ++ version ++ pool ++ header
                    ++ t1 ++ t2 ++ t3 ++ t4 in
  let* name := (fun s => (s, match getArgs (cpool s) this with
                             | Ok (a :: _) => Ok a
                             | Ok [] => Raise IndexError
                             | Raise e => Raise e
                             end)) in
  ret (name, class_code).

End Assemble.

(** *** Instances for the class file *)

(** a class [C] with the super class [Object], a field [f:I] and no
    method; the references 1 to 4 are the two classes and the name and
    the descriptor of the field *)
Definition cls_heap : gmap ref PoolRef :=
  <[1%positive := mkPoolRef None None [AStr "Class"; AStr "C"] false]>
  (<[2%positive := mkPoolRef None None [AStr "Class"; AStr "Object"] false]>
  (<[3%positive := mkPoolRef None None [AStr "Utf8"; AStr "f"] false]>
  (<[4%positive := mkPoolRef None None [AStr "Utf8"; AStr "I"] false]>
  (<[5%positive := mkPoolRef (Some 7) None [] false]> ∅)))).

Definition cls_tree (interfaces : list ref) (topitems : list topitem)
  : (bool * list string * ref) * ref * list ref * list topitem :=
  ((false, ["PUBLIC"%string], 1%positive), 2%positive, interfaces, topitems).

Definition cls_flagVals : list (string * Z) :=
  [ ("PUBLIC", 0x0001); ("SUPER", 0x0020); ("INTERFACE", 0x0200) ]%string.

(** the methods of the constant pool for the pool [list_pool]: the bytes
    are the count of the pool only *)
Definition cls_pool_bytes (cp : list_pool) : result (list byte) :=
  pack [fH] [Z.of_nat (length cp) + 1].

Definition cls_getArgs (cp : list_pool) (i : Z) : result (list arg) :=
  match cp !! Z.to_nat (i - 1) with
  | Some (_, a) => Ok a
  | None => Raise IndexError
  end.


(** ** Raw attributes: [Krakatau/attributes_raw.py]

    The reader [bytestream] is an object of a class that is not part of
    the embedded sources: its state is a value of the type [bytestream],
    and its methods [get], for the formats ['>H'] and ['>HL'], and
    [getRaw] are parameters that return the new state of the reader with
    their result. *)

Section AttributesRaw.

Context {bytestream : Type}.
Context (get_H : bytestream -> result (Z * bytestream)).
Context (get_HL : bytestream -> result (Z * Z * bytestream)).
Context (getRaw : Z -> bytestream -> result (list byte * bytestream)).

(** [get_attribute_raw(bytestream)] *)
Definition get_attribute_raw (bs : bytestream)
  : result ((Z * list byte) * bytestream) :=
  rbind (get_HL bs) (fun r =>
    let '(name_ind, length, bs) := r in
    rbind (getRaw length bs) (fun r =>
      let '(data, bs) := r in Ok ((name_ind, data), bs))).

(** [[get_attribute_raw(bytestream) for i in range(n)]] *)
Fixpoint get_attributes_n (n : nat) (bs : bytestream)
  : result (list (Z * list byte) * bytestream) :=
  match n with
  | O => Ok ([], bs)
  | S n' =>
      rbind (get_attribute_raw bs) (fun r =>
        let '(a, bs) := r in
        rbind (get_attributes_n n' bs) (fun r =>
          let '(l, bs) := r in Ok (a :: l, bs)))
  end.

(** [get_attributes_raw(bytestream)] *)
Definition get_attributes_raw (bs : bytestream)
  : result (list (Z * list byte) * bytestream) :=
  rbind (get_H bs) (fun r =>
    let '(attribute_count, bs) := r in
    get_attributes_n (Z.to_nat attribute_count) bs).

(** what is assumed of the reader: on the bytes [of_bytes l] that are
    left, [get] decodes big-endian numbers from the front of [l] and
    [getRaw] returns the front of [l] *)
Definition big_endian_reader (of_bytes : list byte -> bytestream) : Prop :=
  (forall z rest, 0 <= z <= 65535 ->
     get_H (of_bytes (be_bytes 2 z ++ rest)) = Ok (z, of_bytes rest)) /\
  (forall n l rest, 0 <= n <= 65535 -> 0 <= l <= 4294967295 ->
     get_HL (of_bytes (be_bytes 2 n ++ be_bytes 4 l ++ rest))
       = Ok (n, l, of_bytes rest)) /\
  (forall d rest, getRaw (blen d) (of_bytes (d ++ rest)) = Ok (d, of_bytes rest)).

End AttributesRaw.

(** the bytes of an attribute with the name index [n] and the data [d] *)
Definition attribute_bytes (a : Z * list byte) : list byte :=
  be_bytes 2 (fst a) ++ be_bytes 4 (blen (snd a)) ++ snd a.

(** *** An instance: a reader of a list of bytes *)

Definition list_get_H (bs : list byte) : result (Z * list byte) :=
  if (2 <=? length bs)%nat then Ok (be_decode (take 2 bs), drop 2 bs)
  else Raise StructError.

Definition list_get_HL (bs : list byte) : result (Z * Z * list byte) :=
  if (6 <=? length bs)%nat
  then Ok (be_decode (take 2 bs), be_decode (take 4 (drop 2 bs)), drop 6 bs)
  else Raise StructError.

Definition list_getRaw (n : Z) (bs : list byte) : result (list byte * list byte) :=
  Ok (take (Z.to_nat n) bs, drop (Z.to_nat n) bs).


(** * The restructurer

    [Krakatau/java/structuring.py].  CFG nodes and constraint objects are
    identified by numbers; a constraint object is a record in a store, so
    that the in-place updates of [orderConstraints], [completeScopes] and
    [addBreakScopes] are visible through every list and set that holds the
    constraint.  The scopes of a constraint are objects that no other
    constraint holds, and are embedded in the record of their constraint.
    The iteration order of a Python set or dictionary is the order of
    [elements] and [map_to_list]. *)

Module Structuring.

Definition node := positive.
Definition cid := positive.

(** [assert(b)] *)
Definition assert (b : bool) : result unit :=
  if b then Ok tt else Raise AssertionError.

Notation "'let*' x := m 'in' k" := (rbind m (fun x => k))
  (at level 10, x name, m at level 100, k at level 200).
Notation "'seq*' m 'in' k" := (rbind m (fun _ => k))
  (at level 10, m at level 100, k at level 200).

Record ScopeConstraint : Type := mkScope {
  slbound : gset node;   (* [lbound] of the scope *)
  subound : gset node    (* [ubound] of the scope *)
}.

Inductive tag_t : Type := while | try | switch | if_ | scope.

Record CompoundConstraint : Type := mkCon {
  tag : tag_t;
  scopes : list ScopeConstraint;
  head : option node;
  forcedup : gset cid;
  forceddown : gset cid;
  lbound : gset node;
  ubound : gset node
}.

(** [self.heads] *)
Definition heads (c : CompoundConstraint) : gset node :=
  match head c with
  | Some h => {[ h ]}
  | None => ∅
  end.

(** [FixedScopeCon(lbound)] *)
Definition FixedScopeCon (lbound : gset node) : CompoundConstraint :=
  {| tag := scope; scopes := [mkScope lbound lbound]; head := None;
     forcedup := ∅; forceddown := ∅;
     lbound := ⋃ [lbound]; ubound := ⋃ [lbound] |}.

Abbreviation store_t := (gmap cid CompoundConstraint).
(** the dictionary [children]; the key [None] is the dummy root, up to the
    point where [orderConstraints] replaces it by the root [croot] it
    creates, and stands for [croot] from there on *)
Abbreviation children_t := (gmap (option cid) (list cid)).

(** the object behind a reference *)
Definition get (store : store_t) (c : cid) : result CompoundConstraint :=
  match store !! c with
  | Some x => Ok x
  | None => Raise TypeError
  end.

(** [children[k]] of a [defaultdict(list)]; the empty list that a read of
    a missing key stores is left out, as no function tells it from a
    missing key *)
Definition kids (children : children_t) (k : option cid) : list cid :=
  default [] (children !! k).

(** [l.pop()] *)
Definition pop {A} (l : list A) : option (A * list A) :=
  match rev l with
  | [] => None
  | x :: r => Some (x, rev r)
  end.

(** [l.remove(x)] *)
Fixpoint list_remove (x : cid) (l : list cid) : result (list cid) :=
  match l with
  | [] => Raise ValueError
  | y :: l' => if decide (x = y) then Ok l'
               else let* r := list_remove x l' in Ok (y :: r)
  end.

(** [[x for x in l if p(x)]] for a test that may raise *)
Fixpoint rfilter {A} (p : A -> result bool) (l : list A) : result (list A) :=
  match l with
  | [] => Ok []
  | x :: l' =>
      let* b := p x in
      let* r := rfilter p l' in
      Ok (if b then x :: r else r)
  end.

(** [[i2 for i2 in l if not i2 in iset and not iset.add(i2)]]: the new
    elements of [l], which are added to [iset] *)
Fixpoint add_new (l : list cid) (iset : gset cid) : list cid * gset cid :=
  match l with
  | [] => ([], iset)
  | i2 :: l' =>
      if decide (i2 ∈ iset) then add_new l' iset
      else let '(r, iset') := add_new l' ({[ i2 ]} ∪ iset) in (i2 :: r, iset')
  end.

Section OrderConstraints.

(** [dom.extend], which depends on [graph_util.topologicalSort]; that
    module is not part of the embedded sources *)
Context (extend : gset node -> result (gset node)).

(** the assertions at the head of [orderConstraints] *)
Definition check_in_nodes (store : store_t) (node_set : gset node)
    (item : cid) : result unit :=
  let* c := get store item in
  seq* assert (bool_decide (lbound c ⊆ node_set)) in
  seq* assert (bool_decide (ubound c ⊆ node_set)) in
  let* _ := rmap (fun s =>
              seq* assert (bool_decide (slbound s ⊆ node_set)) in
              assert (bool_decide (subound s ⊆ node_set))) (scopes c) in
  Ok tt.

(** the state of the loop that grows a connected component *)
Record component : Type := mkComponent {
  queue : list cid;
  items : list cid;
  iset : gset cid;
  nset : gset node;
  parents : gset cid
}.

(** [[i2 for i2 in constraints if nset & i2.lbound]] *)
Definition hits (store : store_t) (constraints : list cid) (nset : gset node)
  : result (list cid) :=
  rfilter (fun i2 => let* c := get store i2 in
                     Ok (bool_decide (nset ∩ lbound c ≠ ∅))) constraints.

(** the loop [while queue]; every identifier enters the queue once, and
    [fuel] bounds the number of iterations *)
Fixpoint grow (fuel : nat) (store : store_t) (constraints : list cid)
    (frozen : gset cid) (st : component) : result component :=
  match pop (queue st) with
  | None => Ok st
  | Some (item, queue) =>
      match fuel with
      | O => Raise RuntimeError
      | S fuel' =>
          if decide (item ∈ frozen) then
            grow fuel' store constraints frozen
              (mkComponent queue (items st) (iset st) (nset st)
                 ({[ item ]} ∪ parents st))
          else
            let* c := get store item in
            let items := items st ++ [item] in
            let '(new, iset) := add_new (elements (forcedup c)) (iset st) in
            let queue := queue ++ new in
            let '(new, iset) := add_new (elements (forceddown c)) iset in
            let queue := queue ++ new in
            if decide (lbound c ⊆ nset st) then
              grow fuel' store constraints frozen
                (mkComponent queue items iset (nset st) (parents st))
            else
              let* nset := extend (nset st ∪ lbound c) in
              let* hs := hits store constraints nset in
              let '(new, iset) := add_new hs iset in
              grow fuel' store constraints frozen
                (mkComponent (queue ++ new) items iset nset (parents st))
      end
  end.

(** [[s for s in cnode.scopes if X & s.ubound]], each scope with its
    position in [cnode.scopes], which identifies the scope object *)
Definition scopes_meeting (cn : CompoundConstraint) (X : gset node)
  : list (nat * ScopeConstraint) :=
  filter (fun p => X ∩ subound (snd p) ≠ ∅) (imap pair (scopes cn)).

(** the loop [for item in items] for one candidate; [None] for [bad] *)
Fixpoint assign_scopes (store : store_t) (cnode : cid) (cn : CompoundConstraint)
    (items : list cid) (svals : gmap nat (gset node))
  : result (option (gmap nat (gset node))) :=
  match items with
  | [] => Ok (Some svals)
  | item :: items' =>
      if decide (item = cnode) then assign_scopes store cnode cn items' svals
      else
        let* c := get store item in
        match scopes_meeting cn (lbound c) with
        | [(i, s)] =>
            if decide (lbound c ⊆ subound s) then
              assign_scopes store cnode cn items'
                (<[i := default ∅ (svals !! i) ∪ lbound c]> svals)
            else Ok None
        | _ => Ok None
        end
  end.

(** the loop [for cnode in candidates] *)
Fixpoint cscope_assigns (store : store_t) (candidates items : list cid)
  : result (list (cid * gmap nat (gset node))) :=
  match candidates with
  | [] => Ok []
  | cnode :: candidates' =>
      let* cn := get store cnode in
      let* a := assign_scopes store cnode cn items ∅ in
      let* r := cscope_assigns store candidates' items in
      Ok (match a with Some svals => (cnode, svals) :: r | None => r end)
  end.

(** the loop [for scope, ext in svals.items()] *)
Fixpoint expand_scopes (ss : list ScopeConstraint)
    (svals : list (nat * gset node)) : result (list ScopeConstraint) :=
  match svals with
  | [] => Ok ss
  | (i, ext) :: svals' =>
      match ss !! i with
      | None => Raise TypeError
      | Some s =>
          let s := mkScope (slbound s ∪ ext) (subound s) in
          seq* assert (bool_decide (slbound s ⊆ subound s)) in
          let* e := extend (slbound s) in
          seq* assert (bool_decide (e = slbound s)) in
          expand_scopes (<[i := s]> ss) svals'
      end
  end.

(** the loop that finds the lowest parent *)
Fixpoint lowest_parent (fuel : nat) (children : children_t)
    (parents : gset cid) (parent : option cid) : result (option cid) :=
  let temp := parents ∩ list_to_set (kids children parent) in
  if decide (temp = ∅) then Ok parent
  else
    match fuel with
    | O => Raise RuntimeError
    | S fuel' =>
        seq* assert (bool_decide (size temp = 1%nat)) in
        match elements temp with
        | p :: _ => lowest_parent fuel' children parents (Some p)
        | [] => Raise KeyError
        end
    end.

(** the state of the loop [while todo] *)
Record order_state : Type := mkOrder {
  o_store : store_t;
  o_children : children_t;
  o_frozen : gset cid;
  o_todo : list cid
}.

(** the number of identifiers that can enter the queue of [grow] *)
Definition grow_fuel (store : store_t) (constraints : list cid) : nat :=
  S (length constraints +
     map_fold (fun _ c n => size (forcedup c) + size (forceddown c) + n)%nat
              0%nat store).

(** one iteration of the loop [while todo], for a non-empty [todo]; the
    result is [None] when the function returns [(None, None)] *)
Definition place_one (constraints : list cid) (st : order_state)
    (first : cid) : result (option order_state) :=
  let store := o_store st in
  let* comp := grow (grow_fuel store constraints) store constraints (o_frozen st)
                 (mkComponent [first] [] {[ first ]} ∅ ∅) in
  let items := items comp in
  let nset := nset comp in
  let* e := (if decide (nset = ∅) then Raise AssertionError else extend nset) in
  seq* assert (bool_decide (nset = e)) in
  let* candidates := rfilter (fun i => let* c := get store i in
                        Ok (bool_decide (forcedup c ⊆ o_frozen st))) items in
  let* assigns := cscope_assigns store candidates items in
  match pop assigns with
  | None => Ok None
  | Some ((cnode, svals), _) =>
      let* cn := get store cnode in
      seq* assert (bool_decide (size svals <= length (scopes cn))%nat) in
      let* ss := expand_scopes (scopes cn) (map_to_list svals) in
      let lb := lbound cn ∪ nset in
      seq* assert (bool_decide (lb ⊆ ubound cn)) in
      seq* assert (bool_decide (lb = heads cn ∪ ⋃ (slbound <$> ss))) in
      let cn := mkCon (tag cn) ss (head cn) (forcedup cn) (forceddown cn)
                      lb (ubound cn) in
      let store := <[cnode := cn]> store in
      let* parent := lowest_parent (S (size (o_frozen st))) (o_children st)
                       (parents comp) None in
      seq* match parent with
           | Some p => let* pc := get store p in
                       assert (bool_decide (lbound cn ⊆ lbound pc))
           | None => Ok tt
           end in
      let children := <[parent := kids (o_children st) parent ++ [cnode]]>
                        (o_children st) in
      let* todo := list_remove cnode (o_todo st) in
      Ok (Some (mkOrder store children ({[ cnode ]} ∪ o_frozen st) todo))
  end.

(** the loop [while todo]; every iteration removes one item from [todo] *)
Fixpoint place_all (fuel : nat) (constraints : list cid) (st : order_state)
  : result (option order_state) :=
  match o_todo st with
  | [] => Ok (Some st)
  | first :: _ =>
      match fuel with
      | O => Raise RuntimeError
      | S fuel' =>
          let* r := place_one constraints st first in
          match r with
          | Some st' => place_all fuel' constraints st'
          | None => Ok None
          end
      end
  end.

(** the check of one list of children: the loop [for child in v] *)
Fixpoint check_disjoint (store : store_t) (v : list cid) (temp : gset node)
  : result (gset node) :=
  match v with
  | [] => Ok temp
  | child :: v' =>
      let* c := get store child in
      seq* assert (bool_decide (temp ## lbound c)) in
      check_disjoint store v' (temp ∪ lbound c)
  end.

(** "make sure items are nested": the loop over [children.items()] *)
Definition check_nesting (store : store_t) (children : children_t)
  : result unit :=
  let* _ := rmap (fun kv =>
              let* temp := check_disjoint store (snd kv) ∅ in
              match fst kv with
              | None => Ok tt
              | Some k => let* kc := get store k in
                          assert (bool_decide (temp ⊆ lbound kc))
              end) (map_to_list children) in
  Ok tt.

(** the constraint tree: the store of the constraint objects, the root and
    the dictionary of children, in which the key [None] stands for the
    root *)
Record ctree : Type := mkTree {
  t_store : store_t;
  t_root : CompoundConstraint;
  t_children : children_t
}.

(** [orderConstraints(dom, constraints, nodes)]; the result is [None] when
    the function returns [(None, None)] *)
Definition orderConstraints (store : store_t) (constraints : list cid)
    (nodes : list node) : result (option ctree) :=
  let node_set : gset node := list_to_set nodes in
  let* _ := rmap (check_in_nodes store node_set) constraints in
  let* r := place_all (length constraints) constraints
              (mkOrder store ∅ ∅ constraints) in
  match r with
  | None => Ok None
  | Some st =>
      seq* check_nesting (o_store st) (o_children st) in
      let croot := FixedScopeCon (list_to_set nodes) in
      Ok (Some (mkTree (o_store st) croot (o_children st)))
  end.

End OrderConstraints.

(** the constraint that a key of the tree stands for *)
Definition con_of (t : ctree) (k : option cid) : result CompoundConstraint :=
  match k with
  | None => Ok (t_root t)
  | Some c => get (t_store t) c
  end.

(** [itertools.combinations(l, 2)] *)
Fixpoint combinations2 {A} (l : list A) : list (A * A) :=
  match l with
  | [] => []
  | x :: l' => map (pair x) l' ++ combinations2 l'
  end.

(** the body of the loop [for child in children] of [_checkNested] *)
Definition check_child (t : ctree) (k : CompoundConstraint) (child : cid)
  : result unit :=
  let* c := get (t_store t) child in
  seq* assert (bool_decide (lbound c ⊆ lbound k)) in
  seq* assert (bool_decide (lbound c ⊆ ubound c)) in
  let scopes_ := filter (fun s => subound s ∩ lbound c ≠ ∅) (scopes k) in
  seq* assert (bool_decide (length scopes_ = 1%nat)) in
  let* _ := rmap (fun cc =>
              seq* assert (bool_decide (slbound (fst cc) ## slbound (snd cc))) in
              assert (bool_decide (subound (fst cc) ## subound (snd cc))))
              (combinations2 (scopes c)) in
  Ok tt.

(** [_checkNested(ctree_children)] *)
Definition _checkNested (t : ctree) : result unit :=
  let* _ := rmap (fun kv =>
              let* k := con_of t (fst kv) in
              let* _ := rmap (check_child t k) (snd kv) in
              let* _ := rmap (fun cc =>
                          let* c1 := get (t_store t) (fst cc) in
                          let* c2 := get (t_store t) (snd cc) in
                          assert (bool_decide (lbound c1 ## lbound c2)))
                          (combinations2 (snd kv)) in
              Ok tt) (map_to_list (t_children t)) in
  Ok tt.

(** *** The passes that follow [orderConstraints]

    [completeScopes] and [addBreakScopes] update the tree in place.  The
    dominator information [dom] is its dictionary [_doms] and its [root];
    [dom.extend] and the other uses of [graph_util.topologicalSort], which
    is not part of the embedded sources, are parameters, and so are the
    attributes [successors_nl], [predecessors_nl] and [norm_suc_nl] that
    [structure] gives every node before the passes run.  [fuel] bounds the
    number of iterations of the loops that no argument bounds. *)

(** [for x in l: acc = f(acc, x)] for a body that may raise *)
Fixpoint rfoldl {A B} (f : B -> A -> result B) (b : B) (l : list A) : result B :=
  match l with
  | [] => Ok b
  | x :: l' => let* b' := f b x in rfoldl f b' l'
  end.

(** [sorted(l, key=...)], on the list of the elements with their keys:
    the sort is stable *)
Fixpoint insert_by {A K} (le : K -> K -> bool) (kx : K * A) (l : list (K * A))
  : list (K * A) :=
  match l with
  | [] => [kx]
  | ky :: l' => if le (fst ky) (fst kx) then ky :: insert_by le kx l' else kx :: l
  end.

Definition sorted_by {A K} (le : K -> K -> bool) (l : list (K * A)) : list A :=
  snd <$> foldl (fun acc kx => insert_by le kx acc) [] l.

(** the order of Python 2 on [None] and integers *)
Definition opt_le (a b : option Z) : bool :=
  match a, b with
  | None, _ => true
  | Some _, None => false
  | Some x, Some y => x <=? y
  end.

(** the order on the keys [(order, len(ubound))] of [completeScopes] *)
Definition key_le (a b : Z * nat) : bool :=
  (fst a <? fst b) || ((fst a =? fst b) && (snd a <=? snd b)%nat).

(** [l.index(x)] *)
Fixpoint list_index (x : node) (l : list node) : result nat :=
  match l with
  | [] => Raise ValueError
  | y :: l' => if decide (x = y) then Ok O
               else let* i := list_index x l' in Ok (S i)
  end.

Definition set_con (t : ctree) (k : option cid) (x : CompoundConstraint) : ctree :=
  match k with
  | None => mkTree (t_store t) x (t_children t)
  | Some c => mkTree (<[c := x]> (t_store t)) (t_root t) (t_children t)
  end.

Definition set_kids (t : ctree) (k : option cid) (v : list cid) : ctree :=
  mkTree (t_store t) (t_root t) (<[k := v]> (t_children t)).

Section LaterPasses.

Context (_doms : gmap node (list node)).
Context (root : node).
Context (extend : gset node -> result (gset node)).
Context (successors_nl predecessors_nl norm_suc_nl : node -> list node).
Context (topologicalSort_nl : list node -> list node).

(** [zip( *ls )] *)
Fixpoint heads_tails (ls : list (list node))
  : option (list node * list (list node)) :=
  match ls with
  | [] => Some ([], [])
  | [] :: _ => None
  | (x :: l) :: ls' =>
      match heads_tails ls' with
      | Some (hs, ts) => Some (x :: hs, l :: ts)
      | None => None
      end
  end.

Fixpoint zip_star_n (n : nat) (ls : list (list node)) : list (list node) :=
  match n with
  | O => []
  | S n' =>
      match heads_tails ls with
      | Some (hs, ts) => hs :: zip_star_n n' ts
      | None => []
      end
  end.

Definition zip_star (ls : list (list node)) : list (list node) :=
  zip_star_n (match ls with [] => O | l :: _ => length l end) ls.

(** [DominatorInfo.dominator(nodes)] *)
Definition dominator (nodes : gset node) : result node :=
  let* paths := rmap (fun n => match _doms !! n with
                               | Some p => Ok p
                               | None => Raise TypeError
                               end) (elements nodes) in
  match last (filter (fun x => size (list_to_set x : gset node) = 1%nat)
                     (zip_star paths)) with
  | Some (x :: _) => Ok x
  | _ => Raise IndexError
  end.

(** [DominatorInfo.area(node)] *)
Definition area (n : node) : gset node :=
  dom (filter (fun kv => n ∈ snd kv) _doms).

(** [{n:-i for i,n in enumerate(l)}] *)
Definition nodeorder_of (l : list node) : gmap node Z :=
  foldl (fun d inode => <[snd inode := - Z.of_nat (fst inode)]> d) ∅ (imap pair l).

(** [sorted(X, key=nodeorder.get)] *)
Definition sorted_nodes (nodeorder : gmap node Z) (X : gset node) : list node :=
  sorted_by opt_le ((fun n => (nodeorder !! n, n)) <$> elements X).

(** one pass [for x in list(ubound)] of [_dominatorUBoundClosure]; the
    state is [(ubound, done)] *)
Fixpoint closure_pass (udom : node) (xs : list node) (ubound : gset node)
    (done : bool) : gset node * bool :=
  match xs with
  | [] => (ubound, done)
  | x :: xs' =>
      if decide (x = udom) then closure_pass udom xs' ubound done
      else if bool_decide (Exists (fun y => y ∉ ubound) (predecessors_nl x))
      then closure_pass udom xs' (ubound ∖ {[ x ]}) false
      else closure_pass udom xs' ubound done
  end.

(** the loop [while not done]; a pass that is not the last one removes a
    node *)
Fixpoint closure_loop (fuel : nat) (udom : node) (ubound : gset node)
  : result (gset node) :=
  match fuel with
  | O => Raise RuntimeError
  | S fuel' =>
      let '(ubound, done) := closure_pass udom (elements ubound) ubound true in
      if done then Ok ubound else closure_loop fuel' udom ubound
  end.

Definition _dominatorUBoundClosure (lbound ubound : gset node)
  : result (gset node) :=
  let* udom := dominator lbound in
  let ubound := ubound ∩ area udom in
  let* ubound := (if decide (ubound = lbound) then Ok ubound
                  else closure_loop (S (size ubound)) udom ubound) in
  let* e := extend ubound in
  seq* assert (bool_decide (ubound = e)) in
  seq* assert (bool_decide (lbound ⊆ ubound)) in
  let* d := dominator ubound in
  seq* assert (bool_decide (udom = d)) in
  Ok ubound.

(** the successors of the nodes of [X] that are outside [X], in the order
    of [nodeorder], each once *)
Definition leaving (nodeorder : gmap node Z) (X : gset node) : list node :=
  fst (add_new (concat (successors_nl <$> sorted_nodes nodeorder X)) X).

(** an entry [(pos, lastfw, path)] of the queue of the search *)
Definition qitem : Type := option node * bool * list (option node).

Definition forward (pos : node) (path : list (option node)) : list qitem :=
  (fun pos2 => (Some pos2, true, path ++ [Some pos2]))
    <$> filter (fun pos2 => Some pos2 ∉ path) (successors_nl pos).

(** the loop [while queue]: the result is the augmenting path when the
    loop breaks, and [seen] when the queue runs empty *)
Fixpoint bfs (fuel : nat) (startset endset used : gset node)
    (backedge : gmap node (option node)) (queue : list qitem)
    (seen : gset node) : result (list (option node) + gset node) :=
  match queue with
  | [] => Ok (inr seen)
  | (pos, lastfw, path) :: queue =>
      match fuel with
      | O => Raise RuntimeError
      | S fuel' =>
          match pos with
          | None => seq* assert lastfw in Raise AttributeError
          | Some p =>
              let seen := {[ p ]} ∪ seen in
              if decide (p ∈ used) then
                let* back := (if decide (p ∈ startset) then Ok []
                              else match backedge !! p with
                                   | Some pos2 => Ok [(pos2, false, path ++ [pos2])]
                                   | None => Raise KeyError
                                   end) in
                let fw := if negb lastfw && bool_decide (p ∉ endset)
                          then forward p path else [] in
                bfs fuel' startset endset used backedge (queue ++ back ++ fw) seen
              else
                seq* assert lastfw in
                if decide (p ∈ endset) then Ok (inl path)
                else bfs fuel' startset endset used backedge
                       (queue ++ forward p path) seen
          end
      end
  end.

(** the loop [for pos in path]; the state is [(last, used, backedge)] *)
Fixpoint augment (startset : gset node) (path : list (option node))
    (last : option node) (used : gset node)
    (backedge : gmap node (option node))
  : result (gset node * gmap node (option node)) :=
  match path with
  | [] => Ok (used, backedge)
  | None :: _ => Raise AttributeError
  | Some pos :: path' =>
      if match last with
         | Some l => bool_decide (l ∈ successors_nl pos)
         | None => false
         end then
        seq* assert (bool_decide (pos ∈ used)) in
        match backedge !! pos with
        | None => Raise KeyError
        | Some b =>
            seq* assert (bool_decide (b <> last)) in
            augment startset path' (Some pos) used backedge
        end
      else
        seq* assert (eqb (bool_decide (last = None))
                         (bool_decide (pos ∈ startset))) in
        augment startset path' (Some pos) ({[ pos ]} ∪ used)
                (<[pos := last]> backedge)
  end.

(** the loop [while 1] of the maximum flow; the result is
    [(lastseen, used)] *)
Fixpoint max_flow (fuel : nat) (startnodes : list node)
    (startset endset used : gset node) (backedge : gmap node (option node))
  : result (gset node * gset node) :=
  match fuel with
  | O => Raise RuntimeError
  | S fuel' =>
      let queue := (fun n => (Some n, true, [Some n]))
                     <$> filter (fun n => n ∉ used) startnodes in
      let* r := bfs fuel startset endset used backedge queue ∅ in
      match r with
      | inr seen => Ok (seen, used)
      | inl path =>
          seq* assert (match List.head path, last path with
                       | Some (Some p), Some (Some q) =>
                           bool_decide (p ∈ startset) && bool_decide (q ∈ endset)
                       | _, _ => false
                       end) in
          let* ub := augment startset path None used backedge in
          max_flow fuel' startnodes startset endset (fst ub) (snd ub)
      end
  end.

(** the body of the loop [while revorder] of [completeScopes] for a
    [cnode] that is still a child of [parent]; [revorder] is what is left
    of the list after the pop, and the state is the tree and
    [frozen_nodes] *)
Definition complete_one (fuel : nat) (nodeorder : gmap node Z) (t : ctree)
    (parent : option cid) (revorder : list cid) (cnode : cid)
    (frozen_nodes : gset node) : result (ctree * gset node) :=
  let* pc := con_of t parent in
  let* cn := get (t_store t) cnode in
  let scopes_ := filter (fun s => slbound s ∩ lbound cn ≠ ∅) (scopes pc) in
  seq* assert (bool_decide (length scopes_ = 1%nat)) in
  match scopes_ with
  | [] => Raise IndexError
  | s0 :: _ =>
      let ubound_ := (ubound cn ∩ slbound s0) ∖ frozen_nodes in
      let* ubound_ := rfoldl (fun ub other =>
                        let* oc := get (t_store t) other in
                        Ok (if bool_decide (lbound oc ⊆ ub) then ub
                            else ub ∖ lbound oc)) ubound_ revorder in
      seq* assert (bool_decide (lbound cn ⊆ ubound_)) in
      let* ubound_ := _dominatorUBoundClosure (lbound cn) ubound_ in
      let body := lbound cn in
      let startnodes := leaving nodeorder body in
      let endnodes := leaving nodeorder ubound_ in
      let startset : gset node := list_to_set startnodes in
      let endset : gset node := list_to_set endnodes in
      let* flow := max_flow fuel startnodes startset endset ∅ ∅ in
      let lastseen := fst flow in
      let used := snd flow in
      let interior := filter (fun x => Forall (fun y => y ∈ lastseen) (successors_nl x))
                             (elements (lastseen ∩ ubound_)) in
      let cutsize := Z.of_nat (size lastseen) - Z.of_nat (length interior) in
      seq* assert (bool_decide
             (cutsize <= Z.of_nat (Nat.min (size startset) (size used)))) in
      let* body := extend (body ∪ list_to_set interior) in
      seq* assert (bool_decide (body ⊆ ubound_)) in
      let* e := extend body in
      seq* assert (bool_decide (body = e)) in
      let* bn := rfoldl (fun bn child =>
                   let* c := get (t_store t) child in
                   Ok (if bool_decide (lbound c ∩ fst bn ≠ ∅)
                       then (fst bn ∪ lbound c, snd bn ++ [child])
                       else bn)) (body, []) revorder in
      let body := fst bn in
      let newchildren := snd bn in
      seq* assert (bool_decide (body ⊆ ubound_)) in
      let* e := extend body in
      seq* assert (bool_decide (body = e)) in
      let cn' := mkCon (tag cn)
                   ((fun s => mkScope (slbound s ∪ (body ∩ subound s)) (subound s))
                      <$> scopes cn)
                   (head cn) (forcedup cn) (forceddown cn) body (ubound cn) in
      let t := set_con t (Some cnode) cn' in
      let t := set_kids t (Some cnode)
                 (kids (t_children t) (Some cnode) ++ newchildren) in
      let t := set_kids t parent
                 (filter (fun c => c ∉ newchildren) (kids (t_children t) parent)) in
      Ok (t, frozen_nodes ∪ body)
  end.

(** the loop [while revorder]; [rs] is [revorder] reversed, so that its
    head is the constraint that [revorder.pop()] returns *)
Fixpoint complete_children (fuel : nat) (nodeorder : gmap node Z) (t : ctree)
    (parent : option cid) (rs : list cid) (frozen_nodes : gset node)
  : result ctree :=
  match rs with
  | [] => Ok t
  | cnode :: rs' =>
      if decide (cnode ∈ kids (t_children t) parent) then
        let* tf := complete_one fuel nodeorder t parent (rev rs') cnode
                     frozen_nodes in
        complete_children fuel nodeorder (fst tf) parent rs' (snd tf)
      else complete_children fuel nodeorder t parent rs' frozen_nodes
  end.

(** the loop [while stack] *)
Fixpoint complete_loop (fuel : nat) (nodeorder : gmap node Z) (t : ctree)
    (stack : list (option cid)) : result ctree :=
  match pop stack with
  | None => Ok t
  | Some (parent, stack) =>
      match fuel with
      | O => Raise RuntimeError
      | S fuel' =>
          let* keyed := rmap (fun cnode =>
                          let* cn := get (t_store t) cnode in
                          let* d := dominator (lbound cn) in
                          match nodeorder !! d with
                          | Some o => Ok ((o, size (ubound cn)), cnode)
                          | None => Raise KeyError
                          end) (kids (t_children t) parent) in
          let revorder := sorted_by key_le keyed in
          let* t := complete_children fuel nodeorder t parent (rev revorder) ∅ in
          complete_loop fuel' nodeorder t
            (stack ++ (Some <$> kids (t_children t) parent))
      end
  end.

(** [completeScopes(dom, croot, children)] *)
Definition completeScopes (fuel : nat) (t : ctree) : result ctree :=
  let* _ := rmap (fun kv =>
              let* k := con_of t (fst kv) in
              rmap (fun child =>
                let* c := get (t_store t) child in
                let pscopes := filter (fun s => lbound c ⊆ slbound s) (scopes k) in
                assert (bool_decide (length pscopes = 1%nat))) (snd kv))
              (map_to_list (t_children t)) in
  let nodeorder := nodeorder_of (topologicalSort_nl [root]) in
  complete_loop fuel nodeorder t [None].

(** the local function [getSuccessors] of [addBreakScopes] *)
Definition getSuccessors (pscope : ScopeConstraint) (cn : CompoundConstraint)
  : gset node :=
  let body := lbound cn in
  let successors : gset node :=
    ⋃ ((fun n => list_to_set (norm_suc_nl n)) <$> elements body) in
  (successors ∖ body) ∩ slbound pscope.

(** the local function [visit], for a constraint other than the root *)
Fixpoint visit (fuel : nat) (t : ctree) (pscope : ScopeConstraint) (cnode : cid)
    (todo : list (cid * gset node)) : result (list (cid * gset node)) :=
  match fuel with
  | O => Raise RuntimeError
  | S fuel' =>
      let* cn := get (t_store t) cnode in
      let suc := getSuccessors pscope cn in
      let todo := if (1 <? size suc)%nat then todo ++ [(cnode, suc)] else todo in
      rfoldl (fun todo child =>
                let* c := get (t_store t) child in
                let scopes_ := filter (fun s => lbound c ∩ subound s ≠ ∅) (scopes cn) in
                seq* assert (bool_decide (length scopes_ = 1%nat)) in
                match scopes_ with
                | s0 :: _ => visit fuel' t s0 child todo
                | [] => Raise IndexError
                end) todo (kids (t_children t) (Some cnode))
  end.

(** [visit(None, croot, todo.append)] *)
Definition visit_root (fuel : nat) (t : ctree) : result (list (cid * gset node)) :=
  let cn := t_root t in
  rfoldl (fun todo child =>
            let* c := get (t_store t) child in
            let scopes_ := filter (fun s => lbound c ∩ subound s ≠ ∅) (scopes cn) in
            seq* assert (bool_decide (length scopes_ = 1%nat)) in
            match scopes_ with
            | s0 :: _ => visit fuel t s0 child todo
            | [] => Raise IndexError
            end) [] (kids (t_children t) None).

(** the loop that counts the successors of the pending constraints *)
Definition count_successors (todo : list (cid * gset node)) : gmap node Z :=
  foldl (fun counts successors =>
           foldl (fun counts suc => <[suc := default 0 (counts !! suc) + 1]> counts)
                 counts (elements (snd successors)))
        ∅ todo.

(** [min(l, key=f)] on the list of the elements with their keys *)
Fixpoint min_by (l : list (nat * node)) (best : nat * node) : node :=
  match l with
  | [] => snd best
  | x :: l' => min_by l' (if (fst x <? fst best)%nat then x else best)
  end.

(** the loop [while 1] that finds the enclosing scope: the state is
    [(parent, pscope)], the scope being given by its position in
    [parent.scopes] *)
Fixpoint enclosing (fuel : nat) (t : ctree) (body : gset node)
    (parent : option cid) (pscope : nat) : result (option cid * nat) :=
  match fuel with
  | O => Raise RuntimeError
  | S fuel' =>
      let* r := rfoldl (fun pp child =>
                  let* c := get (t_store t) child in
                  Ok (foldl (fun pp is_ =>
                               if bool_decide (body ⊆ slbound (snd is_))
                               then (Some child, fst is_) else pp)
                            pp (imap pair (scopes c))))
                  (parent, pscope) (kids (t_children t) parent) in
      if decide (fst r = parent) then Ok r
      else enclosing fuel' t body (fst r) (snd r)
  end.

(** the state of the loop [while todo] of [addBreakScopes] *)
Record break_state : Type := mkBreak {
  b_tree : ctree;
  b_constraints : list cid;
  b_todo : list (cid * gset node)
}.

(** one iteration of the loop [while todo] *)
Definition add_break (fuel : nat) (sortednodes : list node) (st : break_state)
  : result break_state :=
  let t := b_tree st in
  let todo := b_todo st in
  let counts := count_successors todo in
  let values := snd <$> map_to_list counts in
  match values with
  | [] => Raise ValueError
  | v0 :: vs =>
      seq* assert (bool_decide (1 <= foldl Z.min v0 vs)) in
      let maxcount := foldl Z.max v0 vs in
      seq* assert (bool_decide (maxcount <= Z.of_nat (length todo))) in
      let candidates := fst <$> filter (fun kv => maxcount <= snd kv)
                                       (map_to_list counts) in
      let* keyed := rmap (fun k => let* i := list_index k sortednodes in
                                   Ok (i, k)) candidates in
      match keyed with
      | [] => Raise ValueError
      | k0 :: ks =>
          let target := min_by ks k0 in
          let afterScope : gset node := list_to_set (topologicalSort_nl [target]) in
          let hit := filter (fun cs => target ∈ snd cs) todo in
          let* lbs := rmap (fun cs => let* c := get (t_store t) (fst cs) in
                                      Ok (lbound c)) hit in
          let body : gset node := ⋃ lbs in
          let otherTargets : gset node := ⋃ (snd <$> hit) in
          let body := body ∪ (otherTargets ∖ afterScope) in
          let body := body ∪ list_to_set (predecessors_nl target) in
          let* body := extend body in
          let* otherSets := rmap (fun c => let* x := get (t_store t) c in
                                           Ok (lbound x)) (b_constraints st) in
          let otherSets1 := filter (fun x => ¬ x ## body /\ ¬ body ⊆ x) otherSets in
          let body := body ∪ ⋃ otherSets1 in
          let* e := extend body in
          seq* assert (bool_decide (body = e)) in
          seq* assert (bool_decide (afterScope ∩ body = ∅)) in
          let otherSets2 := filter (fun x => ¬ x ## body /\ ¬ body ⊆ x /\ ¬ x ⊆ body)
                              otherSets in
          seq* assert (bool_decide (otherSets2 = [])) in
          seq* match scopes (t_root t) with
               | [] => Raise IndexError
               | _ :: _ => Ok tt
               end in
          let* pp := enclosing fuel t body None O in
          let parent := fst pp in
          let* pc := con_of t parent in
          match scopes pc !! snd pp with
          | None => Raise IndexError
          | Some ps =>
              let ps' := mkScope (slbound ps ∪ body) (subound ps) in
              let pc' := mkCon (tag pc) (<[snd pp := ps']> (scopes pc)) (head pc)
                           (forcedup pc) (forceddown pc)
                           (lbound pc ∪ body) (ubound pc) in
              seq* assert (bool_decide (slbound ps' ⊆ subound ps')) in
              seq* assert (bool_decide (lbound pc' ⊆ ubound pc')) in
              let t := set_con t parent pc' in
              let new : cid := fresh (dom (t_store t)) in
              let t := mkTree (<[new := FixedScopeCon body]> (t_store t))
                              (t_root t) (t_children t) in
              let* temp := rfilter (fun child =>
                             let* c := get (t_store t) child in
                             Ok (bool_decide (lbound c ⊆ body)))
                             (kids (t_children t) parent) in
              let* moved := rfoldl (fun kn child =>
                              let* k := list_remove child (fst kn) in
                              Ok (k, snd kn ++ [child]))
                              (kids (t_children t) parent,
                               kids (t_children t) (Some new)) temp in
              let t := set_kids t (Some new) (snd moved) in
              let t := set_kids t parent (fst moved ++ [new]) in
              let constraints := b_constraints st ++ [new] in
              let* _ := rmap (fun cc =>
                          let* c1 := get (t_store t) (fst cc) in
                          let* c2 := get (t_store t) (snd cc) in
                          assert (bool_decide (lbound c1 ## lbound c2)))
                          (combinations2 (kids (t_children t) parent)) in
              let todo := (fun kv => if bool_decide (fst kv ∈ kids (t_children t) (Some new))
                                     then (fst kv, snd kv ∩ body) else kv) <$> todo in
              let todo := todo ++ [(new, getSuccessors ps' (FixedScopeCon body))] in
              let todo := filter (fun kv => (1 < size (snd kv))%nat) todo in
              Ok (mkBreak t constraints todo)
          end
      end
  end.

(** the loop [while todo] *)
Fixpoint add_breaks (fuel : nat) (sortednodes : list node) (st : break_state)
  : result break_state :=
  match b_todo st with
  | [] => Ok st
  | _ :: _ =>
      match fuel with
      | O => Raise RuntimeError
      | S fuel' =>
          let* st' := add_break fuel sortednodes st in
          add_breaks fuel' sortednodes st'
      end
  end.

(** [addBreakScopes(dom, croot, constraints, children)]; the result is the
    tree and the list [constraints], to which the new scopes are
    appended *)
Definition addBreakScopes (fuel : nat) (t : ctree) (constraints : list cid)
  : result (ctree * list cid) :=
  let sortednodes := topologicalSort_nl [root] in
  let* todo := visit_root fuel t in
  seq* assert (bool_decide (length todo <= length constraints)%nat) in
  let* st := add_breaks fuel sortednodes (mkBreak t constraints todo) in
  Ok (b_tree st, b_constraints st).

(** the trees at the points where the tree is checked, for a call of
    [orderConstraints] followed by the passes that [structure] runs after
    its second call, up to the first check that fails or the first pass
    that raises, each with the list [constraints] at that point: the tree
    that [orderConstraints] returns after its own check, and the trees on
    which the three calls of [_checkNested] succeed.  The assertions of
    [structure] on [successors_nl] and [predecessors_nl] concern the graph
    only and are not part of the model. *)
Definition checked_trees (fuel : nat) (store : store_t) (constraints : list cid)
    (nodes : list node) : list (ctree * list cid) :=
  match orderConstraints extend store constraints nodes with
  | Ok (Some t0) =>
      (t0, constraints) ::
      match _checkNested t0 with
      | Ok _ =>
          (t0, constraints) ::
          match completeScopes fuel t0 with
          | Ok t1 =>
              match _checkNested t1 with
              | Ok _ =>
                  (t1, constraints) ::
                  match addBreakScopes fuel t1 constraints with
                  | Ok (t2, constraints2) =>
                      match _checkNested t2 with
                      | Ok _ => [(t2, constraints2)]
                      | Raise _ => []
                      end
                  | Raise _ => []
                  end
              | Raise _ => []
              end
          | Raise _ => []
          end
      | Raise _ => []
      end
  | _ => []
  end.

End LaterPasses.

(** *** The properties of a constraint tree *)

(** the [lbound]s of two siblings, at different positions of the list of
    children of one parent, are disjoint *)
Definition siblings_disjoint (t : ctree) : Prop :=
  forall k v i j c1 c2 x1 x2,
    t_children t !! k = Some v -> i <> j ->
    v !! i = Some c1 -> v !! j = Some c2 ->
    t_store t !! c1 = Some x1 -> t_store t !! c2 = Some x2 ->
    lbound x1 ## lbound x2.

(** the [lbound] of a child is a subset of the [lbound] of its parent *)
Definition children_nested (t : ctree) : Prop :=
  forall k v c x p,
    t_children t !! k = Some v -> c ∈ v ->
    t_store t !! c = Some x -> con_of t k = Ok p ->
    lbound x ⊆ lbound p.

(** [lbound ⊆ ubound ⊆ nodes] for the constraint [x] *)
Definition bounded (node_set : gset node) (x : CompoundConstraint) : Prop :=
  lbound x ⊆ ubound x /\ ubound x ⊆ node_set.

(** what [_checkNested] checks of the bounds of a child *)
Definition children_within_ubound (t : ctree) : Prop :=
  forall k v c x,
    t_children t !! k = Some v -> c ∈ v -> t_store t !! c = Some x ->
    lbound x ⊆ ubound x.

(** the constraints that [orderConstraints] was given, and the root it
    creates, satisfy [lbound ⊆ ubound ⊆ nodes], and the tree holds no
    other constraint *)
Definition tree_bounded (node_set : gset node) (constraints : list cid)
    (t : ctree) : Prop :=
  bounded node_set (t_root t) /\
  (forall c, c ∈ constraints ->
     exists x, t_store t !! c = Some x /\ bounded node_set x) /\
  (forall k v c, t_children t !! k = Some v -> c ∈ v -> c ∈ constraints).

(** what the loop [while todo] of [orderConstraints] keeps: the upper
    bounds stay within the node set, a placed constraint has its lower
    bound within its upper bound, and the tree holds placed constraints
    only *)
Record order_inv (node_set : gset node) (constraints : list cid)
    (st : order_state) : Prop := {
  inv_ubound : forall c x, c ∈ constraints -> o_store st !! c = Some x ->
                           ubound x ⊆ node_set;
  inv_frozen : forall c, c ∈ o_frozen st ->
                 c ∈ constraints /\
                 exists x, o_store st !! c = Some x /\ lbound x ⊆ ubound x;
  inv_todo : forall c, c ∈ o_todo st -> c ∈ constraints;
  inv_all : forall c, c ∈ constraints -> c ∈ o_todo st \/ c ∈ o_frozen st;
  inv_children : forall k v c, o_children st !! k = Some v -> c ∈ v ->
                   c ∈ o_frozen st
}.

(** *** Loop canonicalisation

    [structureLoops] works on the control flow graph through the node
    class of [graphproxy] and through [graph_util.tarjanSCC],
    [graph_util.topologicalSort] and [graphproxy.duplicateNodes], none of
    which is among the embedded sources. *)

(** Modelled from the spec: the control flow graph of [graphproxy].  A
    node is its identity and a graph is the set of its edges, from which
    the predecessor and successor lists of a node are read. *)
Definition graph : Type := gset (node * node).

(** Modelled from the spec: the attribute [predecessors] of a node, which
    [graphproxy] defines, as the set of the sources of the edges into [n]. *)
Definition predecessors (G : graph) (n : node) : gset node :=
  set_map fst (filter (fun e => snd e = n) G).

(** Modelled from the spec: a step of the search of [topologicalSort]: the
    nodes of [X] and the successors in [A] of the nodes of [X]. *)
Definition grow_along (G : graph) (A X : gset node) : gset node :=
  X ∪ set_map snd (filter (fun e => fst e ∈ X /\ snd e ∈ A) G).

(** Modelled from the spec: the search of [topologicalSort]: the nodes
    reached from [X] along edges that lead into [A]; a round that changes
    [X] adds a node of [A], so that [size A] rounds are enough. *)
Fixpoint close_along (fuel : nat) (G : graph) (A X : gset node) : gset node :=
  let X' := grow_along G A X in
  if decide (X' ⊆ X) then X
  else match fuel with
       | O => X
       | S fuel' => close_along fuel' G A X'
       end.

Definition reachable_along (G : graph) (A X : gset node) : gset node :=
  close_along (size A) G A X.

(** Modelled from the spec: [graph_util.topologicalSort(roots, targets)],
    which is missing, as the list of the nodes that are reachable from the
    roots, the roots included; [A] holds the nodes that the function
    [targets] of the caller lets through. *)
Definition topologicalSort (G : graph) (A : gset node) (roots : list node)
  : list node :=
  elements (reachable_along G A (list_to_set roots)).

(** Modelled from the spec: the strongly connected component of [x] in the
    graph on [T], for [tarjanSCC]. *)
Definition scc_of (G : graph) (T : gset node) (x : node) : gset node :=
  filter (fun y => x ∈ reachable_along G T {[ y ]}) (reachable_along G T {[ x ]}).

(** Modelled from the spec: [graph_util.tarjanSCC(todo, predecessors)],
    which is missing, as the list of the strongly connected components of
    the graph on the nodes of [todo], each once. *)
Definition tarjanSCC (G : graph) (todo : list node) : list (list node) :=
  let T : gset node := list_to_set todo in
  foldl (fun sccs x =>
           if bool_decide (Exists (fun scc => x ∈ scc) sccs) then sccs
           else sccs ++ [elements (scc_of G T x)]) [] todo.

(** Modelled from the spec: the identity of the clone that
    [duplicateNodes] makes of [n], a new node, when the nodes so far are
    those up to [M]. *)
Definition duplicate (M : positive) (n : node) : node := (n + M)%positive.

(** Modelled from the spec: the greatest identity among [nodes]. *)
Definition fresh_base (nodes : list node) : positive :=
  foldr Pos.max 1%positive nodes.

(** Modelled from the spec: what becomes of the edge from [p] to [n] when
    [duplicateNodes] clones the region [R] of the component [S]: the edge itself, or the edge from [p] to the
    clone of [n] when [p] enters [R] from outside [S], and the edge that
    leaves the clone of [p] when [p] is in [R] *)
Definition dup_edge (M : positive) (R S : gset node) (e : node * node)
  : graph :=
  (if bool_decide (snd e ∈ R /\ fst e ∉ S)
   then {[ (fst e, duplicate M (snd e)) ]} else {[ e ]})
  ∪ (if bool_decide (fst e ∈ R)
     then {[ (duplicate M (fst e),
              if bool_decide (snd e ∈ R) then duplicate M (snd e) else snd e) ]}
     else ∅).

(** Modelled from the spec: [graphproxy.duplicateNodes(reachable,
    scc_set)], which is missing.  Every node of the region gets a clone, a
    new node with its own edges: the successors of the clone are those of
    the node, the clones standing for the successors in the region; the
    predecessors outside the component that entered a node of the region
    now enter its clone.  The result is the new graph and the list of the
    clones. *)
Definition duplicateNodes (G : graph) (nodes reachable : list node)
    (scc_set : gset node) : graph * list node :=
  let M := fresh_base nodes in
  (set_bind (dup_edge M (list_to_set reachable) scc_set) G,
   duplicate M <$> reachable).

(** the state of the loop [for scc in sccs]: the graph, the list [nodes],
    [newtodo] and [while_heads] *)
Record loop_state : Type := mkLoop {
  l_graph : graph;
  l_nodes : list node;
  l_newtodo : list node;
  l_heads : list node
}.

(** the body of the loop [for scc in sccs] *)
Definition structure_scc (st : loop_state) (scc : list node)
  : result loop_state :=
  if (length scc <=? 1)%nat then Ok st
  else
    let G := l_graph st in
    let scc_set : gset node := list_to_set scc in
    let entries := filter (fun n => ¬ predecessors G n ⊆ scc_set) scc in
    match pop entries with
    | None => Raise IndexError
    | Some (head_, entries) =>
        let dup := match entries with
                   | [] => (G, [])
                   | _ :: _ =>
                       let reachable :=
                         topologicalSort G (scc_set ∖ {[ head_ ]}) entries in
                       duplicateNodes G (l_nodes st) reachable scc_set
                   end in
        let* newtodo := list_remove head_ (l_newtodo st ++ snd dup ++ scc) in
        Ok (mkLoop (fst dup) (l_nodes st ++ snd dup) newtodo
                   (l_heads st ++ [head_]))
    end.

(** the loop [while todo]; the result is the graph, the list [nodes] and
    [while_heads] *)
Fixpoint structure_todo (fuel : nat) (G : graph) (nodes todo heads_ : list node)
  : result (graph * list node * list node) :=
  match todo with
  | [] => Ok (G, nodes, heads_)
  | _ :: _ =>
      match fuel with
      | O => Raise RuntimeError
      | S fuel' =>
          let sccs := tarjanSCC G todo in
          let* st := rfoldl structure_scc (mkLoop G nodes [] heads_) sccs in
          structure_todo fuel' (l_graph st) (l_nodes st) (l_newtodo st)
                         (l_heads st)
      end
  end.

(** [structureLoops(nodes)], on the graph [G] of the nodes; [fuel] bounds
    the number of rounds of the loop [while todo] *)
Definition structureLoops (fuel : nat) (G : graph) (nodes : list node)
  : result (graph * list node * list node) :=
  structure_todo fuel G nodes nodes [].

(** every edge joins two nodes of the list [nodes] *)
Definition graph_of (G : graph) (nodes : list node) : Prop :=
  forall p n, (p, n) ∈ G -> p ∈ nodes /\ n ∈ nodes.

(** there is a path from [x] to [y] *)
Definition reaches (G : graph) : relation node :=
  rtc (fun x y => (x, y) ∈ G).

(** [x] and [y] are in one strongly connected component *)
Definition connected (G : graph) (x y : node) : Prop :=
  reaches G x y /\ reaches G y x.

(** [C] is a strongly connected component of [G] *)
Definition is_scc (G : graph) (C : gset node) : Prop :=
  (exists x, x ∈ C) /\
  forall x, x ∈ C -> forall y, y ∈ C <-> connected G x y.

(** [n] is an entry of [C]: a node of [C] with a predecessor outside *)
Definition is_entry (G : graph) (C : gset node) (n : node) : Prop :=
  n ∈ C /\ exists p, (p, n) ∈ G /\ p ∉ C.

(** [C] has exactly one entry *)
Definition single_entry (G : graph) (C : gset node) : Prop :=
  exists n, is_entry G C n /\ forall m, is_entry G C m -> m = n.

(** the node that [y] is a clone of, when the clones are the nodes above
    [M], and [y] itself otherwise *)
Definition original (M : positive) (y : node) : node :=
  if (M <? y)%positive then (y - M)%positive else y.

(** an edge that leads into [A] *)
Definition along (G : graph) (A : gset node) : relation node :=
  fun a b => (a, b) ∈ G /\ b ∈ A.

(** an edge between two nodes of [T] *)
Definition inside (G : graph) (T : gset node) : relation node :=
  fun a b => (a, b) ∈ G /\ a ∈ T /\ b ∈ T.

Definition connected_in (G : graph) (T : gset node) (x y : node) : Prop :=
  rtc (inside G T) x y /\ rtc (inside G T) y x.

(** [S] is a strongly connected component of the graph on [T] *)
Definition is_class_in (G : graph) (T S : gset node) : Prop :=
  (exists x, x ∈ S) /\ S ⊆ T /\
  forall x, x ∈ S -> forall y, y ∈ S <-> connected_in G T x y.

(** the components that are left of the list of [tarjanSCC]: each is a
    component of the graph on [T], without repetition, and no node is in
    two of them *)
Fixpoint sccs_ok (G : graph) (T : gset node) (sccs : list (list node)) : Prop :=
  match sccs with
  | [] => True
  | scc :: rest =>
      NoDup scc /\ is_class_in G T (list_to_set scc) /\
      (forall scc' x, scc' ∈ rest -> x ∈ scc -> x ∈ scc' -> False) /\
      sccs_ok G T rest
  end.

(** the nodes of a list of components *)
Definition nodes_of (sccs : list (list node)) : gset node :=
  ⋃ (list_to_set <$> sccs).

(** the component of [x] has another node *)
Definition nontrivial (G : graph) (x : node) : Prop :=
  exists y, y <> x /\ connected G x y.

(** [e] is an entry of the component of [x] *)
Definition entry_of (G : graph) (x e : node) : Prop :=
  connected G x e /\ exists p, (p, e) ∈ G /\ ¬ connected G x p.

(** [e] is the one entry of the component of [x] *)
Definition one_entry (G : graph) (x e : node) : Prop :=
  entry_of G x e /\ forall e', entry_of G x e' -> e' = e.

(** where the component of [x] stands while the loops run: it lies in the
    components that are left of this round, or in the list [newtodo] of
    the next round, or it has one entry, which is a loop head *)
Definition settled (G : graph) (rest newtodo heads_ : gset node) (x : node)
  : Prop :=
  (forall y, connected G x y -> y ∈ rest) \/
  (forall y, connected G x y -> y ∈ newtodo) \/
  (exists e, e ∈ heads_ /\ one_entry G x e).

(** what the loop [for scc in sccs] keeps, for the components [sccs] that
    are left of the graph on [T] *)
Record round_inv (T : gset node) (sccs : list (list node)) (st : loop_state)
  : Prop := {
  ri_graph : graph_of (l_graph st) (l_nodes st);
  ri_T : forall n, n ∈ T -> n ∈ l_nodes st;
  ri_sccs : sccs_ok (l_graph st) T sccs;
  ri_heads : forall n, n ∈ l_heads st -> n ∈ nodes_of sccs -> False;
  ri_new : forall n, n ∈ nodes_of sccs -> n ∈ l_newtodo st -> False;
  ri_heads_new : forall n, n ∈ l_heads st -> n ∈ l_newtodo st -> False;
  ri_new_nodes : forall n, n ∈ l_newtodo st -> n ∈ l_nodes st;
  ri_heads_nodes : forall n, n ∈ l_heads st -> n ∈ l_nodes st;
  ri_settled : forall x, nontrivial (l_graph st) x ->
                 settled (l_graph st) (nodes_of sccs)
                   (list_to_set (l_newtodo st)) (list_to_set (l_heads st)) x
}.

(** what the loop [while todo] keeps *)
Record todo_inv (G : graph) (nodes todo heads_ : list node) : Prop := {
  ti_graph : graph_of G nodes;
  ti_todo : forall n, n ∈ todo -> n ∈ nodes;
  ti_heads : forall n, n ∈ heads_ -> n ∈ nodes;
  ti_heads_todo : forall n, n ∈ heads_ -> n ∈ todo -> False;
  ti_settled : forall x, nontrivial G x ->
                 settled G ∅ (list_to_set todo) (list_to_set heads_) x
}.

(** *** An instance: a graph of four nodes where the node 1 branches to
    2 and 3, which both lead to 4, a scope for the nodes 1 and 2 that may
    grow to the node 3, and a scope for the node 1 *)

Definition ex_extend (X : gset node) : result (gset node) := Ok X.

Definition ex_doms : gmap node (list node) :=
  <[1%positive := [1%positive]]>
  (<[2%positive := [1%positive; 2%positive]]>
  (<[3%positive := [1%positive; 3%positive]]>
  (<[4%positive := [1%positive; 4%positive]]> ∅))).

Definition ex_successors_nl (n : node) : list node :=
  match n with
  | 1%positive => [2%positive; 3%positive]
  | 2%positive => [4%positive]
  | 3%positive => [4%positive]
  | _ => []
  end.

Definition ex_predecessors_nl (n : node) : list node :=
  match n with
  | 2%positive => [1%positive]
  | 3%positive => [1%positive]
  | 4%positive => [2%positive; 3%positive]
  | _ => []
  end.

Definition ex_topologicalSort (roots : list node) : list node :=
  match roots with
  | [1%positive] => [4%positive; 2%positive; 3%positive; 1%positive]
  | [2%positive] => [4%positive; 2%positive]
  | [3%positive] => [4%positive; 3%positive]
  | [4%positive] => [4%positive]
  | _ => []
  end.

Definition ex_store : store_t :=
  <[1%positive := mkCon scope [mkScope {[1%positive; 2%positive]}
                                       {[1%positive; 2%positive; 3%positive]}]
                        None ∅ ∅ {[1%positive; 2%positive]}
                        {[1%positive; 2%positive; 3%positive]}]>
  (<[2%positive := mkCon scope [mkScope {[1%positive]} {[1%positive]}]
                         None ∅ ∅ {[1%positive]} {[1%positive]}]> ∅).

Definition ex_nodes : list node :=
  [1%positive; 2%positive; 3%positive; 4%positive].

(** the tree that [orderConstraints] builds: the second scope is a child
    of the first *)
Definition ex_tree : ctree :=
  mkTree ex_store (FixedScopeCon (list_to_set ex_nodes))
    (<[Some 1%positive := [2%positive]]> (<[None := [1%positive]]> ∅)).

(** the tree after [addBreakScopes]: the first scope has grown to the
    node 3, and a new scope for the nodes 1 and 3 lies between the two *)
Definition ex_tree_final : ctree :=
  mkTree
    (<[3%positive := FixedScopeCon {[1%positive; 3%positive]}]>
     (<[1%positive := mkCon scope [mkScope {[1%positive; 2%positive; 3%positive]}
                                           {[1%positive; 2%positive; 3%positive]}]
                        None ∅ ∅ {[1%positive; 2%positive; 3%positive]}
                        {[1%positive; 2%positive; 3%positive]}]> ex_store))
    (FixedScopeCon (list_to_set ex_nodes))
    (<[Some 2%positive := []]>
     (<[Some 3%positive := [2%positive]]>
      (<[Some 1%positive := [3%positive]]> (<[None := [1%positive]]> ∅)))).

(** *** An instance: a loop of the nodes 2 and 3 that the node 1 enters at
    both *)

Definition ex_cfg : graph :=
  {[ (1%positive, 2%positive); (1%positive, 3%positive);
     (2%positive, 3%positive); (3%positive, 2%positive) ]}.

Definition ex_cfg_nodes : list node := [1%positive; 2%positive; 3%positive].

(** the graph after [structureLoops]: the node 2 is the head of the loop,
    and the node 1 enters the clone 6 of the node 3 *)
Definition ex_cfg_loops : graph :=
  {[ (1%positive, 2%positive); (1%positive, 6%positive);
     (2%positive, 3%positive); (3%positive, 2%positive);
     (6%positive, 2%positive) ]}.

End Structuring.

(** * The dominator information

    [DominatorInfo] of [Krakatau/java/structuring.py].  The attribute
    [successors] of the nodes is a parameter; the dictionary [_doms] maps a
    node to a tuple of nodes.  [fuel] bounds the number of iterations of
    the loop [while stack]. *)

Module Dominators.
Import Structuring.

Abbreviation doms_t := (gmap node (list node)).

Section DominatorInfo.

Context (successors : node -> list node).

(** the body of [for child in cur.successors]; the state is
    [(doms, stack)] *)
Definition relax (cur : node) (st : doms_t * list node) (child : node)
  : result (doms_t * list node) :=
  let* dcur := match fst st !! cur with
               | Some p => Ok p
               | None => Raise KeyError
               end in
  let new := dcur ++ [child] in
  let old := fst st !! child in
  if decide (Some new = old) then Ok st
  else
    let new := match old with
               | None => new
               | Some o => filter (fun x => x ∈ new) o
               end in
    seq* assert (bool_decide (child ∈ new)) in
    if decide (Some new = old) then Ok st
    else Ok (<[child := new]> (fst st),
             if decide (child ∈ snd st) then snd st else snd st ++ [child]).

(** the loop [while stack] *)
Fixpoint dominators_loop (fuel : nat) (doms : doms_t) (stack : list node)
  : result doms_t :=
  match pop stack with
  | None => Ok doms
  | Some (cur, stack) =>
      match fuel with
      | O => Raise RuntimeError
      | S fuel' =>
          let* st := rfoldl (relax cur) (doms, stack) (successors cur) in
          dominators_loop fuel' (fst st) (snd st)
      end
  end.

(** [DominatorInfo.__init__(root)]: the dictionary [_doms] *)
Definition DominatorInfo_init (fuel : nat) (root : node) : result doms_t :=
  dominators_loop fuel {[ root := [root] ]} [root].

(** [self.nodeset] *)
Definition nodeset (doms : doms_t) : gset node := dom doms.

(** [DominatorInfo.dominators(node)] *)
Definition dominators (doms : doms_t) (n : node) : result (list node) :=
  match doms !! n with
  | Some p => Ok p
  | None => Raise KeyError
  end.

(** *** Dominance in the graph *)

(** [p] is a path from [root] to [n] along [successors] *)
Inductive walk (root : node) : list node -> node -> Prop :=
| walk_root : walk root [root] root
| walk_step p u v :
    walk root p u -> v ∈ successors u -> walk root (p ++ [v]) v.

Definition reachable (root n : node) : Prop := exists p, walk root p n.

(** [d] dominates [n]: every path from the root to [n] goes through [d] *)
Definition dominates (root d n : node) : Prop :=
  forall p, walk root p n -> d ∈ p.

(** [n] can be reached from the root without going through [d] *)
Inductive avoiding (root d : node) : node -> Prop :=
| avoiding_root : root <> d -> avoiding root d root
| avoiding_step u v :
    avoiding root d u -> v ∈ successors u -> v <> d -> avoiding root d v.

(** *** The invariants of the loop *)

(** along the edge from [u] to [v] the path of [v] has no node that is
    neither [v] nor on the path of [u] *)
Definition edge_ok (doms : doms_t) (u v : node) : Prop :=
  forall pu, doms !! u = Some pu ->
    exists pv, doms !! v = Some pv /\ pv ⊆ pu ++ [v].

(** what holds of the dictionary at every point of the loop; [order] lists
    the keys in the order in which they were added *)
Record doms_inv (root : node) (doms : doms_t) (order : list node) : Prop := {
  inv_root : doms !! root = Some [root];
  inv_last : forall n p, doms !! n = Some p -> last p = Some n;
  inv_order : NoDup order;
  inv_keys : forall n, n ∈ order -> is_Some (doms !! n);
  inv_sub : forall n p, doms !! n = Some p -> sublist p order;
  inv_reach : forall n, is_Some (doms !! n) -> reachable root n;
  inv_complete : forall n p d, doms !! n = Some p -> d ∉ p -> avoiding root d n
}.

(** the edges that have been looked at since the path of their source last
    changed are in order: all the edges of the nodes that are not on the
    stack, but for the node [cur] whose successors are being looked at,
    of which the edges to [done] are in order *)
Definition edges_inv (doms : doms_t) (stack : list node) (cur : node)
    (done : list node) : Prop :=
  forall u v, v ∈ successors u -> u ∉ stack ->
    u <> cur \/ v ∈ done -> edge_ok doms u v.

(** what holds of the dictionary when the loop has ended: the invariant,
    and every edge is in order *)
Definition settled_doms (root : node) (doms : doms_t) : Prop :=
  (exists order, doms_inv root doms order) /\
  (forall u v, v ∈ successors u -> edge_ok doms u v).

(** the weight of a node in the measure of the loop *)
Definition weight (N : gset node) (doms : doms_t) (n : node) : nat :=
  match doms !! n with
  | Some p => length p
  | None => S (size N)
  end.

Definition measure (N : gset node) (doms : doms_t) : nat :=
  sum_list_with (weight N doms) (elements N).

End DominatorInfo.

(** *** An instance: a diamond with a back edge *)

Definition ex_successors (n : node) : list node :=
  match n with
  | 1%positive => [2%positive; 3%positive]
  | 2%positive => [4%positive]
  | 3%positive => [4%positive]
  | 4%positive => [5%positive; 2%positive]
  | _ => []
  end.

(** the same graph with the successors listed in another order *)
Definition ex_successors' (n : node) : list node :=
  match n with
  | 1%positive => [3%positive; 2%positive]
  | 2%positive => [4%positive]
  | 3%positive => [4%positive]
  | 4%positive => [2%positive; 5%positive]
  | _ => []
  end.

Definition ex_doms_final : doms_t :=
  <[1%positive := [1%positive]]>
  (<[2%positive := [1%positive; 2%positive]]>
  (<[3%positive := [1%positive; 3%positive]]>
  (<[4%positive := [1%positive; 4%positive]]>
  (<[5%positive := [1%positive; 4%positive; 5%positive]]> ∅)))).

End Dominators.

(** * Further notions for the passes of the restructurer *)

Module Passes.
Import Structuring Dominators.

(** [X] holds, for each of its nodes but [udom], the predecessors of the
    node *)
Definition pred_closed (predecessors_nl : node -> list node) (udom : node)
    (X : gset node) : Prop :=
  forall x y, x ∈ X -> x <> udom -> y ∈ predecessors_nl x -> y ∈ X.

(** the constraints that the lists of children hold, each as often as it
    is held *)
Definition placed (children : children_t) : list cid :=
  concat (snd <$> map_to_list children).

(** *** How the passes change the constraints *)

(** the scope [s'] is the scope [s] after its lower bound has grown *)
Definition scope_grown (s s' : ScopeConstraint) : Prop :=
  slbound s ⊆ slbound s' /\ subound s' = subound s.

(** the constraint [y] is the constraint [x] after its lower bound and the
    lower bounds of its scopes have grown; nothing else has changed *)
Definition con_grown (x y : CompoundConstraint) : Prop :=
  tag y = tag x /\ head y = head x /\ forcedup y = forcedup x /\
  forceddown y = forceddown x /\ ubound y = ubound x /\
  lbound x ⊆ lbound y /\ Forall2 scope_grown (scopes x) (scopes y).

(** the tree [t'] holds the constraints of [t], grown *)
Definition tree_grown (t t' : ctree) : Prop :=
  con_grown (t_root t) (t_root t') /\
  forall c x, t_store t !! c = Some x ->
    exists y, t_store t' !! c = Some y /\ con_grown x y.

(** a scope constraint whose bounds are equal *)
Definition fixed_scope (y : CompoundConstraint) : Prop :=
  tag y = scope /\ head y = None /\ lbound y = ubound y.

(** the tree [t] and the list [cs] are the tree [t0] and the list [cs0]
    after scope constraints have been added: the constraints of [t0] have
    grown, the list holds the new constraints after the old ones, and the
    new constraints are scope constraints whose bounds are equal *)
Definition appended (t0 : ctree) (cs0 : list cid) (t : ctree) (cs : list cid)
  : Prop :=
  tree_grown t0 t /\
  exists news, cs = cs0 ++ news /\ NoDup news /\
    (forall c, is_Some (t_store t !! c) <->
               is_Some (t_store t0 !! c) \/ c ∈ news) /\
    forall c, c ∈ news ->
      t_store t0 !! c = None /\
      exists y, t_store t !! c = Some y /\ fixed_scope y.

(** *** The edges that are not back edges

    The two loops of [structure] that give every node its attributes
    [successors_nl], [predecessors_nl] and [norm_suc_nl] and check them.
    The attributes [successors], [predecessors] and [outvars] of the nodes
    are parameters; the three new attributes are dictionaries from nodes,
    and reading the attribute of a node that has not been given it raises
    [AttributeError]. *)

Record nl_attrs : Type := mkNl {
  a_successors_nl : gmap node (list node);
  a_predecessors_nl : gmap node (list node);
  a_norm_suc_nl : gmap node (list node)
}.

Section NoLoopEdges.

Context (successors predecessors : node -> list node).
Context (outvars : node -> gset node).

(** the body of the first loop [for n in nodes] *)
Definition set_nl (doms : doms_t) (st : nl_attrs) (n : node) : result nl_attrs :=
  let* temp := dominators doms n in
  let temp2 := area doms n in
  let suc := filter (fun x => x ∉ temp) (successors n) in
  Ok (mkNl (<[n := suc]> (a_successors_nl st))
           (<[n := filter (fun x => x ∉ temp2) (predecessors n)]>
              (a_predecessors_nl st))
           (<[n := filter (fun x => x ∈ outvars n) suc]> (a_norm_suc_nl st))).

(** the attributes that the first loop gives the node [n] *)
Definition nl_successors (doms : doms_t) (n : node) : list node :=
  filter (fun x => x ∉ default [] (doms !! n)) (successors n).

Definition nl_predecessors (doms : doms_t) (n : node) : list node :=
  filter (fun x => x ∉ area doms n) (predecessors n).

(** reading an attribute *)
Definition attr (m : gmap node (list node)) (n : node) : result (list node) :=
  match m !! n with
  | Some l => Ok l
  | None => Raise AttributeError
  end.

(** the body of the second loop [for n in nodes] *)
Definition check_nl (st : nl_attrs) (n : node) : result unit :=
  let* s := attr (a_successors_nl st) n in
  let* _ := rmap (fun n2 => let* p2 := attr (a_predecessors_nl st) n2 in
                            assert (bool_decide (n ∈ p2))) s in
  let* p := attr (a_predecessors_nl st) n in
  let* _ := rmap (fun n2 => let* s2 := attr (a_successors_nl st) n2 in
                            assert (bool_decide (n ∈ s2))) p in
  Ok tt.

(** the two loops *)
Definition no_loop_edges (doms : doms_t) (nodes : list node) : result nl_attrs :=
  let* st := rfoldl (set_nl doms) (mkNl ∅ ∅ ∅) nodes in
  let* _ := rmap (check_nl st) nodes in
  Ok st.

End NoLoopEdges.

(** the predecessors of the instance [ex_successors] *)
Definition ex_predecessors (n : node) : list node :=
  match n with
  | 2%positive => [1%positive; 4%positive]
  | 3%positive => [1%positive]
  | 4%positive => [2%positive; 3%positive]
  | 5%positive => [4%positive]
  | _ => []
  end.

End Passes.

(** * Properties *)

(** ** Results and the monad *)

Lemma rbind_Ok {A B} (r : result A) (k : A -> result B) (b : B) :
  rbind r k = Ok b -> exists a, r = Ok a /\ k a = Ok b.
Proof. destruct r as [a|e]; simpl; intros H; [eauto | discriminate]. Qed.

Lemma rmap_Forall2 {A B} (f : A -> result B) (l : list A) (l' : list B) :
  rmap f l = Ok l' -> Forall2 (fun x y => f x = Ok y) l l'.
Proof.
  revert l'. induction l as [|x l IH]; simpl; intros l' H.
  - injection H as <-. constructor.
  - apply rbind_Ok in H as (y & Hy & H).
    apply rbind_Ok in H as (ys & Hys & H).
    injection H as <-. constructor; auto.
Qed.

Lemma rmap_length {A B} (f : A -> result B) (l : list A) (l' : list B) :
  rmap f l = Ok l' -> length l' = length l.
Proof. intros H. apply rmap_Forall2 in H. symmetry. eapply Forall2_length, H. Qed.

Section MonadLemmas.

Context {ConstPool : Type}.
Implicit Types s : @state ConstPool.

Lemma bind_Ok {A B} (m : M A) (k : A -> M B) s s' (b : B) :
  bind m k s = (s', Ok b) ->
  exists a s1, m s = (s1, Ok a) /\ k a s1 = (s', Ok b).
Proof.
  unfold bind. destruct (m s) as [s1 [a|e]]; intros H; [eauto | discriminate].
Qed.

Lemma liftR_Ok {A} (r : result A) s s' (a : A) :
  liftR r s = (s', Ok a) -> r = Ok a /\ s' = s.
Proof. unfold liftR. intros H. injection H as -> ->. auto. Qed.

Lemma ret_Ok {A} (x : A) s s' (a : A) :
  ret x s = (s', Ok a) -> x = a /\ s' = s.
Proof. unfold ret. intros H. injection H as -> ->. auto. Qed.

Lemma raiseM_Ok {A} (e : exn) s s' (a : A) : raiseM e s = (s', Ok a) -> False.
Proof. unfold raiseM. discriminate. Qed.

Lemma mapM_length {A B} (f : A -> M B) (l : list A) s s' (l' : list B) :
  mapM f l s = (s', Ok l') -> length l' = length l.
Proof.
  revert s s' l'. induction l as [|x l IH]; simpl; intros s s' l' H.
  - apply ret_Ok in H as [<- _]. reflexivity.
  - apply bind_Ok in H as (y & s1 & _ & H).
    apply bind_Ok in H as (ys & s2 & Hys & H).
    apply ret_Ok in H as [<- _]. simpl. f_equal. eauto.
Qed.

End MonadLemmas.

(** Decompose a successful run of a monadic computation. *)
Ltac inv_M :=
  repeat match goal with
    | H : bind _ _ _ = (_, Ok _) |- _ =>
        let a := fresh "a" in let s := fresh "s" in
        let H1 := fresh "Hm" in
        apply bind_Ok in H as (a & s & H1 & H)
    | H : liftR _ _ = (_, Ok _) |- _ =>
        let E := fresh "Hr" in apply liftR_Ok in H as [E ->]
    | H : ret _ _ = (_, Ok _) |- _ =>
        let E := fresh "He" in apply ret_Ok in H as [E ->]
    | H : raiseM _ _ = (_, Ok _) |- _ => apply raiseM_Ok in H; contradiction
    | H : rbind _ _ = Ok _ |- _ =>
        let a := fresh "a" in let H1 := fresh "Hr" in
        apply rbind_Ok in H as (a & H1 & H)
    end.

(** ** The [struct] module *)

Lemma be_bytes_length n z : length (be_bytes n z) = n.
Proof.
  revert z. induction n as [|n IH]; intros z; simpl; [reflexivity|].
  rewrite length_app, IH. simpl. lia.
Qed.

Arguments be_bytes : simpl never.

Lemma pack1_Ok c z b : pack1 c z = Ok b ->
  b = be_bytes (fsize c) z /\ fmin c <= z <= fmax c.
Proof.
  unfold pack1. destruct (_ && _) eqn:E; [|discriminate].
  intros [= <-]. apply andb_true_iff in E as [E1 E2]. split; [reflexivity | lia].
Qed.

Lemma pack_length fmt args b : pack fmt args = Ok b -> blen b = calcsize fmt.
Proof.
  unfold blen, calcsize. revert args b.
  induction fmt as [|c fmt IH]; intros [|z args] b H; simpl in H; try discriminate.
  - injection H as <-. reflexivity.
  - inv_M. injection H as <-. apply pack1_Ok in Hr as [-> _].
    apply IH in Hr0. simpl. rewrite length_app, be_bytes_length. lia.
Qed.

Lemma pack_values_length fmt vs b :
  pack_values fmt vs = Ok b -> blen b = calcsize fmt.
Proof. unfold pack_values. intros H. inv_M. eauto using pack_length. Qed.

Lemma concat_length_const {A} (n : nat) (ls : list (list A)) :
  Forall (fun l => length l = n) ls -> length (concat ls) = (n * length ls)%nat.
Proof.
  induction 1 as [|l ls Hl _ IH]; simpl; [lia|].
  rewrite length_app, IH, Hl. lia.
Qed.

Lemma rmap_pack_length {A} fmt (g : A -> list Z) (l : list A) body :
  rmap (fun x => pack fmt (g x)) l = Ok body ->
  blen (concat body) = calcsize fmt * Z.of_nat (length l).
Proof.
  intros H. pose proof (rmap_length _ _ _ H) as Hlen.
  apply rmap_Forall2 in H.
  assert (Forall (fun b => length b = Z.to_nat (calcsize fmt)) body) as HF.
  { clear Hlen. induction H as [|x y l l' Hxy _ IH]; constructor; auto.
    apply pack_length in Hxy. unfold blen, calcsize in *. lia. }
  unfold blen. rewrite (concat_length_const _ _ HF), Hlen.
  unfold calcsize. lia.
Qed.

(** ** Padding *)

Lemma getPadding_range pos : 0 <= getPadding pos < 4.
Proof. unfold getPadding. apply Z.mod_pos_bound. lia. Qed.

Lemma getPadding_aligned pos : (pos + 1 + getPadding pos) mod 4 = 0.
Proof.
  unfold getPadding.
  rewrite Zplus_mod_idemp_r.
  replace (pos + 1 + (3 - pos)) with (1 * 4) by lia.
  apply Z_mod_mult.
Qed.

Lemma zeros_length n : 0 <= n -> blen (zeros n) = n.
Proof. intros H. unfold blen, zeros. rewrite repeat_length. lia. Qed.

(** ** The two passes on one instruction *)

Lemma dict_of_snoc l kv : dict_of (l ++ [kv]) = <[fst kv := snd kv]> (dict_of l).
Proof. unfold dict_of. rewrite foldl_app. reflexivity. Qed.

Lemma dict_of_list_to_map l : dict_of l = list_to_map (reverse l).
Proof.
  induction l as [|kv l IH] using rev_ind; [reflexivity|].
  rewrite dict_of_snoc, reverse_snoc, IH. reflexivity.
Qed.

Lemma sorted_items_length_NoDup (l : list (Z * Z)) :
  NoDup (map fst l) -> length (sorted_items (dict_of l)) = length l.
Proof.
  intros Hnd. unfold sorted_items.
  rewrite (Permutation_length (merge_sort_Permutation _ _)).
  rewrite dict_of_list_to_map.
  assert (NoDup (reverse l).*1) as Hr.
  { rewrite fmap_reverse, reverse_Permutation. exact Hnd. }
  rewrite (Permutation_length (map_to_list_to_map (reverse l) Hr)).
  apply length_reverse.
Qed.

Lemma lookup_entries_keys labels pos (jumps : list (Z * string)) (l : list (Z * Z)) :
  rmap (fun kl => rbind (lbl2Off labels pos (snd kl)) (fun off => Ok (fst kl, off)))
       jumps = Ok l ->
  map fst l = map fst jumps.
Proof.
  intros H. apply rmap_Forall2 in H.
  induction H as [|x y ? ? Hxy _ IH]; [reflexivity|].
  simpl. rewrite IH. f_equal. inv_M. injection Hxy as <-. reflexivity.
Qed.

Lemma assemble_tableswitch_length first labels pos param jumps default b :
  assemble_tableswitch first labels pos param jumps default = Ok b ->
  blen b = 13 + getPadding pos + 4 * Z.of_nat (length jumps).
Proof.
  unfold assemble_tableswitch. intros H. inv_M. injection H as <-.
  pose proof (getPadding_range pos) as Hp.
  apply pack_length in Hr1. apply rmap_pack_length in Hr2.
  apply rmap_length in Hr0.
  pose proof (zeros_length (getPadding pos) ltac:(lia)) as Hz.
  unfold blen in *. simpl. rewrite !length_app.
  change (calcsize [fi; fi; fi]) with 12 in Hr1.
  change (calcsize [fi]) with 4 in Hr2. lia.
Qed.

Lemma assemble_lookupswitch_length first labels pos jumps default b :
  assemble_lookupswitch first labels pos jumps default = Ok b ->
  exists tbl, lookup_table labels pos jumps = Ok tbl /\
    blen b = 9 + getPadding pos + 8 * Z.of_nat (length tbl).
Proof.
  unfold assemble_lookupswitch. intros H. inv_M. injection H as <-.
  exists a0. split; [assumption|].
  pose proof (getPadding_range pos) as Hp.
  apply pack_length in Hr1. apply rmap_pack_length in Hr2.
  pose proof (zeros_length (getPadding pos) ltac:(lia)) as Hz.
  unfold blen in *. simpl. rewrite !length_app.
  change (calcsize [fi; fi]) with 8 in Hr1, Hr2. lia.
Qed.

Lemma lookup_table_length_NoDup labels pos jumps tbl :
  lookup_table labels pos jumps = Ok tbl ->
  NoDup (map fst jumps) -> length tbl = length jumps.
Proof.
  unfold lookup_table. intros H Hnd. inv_M. injection H as <-.
  rewrite sorted_items_length_NoDup.
  - eapply rmap_length, Hr.
  - erewrite lookup_entries_keys by eassumption. exact Hnd.
Qed.

Section EmitProps.

Context (ins : instructions) {ConstPool : Type}.
Context (getItemRaw : ConstPool -> arg * list arg -> ConstPool * result Z).
Implicit Types s : @state ConstPool.

(** Resolving the pool references of an operand list keeps every operand
    that is not a pool reference. *)
Lemma resolve_shape fuel lbls v s s' v' :
  resolve getItemRaw fuel lbls v s = (s', Ok v') ->
  v' = v \/ exists r i, v = VPoolRef r /\ v' = VInt i.
Proof.
  destruct v; simpl; intros H; inv_M; subst; eauto.
Qed.

Lemma mapM_resolve_cons fuel lbls v vs s s' l :
  mapM (resolve getItemRaw fuel lbls) (v :: vs) s = (s', Ok l) ->
  exists v' l', l = v' :: l' /\ length l' = length vs /\
    (v' = v \/ exists r i, v = VPoolRef r /\ v' = VInt i).
Proof.
  simpl. intros H. inv_M. subst. apply resolve_shape in Hm.
  apply mapM_length in Hm0. eauto.
Qed.

Lemma mapM_resolve_nil fuel lbls s s' l :
  mapM (resolve getItemRaw fuel lbls) [] s = (s', Ok l) -> l = [].
Proof. simpl. intros H. inv_M. auto. Qed.

(** The emit pass never produces bytes for [wide]: [args] is passed to
    [struct.pack] as one argument, which is not an integer. *)
Lemma pack_values_args fmt args : pack_values fmt [VInts args] = Raise StructError.
Proof. reflexivity. Qed.

(** Whenever the emit pass produces bytes for an instruction that is not a
    [lookupswitch] with a repeated key, the layout pass computed their
    length. *)
Lemma emit_length_agrees fuel instr labels pos lbls s s' b :
  assembleInstruction ins getItemRaw fuel instr labels pos lbls s = (s', Ok (Some b)) ->
  distinct_keys instr ->
  getInstrLen ins instr pos = Ok (blen b).
Proof.
  destruct instr as [op vs]. unfold assembleInstruction, getInstrLen, distinct_keys.
  cbn [fst snd]. intros H Hd.
  apply bind_Ok in H as (first & s0 & Hfirst & H).
  apply bind_Ok in H as (vs1 & s1 & Hres & H).
  apply bind_Ok in H as (vs2 & s2 & Hlbl & H).
  destruct (_op_structs ins op) as [fmt|] eqn:Hfmt.
  - apply bind_Ok in H as (rest & s3 & Hrest & H).
    apply ret_Ok in H as [[= <-] _]. apply liftR_Ok in Hrest as [Hrest _].
    apply pack_values_length in Hrest.
    unfold blen in *. simpl. f_equal. lia.
  - assert (Hhead : forall v l, vs2 = v :: l ->
              (forall n, v <> VInt n) -> exists vs', vs = v :: vs').
    { intros v l -> Hv. destruct vs as [|v0 vs].
      - apply mapM_resolve_nil in Hres as ->.
        destruct (str_in op (instrs_lbl ins)); inv_M. discriminate.
      - apply mapM_resolve_cons in Hres as (v' & l' & -> & _ & Hv').
        destruct (str_in op (instrs_lbl ins)).
        + destruct v'; inv_M. injection He as <- _. exfalso. eapply Hv. reflexivity.
        + apply ret_Ok in Hlbl as [[= -> ->] _].
          destruct Hv' as [->|(r & i & _ & ->)]; [eauto|].
          exfalso. eapply Hv. reflexivity. }
    destruct (String.eqb op "wide").
    + destruct vs2 as [|[] ?]; inv_M. rewrite pack_values_args in Hr. discriminate.
    + destruct vs2 as [|v l]; [inv_M|].
      destruct v; inv_M.
      * destruct (Hhead _ _ eq_refl ltac:(discriminate)) as [vs' ->].
        destruct (String.eqb op "tableswitch");
          [|destruct (String.eqb op "lookupswitch"); inv_M; discriminate].
        apply bind_Ok in H as (b' & s3 & Hb & H).
        apply ret_Ok in H as [[= <-] _]. apply liftR_Ok in Hb as [Hb _].
        apply assemble_tableswitch_length in Hb. simpl. rewrite Hb. reflexivity.
      * destruct (Hhead _ _ eq_refl ltac:(discriminate)) as [vs' ->].
        destruct (String.eqb op "tableswitch"); [inv_M|].
        destruct (String.eqb op "lookupswitch"); [|inv_M; discriminate].
        apply bind_Ok in H as (b' & s3 & Hb & H).
        apply ret_Ok in H as [[= <-] _]. apply liftR_Ok in Hb as [Hb _].
        apply assemble_lookupswitch_length in Hb as (tbl & Htbl & ->).
        rewrite (lookup_table_length_NoDup _ _ _ _ Htbl Hd). reflexivity.
Qed.

(** For [wide] the layout pass counts the two components of the operand
    [(subop, args)], whatever the sub-opcode and its arguments are, and the
    emit pass never returns. *)
Lemma getInstrLen_wide subop args vs pos :
  _op_structs ins "wide" = None ->
  getInstrLen ins ("wide"%string, VWide subop args :: vs) pos = Ok 4.
Proof. unfold getInstrLen. cbn [fst snd]. intros ->. reflexivity. Qed.

Lemma emit_wide_never_returns fuel vs labels pos lbls s s' b :
  _op_structs ins "wide" = None ->
  assembleInstruction ins getItemRaw fuel ("wide"%string, vs) labels pos lbls s
    <> (s', Ok (Some b)).
Proof.
  intros Hfmt H. unfold assembleInstruction in H. cbn [fst snd] in H.
  apply bind_Ok in H as (first & s0 & Hfirst & H).
  apply bind_Ok in H as (vs1 & s1 & Hres & H).
  apply bind_Ok in H as (vs2 & s2 & Hlbl & H).
  rewrite Hfmt in H. cbn [String.eqb Ascii.eqb Bool.eqb] in H.
  destruct vs2 as [|[] ?]; inv_M. rewrite pack_values_args in Hr. discriminate.
Qed.

End EmitProps.


Lemma pack_cons_Ok c fmt z args b :
  pack (c :: fmt) (z :: args) = Ok b ->
  exists bs, pack fmt args = Ok bs /\ b = be_bytes (fsize c) z ++ bs /\
             fmin c <= z <= fmax c.
Proof.
  simpl. intros H. inv_M. injection H as <-.
  apply pack1_Ok in Hr as [-> Hz]. eauto.
Qed.

(** C1 (the code departs from the claim).  For a [lookupswitch] that lists
    the key 1 twice, the layout pass computes the length 28 (it counts the
    cases listed), while the emit pass produces 20 bytes (it emits one case
    per distinct key): the two passes disagree on the length of the
    instruction. *)
Theorem getInstrLen_lookupswitch_mismatch :
  let instr : instruction := ("lookupswitch", [VLookup [(1, "L"); (1, "L")] "L"])%string in
  let labels : labels_t := {[ Some "L"%string := 0 ]} in
  getInstrLen jvm instr 0 = Ok 28 /\
  exists b,
    assembleInstruction jvm list_getItemRaw 1 instr labels 0 ∅ (mkState ∅ [])
      = (mkState ∅ [], Ok (Some b)) /\
    blen b = 20.
Proof.
  split; [reflexivity|]. eexists. split; [vm_compute; reflexivity | reflexivity].
Qed.

Section SwitchProps.

Context (ins : instructions) {ConstPool : Type}.
Context (getItemRaw : ConstPool -> arg * list arg -> ConstPool * result Z).
Implicit Types s : @state ConstPool.

Lemma assemble_tableswitch_shape first labels pos param jumps default b :
  assemble_tableswitch first labels pos param jumps default = Ok b ->
  exists off rest, lbl2Off labels pos default = Ok off /\
    b = (first :: zeros (getPadding pos)) ++ be_bytes 4 off ++ rest.
Proof.
  unfold assemble_tableswitch. intros H.
  apply rbind_Ok in H as (off & Hoff & H).
  apply rbind_Ok in H as (js & Hjs & H).
  apply rbind_Ok in H as (hdr & Hhdr & H).
  apply rbind_Ok in H as (body & Hbody & H).
  injection H as <-. apply pack_cons_Ok in Hhdr as (bs & _ & -> & _).
  exists off, (bs ++ concat body). split; [assumption|].
  simpl. rewrite <- !app_assoc. reflexivity.
Qed.

Lemma assemble_lookupswitch_shape first labels pos jumps default b :
  assemble_lookupswitch first labels pos jumps default = Ok b ->
  exists off tbl, lbl2Off labels pos default = Ok off /\
    lookup_table labels pos jumps = Ok tbl /\
    b = (first :: zeros (getPadding pos)) ++ be_bytes 4 off
        ++ be_bytes 4 (Z.of_nat (length tbl))
        ++ concat (map (fun kv => be_bytes 4 (fst kv) ++ be_bytes 4 (snd kv)) tbl).
Proof.
  unfold assemble_lookupswitch. intros H.
  apply rbind_Ok in H as (off & Hoff & H).
  apply rbind_Ok in H as (tbl & Htbl & H).
  apply rbind_Ok in H as (hdr & Hhdr & H).
  apply rbind_Ok in H as (part2 & Hpart2 & H).
  injection H as <-.
  apply pack_cons_Ok in Hhdr as (bs & Hbs & -> & _).
  apply pack_cons_Ok in Hbs as (bs' & Hbs' & -> & _).
  destruct bs'; [|discriminate].
  exists off, tbl. split; [assumption|]. split; [assumption|].
  assert (part2 = map (fun kv => be_bytes 4 (fst kv) ++ be_bytes 4 (snd kv)) tbl) as ->.
  { clear -Hpart2. apply rmap_Forall2 in Hpart2.
    induction Hpart2 as [|x y ? ? Hxy _ IH]; [reflexivity|].
    simpl. rewrite IH. f_equal.
    apply pack_cons_Ok in Hxy as (bs & Hbs & -> & _).
    apply pack_cons_Ok in Hbs as (bs' & Hbs' & -> & _).
    destruct bs'; [|discriminate]. rewrite app_nil_r. reflexivity. }
  change (fsize fi) with 4%nat. rewrite app_nil_r, <- !app_assoc. reflexivity.
Qed.

(** The operand of a successfully emitted switch. *)
Lemma emit_switch_inv fuel op vs labels pos lbls s s' b :
  op = "tableswitch"%string \/ op = "lookupswitch"%string ->
  _op_structs ins op = None ->
  assembleInstruction ins getItemRaw fuel (op, vs) labels pos lbls s = (s', Ok (Some b)) ->
  exists first v vs',
    opcode ins op = Ok first /\ vs = v :: vs' /\
    match v with
    | VTable param jumps default =>
        op = "tableswitch"%string /\
        assemble_tableswitch first labels pos param jumps default = Ok b
    | VLookup jumps default =>
        op = "lookupswitch"%string /\
        assemble_lookupswitch first labels pos jumps default = Ok b
    | _ => False
    end.
Proof.
  intros Hop Hfmt. unfold assembleInstruction. cbn [fst snd]. intros H.
  apply bind_Ok in H as (first & s0 & Hfirst & H).
  apply liftR_Ok in Hfirst as [Hfirst ->].
  apply bind_Ok in H as (vs1 & s1 & Hres & H).
  apply bind_Ok in H as (vs2 & s2 & Hlbl & H).
  rewrite Hfmt in H.
  assert (String.eqb op "wide" = false) as Hw by (destruct Hop; subst; reflexivity).
  rewrite Hw in H.
  assert (Hhead : forall v l, vs2 = v :: l ->
            (forall n, v <> VInt n) -> exists vs', vs = v :: vs').
  { intros v l -> Hv. destruct vs as [|v0 vs].
    - apply mapM_resolve_nil in Hres as ->.
      destruct (str_in op (instrs_lbl ins)); inv_M. discriminate.
    - apply mapM_resolve_cons in Hres as (v' & l' & -> & _ & Hv').
      destruct (str_in op (instrs_lbl ins)).
      + destruct v'; inv_M. injection He as <- _. exfalso. eapply Hv. reflexivity.
      + apply ret_Ok in Hlbl as [[= -> ->] _].
        destruct Hv' as [->|(r & i & _ & ->)]; [eauto|].
        exfalso. eapply Hv. reflexivity. }
  destruct vs2 as [|v l]; [inv_M|].
  destruct v; inv_M.
  - destruct (Hhead _ _ eq_refl ltac:(discriminate)) as [vs' ->].
    exists first, (VTable param jumps default), vs'.
    split; [assumption|]. split; [reflexivity|].
    destruct (String.eqb op "tableswitch") eqn:E;
      [|destruct (String.eqb op "lookupswitch"); inv_M; discriminate].
    apply String.eqb_eq in E.
    apply bind_Ok in H as (b' & s3 & Hb & H).
    apply ret_Ok in H as [[= <-] _]. apply liftR_Ok in Hb as [Hb _]. auto.
  - destruct (Hhead _ _ eq_refl ltac:(discriminate)) as [vs' ->].
    exists first, (VLookup jumps default), vs'.
    split; [assumption|]. split; [reflexivity|].
    destruct (String.eqb op "tableswitch") eqn:E; [inv_M|].
    destruct (String.eqb op "lookupswitch") eqn:E'; [|inv_M; discriminate].
    apply String.eqb_eq in E'.
    apply bind_Ok in H as (b' & s3 & Hb & H).
    apply ret_Ok in H as [[= <-] _]. apply liftR_Ok in Hb as [Hb _]. auto.
Qed.

(** C3.  A [tableswitch] or [lookupswitch] emitted at the offset [pos]
    consists of the opcode, [getPadding pos = (3 - pos) mod 4] bytes of
    padding and then the 4-byte offset of the default label; that field
    begins at the offset [pos + 1 + getPadding pos] of the code array, which
    is a multiple of 4 for every [pos]. *)
Theorem switch_default_aligned fuel op vs labels pos lbls s s' b :
  op = "tableswitch"%string \/ op = "lookupswitch"%string ->
  _op_structs ins op = None ->
  assembleInstruction ins getItemRaw fuel (op, vs) labels pos lbls s = (s', Ok (Some b)) ->
  (pos + 1 + getPadding pos) mod 4 = 0 /\
  default_field_after_padding labels pos vs b.
Proof.
  intros Hop Hfmt H. split; [apply getPadding_aligned|].
  unfold default_field_after_padding.
  apply emit_switch_inv in H as (first & v & vs' & _ & -> & Hv); [|assumption..].
  assert (blen (first :: zeros (getPadding pos)) = 1 + getPadding pos) as Hlen.
  { pose proof (getPadding_range pos) as Hp.
    pose proof (zeros_length (getPadding pos) ltac:(lia)) as Hz.
    unfold blen in *. simpl. lia. }
  destruct v; try contradiction; destruct Hv as [_ Hv].
  - apply assemble_tableswitch_shape in Hv as (off & rest & Hoff & ->).
    exists first, default, off, rest. auto.
  - apply assemble_lookupswitch_shape in Hv as (off & tbl & Hoff & _ & ->).
    exists first, default, off. eexists. split; [reflexivity|]. split; [eassumption|].
    split; [reflexivity | assumption].
Qed.

End SwitchProps.

(** ** Decoding *)

Lemma Z_of_byte_of_Z z : Z_of_byte (byte_of_Z z) = z mod 256.
Proof.
  unfold Z_of_byte, byte_of_Z.
  pose proof (Z.mod_pos_bound z 256 ltac:(lia)) as Hm.
  destruct (Byte.of_N (Z.to_N (z mod 256))) as [b|] eqn:E.
  - apply Byte.to_of_N in E. rewrite E. lia.
  - apply Byte.of_N_None_iff in E. lia.
Qed.

Lemma be_decode_snoc bs b : be_decode (bs ++ [b]) = be_decode bs * 256 + Z_of_byte b.
Proof. unfold be_decode. rewrite fold_left_app. reflexivity. Qed.

Lemma be_decode_be_bytes n z :
  0 <= z < 256 ^ Z.of_nat n -> be_decode (be_bytes n z) = z.
Proof.
  revert z. induction n as [|n IH]; intros z Hz.
  - change (256 ^ Z.of_nat 0) with 1 in Hz. cbv. lia.
  - rewrite Nat2Z.inj_succ, Z.pow_succ_r in Hz by lia.
    change (be_bytes (S n) z) with (be_bytes n (z / 256) ++ [byte_of_Z z]).
    rewrite be_decode_snoc, Z_of_byte_of_Z, IH.
    + pose proof (Z.div_mod z 256 ltac:(lia)). lia.
    + split; [apply Z.div_pos; lia | apply Z.div_lt_upper_bound; lia].
Qed.

Lemma code_of_attr_app (a b c1 c2 code rest : list byte) :
  length a = 2%nat -> length b = 4%nat -> length c1 = 2%nat -> length c2 = 2%nat ->
  blen code <= 4294967295 ->
  code_of_attr (a ++ b ++ c1 ++ c2 ++ be_bytes 4 (blen code) ++ code ++ rest) = code.
Proof.
  intros Ha Hb Hc1 Hc2 Hn. unfold code_of_attr.
  replace (drop 10 (a ++ b ++ c1 ++ c2 ++ be_bytes 4 (blen code) ++ code ++ rest))
    with (be_bytes 4 (blen code) ++ code ++ rest).
  2:{ rewrite !app_assoc. rewrite <- !(app_assoc _ code rest).
      rewrite <- (app_assoc _ (be_bytes _ _)).
      rewrite drop_app_length'; [reflexivity|]. rewrite !length_app. lia. }
  replace (drop 14 (a ++ b ++ c1 ++ c2 ++ be_bytes 4 (blen code) ++ code ++ rest))
    with (code ++ rest).
  2:{ rewrite !app_assoc. rewrite <- (app_assoc _ code rest).
      rewrite drop_app_length'; [reflexivity|].
      rewrite !length_app, be_bytes_length. lia. }
  rewrite (take_app_length' (be_bytes 4 (blen code)))
    by (symmetry; apply be_bytes_length).
  rewrite be_decode_be_bytes by (unfold blen in *; simpl; lia).
  apply take_app_length'. unfold blen. lia.
Qed.

(** ** Undefined labels *)

Lemma lbl2Off_defined labels pos lbl off :
  labels !! Some lbl = Some off -> lbl2Off labels pos lbl = Ok (off - pos).
Proof. unfold lbl2Off. intros ->. reflexivity. Qed.

Lemma lbl2Off_undefined labels pos lbl p :
  labels !! Some lbl = None -> labels !! None = Some p ->
  lbl2Off labels pos lbl =
    Raise (AssemblerError
      ("Undefined label: " +:+ lbl +:+ newline +:+
       "Defined labels for current method are: " +:+
       join ", " (sorted_labels labels))).
Proof. unfold lbl2Off. intros -> ->. reflexivity. Qed.

Lemma lbl2Off_undefined_all_labelled labels pos lbl :
  labels !! Some lbl = None -> labels !! None = None ->
  lbl2Off labels pos lbl = Raise KeyError.
Proof. unfold lbl2Off. intros -> ->. reflexivity. Qed.

(** C7 (the code departs from the claim).  In the method [L0: goto L1]
    every statement has a label, so the label table has no key [None];
    the emit pass then fails on the undefined label [L1] with the
    [KeyError] of [del labels[None]], not with the undefined-label error. *)
Theorem undefined_label_all_labelled :
  snd (assembleCodeAttr jvm list_getItemRaw 1
         [SIns (Some "L0"%string) (Some ("goto"%string, [VStr "L1"]))]
         ∅ false false (mkState ∅ []))
  = Raise KeyError.
Proof. vm_compute. reflexivity. Qed.

Section S1.

Context (ins : instructions) {ConstPool : Type}.
Context (getItemRaw : ConstPool -> arg * list arg -> ConstPool * result Z).
Implicit Types s : @state ConstPool.

Lemma S1_formats :
  S1_catalogue ins ->
  _op_structs ins "ldc" = Some [fB] /\ _op_structs ins "bipush" = Some [fb] /\
  _op_structs ins "goto" = Some [fh].
Proof.
  intros (_ & _ & H1 & H2 & H3). unfold _op_structs, _format_ops.
  cbn [lookup_format]. rewrite H1, H2, H3. repeat split; reflexivity.
Qed.

Lemma S1_layout r :
  S1_catalogue ins ->
  layout ins (S1_lines r) ∅ [] 0 = Ok (S1_labels, [0; 2; 4], 7).
Proof.
  intros Hc. destruct (S1_formats Hc) as (F1 & F2 & F3).
  unfold S1_lines.
  cbn [layout]. unfold getInstrLen at 1. cbn [fst snd]. rewrite F1. cbn [rbind].
  cbn [layout]. unfold getInstrLen at 1. cbn [fst snd]. rewrite F2. cbn [rbind].
  cbn [layout]. unfold getInstrLen at 1. cbn [fst snd]. rewrite F3. cbn [rbind].
  reflexivity.
Qed.

Local Arguments opcode : simpl never.
Local Arguments _op_structs : simpl never.
Local Arguments str_in : simpl never.
Local Arguments lbl2Off : simpl never.
Local Arguments toIndex : simpl never.

Lemma S1_emit fuel lbls r s s1 :
  S1_catalogue ins ->
  toIndex getItemRaw fuel lbls r [] s = (s1, Ok 3) ->
  emit ins getItemRaw fuel (S1_lines r) S1_labels lbls [] s
    = (s1, Ok [x12; x03; x10; x05; xa7; xff; xfc]).
Proof.
  intros Hc Hr. destruct (S1_formats Hc) as (F1 & F2 & F3).
  destruct Hc as ((O1 & O2 & O3) & (L1 & L2 & L3) & _).
  assert (forall pos, lbl2Off S1_labels pos "L0" = Ok (0 - pos)) as HL0.
  { intros pos. apply lbl2Off_defined. reflexivity. }
  unfold S1_lines. cbn [emit].
  unfold assembleInstruction, bind, liftR, ret, raiseM. cbn [fst snd mapM resolve].
  unfold bind, ret. rewrite O1, Hr, L1, F1. cbn.
  rewrite O2, L2, F2. cbn.
  rewrite O3, L3, HL0, F3. cbn.
  reflexivity.
Qed.

Lemma S1_lines_of r : lines_of (S1_statements r) = S1_lines r.
Proof. reflexivity. Qed.

Lemma S1_directives_of r : directives_of (S1_statements r) = [].
Proof. reflexivity. Qed.

(** C2 (amended).  For the method [L0: ldc [s1]], [bipush 5], [goto L0],
    where [s1] resolves to the index 3, the layout pass puts [L0] at 0 and
    the three instructions at 0, 2 and 4, and the emit pass produces the
    seven bytes 12 03 10 05 A7 FF FC: the operand of [goto], emitted at
    offset 4, is the 2-byte signed offset [0 - 4 = -4].  These are the code
    bytes of every Code attribute assembled from the method. *)
Theorem S1_code_bytes fuel lbls r s s1 :
  S1_catalogue ins ->
  toIndex getItemRaw fuel lbls r [] s = (s1, Ok 3) ->
  layout ins (S1_lines r) ∅ [] 0 = Ok (S1_labels, [0; 2; 4], 7) /\
  emit ins getItemRaw fuel (S1_lines r) S1_labels lbls [] s
    = (s1, Ok [x12; x03; x10; x05; xa7; xff; xfc]) /\
  forall addLineNumbers jasmode s' attr,
    assembleCodeAttr ins getItemRaw fuel (S1_statements r) lbls
      addLineNumbers jasmode s = (s', Ok (Some attr)) ->
    code_of_attr attr = [x12; x03; x10; x05; xa7; xff; xfc].
Proof.
  intros Hc Hr.
  pose proof (S1_layout r Hc) as Hlay.
  pose proof (S1_emit fuel lbls r s s1 Hc Hr) as Hemit.
  split; [assumption|]. split; [assumption|].
  intros aln jas s' attr H.
  unfold assembleCodeAttr in H.
  change (S1_statements r) with
    (SIns (Some "L0"%string) (Some ("ldc"%string, [VPoolRef r])) :: tl (S1_statements r)) in H at 1.
  cbv beta iota in H.
  rewrite S1_lines_of, S1_directives_of, Hlay in H.
  apply bind_Ok in H as (lay & s0 & Hl & H).
  apply liftR_Ok in Hl as [[= <-] ->].
  apply bind_Ok in H as (code & s2 & He & H).
  rewrite Hemit in He. injection He as <- Hcode.
  apply bind_Ok in H as (dirs & s3 & Hd & H).
  apply ret_Ok in Hd as [<- ->].
  apply bind_Ok in H as (attributes & s4 & _ & H).
  apply bind_Ok in H as (name_ind & s5 & _ & H).
  apply bind_Ok in H as (hdr & s6 & Hhdr & H).
  apply liftR_Ok in Hhdr as [Hhdr ->].
  apply bind_Ok in H as (ne & s7 & _ & H).
  apply bind_Ok in H as (na & s8 & _ & H).
  apply ret_Ok in H as [[= <-] _].
  apply pack_cons_Ok in Hhdr as (b1 & Hhdr & -> & _).
  apply pack_cons_Ok in Hhdr as (b2 & Hhdr & -> & _).
  apply pack_cons_Ok in Hhdr as (b3 & Hhdr & -> & _).
  apply pack_cons_Ok in Hhdr as (b4 & Hhdr & -> & _).
  apply pack_cons_Ok in Hhdr as (b5 & Hhdr & -> & Hlen).
  destruct b5; [|discriminate].
  rewrite app_nil_r, <- !app_assoc.
  rewrite code_of_attr_app; auto using be_bytes_length.
  apply Hlen.
Qed.

End S1.

Lemma jvm_S1_catalogue : S1_catalogue jvm.
Proof. repeat split; reflexivity. Qed.

Lemma S1_code_bytes_witness :
  S1_catalogue jvm /\
  toIndex list_getItemRaw 3 S1_lbls 1%positive [] S1_state = (S1_state', Ok 3) /\
  (layout jvm (S1_lines 1%positive) ∅ [] 0 = Ok (S1_labels, [0; 2; 4], 7) /\
   emit jvm list_getItemRaw 3 (S1_lines 1%positive) S1_labels S1_lbls [] S1_state
     = (S1_state', Ok [x12; x03; x10; x05; xa7; xff; xfc]) /\
   forall addLineNumbers jasmode s' attr,
     assembleCodeAttr jvm list_getItemRaw 3 (S1_statements 1%positive) S1_lbls
       addLineNumbers jasmode S1_state = (s', Ok (Some attr)) ->
     code_of_attr attr = [x12; x03; x10; x05; xa7; xff; xfc]).
Proof.
  split; [repeat split; reflexivity|].
  split; [vm_compute; reflexivity|].
  apply (S1_code_bytes jvm list_getItemRaw 3 S1_lbls 1%positive S1_state S1_state').
  - repeat split; reflexivity.
  - vm_compute; reflexivity.
Defined.

(** C2 (as stated).  In an instance of the method in which [s1] resolves
    to the index 3, the code bytes of the assembled attribute are not
    12 03 10 05 A7 FF FB. *)
Lemma S1_claimed_bytes_refuted :
  S1_catalogue jvm /\
  toIndex list_getItemRaw 3 S1_lbls 1%positive [] S1_state = (S1_state', Ok 3) /\
  (exists attr,
     snd (assembleCodeAttr jvm list_getItemRaw 3 (S1_statements 1%positive)
            S1_lbls false false S1_state) = Ok (Some attr) /\
     code_of_attr attr <> [x12; x03; x10; x05; xa7; xff; xfb]).
Proof.
  split; [repeat split; reflexivity|].
  split; [vm_compute; reflexivity|].
  eexists. split; [vm_compute; reflexivity|].
  vm_compute. discriminate.
Qed.

(** ** Pool references *)

Section PoolProps.

Context {ConstPool : Type}.
Context (getItemRaw : ConstPool -> arg * list arg -> ConstPool * result Z).
Implicit Types s : @state ConstPool.

Lemma getLabel_forbidden fuel lbls lbl forbidden s :
  str_in lbl forbidden = true ->
  getLabel getItemRaw fuel lbls lbl forbidden s =
    (s, Raise (AssemblerError
                 ("Recursive constant pool reference: " +:+ join ", " forbidden))).
Proof. unfold getLabel, getLabel_body. intros ->. reflexivity. Qed.

Lemma getLabel_descend fuel lbls lbl forbidden s :
  str_in lbl forbidden = false ->
  getLabel getItemRaw fuel lbls lbl forbidden s =
    match lbls !! lbl with
    | Some r => toIndex getItemRaw fuel lbls r (forbidden ++ [lbl]) s
    | None => (s, Raise KeyError)
    end.
Proof.
  unfold getLabel, getLabel_body. intros ->. destruct (lbls !! lbl); reflexivity.
Qed.

Lemma toIndex_labelled fuel lbls r l forbidden s :
  labelled (heap s) r l ->
  toIndex getItemRaw (S fuel) lbls r forbidden s =
    bind (getLabel getItemRaw fuel lbls l forbidden)
         (fun i => bind (modify r (set_index i)) (fun _ => ret i)) s.
Proof.
  intros (o & Ho & Hi & Hl). cbn [toIndex]. unfold bind at 1, deref.
  rewrite Ho, Hi, Hl. reflexivity.
Qed.

Lemma str_in_singleton_ne a b : a <> b -> str_in b [a] = false.
Proof.
  intros H. unfold str_in. simpl. rewrite orb_false_r.
  apply String.eqb_neq. congruence.
Qed.

(** C6.  When the labels [a] and [b] are each bound to a labelled
    reference naming the other, resolving [a] fails with the
    recursive-pool-reference error, whose message lists [a] and [b] (the
    labels entered so far).  In general [getLabel] fails with that error,
    listing the forbidden labels, exactly when it is entered with a label
    that is already forbidden, and otherwise descends into the reference
    bound to the label with the label appended to the forbidden ones. *)
Theorem getLabel_cycle fuel lbls a b ra rb s :
  lbls !! a = Some ra -> lbls !! b = Some rb ->
  labelled (heap s) ra b -> labelled (heap s) rb a ->
  getLabel getItemRaw (S (S fuel)) lbls a [] s =
    (s, Raise (AssemblerError
                 ("Recursive constant pool reference: " +:+
                  join ", " (if String.eqb a b then [a] else [a; b])))) /\
  getLabel_descends getItemRaw lbls.
Proof.
  intros Ha Hb Hra Hrb. split.
  2:{ intros. split; [apply getLabel_forbidden | apply getLabel_descend]. }
  rewrite getLabel_descend by reflexivity. rewrite Ha. cbn [app].
  rewrite (toIndex_labelled _ _ _ _ _ _ Hra). unfold bind at 1.
  destruct (String.eqb a b) eqn:E.
  - apply String.eqb_eq in E. subst b.
    rewrite getLabel_forbidden; [reflexivity|].
    unfold str_in. simpl. rewrite String.eqb_refl. reflexivity.
  - apply String.eqb_neq in E.
    rewrite getLabel_descend by (apply str_in_singleton_ne; assumption).
    rewrite Hb. cbn [app].
    rewrite (toIndex_labelled _ _ _ _ _ _ Hrb). unfold bind at 1.
    rewrite getLabel_forbidden; [reflexivity|].
    unfold str_in. simpl. rewrite String.eqb_refl. reflexivity.
Qed.

(** *** Memoisation *)

Local Notation keeps := (@keeps ConstPool _) (only parsing).

Lemma keeps_ret {A} P (a : A) : keeps P (ret a).
Proof. intros s Hs. exact Hs. Qed.

Lemma keeps_raiseM {A} P e : keeps P (@raiseM _ A e).
Proof. intros s Hs. exact Hs. Qed.

Lemma keeps_liftR {A} P (r : result A) : keeps P (liftR r).
Proof. intros s Hs. exact Hs. Qed.

Lemma keeps_bind {A B} P (m : M A) (k : A -> M B) :
  keeps P m -> (forall a, keeps P (k a)) -> keeps P (bind m k).
Proof.
  intros Hm Hk s Hs. unfold bind. specialize (Hm s Hs).
  destruct (m s) as [s1 [a|e]]; simpl in *; [apply Hk, Hm | exact Hm].
Qed.

Lemma keeps_mapM {A B} P (f : A -> M B) (l : list A) :
  (forall x, keeps P (f x)) -> keeps P (mapM f l).
Proof.
  intros Hf. induction l as [|x l IH]; simpl; [apply keeps_ret|].
  apply keeps_bind; [apply Hf|]. intros y.
  apply keeps_bind; [apply IH|]. intros ys. apply keeps_ret.
Qed.

Section Keeps.

(** [P] is a property of the object store that the writes of [toIndex]
    keep: [toIndex] writes [args] at any time, and [index] only of an
    object whose [index] was [None] when the call was entered. *)
Variable P : @state ConstPool -> Prop.
Hypothesis P_cpool : forall s cp, P s -> P (mkState (heap s) cp).
Hypothesis P_set_args : forall self a, keeps P (modify self (set_args a)).
Hypothesis P_set_index : forall s self o,
  P s -> heap s !! self = Some o -> index o = None ->
  forall j, keeps P (modify self (set_index j)).

Lemma keeps_getItem l : keeps P (getItem getItemRaw l).
Proof.
  destruct l as [|t rest]; [apply keeps_raiseM|].
  intros s Hs. unfold getItem. destruct (getItemRaw (cpool s) (t, rest)).
  apply P_cpool, Hs.
Qed.

Lemma keeps_toIndex fuel lbls self forbidden :
  keeps P (toIndex getItemRaw fuel lbls self forbidden).
Proof.
  revert self forbidden. induction fuel as [|fuel IH]; intros self forbidden.
  - apply keeps_raiseM.
  - intros s Hs. cbn [toIndex]. unfold bind at 1, deref.
    destruct (heap s !! self) as [o|] eqn:Ho; [|exact Hs].
    destruct (index o) as [j|] eqn:Hj; [exact Hs|].
    pose proof (P_set_index s self o Hs Ho Hj) as Hset.
    destruct (lbl_true o) as [l|].
    + clear Ho. revert s Hs.
      apply keeps_bind.
      * unfold getLabel_body. destruct (str_in l forbidden); [apply keeps_liftR|].
        destruct (lbls !! l); [apply IH | apply keeps_raiseM].
      * intros i0. apply keeps_bind; [apply Hset|].
        intros _. apply keeps_ret.
    + clear Ho. revert s Hs.
      apply keeps_bind.
      * apply keeps_mapM. intros [| |r0]; try apply keeps_ret.
        apply keeps_bind; [apply IH|]. intros i0. apply keeps_ret.
      * intros a. apply keeps_bind; [apply P_set_args|]. intros _.
        apply keeps_bind; [apply keeps_getItem|]. intros i0.
        apply keeps_bind; [apply Hset|]. intros _.
        apply keeps_ret.
Qed.

End Keeps.

(** A call of [toIndex], on any reference, keeps the index of a resolved
    reference, whether it returns or raises. *)
Lemma toIndex_keeps_resolved r i fuel lbls self forbidden :
  keeps (fun s => resolved (heap s) r i)
        (toIndex getItemRaw fuel lbls self forbidden).
Proof.
  apply keeps_toIndex.
  - intros s cp Hs. exact Hs.
  - intros self' a s (o & Ho & Hi). unfold resolved. simpl.
    destruct (decide (self' = r)) as [->|Hne].
    + exists (set_args a o). rewrite lookup_alter_eq, Ho. auto.
    + exists o. rewrite lookup_alter_ne by assumption. auto.
  - intros s self' o (o' & Ho' & Hi') Ho Hi j s2 (o2 & Ho2 & Hi2).
    assert (self' <> r) as Hne by (intros ->; congruence).
    exists o2. simpl. rewrite lookup_alter_ne by assumption. auto.
Qed.

(** It also keeps every object in the store. *)
Lemma toIndex_keeps_object r fuel lbls self forbidden :
  keeps (fun s => is_Some (heap s !! r))
        (toIndex getItemRaw fuel lbls self forbidden).
Proof.
  apply keeps_toIndex.
  - intros s cp Hs. exact Hs.
  - intros self' a s Hs. simpl. apply lookup_alter_is_Some, Hs.
  - intros s self' o _ _ _ j s2 Hs. simpl. apply lookup_alter_is_Some, Hs.
Qed.

Lemma toIndex_resolved fuel lbls r forbidden s i :
  resolved (heap s) r i ->
  toIndex getItemRaw (S fuel) lbls r forbidden s = (s, Ok i).
Proof.
  intros (o & Ho & Hi). cbn [toIndex]. unfold bind, deref.
  rewrite Ho, Hi. reflexivity.
Qed.

Lemma set_index_resolved r j s2 s3 i :
  is_Some (heap s2 !! r) ->
  bind (modify r (set_index j)) (fun _ => ret j) s2 = (s3, Ok i) ->
  resolved (heap s3) r i.
Proof.
  intros [o2 Ho2]. unfold bind, modify, ret. intros [= <- <-].
  exists (set_index j o2). simpl. rewrite lookup_alter_eq, Ho2. auto.
Qed.

(** After a successful call the reference is resolved to the result. *)
Lemma toIndex_Ok_resolved fuel lbls r forbidden s s1 i :
  toIndex getItemRaw fuel lbls r forbidden s = (s1, Ok i) ->
  resolved (heap s1) r i.
Proof.
  destruct fuel as [|fuel]; [discriminate|].
  cbn [toIndex]. unfold bind at 1, deref.
  destruct (heap s !! r) as [o|] eqn:Ho; [|discriminate].
  destruct (index o) as [j|] eqn:Hj.
  - intros [= <- <-]. exists o. auto.
  - assert (is_Some (heap s !! r)) as Hr by (rewrite Ho; eauto).
    destruct (lbl_true o) as [l|]; intros H.
    + apply bind_Ok in H as (j & s2 & Hj2 & H).
      eapply set_index_resolved; [|exact H].
      unfold getLabel_body in Hj2.
      destruct (str_in l forbidden); [discriminate|].
      destruct (lbls !! l) as [r'|]; [|discriminate].
      pose proof (toIndex_keeps_object r fuel lbls r' (forbidden ++ [l]) s Hr) as K.
      rewrite Hj2 in K. exact K.
    + apply bind_Ok in H as (a & s2 & Ha & H).
      apply bind_Ok in H as (u & s3 & Hu & H).
      apply bind_Ok in H as (j & s4 & Hg & H).
      eapply set_index_resolved; [|exact H].
      assert (keeps (fun s => is_Some (heap s !! r))
                (mapM (fun x => match x with
                                | APool r0 =>
                                    bind (toIndex getItemRaw fuel lbls r0 [])
                                         (fun i0 => ret (AInt i0))
                                | _ => ret x
                                end) (args o))) as K1.
      { apply keeps_mapM. intros [| |r0]; try apply keeps_ret.
        apply keeps_bind; [apply toIndex_keeps_object|]. intros i0. apply keeps_ret. }
      specialize (K1 s Hr). rewrite Ha in K1. simpl in K1.
      unfold modify in Hu. injection Hu as <- _.
      assert (is_Some (heap {| heap := alter (set_args a) r (heap s2); cpool := cpool s2 |} !! r)) as K2.
      { simpl. apply lookup_alter_is_Some, K1. }
      revert Hg K2. generalize {| heap := alter (set_args a) r (heap s2); cpool := cpool s2 |}.
      intros s3 Hg K2. destruct a as [|t rest]; [discriminate|].
      unfold getItem in Hg. destruct (getItemRaw (cpool s3) (t, rest)) as [cp res].
      injection Hg as <- _. exact K2.
Qed.

(** C8.  Once a call of [toIndex] on the reference [r] has returned the
    index [i], every later call on [r] returns [i], whatever pool and
    forbidden labels it is given and whatever calls of [toIndex] were made
    in between, and it changes neither the store nor the pool. *)
Theorem toIndex_memoised fuel lbls r forbidden s s1 i :
  toIndex getItemRaw fuel lbls r forbidden s = (s1, Ok i) ->
  memoised getItemRaw (heap s1) r i.
Proof.
  intros H calls fuel' lbls' forbidden' cp' h.
  apply toIndex_resolved. simpl. subst h.
  apply toIndex_Ok_resolved in H. revert H. generalize (heap s1).
  induction calls as [|c calls IH]; intros h0 Hh0; [exact Hh0|].
  simpl. apply IH. unfold run_call.
  apply (toIndex_keeps_resolved r i _ _ _ _ (mkState h0 (c_pool c))). exact Hh0.
Qed.

End PoolProps.

(** ** The case table of [lookupswitch] *)

Lemma foldl_insert_lookup (l : list (Z * Z)) (d : gmap Z Z) (k : Z) :
  foldl (fun d kv => <[fst kv := snd kv]> d) d l !! k =
    match last_case k l with
    | Some v => Some v
    | None => d !! k
    end.
Proof.
  revert d. induction l as [|[k' v] l IH]; intros d; [reflexivity|].
  cbn [foldl last_case fst snd]. rewrite IH.
  destruct (last_case k l); [reflexivity|].
  destruct (Z.eqb_spec k k') as [->|Hne].
  - apply lookup_insert_eq.
  - apply lookup_insert_ne. congruence.
Qed.

Lemma dict_of_lookup (l : list (Z * Z)) (k : Z) : dict_of l !! k = last_case k l.
Proof.
  unfold dict_of. rewrite foldl_insert_lookup, lookup_empty.
  destruct (last_case k l); reflexivity.
Qed.

Lemma last_case_entries labels pos (jumps : list (Z * string)) (l : list (Z * Z)) k :
  rmap (fun kl => rbind (lbl2Off labels pos (snd kl)) (fun off => Ok (fst kl, off)))
       jumps = Ok l ->
  match last_case k jumps with
  | Some lab => exists off, lbl2Off labels pos lab = Ok off /\ last_case k l = Some off
  | None => last_case k l = None
  end.
Proof.
  intros H. apply rmap_Forall2 in H.
  induction H as [|[k1 lab1] [k2 off2] jumps l Hxy _ IH]; [reflexivity|].
  cbn [fst snd] in Hxy. apply rbind_Ok in Hxy as (o & Ho & [= <- <-]).
  cbn [last_case].
  destruct (last_case k jumps) as [lab|].
  - destruct IH as (off & Hoff & ->). eauto.
  - rewrite IH. destruct (k =? k1); eauto.
Qed.

Global Instance pair_le_trans : Transitive pair_le.
Proof. intros [a1 a2] [b1 b2] [c1 c2]. unfold pair_le. simpl. lia. Qed.

Global Instance pair_le_total : Total pair_le.
Proof. intros [a1 a2] [b1 b2]. unfold pair_le. simpl. lia. Qed.

Lemma sorted_items_elem (d : gmap Z Z) k v :
  (k, v) ∈ sorted_items d <-> d !! k = Some v.
Proof.
  unfold sorted_items. rewrite merge_sort_Permutation.
  apply elem_of_map_to_list.
Qed.

Lemma sorted_items_NoDup (d : gmap Z Z) : NoDup (map fst (sorted_items d)).
Proof.
  change (NoDup (sorted_items d).*1). unfold sorted_items.
  rewrite merge_sort_Permutation. apply NoDup_fst_map_to_list.
Qed.

Lemma sorted_keys_increasing (l : list (Z * Z)) :
  StronglySorted pair_le l -> NoDup (map fst l) ->
  StronglySorted Z.lt (map fst l).
Proof.
  induction 1 as [|a l Hl IH Ha]; intros Hnd; simpl; constructor.
  - apply IH. apply NoDup_cons in Hnd as [_ Hnd]. exact Hnd.
  - apply NoDup_cons in Hnd as [Hnotin _].
    apply Forall_forall. intros k Hk.
    change (k ∈ l.*1) in Hk.
    apply list_elem_of_fmap in Hk as (b & -> & Hb).
    rewrite Forall_forall in Ha. specialize (Ha _ Hb).
    destruct Ha as [Hlt|[Heq _]]; [exact Hlt|].
    exfalso. apply Hnotin. rewrite Heq.
    change (b.1 ∈ l.*1). apply list_elem_of_fmap. eauto.
Qed.

Lemma sorted_items_increasing (d : gmap Z Z) :
  StronglySorted Z.lt (map fst (sorted_items d)).
Proof.
  apply sorted_keys_increasing; [|apply sorted_items_NoDup].
  apply StronglySorted_merge_sort; apply _.
Qed.

Lemma sorted_items_length_le (l : list (Z * Z)) :
  (length (sorted_items (dict_of l)) <= length l)%nat.
Proof.
  rewrite <- (length_fmap fst (sorted_items _)), <- (length_fmap fst l).
  apply submseteq_length, NoDup_submseteq; [apply sorted_items_NoDup|].
  intros k Hk. apply list_elem_of_fmap in Hk as ([k' v] & -> & Hkv).
  apply sorted_items_elem in Hkv. rewrite dict_of_lookup in Hkv. simpl.
  clear -Hkv. induction l as [|[k1 v1] l IH]; [discriminate|].
  cbn [last_case] in Hkv. simpl.
  destruct (last_case k' l) as [v'|].
  - right. apply IH. congruence.
  - destruct (Z.eqb_spec k' k1) as [->|]; [left | discriminate].
Qed.

(** The case table: one entry per key that is listed, with the offset of
    the label given by the last case listed for that key, in increasing
    order of the keys. *)
Lemma lookup_table_spec labels pos jumps tbl :
  lookup_table labels pos jumps = Ok tbl ->
  StronglySorted Z.lt (map fst tbl) /\
  (forall k off, (k, off) ∈ tbl <->
     exists lab, last_case k jumps = Some lab /\ lbl2Off labels pos lab = Ok off) /\
  (length tbl <= length jumps)%nat.
Proof.
  unfold lookup_table. intros H.
  apply rbind_Ok in H as (l & Hl & [= <-]).
  split; [apply sorted_items_increasing|]. split.
  - intros k off. rewrite sorted_items_elem, dict_of_lookup.
    pose proof (last_case_entries labels pos jumps l k Hl) as Hk.
    destruct (last_case k jumps) as [lab|].
    + destruct Hk as (off' & Hoff' & ->). split.
      * intros [= ->]. eauto.
      * intros (lab' & [= <-] & Hlab'). congruence.
    + rewrite Hk. split; [discriminate | intros (lab' & [=] & _)].
  - rewrite <- (rmap_length _ _ _ Hl). apply sorted_items_length_le.
Qed.

Section LookupSwitch.

Context (ins : instructions) {ConstPool : Type}.
Context (getItemRaw : ConstPool -> arg * list arg -> ConstPool * result Z).
Implicit Types s : @state ConstPool.

Lemma emit_lookupswitch_inv fuel op jumps default vs labels pos lbls s s' b :
  assembleInstruction ins getItemRaw fuel (op, VLookup jumps default :: vs)
    labels pos lbls s = (s', Ok (Some b)) ->
  exists first, op = "lookupswitch"%string /\
    assemble_lookupswitch first labels pos jumps default = Ok b.
Proof.
  unfold assembleInstruction. cbn [fst snd]. intros H.
  apply bind_Ok in H as (first & s0 & Hfirst & H).
  apply bind_Ok in H as (vs1 & s1 & Hres & H).
  apply bind_Ok in H as (vs2 & s2 & Hlbl & H).
  cbn [mapM resolve] in Hres.
  apply bind_Ok in Hres as (v & s3 & Hv & Hres). apply ret_Ok in Hv as [<- ->].
  apply bind_Ok in Hres as (vs' & s4 & _ & Hres). apply ret_Ok in Hres as [<- _].
  destruct (str_in op (instrs_lbl ins)); [apply raiseM_Ok in Hlbl; contradiction|].
  apply ret_Ok in Hlbl as [<- _].
  destruct (_op_structs ins op) as [fmt|].
  { apply bind_Ok in H as (rest & s5 & Hrest & _).
    apply liftR_Ok in Hrest as [Hrest _]. discriminate. }
  destruct (String.eqb op "wide"); [apply raiseM_Ok in H; contradiction|].
  destruct (String.eqb op "tableswitch"); [apply raiseM_Ok in H; contradiction|].
  destruct (String.eqb op "lookupswitch") eqn:E.
  - apply String.eqb_eq in E.
    apply bind_Ok in H as (b' & s5 & Hb & H).
    apply ret_Ok in H as [[= <-] _]. apply liftR_Ok in Hb as [Hb _]. eauto.
  - apply bind_Ok in H as (u & s5 & _ & H). apply ret_Ok in H as [[=] _].
Qed.

(** C9.  The bytes emitted for a [lookupswitch] hold a case table with
    one entry per key listed, in increasing order of the keys, each with
    the offset of the label of the last case listed for its key; the
    emitted count is the length of that table, which is at most the number
    of cases listed and is smaller when a key is repeated: two cases for
    the key 1 give a table of one entry. *)
Theorem lookupswitch_table fuel op jumps default vs labels pos lbls s s' b :
  assembleInstruction ins getItemRaw fuel (op, VLookup jumps default :: vs)
    labels pos lbls s = (s', Ok (Some b)) ->
  case_table_emitted labels pos jumps b /\
  lookup_table {[ Some "L"%string := 0 ]} 0 [(1, "L"); (1, "L")]%string = Ok [(1, 0)].
Proof.
  intros H. split; [|vm_compute; reflexivity].
  apply emit_lookupswitch_inv in H as (first & _ & H).
  unfold case_table_emitted.
  apply assemble_lookupswitch_shape in H as (off & tbl & _ & Htbl & ->).
  exists first, off, tbl. split; [reflexivity|].
  apply lookup_table_spec, Htbl.
Qed.

End LookupSwitch.

(** ** The Code attribute *)

Lemma sum_len_concat (l : list (list byte)) : blen (concat l) = sum_len l.
Proof.
  unfold blen. induction l as [|b l IH]; [reflexivity|].
  simpl. rewrite length_app, Nat2Z.inj_add, IH. reflexivity.
Qed.

Section CodeAttr.

Context (ins : instructions) {ConstPool : Type}.
Context (getItemRaw : ConstPool -> arg * list arg -> ConstPool * result Z).
Implicit Types s : @state ConstPool.

(** every entry of the exception table is 8 bytes long *)
Lemma do_directives_excepts fuel ds labels lbls jasmode stack locals_ excepts s s' r :
  do_directives getItemRaw fuel ds labels lbls jasmode stack locals_ excepts s
    = (s', Ok r) ->
  Forall (fun e => length e = 8%nat) excepts ->
  Forall (fun e => length e = 8%nat) (snd r).
Proof.
  revert stack locals_ excepts s.
  induction ds as [|d ds IH]; intros stack locals_ excepts s H Hex.
  - apply ret_Ok in H as [<- _]. exact Hex.
  - destruct d as [name start end_ target|n|n|]; cbn [do_directives] in H;
      try (eapply IH; eassumption).
    apply bind_Ok in H as (hack & s1 & _ & H).
    apply bind_Ok in H as (u & s2 & _ & H).
    destruct (labels !! Some start); [|apply raiseM_Ok in H; contradiction].
    destruct (labels !! Some end_); [|apply raiseM_Ok in H; contradiction].
    destruct (labels !! Some target); [|apply raiseM_Ok in H; contradiction].
    apply bind_Ok in H as (i & s3 & _ & H).
    apply bind_Ok in H as (b & s4 & Hb & H).
    apply liftR_Ok in Hb as [Hb ->].
    eapply IH; [exact H|]. apply Forall_app. split; [exact Hex|].
    constructor; [|constructor]. apply pack_length in Hb.
    unfold blen in Hb. change (calcsize [fH; fH; fH; fH]) with 8 in Hb. lia.
Qed.

(** C10.  In a Code attribute produced by [assembleCodeAttr], the u32
    length field that follows the u16 name index holds
    [12 + len(code) + 8 * len(excepts) + sum of the lengths of the
    sub-attributes], and that is the number of bytes that follow the 6-byte
    header. *)
Theorem code_attr_length fuel statements lbls addLineNumbers jasmode s s' attr :
  assembleCodeAttr ins getItemRaw fuel statements lbls addLineNumbers jasmode s
    = (s', Ok (Some attr)) ->
  code_attr_layout attr.
Proof.
  unfold assembleCodeAttr, code_attr_layout. destruct statements as [|st statements].
  { intros H. apply ret_Ok in H as [[=] _]. }
  set (sts := st :: statements). clearbody sts. intros H.
  apply bind_Ok in H as (lay & s0 & _ & H).
  destruct lay as [[labels offsets] pos].
  apply bind_Ok in H as (code & s1 & _ & H).
  apply bind_Ok in H as (dirs & s2 & Hd & H).
  destruct dirs as [[stack locals_] excepts].
  apply bind_Ok in H as (attributes & s3 & _ & H).
  apply bind_Ok in H as (name_ind & s4 & _ & H).
  apply bind_Ok in H as (hdr & s5 & Hhdr & H). apply liftR_Ok in Hhdr as [Hhdr ->].
  apply bind_Ok in H as (ne & s6 & Hne & H). apply liftR_Ok in Hne as [Hne ->].
  apply bind_Ok in H as (na & s7 & Hna & H). apply liftR_Ok in Hna as [Hna ->].
  apply ret_Ok in H as [[= <-] _].
  apply do_directives_excepts in Hd; [|constructor]. cbn [snd] in Hd.
  apply pack_cons_Ok in Hhdr as (b1 & Hhdr & -> & _).
  apply pack_cons_Ok in Hhdr as (b2 & Hhdr & -> & Hlen).
  apply pack_cons_Ok in Hhdr as (b3 & Hhdr & -> & _).
  apply pack_cons_Ok in Hhdr as (b4 & Hhdr & -> & _).
  apply pack_cons_Ok in Hhdr as (b5 & Hhdr & -> & _).
  destruct b5; [|discriminate].
  apply pack_cons_Ok in Hne as (b6 & Hne & -> & _). destruct b6; [|discriminate].
  apply pack_cons_Ok in Hna as (b7 & Hna & -> & _). destruct b7; [|discriminate].
  change (fsize fH) with 2%nat. change (fsize fI) with 4%nat.
  rewrite !app_nil_r, <- !app_assoc.
  exists name_ind, stack, locals_, code, excepts, attributes.
  cbv zeta. split; [reflexivity|].
  set (attr_len := 12 + blen code + 8 * Z.of_nat (length excepts) + sum_len attributes) in *.
  set (body := be_bytes 2 stack ++ _).
  assert (blen body = attr_len) as Hbody.
  { subst body attr_len. unfold blen. rewrite !length_app, !be_bytes_length.
    rewrite (concat_length_const 8 excepts Hd).
    pose proof (sum_len_concat attributes) as Hs. unfold blen in *. lia. }
  assert (blen (be_bytes 2 name_ind ++ be_bytes 4 attr_len ++ body) - 6 = attr_len) as Htot.
  { unfold blen in *. rewrite !length_app, !be_bytes_length. lia. }
  split; [exact Htot|]. rewrite Htot.
  rewrite drop_app_length' by (symmetry; apply be_bytes_length).
  rewrite take_app_length' by (symmetry; apply be_bytes_length).
  apply be_decode_be_bytes. simpl in Hlen. change (256 ^ Z.of_nat 4) with 4294967296. lia.
Qed.

End CodeAttr.

(** ** Instances *)

Lemma switch_default_aligned_witness :
  ("tableswitch"%string = "tableswitch"%string \/
   "tableswitch"%string = "lookupswitch"%string) /\
  _op_structs jvm "tableswitch" = None /\
  assembleInstruction jvm list_getItemRaw 0
    ("tableswitch"%string, [VTable 3 ["L"%string] "L"]) {[ Some "L"%string := 0 ]} 1 ∅
    (mkState ∅ [])
  = (mkState ∅ [],
     Ok (Some [xaa; x00; x00; xff; xff; xff; xff; x00; x00; x00; x03;
               x00; x00; x00; x03; xff; xff; xff; xff])) /\
  ((1 + 1 + getPadding 1) mod 4 = 0 /\
   default_field_after_padding {[ Some "L"%string := 0 ]} 1
     [VTable 3 ["L"%string] "L"]
     [xaa; x00; x00; xff; xff; xff; xff; x00; x00; x00; x03;
      x00; x00; x00; x03; xff; xff; xff; xff]).
Proof.
  split; [left; reflexivity|].
  split; [reflexivity|].
  split; [vm_compute; reflexivity|].
  apply (switch_default_aligned jvm list_getItemRaw 0 "tableswitch"
           [VTable 3 ["L"%string] "L"] {[ Some "L"%string := 0 ]} 1 ∅
           (mkState ∅ []) (mkState ∅ [])).
  - left; reflexivity.
  - reflexivity.
  - vm_compute; reflexivity.
Defined.

Lemma getLabel_cycle_witness :
  cycle_lbls !! "a"%string = Some 1%positive /\
  cycle_lbls !! "b"%string = Some 2%positive /\
  labelled (heap cycle_state) 1%positive "b" /\
  labelled (heap cycle_state) 2%positive "a" /\
  (getLabel list_getItemRaw 2 cycle_lbls "a" [] cycle_state =
     (cycle_state,
      Raise (AssemblerError "Recursive constant pool reference: a, b")) /\
   getLabel_descends list_getItemRaw cycle_lbls).
Proof.
  assert (labelled (heap cycle_state) 1%positive "b") as H1.
  { eexists. split; [vm_compute; reflexivity|]. split; reflexivity. }
  assert (labelled (heap cycle_state) 2%positive "a") as H2.
  { eexists. split; [vm_compute; reflexivity|]. split; reflexivity. }
  split; [reflexivity|]. split; [reflexivity|].
  split; [exact H1|]. split; [exact H2|].
  apply (getLabel_cycle list_getItemRaw 0 cycle_lbls "a" "b" 1%positive 2%positive
           cycle_state eq_refl eq_refl H1 H2).
Defined.

Lemma toIndex_memoised_witness :
  toIndex list_getItemRaw 3 S1_lbls 1%positive [] S1_state = (S1_state', Ok 3) /\
  memoised list_getItemRaw (heap S1_state') 1%positive 3.
Proof.
  split; [vm_compute; reflexivity|].
  apply (toIndex_memoised list_getItemRaw 3 S1_lbls 1%positive [] S1_state S1_state').
  vm_compute; reflexivity.
Defined.

Lemma lookupswitch_table_witness :
  assembleInstruction jvm list_getItemRaw 0
    ("lookupswitch"%string, [VLookup [(1, "L"); (1, "L")]%string "L"])
    {[ Some "L"%string := 0 ]} 0 ∅ (mkState ∅ [])
  = (mkState ∅ [],
     Ok (Some [xab; x00; x00; x00; x00; x00; x00; x00; x00; x00; x00; x01;
               x00; x00; x00; x01; x00; x00; x00; x00])) /\
  (case_table_emitted {[ Some "L"%string := 0 ]} 0 [(1, "L"); (1, "L")]%string
     [xab; x00; x00; x00; x00; x00; x00; x00; x00; x00; x00; x01;
      x00; x00; x00; x01; x00; x00; x00; x00] /\
   lookup_table {[ Some "L"%string := 0 ]} 0 [(1, "L"); (1, "L")]%string = Ok [(1, 0)]).
Proof.
  split; [vm_compute; reflexivity|].
  apply (lookupswitch_table jvm list_getItemRaw 0 "lookupswitch"
           [(1, "L"); (1, "L")]%string "L"%string [] {[ Some "L"%string := 0 ]} 0 ∅
           (mkState ∅ []) (mkState ∅ [])).
  vm_compute; reflexivity.
Defined.

Lemma code_attr_length_witness :
  assembleCodeAttr jvm list_getItemRaw 3 (S1_statements 1%positive) S1_lbls
    false false S1_state
  = (mkState (heap S1_state') (cpool S1_state' ++ [(AStr "Utf8", [AStr "Code"])]),
     Ok (Some [x00; x04; x00; x00; x00; x13; xff; xff; xff; xff;
               x00; x00; x00; x07; x12; x03; x10; x05; xa7; xff; xfc;
               x00; x00; x00; x00])) /\
  code_attr_layout
    [x00; x04; x00; x00; x00; x13; xff; xff; xff; xff;
     x00; x00; x00; x07; x12; x03; x10; x05; xa7; xff; xfc;
     x00; x00; x00; x00].
Proof.
  split; [vm_compute; reflexivity|].
  apply (code_attr_length jvm list_getItemRaw 3 (S1_statements 1%positive) S1_lbls
           false false S1_state
           (mkState (heap S1_state') (cpool S1_state' ++ [(AStr "Utf8", [AStr "Code"])]))).
  vm_compute; reflexivity.
Defined.

(** ** The constraint tree *)

Module StructuringFacts.
Import Structuring.

Lemma assert_Ok b u : assert b = Ok u -> b = true.
Proof. destruct b; [reflexivity | discriminate]. Qed.

Lemma rmap_elem {A B} (f : A -> result B) (l : list A) (r : list B) (x : A) :
  rmap f l = Ok r -> x ∈ l -> exists y, f x = Ok y.
Proof.
  intros H Hx. apply rmap_Forall2 in H.
  induction H as [|a b l r Hab _ IH]; [inversion Hx|].
  apply elem_of_cons in Hx as [->|Hx]; eauto.
Qed.

Lemma get_Ok store c x : get store c = Ok x <-> store !! c = Some x.
Proof. unfold get. destruct (store !! c); split; congruence. Qed.

Lemma combinations2_lookup {A} (l : list A) (i j : nat) (a b : A) :
  (i < j)%nat -> l !! i = Some a -> l !! j = Some b ->
  (a, b) ∈ combinations2 l.
Proof.
  revert i j. induction l as [|x l IH]; intros i j Hij Ha Hb; [discriminate|].
  simpl. apply elem_of_app. destruct i as [|i].
  - left. injection Ha as ->. destruct j as [|j]; [lia|]. simpl in Hb.
    apply list_elem_of_fmap. exists b. split; [reflexivity|].
    eapply list_elem_of_lookup_2, Hb.
  - right. destruct j as [|j]; [lia|]. simpl in Ha, Hb.
    apply (IH i j); [lia | assumption..].
Qed.

(** *** [_checkNested] *)

Lemma checkNested_sound t :
  _checkNested t = Ok tt ->
  siblings_disjoint t /\ children_nested t /\ children_within_ubound t.
Proof.
  unfold _checkNested. intros H.
  apply rbind_Ok in H as (r & Hr & _).
  assert (forall k v, t_children t !! k = Some v ->
            exists kc, con_of t k = Ok kc /\
              (exists r1, rmap (check_child t kc) v = Ok r1) /\
              (exists r2, rmap (fun cc =>
                             let* c1 := get (t_store t) (fst cc) in
                             let* c2 := get (t_store t) (snd cc) in
                             assert (bool_decide (lbound c1 ## lbound c2)))
                            (combinations2 v) = Ok r2)) as Hkv.
  { intros k v Hk.
    assert ((k, v) ∈ map_to_list (t_children t)) as Hin
      by (apply elem_of_map_to_list; exact Hk).
    destruct (rmap_elem _ _ _ (k, v) Hr Hin) as [u Hu].
    cbn [fst snd] in Hu.
    apply rbind_Ok in Hu as (kc & Hkc & Hu).
    apply rbind_Ok in Hu as (r1 & Hr1 & Hu).
    apply rbind_Ok in Hu as (r2 & Hr2 & _).
    exists kc. split; [exact Hkc|]. split; eexists; eassumption. }
  assert (forall k v c x kc, t_children t !! k = Some v -> c ∈ v ->
            t_store t !! c = Some x -> con_of t k = Ok kc ->
            lbound x ⊆ lbound kc /\ lbound x ⊆ ubound x) as Hchild.
  { intros k v c x kc Hk Hc Hx Hkc.
    destruct (Hkv k v Hk) as (kc' & Hkc' & (r1 & Hr1) & _).
    assert (kc' = kc) as -> by congruence.
    destruct (rmap_elem _ _ _ c Hr1 Hc) as [u Hu].
    unfold check_child in Hu.
    apply rbind_Ok in Hu as (x' & Hx' & Hu). apply get_Ok in Hx'.
    assert (x' = x) as -> by congruence.
    apply rbind_Ok in Hu as (u1 & H1 & Hu). apply assert_Ok, bool_decide_eq_true in H1.
    apply rbind_Ok in Hu as (u2 & H2 & Hu). apply assert_Ok, bool_decide_eq_true in H2.
    auto. }
  split; [|split].
  - assert (forall k v i j c1 c2 x1 x2,
              t_children t !! k = Some v -> (i < j)%nat ->
              v !! i = Some c1 -> v !! j = Some c2 ->
              t_store t !! c1 = Some x1 -> t_store t !! c2 = Some x2 ->
              lbound x1 ## lbound x2) as Hlt.
    { intros k v i j c1 c2 x1 x2 Hk Hij H1 H2 Hx1 Hx2.
      destruct (Hkv k v Hk) as (_ & _ & _ & (r2 & Hr2)).
      assert ((c1, c2) ∈ combinations2 v) as Hin
        by (eapply combinations2_lookup; eassumption).
      destruct (rmap_elem _ _ _ (c1, c2) Hr2 Hin) as [u Hu].
      cbn [fst snd] in Hu.
      apply rbind_Ok in Hu as (y1 & Hy1 & Hu). apply get_Ok in Hy1.
      apply rbind_Ok in Hu as (y2 & Hy2 & Hu). apply get_Ok in Hy2.
      apply assert_Ok, bool_decide_eq_true in Hu.
      assert (y1 = x1) as -> by congruence.
      assert (y2 = x2) as -> by congruence. exact Hu. }
    intros k v i j c1 c2 x1 x2 Hk Hij H1 H2 Hx1 Hx2.
    destruct (Nat.lt_total i j) as [Hlt'|[->|Hgt]]; [eauto | contradiction |].
    symmetry. eauto.
  - intros k v c x p Hk Hc Hx Hp. eapply Hchild; eassumption.
  - intros k v c x Hk Hc Hx.
    destruct (Hkv k v Hk) as (kc & Hkc & _). eapply Hchild; eassumption.
Qed.

(** *** [orderConstraints] *)

Lemma list_remove_Ok x l l' :
  list_remove x l = Ok l' ->
  x ∈ l /\ (forall y, y ∈ l -> y = x \/ y ∈ l') /\ (forall y, y ∈ l' -> y ∈ l).
Proof.
  revert l'. induction l as [|y l IH]; intros l' H; simpl in H; [discriminate|].
  destruct (decide (x = y)) as [->|Hne].
  - injection H as <-. split; [left|]. split.
    + intros z Hz. apply elem_of_cons in Hz as [->|Hz]; auto.
    + intros z Hz. right. exact Hz.
  - apply rbind_Ok in H as (r & Hr & [= <-]).
    destruct (IH _ Hr) as (Hx & H1 & H2). split; [right; exact Hx|]. split.
    + intros z Hz. apply elem_of_cons in Hz as [->|Hz].
      * right. left.
      * destruct (H1 z Hz) as [->|Hz']; [auto | right; right; exact Hz'].
    + intros z Hz. apply elem_of_cons in Hz as [->|Hz]; [left | right; auto].
Qed.

Section OrderFacts.

Context (extend : gset node -> result (gset node)).
Context (node_set : gset node) (constraints : list cid).

Lemma place_one_inv st first st' :
  order_inv node_set constraints st ->
  place_one extend constraints st first = Ok (Some st') ->
  order_inv node_set constraints st'.
Proof.
  intros [I1 I2 I3 I4 I5]. unfold place_one. intros H.
  apply rbind_Ok in H as (comp & _ & H).
  apply rbind_Ok in H as (e & _ & H).
  apply rbind_Ok in H as (u0 & _ & H).
  apply rbind_Ok in H as (candidates & _ & H).
  apply rbind_Ok in H as (assigns & _ & H).
  destruct (pop assigns) as [[[cnode svals] rest]|]; [|discriminate].
  apply rbind_Ok in H as (cn & Hcn & H). apply get_Ok in Hcn.
  apply rbind_Ok in H as (u1 & _ & H).
  apply rbind_Ok in H as (ss & _ & H).
  apply rbind_Ok in H as (u2 & Hlb & H). apply assert_Ok, bool_decide_eq_true in Hlb.
  apply rbind_Ok in H as (u3 & _ & H).
  apply rbind_Ok in H as (parent & _ & H).
  apply rbind_Ok in H as (u4 & _ & H).
  apply rbind_Ok in H as (todo & Htodo & H).
  injection H as <-.
  apply list_remove_Ok in Htodo as (Hin & Hsplit & Hsub).
  constructor; cbn [o_store o_children o_frozen o_todo].
  - intros c x Hc Hx. destruct (decide (c = cnode)) as [->|Hne].
    + rewrite lookup_insert_eq in Hx. injection Hx as <-. simpl. eauto.
    + rewrite lookup_insert_ne in Hx by congruence. eauto.
  - intros c Hc. destruct (decide (c = cnode)) as [->|Hne].
    + split; [auto|]. eexists. rewrite lookup_insert_eq. split; [reflexivity|].
      exact Hlb.
    + apply elem_of_union in Hc as [Hc|Hc]; [apply elem_of_singleton in Hc; contradiction|].
      destruct (I2 c Hc) as (Hcc & x & Hx & Hlx). split; [exact Hcc|].
      exists x. rewrite lookup_insert_ne by congruence. auto.
  - intros c Hc. auto.
  - intros c Hc. destruct (I4 c Hc) as [Ht|Hf].
    + destruct (Hsplit c Ht) as [->|Ht']; [right | left; exact Ht'].
      apply elem_of_union_l, elem_of_singleton. reflexivity.
    + right. apply elem_of_union_r. exact Hf.
  - intros k v c Hk Hc. destruct (decide (k = parent)) as [->|Hne].
    + rewrite lookup_insert_eq in Hk. injection Hk as <-.
      apply elem_of_app in Hc as [Hc|Hc].
      * apply elem_of_union_r. unfold kids in Hc.
        destruct (o_children st !! parent) as [v|] eqn:E; [eauto | inversion Hc].
      * apply list_elem_of_singleton in Hc as ->.
        apply elem_of_union_l, elem_of_singleton. reflexivity.
    + rewrite lookup_insert_ne in Hk by congruence.
      apply elem_of_union_r. eauto.
Qed.

Lemma place_all_inv fuel st st' :
  order_inv node_set constraints st ->
  place_all extend fuel constraints st = Ok (Some st') ->
  order_inv node_set constraints st' /\ o_todo st' = [].
Proof.
  revert st. induction fuel as [|fuel IH]; intros st Hinv H; simpl in H.
  - destruct (o_todo st) eqn:E; [|discriminate]. injection H as <-. auto.
  - destruct (o_todo st) as [|first todo] eqn:E; [injection H as <-; auto|].
    apply rbind_Ok in H as ([st1|] & H1 & H); [|discriminate].
    eapply IH; [|exact H]. eapply place_one_inv; eassumption.
Qed.

Lemma check_in_nodes_Ok store c u :
  check_in_nodes store node_set c = Ok u ->
  exists x, store !! c = Some x /\ lbound x ⊆ node_set /\ ubound x ⊆ node_set.
Proof.
  unfold check_in_nodes. intros H.
  apply rbind_Ok in H as (x & Hx & H). apply get_Ok in Hx.
  apply rbind_Ok in H as (u1 & H1 & H). apply assert_Ok, bool_decide_eq_true in H1.
  apply rbind_Ok in H as (u2 & H2 & H). apply assert_Ok, bool_decide_eq_true in H2.
  eauto.
Qed.

Lemma order_inv_init store r :
  rmap (check_in_nodes store node_set) constraints = Ok r ->
  order_inv node_set constraints (mkOrder store ∅ ∅ constraints).
Proof.
  intros H. constructor; cbn [o_store o_children o_frozen o_todo].
  - intros c x Hc Hx. destruct (rmap_elem _ _ _ c H Hc) as [u Hu].
    apply check_in_nodes_Ok in Hu as (x' & Hx' & _ & Hub).
    assert (x' = x) as -> by congruence. exact Hub.
  - intros c Hc. apply elem_of_empty in Hc. contradiction.
  - auto.
  - auto.
  - intros k v c Hk. rewrite lookup_empty in Hk. discriminate.
Qed.

End OrderFacts.

(** the check of one list of children *)
Lemma check_disjoint_Ok store v T T' :
  check_disjoint store v T = Ok T' ->
  T ⊆ T' /\
  (forall c x, c ∈ v -> store !! c = Some x -> lbound x ⊆ T' /\ lbound x ## T) /\
  (forall i j c1 c2 x1 x2, (i < j)%nat -> v !! i = Some c1 -> v !! j = Some c2 ->
     store !! c1 = Some x1 -> store !! c2 = Some x2 -> lbound x1 ## lbound x2).
Proof.
  revert T. induction v as [|c0 v IH]; intros T H; simpl in H.
  - injection H as <-. split; [reflexivity|]. split.
    + intros c x Hc. inversion Hc.
    + intros i j c1 c2 x1 x2 _ Hi. discriminate.
  - apply rbind_Ok in H as (x0 & Hx0 & H). apply get_Ok in Hx0.
    apply rbind_Ok in H as (u & Hd & H). apply assert_Ok, bool_decide_eq_true in Hd.
    destruct (IH _ H) as (Hsub & Hall & Hpair). split; [set_solver|]. split.
    + intros c x Hc Hx. apply elem_of_cons in Hc as [->|Hc].
      * assert (x = x0) as -> by congruence. set_solver.
      * destruct (Hall c x Hc Hx). set_solver.
    + intros i j c1 c2 x1 x2 Hij H1 H2 Hx1 Hx2.
      destruct j as [|j]; [lia|]. simpl in H2. destruct i as [|i].
      * injection H1 as <-. assert (x1 = x0) as -> by congruence.
        destruct (Hall c2 x2 (list_elem_of_lookup_2 _ _ _ H2) Hx2). set_solver.
      * simpl in H1. apply (Hpair i j c1 c2); [lia | assumption..].
Qed.

Lemma check_nesting_Ok store children :
  check_nesting store children = Ok tt ->
  (forall k v i j c1 c2 x1 x2,
     children !! k = Some v -> i <> j ->
     v !! i = Some c1 -> v !! j = Some c2 ->
     store !! c1 = Some x1 -> store !! c2 = Some x2 ->
     lbound x1 ## lbound x2) /\
  (forall k v c x p,
     children !! Some k = Some v -> c ∈ v ->
     store !! c = Some x -> store !! k = Some p ->
     lbound x ⊆ lbound p).
Proof.
  unfold check_nesting. intros H. apply rbind_Ok in H as (r & Hr & _).
  assert (forall k v, children !! k = Some v ->
            exists temp, check_disjoint store v ∅ = Ok temp /\
              match k with
              | None => True
              | Some k => forall p, store !! k = Some p -> temp ⊆ lbound p
              end) as Hkv.
  { intros k v Hk.
    assert ((k, v) ∈ map_to_list children) as Hin
      by (apply elem_of_map_to_list; exact Hk).
    destruct (rmap_elem _ _ _ (k, v) Hr Hin) as [u Hu].
    cbn [fst snd] in Hu. apply rbind_Ok in Hu as (temp & Htemp & Hu).
    exists temp. split; [exact Htemp|]. destruct k as [k|]; [|exact I].
    apply rbind_Ok in Hu as (kc & Hkc & Hu). apply get_Ok in Hkc.
    apply assert_Ok, bool_decide_eq_true in Hu.
    intros p Hp. assert (p = kc) as -> by congruence. exact Hu. }
  split.
  - intros k v i j c1 c2 x1 x2 Hk Hij H1 H2 Hx1 Hx2.
    destruct (Hkv k v Hk) as (temp & Htemp & _).
    apply check_disjoint_Ok in Htemp as (_ & _ & Hpair).
    destruct (Nat.lt_total i j) as [Hlt|[->|Hgt]]; [eauto | contradiction |].
    symmetry. eauto.
  - intros k v c x p Hk Hc Hx Hp.
    destruct (Hkv (Some k) v Hk) as (temp & Htemp & Hsub).
    apply check_disjoint_Ok in Htemp as (_ & Hall & _).
    destruct (Hall c x Hc Hx) as [Hlx _]. specialize (Hsub p Hp). set_solver.
Qed.

Lemma orderConstraints_sound extend store constraints nodes t :
  orderConstraints extend store constraints nodes = Ok (Some t) ->
  siblings_disjoint t /\ children_nested t /\
  tree_bounded (list_to_set nodes) constraints t.
Proof.
  unfold orderConstraints. intros H.
  apply rbind_Ok in H as (r0 & Hpre & H).
  apply rbind_Ok in H as ([st|] & Hplace & H); [|discriminate].
  apply rbind_Ok in H as ([] & Hcheck & [= <-]).
  apply order_inv_init in Hpre.
  destruct (place_all_inv extend _ _ _ _ _ Hpre Hplace) as [[I1 I2 I3 I4 I5] Htodo].
  apply check_nesting_Ok in Hcheck as [Hsib Hnest].
  assert (forall c, c ∈ constraints ->
            exists x, o_store st !! c = Some x /\ bounded (list_to_set nodes) x) as Hb.
  { intros c Hc. destruct (I4 c Hc) as [Ht|Hf].
    - rewrite Htodo in Ht. inversion Ht.
    - destruct (I2 c Hf) as (_ & x & Hx & Hlx). exists x. split; [exact Hx|].
      split; [exact Hlx | eauto]. }
  assert (forall k v c, o_children st !! k = Some v -> c ∈ v -> c ∈ constraints) as Hmem.
  { intros k v c Hk Hc. apply I2. eauto. }
  split; [|split; [|split; [|split]]]; cbn [t_store t_root t_children].
  - exact Hsib.
  - intros k v c x p Hk Hc Hx Hp. cbn [t_store t_children] in Hk, Hx.
    destruct k as [k|]; cbn [con_of t_store t_root] in Hp.
    + apply get_Ok in Hp. eauto.
    + injection Hp as <-. simpl.
      destruct (Hb c (Hmem _ _ _ Hk Hc)) as (x' & Hx' & Hl & Hu).
      assert (x' = x) as -> by congruence. set_solver.
  - split; simpl; set_solver.
  - exact Hb.
  - exact Hmem.
Qed.

(** *** [completeScopes] and [addBreakScopes] *)

Lemma rfoldl_inv {A B} (P : B -> Prop) (f : B -> A -> result B) l b b' :
  (forall b x b', P b -> x ∈ l -> f b x = Ok b' -> P b') ->
  P b -> rfoldl f b l = Ok b' -> P b'.
Proof.
  revert b. induction l as [|x l IH]; intros b Hf Hb H; simpl in H.
  - injection H as <-. exact Hb.
  - apply rbind_Ok in H as (b1 & H1 & H).
    apply (IH b1); [|eapply Hf; [exact Hb | left | exact H1] | exact H].
    intros b2 y b3 Hb2 Hy. apply Hf; [exact Hb2 | right; exact Hy].
Qed.

Lemma rfilter_elem {A} (p : A -> result bool) l r x :
  rfilter p l = Ok r -> x ∈ r -> x ∈ l.
Proof.
  revert r. induction l as [|y l IH]; intros r H Hx; simpl in H.
  - injection H as <-. exact Hx.
  - apply rbind_Ok in H as (b & _ & H). apply rbind_Ok in H as (r' & Hr & [= <-]).
    destruct b.
    + apply elem_of_cons in Hx as [->|Hx]; [left | right; eauto].
    + right; eauto.
Qed.

Lemma rmap_elem_inv {A B} (f : A -> result B) (l : list A) (r : list B) (y : B) :
  rmap f l = Ok r -> y ∈ r -> exists x, x ∈ l /\ f x = Ok y.
Proof.
  intros H Hy. apply rmap_Forall2 in H.
  induction H as [|a b l r Hab _ IH]; [inversion Hy|].
  apply elem_of_cons in Hy as [->|Hy].
  - exists a. split; [left | exact Hab].
  - destruct (IH Hy) as (x & Hx & Hfx). exists x. split; [right|]; assumption.
Qed.

Lemma insert_by_elem {A K} (le : K -> K -> bool) (kx : K * A) l y :
  y ∈ insert_by le kx l -> y = kx \/ y ∈ l.
Proof.
  induction l as [|ky l IH]; simpl; intros H.
  - apply list_elem_of_singleton in H. auto.
  - destruct (le ky.1 kx.1).
    + apply elem_of_cons in H as [->|H]; [right; left|].
      destruct (IH H) as [->|Hy]; [auto | right; right; exact Hy].
    + apply elem_of_cons in H as [->|H]; auto.
Qed.

Lemma sorted_by_elem {A K} (le : K -> K -> bool) (l : list (K * A)) x :
  x ∈ sorted_by le l -> x ∈ l.*2.
Proof.
  unfold sorted_by.
  assert (forall acc y, y ∈ foldl (fun acc kx => insert_by le kx acc) acc l ->
                        y ∈ acc \/ y ∈ l) as Hfold.
  { induction l as [|kx l IH]; intros acc y Hy; simpl in Hy; [auto|].
    destruct (IH _ _ Hy) as [H|H].
    - apply insert_by_elem in H as [->|H]; [right; left | auto].
    - right; right; exact H. }
  intros H. apply list_elem_of_fmap in H as (y & -> & Hy).
  destruct (Hfold _ _ Hy) as [H|H]; [inversion H|].
  apply list_elem_of_fmap. eauto.
Qed.

Lemma kids_elem children k c :
  c ∈ kids children k -> exists v, children !! k = Some v /\ c ∈ v.
Proof.
  unfold kids. destruct (children !! k) as [v|]; simpl; intros H;
    [eauto | inversion H].
Qed.

Lemma FixedScopeCon_bounds X :
  lbound (FixedScopeCon X) = ubound (FixedScopeCon X) /\
  lbound (FixedScopeCon X) ≡ X.
Proof. split; [reflexivity|]. simpl. set_solver. Qed.

Lemma foldl_inv {A B} (P : B -> Prop) (f : B -> A -> B) l b :
  (forall b x, P b -> P (f b x)) -> P b -> P (foldl f b l).
Proof.
  intros Hf. revert b. induction l as [|x l IH]; intros b Hb; simpl; auto.
Qed.

Lemma set_con_bounded node_set cs t k x :
  tree_bounded node_set cs t -> bounded node_set x ->
  tree_bounded node_set cs (set_con t k x).
Proof.
  intros (Hroot & Hall & Hmem) Hx. destruct k as [p|]; simpl.
  - split; [exact Hroot|]. split; [|exact Hmem].
    intros c Hc. cbn [t_store]. destruct (decide (c = p)) as [->|Hne].
    + exists x. split; [|exact Hx]. apply lookup_insert_Some. left. split; reflexivity.
    + destruct (Hall c Hc) as (y & Hy & Hby). exists y. split; [|exact Hby].
      apply lookup_insert_Some. right. split; [congruence | exact Hy].
  - split; [exact Hx|]. split; assumption.
Qed.

Lemma set_kids_bounded node_set cs t k v :
  tree_bounded node_set cs t -> (forall c, c ∈ v -> c ∈ cs) ->
  tree_bounded node_set cs (set_kids t k v).
Proof.
  intros (Hroot & Hall & Hmem) Hv. split; [exact Hroot|]. split; [exact Hall|].
  intros k' v' c Hk Hc. cbn [t_children set_kids] in Hk.
  apply lookup_insert_Some in Hk as [[<- <-]|[_ Hk]]; eauto.
Qed.

Lemma new_con_bounded node_set cs t X :
  tree_bounded node_set cs t -> X ⊆ node_set ->
  tree_bounded node_set (cs ++ [fresh (dom (t_store t))])
    (mkTree (<[fresh (dom (t_store t)) := FixedScopeCon X]> (t_store t))
            (t_root t) (t_children t)).
Proof.
  intros (Hroot & Hall & Hmem) HX. split; [exact Hroot|]. split.
  - intros c Hc. cbn [t_store]. apply elem_of_app in Hc as [Hc|Hc].
    + destruct (Hall c Hc) as (y & Hy & Hby). exists y. split; [|exact Hby].
      apply lookup_insert_Some. right. split; [|exact Hy].
      intros <-. apply (is_fresh (dom (t_store t))).
      apply elem_of_dom. eauto.
    + apply list_elem_of_singleton in Hc as ->. eexists. split.
      * apply lookup_insert_Some. left. split; reflexivity.
      * split; simpl; set_solver.
  - intros k v c Hk Hc. apply elem_of_app. left. eauto.
Qed.

Lemma tree_bounded_con node_set cs t k p :
  tree_bounded node_set cs t ->
  (k = None \/
   exists k' v c, k = Some c /\ t_children t !! k' = Some v /\ c ∈ v) ->
  con_of t k = Ok p -> bounded node_set p.
Proof.
  intros (Hroot & Hall & Hmem) [->|(k' & v & c & -> & Hv & Hc)] Hp; simpl in Hp.
  - injection Hp as <-. exact Hroot.
  - apply get_Ok in Hp. destruct (Hall c (Hmem _ _ _ Hv Hc)) as (y & Hy & Hby).
    congruence.
Qed.

Lemma closure_pass_subseteq predecessors_nl udom xs ub d :
  fst (closure_pass predecessors_nl udom xs ub d) ⊆ ub.
Proof.
  revert ub d. induction xs as [|x xs IH]; intros ub d; simpl; [set_solver|].
  destruct (decide (x = udom)); [apply IH|].
  destruct (bool_decide _); [|apply IH].
  etransitivity; [apply IH|]. set_solver.
Qed.

Lemma closure_loop_subseteq predecessors_nl fuel udom ub ub' :
  closure_loop predecessors_nl fuel udom ub = Ok ub' -> ub' ⊆ ub.
Proof.
  revert ub. induction fuel as [|fuel IH]; intros ub H; simpl in H; [discriminate|].
  pose proof (closure_pass_subseteq predecessors_nl udom (elements ub) ub true) as Hp.
  destruct (closure_pass _ _ _ _ _) as [ub1 done]. simpl in Hp.
  destruct done.
  - injection H as <-. exact Hp.
  - etransitivity; [apply IH, H | exact Hp].
Qed.

Lemma dominatorUBoundClosure_subseteq _doms extend predecessors_nl lb ub ub' :
  _dominatorUBoundClosure _doms extend predecessors_nl lb ub = Ok ub' -> ub' ⊆ ub.
Proof.
  unfold _dominatorUBoundClosure. intros H.
  apply rbind_Ok in H as (udom & _ & H).
  apply rbind_Ok in H as (ub1 & H1 & H).
  apply rbind_Ok in H as (e & _ & H).
  apply rbind_Ok in H as (? & _ & H).
  apply rbind_Ok in H as (? & _ & H).
  apply rbind_Ok in H as (d & _ & H).
  apply rbind_Ok in H as (? & _ & [= <-]).
  destruct (decide _) as [Heq|_].
  - injection H1 as <-. set_solver.
  - apply closure_loop_subseteq in H1. set_solver.
Qed.

Section CompleteScopesFacts.

Context (_doms : gmap node (list node)).
Context (extend : gset node -> result (gset node)).
Context (successors_nl predecessors_nl : node -> list node).
Context (node_set : gset node).

Lemma complete_one_bounded fuel nodeorder t parent revorder cnode frozen cs tf :
  tree_bounded node_set cs t ->
  (forall c, c ∈ revorder -> c ∈ cs) ->
  complete_one _doms extend successors_nl predecessors_nl fuel nodeorder t
    parent revorder cnode frozen = Ok tf ->
  tree_bounded node_set cs (fst tf).
Proof.
  intros (Hroot & Hall & Hmem) Hrev H. unfold complete_one in H.
  apply rbind_Ok in H as (pc & Hpc & H).
  apply rbind_Ok in H as (cn & Hcn & H).
  apply rbind_Ok in H as (? & _ & H).
  destruct (filter _ (scopes pc)) as [|s0 ?]; [discriminate|].
  apply rbind_Ok in H as (ub0 & Hub0 & H).
  apply rbind_Ok in H as (? & _ & H).
  apply rbind_Ok in H as (ub1 & Hub1 & H).
  apply rbind_Ok in H as (flow & _ & H).
  apply rbind_Ok in H as (? & _ & H).
  apply rbind_Ok in H as (body1 & _ & H).
  apply rbind_Ok in H as (? & _ & H).
  apply rbind_Ok in H as (e1 & _ & H).
  apply rbind_Ok in H as (? & _ & H).
  apply rbind_Ok in H as (bn & Hbn & H).
  apply rbind_Ok in H as (? & Hsub%assert_Ok%bool_decide_eq_true & H).
  apply rbind_Ok in H as (e2 & _ & H).
  apply rbind_Ok in H as (? & _ & H).
  injection H as <-. cbn [fst].
  apply get_Ok in Hcn.
  assert (ub0 ⊆ ubound cn) as Hub0'.
  { revert Hub0. apply (rfoldl_inv (fun ub => ub ⊆ ubound cn)); [|set_solver].
    intros b other b' Hb _ Hf. apply rbind_Ok in Hf as (oc & _ & [= <-]).
    destruct (bool_decide _); set_solver. }
  apply dominatorUBoundClosure_subseteq in Hub1.
  assert (forall c, c ∈ snd bn -> c ∈ revorder) as Hnew.
  { revert Hbn. apply (rfoldl_inv (fun bn => forall c, c ∈ snd bn -> c ∈ revorder)).
    - intros b child b' Hb Hchild Hf. apply rbind_Ok in Hf as (c0 & _ & [= <-]).
      destruct (bool_decide _); [|exact Hb]. cbn [snd].
      intros c Hc. apply elem_of_app in Hc as [Hc|Hc]; [auto|].
      apply list_elem_of_singleton in Hc as ->. exact Hchild.
    - cbn [snd]. intros c Hc. inversion Hc. }
  split; [exact Hroot|]. split.
  - intros c Hc. cbn [t_store set_kids set_con].
    destruct (Hall c Hc) as (cx & Hcx & Hlx & Hux).
    destruct (decide (c = cnode)) as [->|Hne].
    + eexists. split; [apply lookup_insert_Some; left; split; reflexivity|].
      assert (cx = cn) as -> by congruence.
      split; cbn [lbound ubound]; [set_solver | exact Hux].
    + exists cx. split; [|split; assumption].
      apply lookup_insert_Some. right. split; [congruence | exact Hcx].
  - intros k v c Hk Hc. cbn [t_children set_kids set_con] in Hk.
    apply lookup_insert_Some in Hk as [[<- <-]|[Hk1 Hk]].
    + apply list_elem_of_filter in Hc as [_ Hc].
      apply kids_elem in Hc as (v' & Hv' & Hc).
      apply lookup_insert_Some in Hv' as [[<- <-]|[_ Hv']]; [|eauto].
      apply elem_of_app in Hc as [Hc|Hc]; [|auto].
      apply kids_elem in Hc as (v' & Hv' & Hc). eauto.
    + apply lookup_insert_Some in Hk as [[<- <-]|[_ Hk]]; [|eauto].
      apply elem_of_app in Hc as [Hc|Hc]; [|auto].
      apply kids_elem in Hc as (v' & Hv' & Hc). eauto.
Qed.

Lemma complete_children_bounded fuel nodeorder parent cs rs :
  forall t frozen t',
  tree_bounded node_set cs t ->
  (forall c, c ∈ rs -> c ∈ cs) ->
  complete_children _doms extend successors_nl predecessors_nl fuel nodeorder t
    parent rs frozen = Ok t' ->
  tree_bounded node_set cs t'.
Proof.
  induction rs as [|cnode rs IH]; intros t frozen t' Ht Hrs H; simpl in H.
  - injection H as <-. exact Ht.
  - assert (forall c, c ∈ rs -> c ∈ cs) as Hrs' by (intros c Hc; apply Hrs; right; exact Hc).
    destruct (decide _) as [_|_]; [|eapply IH; eassumption].
    apply rbind_Ok in H as (tf & Hone & H).
    eapply IH; [|exact Hrs'|exact H].
    eapply complete_one_bounded; [exact Ht| |exact Hone].
    intros c Hc. apply Hrs'. apply list_elem_of_In, in_rev, list_elem_of_In. exact Hc.
Qed.

Lemma complete_loop_bounded fuel nodeorder cs :
  forall t stack t',
  tree_bounded node_set cs t ->
  complete_loop _doms extend successors_nl predecessors_nl fuel nodeorder t stack
    = Ok t' ->
  tree_bounded node_set cs t'.
Proof.
  induction fuel as [|fuel IH]; intros t stack t' Ht H; simpl in H;
    destruct (pop stack) as [[parent stack']|]; try discriminate;
    try (injection H as <-; exact Ht).
  apply rbind_Ok in H as (keyed & Hkeyed & H).
  apply rbind_Ok in H as (t1 & Ht1 & H).
  eapply IH; [|exact H].
  eapply complete_children_bounded; [exact Ht| |exact Ht1].
  intros c Hc. apply list_elem_of_In, in_rev, list_elem_of_In in Hc.
  apply sorted_by_elem in Hc. apply list_elem_of_fmap in Hc as ([key c'] & -> & Hc).
  destruct (rmap_elem_inv _ _ _ _ Hkeyed Hc) as (x & Hx & Hfx).
  apply rbind_Ok in Hfx as (cn & _ & Hfx).
  apply rbind_Ok in Hfx as (d & _ & Hfx).
  destruct (nodeorder !! d); [|discriminate]. injection Hfx as _ <-. cbn [snd].
  apply kids_elem in Hx as (v & Hv & Hx).
  destruct Ht as (_ & _ & Hmem). eauto.
Qed.

End CompleteScopesFacts.

Lemma completeScopes_bounded _doms root extend successors_nl predecessors_nl
    topologicalSort_nl node_set fuel cs t t' :
  tree_bounded node_set cs t ->
  completeScopes _doms root extend successors_nl predecessors_nl
    topologicalSort_nl fuel t = Ok t' ->
  tree_bounded node_set cs t'.
Proof.
  intros Ht H. unfold completeScopes in H.
  apply rbind_Ok in H as (? & _ & H).
  eapply complete_loop_bounded; eassumption.
Qed.


Lemma enclosing_parent fuel t body :
  forall parent i r,
  (parent = None \/
   exists k v c, parent = Some c /\ t_children t !! k = Some v /\ c ∈ v) ->
  enclosing fuel t body parent i = Ok r ->
  fst r = None \/
  exists k v c, fst r = Some c /\ t_children t !! k = Some v /\ c ∈ v.
Proof.
  induction fuel as [|fuel IH]; intros parent i r Hp H; simpl in H; [discriminate|].
  apply rbind_Ok in H as (r1 & Hr1 & H).
  assert (fst r1 = None \/
          exists k v c, fst r1 = Some c /\ t_children t !! k = Some v /\ c ∈ v) as H1.
  { revert Hr1. apply (rfoldl_inv (fun pp => fst pp = None \/
      exists k v c, fst pp = Some c /\ t_children t !! k = Some v /\ c ∈ v)).
    - intros pp child pp' Hpp Hchild Hf.
      apply rbind_Ok in Hf as (c0 & _ & [= <-]).
      apply foldl_inv; [|exact Hpp].
      intros b is_ Hb. destruct (bool_decide _); [|exact Hb].
      right. apply kids_elem in Hchild as (v & Hv & Hchild).
      exists parent, v, child. cbn [fst]. auto.
    - exact Hp. }
  destruct (decide _); [injection H as <-; exact H1|].
  eapply IH; [exact H1 | exact H].
Qed.

Section AddBreakScopesFacts.

Context (extend : gset node -> result (gset node)).
Context (predecessors_nl norm_suc_nl : node -> list node).
Context (topologicalSort_nl : list node -> list node).
Context (node_set : gset node).

Lemma add_break_bounded fuel sortednodes st st' :
  tree_bounded node_set (b_constraints st) (b_tree st) ->
  add_break extend predecessors_nl norm_suc_nl topologicalSort_nl fuel
    sortednodes st = Ok st' ->
  tree_bounded node_set (b_constraints st') (b_tree st').
Proof.
  intros Ht H. unfold add_break in H.
  destruct (_ <$> map_to_list _) as [|v0 vs]; [discriminate|].
  apply rbind_Ok in H as (? & _ & H).
  apply rbind_Ok in H as (? & _ & H).
  apply rbind_Ok in H as (keyed & _ & H).
  destruct keyed as [|k0 ks]; [discriminate|].
  apply rbind_Ok in H as (lbs & _ & H).
  apply rbind_Ok in H as (body & _ & H).
  apply rbind_Ok in H as (otherSets & _ & H).
  apply rbind_Ok in H as (e & _ & H).
  apply rbind_Ok in H as (? & _ & H).
  apply rbind_Ok in H as (? & _ & H).
  apply rbind_Ok in H as (? & _ & H).
  apply rbind_Ok in H as (? & _ & H).
  apply rbind_Ok in H as (pp & Hpp & H).
  apply rbind_Ok in H as (pc & Hpc & H).
  destruct (scopes pc !! snd pp) as [ps|]; [|discriminate].
  apply rbind_Ok in H as (? & _ & H).
  apply rbind_Ok in H as (? & Hlu%assert_Ok%bool_decide_eq_true & H).
  apply rbind_Ok in H as (temp & Htemp & H).
  apply rbind_Ok in H as (moved & Hmoved & H).
  apply rbind_Ok in H as (? & _ & H).
  injection H as <-. cbn [b_tree b_constraints].
  cbn [lbound ubound] in Hlu.
  apply enclosing_parent in Hpp; [|left; reflexivity].
  assert (bounded node_set pc) as [_ Hpcu].
  { eapply tree_bounded_con; eassumption. }
  match type of Hlu with _ ∪ ?b ⊆ _ => set (B := b) in * end.
  match goal with |- context [set_con ?t0 ?k ?x] => set (t1 := set_con t0 k x) in * end.
  assert (tree_bounded node_set (b_constraints st) t1) as Ht1.
  { apply set_con_bounded; [exact Ht|]. split; cbn [lbound ubound]; [exact Hlu | exact Hpcu]. }
  assert (B ⊆ node_set) as HB by set_solver.
  pose proof (new_con_bounded _ _ _ _ Ht1 HB) as Ht2.
  match type of Ht2 with tree_bounded _ ?cs ?t0 => set (cs2 := cs) in *; set (t2 := t0) in * end.
  assert (forall c, c ∈ temp -> c ∈ kids (t_children t2) (fst pp)) as Htemp'.
  { intros c Hc. eapply rfilter_elem; eassumption. }
  assert (forall c, c ∈ kids (t_children t2) (fst pp) -> c ∈ cs2) as Hk1.
  { intros c Hc. apply kids_elem in Hc as (v & Hv & Hc).
    destruct Ht2 as (_ & _ & Hmem). eauto. }
  assert (forall c, c ∈ kids (t_children t2) (Some (fresh (dom (t_store t1)))) -> c ∈ cs2) as Hk2.
  { intros c Hc. apply kids_elem in Hc as (v & Hv & Hc).
    destruct Ht2 as (_ & _ & Hmem). eauto. }
  assert ((forall c, c ∈ fst moved -> c ∈ cs2) /\ (forall c, c ∈ snd moved -> c ∈ cs2))
    as [Hm1 Hm2].
  { revert Hmoved. apply (rfoldl_inv (fun kn => (forall c, c ∈ fst kn -> c ∈ cs2) /\
                                                (forall c, c ∈ snd kn -> c ∈ cs2))).
    - intros kn child kn' [Ha Hb] Hchild Hf.
      apply rbind_Ok in Hf as (k & Hk & [= <-]). cbn [fst snd].
      apply list_remove_Ok in Hk as (_ & _ & Hk). split.
      + intros c Hc. auto.
      + intros c Hc. apply elem_of_app in Hc as [Hc|Hc]; [auto|].
        apply list_elem_of_singleton in Hc as ->. auto.
    - cbn [fst snd]. split; assumption. }
  apply set_kids_bounded; [apply set_kids_bounded; [exact Ht2 | exact Hm2]|].
  intros c Hc. apply elem_of_app in Hc as [Hc|Hc]; [auto|].
  apply list_elem_of_singleton in Hc as ->. apply elem_of_app. right. left.
Qed.

Lemma add_breaks_bounded fuel sortednodes :
  forall st st',
  tree_bounded node_set (b_constraints st) (b_tree st) ->
  add_breaks extend predecessors_nl norm_suc_nl topologicalSort_nl fuel
    sortednodes st = Ok st' ->
  tree_bounded node_set (b_constraints st') (b_tree st').
Proof.
  induction fuel as [|fuel IH]; intros st st' Ht H; simpl in H;
    destruct (b_todo st); try discriminate; try (injection H as <-; exact Ht).
  apply rbind_Ok in H as (st1 & H1 & H).
  eapply IH; [|exact H]. eapply add_break_bounded; eassumption.
Qed.

End AddBreakScopesFacts.

Lemma addBreakScopes_bounded root extend predecessors_nl norm_suc_nl
    topologicalSort_nl node_set fuel cs t r :
  tree_bounded node_set cs t ->
  addBreakScopes root extend predecessors_nl norm_suc_nl topologicalSort_nl
    fuel t cs = Ok r ->
  tree_bounded node_set (snd r) (fst r).
Proof.
  intros Ht H. unfold addBreakScopes in H.
  apply rbind_Ok in H as (todo & _ & H).
  apply rbind_Ok in H as (? & _ & H).
  apply rbind_Ok in H as (st & Hst & [= <-]). cbn [fst snd].
  eapply add_breaks_bounded in Hst; [exact Hst | exact Ht].
Qed.

Lemma orderConstraints_checked _doms root extend successors_nl predecessors_nl
    norm_suc_nl topologicalSort_nl fuel store constraints nodes t :
  orderConstraints extend store constraints nodes = Ok (Some t) ->
  (t, constraints) ∈ checked_trees _doms root extend successors_nl
                       predecessors_nl norm_suc_nl topologicalSort_nl fuel
                       store constraints nodes.
Proof. intros H. unfold checked_trees. rewrite H. left. Qed.

(** C5.  At every point where the tree is checked, that is, when
    [orderConstraints] returns it after its own assertions, and after each
    of the three calls of [_checkNested] in [structure] that succeeds
    (before [completeScopes], after it, and after [addBreakScopes]): the
    [lbound]s of sibling constraints are disjoint, the [lbound] of a child
    is a subset of the [lbound] of its parent, and every constraint of the
    list [constraints] at that point, as well as the root, satisfies
    [lbound ⊆ ubound ⊆ nodes]; the tree holds constraints of that list
    only. *)
Theorem constraint_tree_invariants _doms root extend successors_nl
    predecessors_nl norm_suc_nl topologicalSort_nl fuel store constraints
    nodes t cs :
  (t, cs) ∈ checked_trees _doms root extend successors_nl predecessors_nl
              norm_suc_nl topologicalSort_nl fuel store constraints nodes ->
  siblings_disjoint t /\ children_nested t /\
  tree_bounded (list_to_set nodes) cs t.
Proof.
  unfold checked_trees. intros H.
  destruct (orderConstraints extend store constraints nodes) as [[t0|]|] eqn:H0;
    try (inversion H; fail).
  pose proof (orderConstraints_sound _ _ _ _ _ H0) as S0.
  apply elem_of_cons in H as [[= -> ->]|H]; [exact S0|].
  destruct (_checkNested t0) as [[]|] eqn:C0; [|inversion H].
  apply elem_of_cons in H as [[= -> ->]|H]; [exact S0|].
  destruct (completeScopes _ _ _ _ _ _ _ t0) as [t1|] eqn:H1; [|inversion H].
  destruct (_checkNested t1) as [[]|] eqn:C1; [|inversion H].
  assert (tree_bounded (list_to_set nodes) constraints t1) as B1.
  { eapply completeScopes_bounded in H1; [exact H1 | exact (proj2 (proj2 S0))]. }
  apply elem_of_cons in H as [[= -> ->]|H].
  { destruct (checkNested_sound _ C1) as (Hs & Hn & _). auto. }
  destruct (addBreakScopes _ _ _ _ _ _ t1 constraints) as [[t2 cs2]|] eqn:H2;
    [|inversion H].
  destruct (_checkNested t2) as [[]|] eqn:C2; [|inversion H].
  apply list_elem_of_singleton in H as [= -> ->].
  destruct (checkNested_sound _ C2) as (Hs & Hn & _).
  split; [exact Hs|]. split; [exact Hn|].
  eapply addBreakScopes_bounded in H2; [exact H2 | exact B1].
Qed.

Lemma constraint_tree_invariants_witness :
  (ex_tree_final, [1%positive; 2%positive; 3%positive])
    ∈ checked_trees ex_doms 1%positive ex_extend ex_successors_nl
        ex_predecessors_nl ex_successors_nl ex_topologicalSort 10 ex_store
        [1%positive; 2%positive] ex_nodes /\
  (siblings_disjoint ex_tree_final /\ children_nested ex_tree_final /\
   tree_bounded (list_to_set ex_nodes) [1%positive; 2%positive; 3%positive]
     ex_tree_final).
Proof.
  assert ((ex_tree_final, [1%positive; 2%positive; 3%positive])
            ∈ checked_trees ex_doms 1%positive ex_extend ex_successors_nl
                ex_predecessors_nl ex_successors_nl ex_topologicalSort 10
                ex_store [1%positive; 2%positive] ex_nodes) as H.
  { apply (list_elem_of_lookup_2 _ 3). vm_compute. reflexivity. }
  split; [exact H|].
  exact (constraint_tree_invariants _ _ _ _ _ _ _ _ _ _ _ _ _ H).
Defined.

End StructuringFacts.
(** ** Loop canonicalisation *)

Module LoopFacts.
Import Structuring StructuringFacts.

(** *** Reachability *)

Lemma elem_of_predecessors G n p : p ∈ predecessors G n <-> (p, n) ∈ G.
Proof.
  unfold predecessors. rewrite elem_of_map. split.
  - intros ([a b] & -> & H). apply elem_of_filter in H as [Hb H].
    simpl in Hb. subst b. exact H.
  - intros H. exists (p, n). split; [reflexivity|].
    apply elem_of_filter. split; [reflexivity | exact H].
Qed.

Lemma elem_of_grow_along G A X y :
  y ∈ grow_along G A X <-> y ∈ X \/ exists x, x ∈ X /\ along G A x y.
Proof.
  unfold grow_along, along. rewrite elem_of_union, elem_of_map. split.
  - intros [H|([a b] & -> & H)]; [left; exact H|].
    apply elem_of_filter in H as [[Ha Hb] H]. right. exists a. auto.
  - intros [H|(x & Hx & Hxy & Hy)]; [left; exact H|].
    right. exists (x, y). split; [reflexivity|].
    apply elem_of_filter. auto.
Qed.

Lemma close_along_incl fuel G A X : X ⊆ close_along fuel G A X.
Proof.
  revert X. induction fuel as [|fuel IH]; intros X; simpl;
    destruct (decide _); try reflexivity.
  etransitivity; [|apply IH]. intros x Hx. apply elem_of_grow_along. auto.
Qed.

Lemma close_along_sound fuel G A X y :
  y ∈ close_along fuel G A X -> exists x, x ∈ X /\ rtc (along G A) x y.
Proof.
  revert X. induction fuel as [|fuel IH]; intros X; simpl;
    destruct (decide _); try (intros H; exists y; split; [exact H | reflexivity]).
  intros H. apply IH in H as (x & Hx & Hxy).
  apply elem_of_grow_along in Hx as [Hx|(x0 & Hx0 & Hstep)]; [eauto|].
  exists x0. split; [exact Hx0|]. eapply rtc_l; eassumption.
Qed.

Lemma close_along_closed fuel G A X :
  (size (A ∖ X) <= fuel)%nat ->
  grow_along G A (close_along fuel G A X) ⊆ close_along fuel G A X.
Proof.
  revert X. induction fuel as [|fuel IH]; intros X Hsize; simpl;
    destruct (decide _) as [Hsub|Hnsub]; try exact Hsub.
  - exfalso. apply Hnsub. intros y Hy.
    apply elem_of_grow_along in Hy as [Hy|(x & _ & _ & Hy)]; [exact Hy|].
    assert (A ∖ X ≡ ∅) as He by (apply size_empty_iff; lia).
    destruct (decide (y ∈ X)) as [|Hn]; [assumption|].
    exfalso. apply (not_elem_of_empty (C:=gset node) y). rewrite <- He.
    apply elem_of_difference. auto.
  - apply IH.
    assert (exists z, z ∈ grow_along G A X /\ z ∉ X) as (z & Hz & HzX).
    { destruct (set_choose_or_empty (grow_along G A X ∖ X)) as [[z Hz]|He].
      - exists z. apply elem_of_difference in Hz. exact Hz.
      - exfalso. apply Hnsub. intros y Hy.
        destruct (decide (y ∈ X)) as [|Hn]; [assumption|].
        exfalso. apply (not_elem_of_empty (C:=gset node) y). rewrite <- He.
        apply elem_of_difference. auto. }
    assert (z ∈ A) as HzA.
    { apply elem_of_grow_along in Hz as [Hz|(x & _ & _ & Hz)]; [contradiction | exact Hz]. }
    assert (A ∖ grow_along G A X ⊂ A ∖ X) as Hlt.
    { split.
      - intros y Hy. apply elem_of_difference in Hy as [Hy1 Hy2].
        apply elem_of_difference. split; [exact Hy1|].
        intros Hy. apply Hy2. apply elem_of_grow_along. auto.
      - intros Hsub. assert (z ∈ A ∖ grow_along G A X) as Hz'.
        { apply Hsub. apply elem_of_difference. auto. }
        apply elem_of_difference in Hz' as [_ Hz']. contradiction. }
    apply subset_size in Hlt. lia.
Qed.

Lemma elem_of_reachable_along G A X y :
  y ∈ reachable_along G A X <-> exists x, x ∈ X /\ rtc (along G A) x y.
Proof.
  unfold reachable_along. split; [apply close_along_sound|].
  intros (x & Hx & Hxy).
  assert (x ∈ close_along (size A) G A X) as Hx' by (apply close_along_incl, Hx).
  clear Hx. induction Hxy as [x|x z y Hxz _ IH]; [exact Hx'|].
  apply IH. apply close_along_closed.
  - apply subseteq_size. set_solver.
  - apply elem_of_grow_along. right. eauto.
Qed.

Lemma reaches_along G nodes x y :
  graph_of G nodes ->
  reaches G x y <-> rtc (along G (list_to_set nodes)) x y.
Proof.
  intros HG. split; apply rtc_subrel; intros a b.
  - intros H. split; [exact H|]. apply elem_of_list_to_set. apply (HG a b H).
  - intros [H _]. exact H.
Qed.

Lemma reaches_dec G nodes x y :
  graph_of G nodes -> reaches G x y \/ ¬ reaches G x y.
Proof.
  intros HG.
  destruct (decide (y ∈ reachable_along G (list_to_set nodes) {[ x ]})) as [H|H].
  - left. apply elem_of_reachable_along in H as (x' & Hx' & H).
    apply elem_of_singleton in Hx' as ->. eapply reaches_along; eassumption.
  - right. intros Hr. apply H. apply elem_of_reachable_along.
    exists x. split; [set_solver|]. eapply reaches_along; eassumption.
Qed.

Lemma connected_dec G nodes x y :
  graph_of G nodes -> connected G x y \/ ¬ connected G x y.
Proof.
  intros HG. unfold connected.
  destruct (reaches_dec G nodes x y HG), (reaches_dec G nodes y x HG); tauto.
Qed.

Lemma connected_refl G x : connected G x x.
Proof. split; reflexivity. Qed.

Lemma connected_sym G x y : connected G x y -> connected G y x.
Proof. intros [H1 H2]. split; assumption. Qed.

Lemma connected_trans G x y z :
  connected G x y -> connected G y z -> connected G x z.
Proof. intros [H1 H2] [H3 H4]. split; etransitivity; eassumption. Qed.

(** the nodes of a path between two nodes of a component are in the
    component *)
Lemma rtc_in_class {A} (R : relation A) w x y :
  rtc R w x -> rtc R x y -> rtc R y w ->
  rtc (fun a b => R a b /\ (rtc R w a /\ rtc R a w) /\ (rtc R w b /\ rtc R b w)) x y.
Proof.
  intros Hwx Hxy. revert Hwx. induction Hxy as [x|x z y Hxz Hzy IH]; intros Hwx Hyw.
  - reflexivity.
  - assert (rtc R w z) as Hwz by (eapply rtc_r; eassumption).
    assert (rtc R z w) as Hzw by (etransitivity; eassumption).
    eapply rtc_l; [|apply IH; assumption].
    split; [exact Hxz|]. split; split; try assumption.
    eapply rtc_l; eassumption.
Qed.

(** removing edges that do not lie on a cycle changes no component *)
Lemma connected_remove {A} (R1 R2 : relation A) x y :
  (forall a b, R2 a b -> R1 a b) ->
  (forall a b, R1 a b -> R2 a b \/ ¬ rtc R1 b a) ->
  rtc R1 x y /\ rtc R1 y x <-> rtc R2 x y /\ rtc R2 y x.
Proof.
  intros Hsub Hrem.
  assert (forall u v, rtc R1 u v -> rtc R1 v u -> rtc R2 u v) as Hone.
  { intros u v Huv Hvu.
    pose proof (rtc_in_class R1 u u v (rtc_refl _ _) Huv Hvu) as Hp.
    eapply rtc_subrel; [|exact Hp]. intros a b (Hab & [Hua Hau] & [Hub Hbu]).
    destruct (Hrem a b Hab) as [H|H]; [exact H|].
    exfalso. apply H. etransitivity; eassumption. }
  split.
  - intros [H1 H2]. split; apply Hone; assumption.
  - intros [H1 H2]. split; (eapply rtc_subrel; [|eassumption]); exact Hsub.
Qed.

Lemma rtc_inside_elem G T x y : rtc (inside G T) x y -> x ∈ T -> y ∈ T.
Proof.
  induction 1 as [|x z y (_ & _ & Hz) _ IH]; intros Hx; [exact Hx | auto].
Qed.

Lemma rtc_inside_reaches G T x y : rtc (inside G T) x y -> reaches G x y.
Proof. apply rtc_subrel. intros a b [H _]. exact H. Qed.

Lemma along_inside G T x y :
  x ∈ T -> rtc (along G T) x y <-> rtc (inside G T) x y.
Proof.
  intros Hx. split.
  - intros H. induction H as [|x z y [Hxz Hz] _ IH]; [reflexivity|].
    eapply rtc_l; [split; [exact Hxz | split; assumption] | apply IH, Hz].
  - apply rtc_subrel. intros a b (H & _ & Hb). split; assumption.
Qed.

Lemma connected_in_refl G T x : connected_in G T x x.
Proof. split; reflexivity. Qed.

Lemma connected_in_sym G T x y : connected_in G T x y -> connected_in G T y x.
Proof. intros [H1 H2]. split; assumption. Qed.

Lemma connected_in_trans G T x y z :
  connected_in G T x y -> connected_in G T y z -> connected_in G T x z.
Proof. intros [H1 H2] [H3 H4]. split; etransitivity; eassumption. Qed.

Lemma elem_of_scc_of G T x y :
  x ∈ T -> y ∈ scc_of G T x <-> connected_in G T x y.
Proof.
  intros Hx. unfold scc_of. rewrite elem_of_filter, !elem_of_reachable_along.
  split.
  - intros [(y' & Hy' & Hyx) (x' & Hx' & Hxy)].
    apply elem_of_singleton in Hy' as ->. apply elem_of_singleton in Hx' as ->.
    apply along_inside in Hxy; [|exact Hx].
    split; [exact Hxy|]. apply along_inside; [|exact Hyx].
    eapply rtc_inside_elem; eassumption.
  - intros [Hxy Hyx]. split.
    + exists y. split; [apply elem_of_singleton; reflexivity|].
      apply along_inside; [|exact Hyx]. eapply rtc_inside_elem; eassumption.
    + exists x. split; [apply elem_of_singleton; reflexivity|].
      apply along_inside; assumption.
Qed.

Lemma scc_of_class G T x : x ∈ T -> is_class_in G T (scc_of G T x).
Proof.
  intros Hx. split; [|split].
  - exists x. apply elem_of_scc_of; [exact Hx | apply connected_in_refl].
  - intros y Hy. apply elem_of_scc_of in Hy as [Hy _]; [|exact Hx].
    eapply rtc_inside_elem; eassumption.
  - intros a Ha y. apply elem_of_scc_of in Ha; [|exact Hx].
    rewrite elem_of_scc_of by exact Hx. split; intros H.
    + eapply connected_in_trans; [apply connected_in_sym|]; eassumption.
    + eapply connected_in_trans; eassumption.
Qed.

Lemma elem_of_nodes_of sccs x :
  x ∈ nodes_of sccs <-> exists scc, scc ∈ sccs /\ x ∈ scc.
Proof.
  unfold nodes_of. rewrite elem_of_union_list. split.
  - intros (X & HX & Hx). apply list_elem_of_fmap in HX as (scc & -> & Hscc).
    exists scc. split; [exact Hscc|]. apply elem_of_list_to_set in Hx. exact Hx.
  - intros (scc & Hscc & Hx). exists (list_to_set scc). split.
    + apply list_elem_of_fmap. eauto.
    + apply elem_of_list_to_set. exact Hx.
Qed.

Lemma sccs_ok_snoc G T sccs scc :
  sccs_ok G T sccs -> NoDup scc -> is_class_in G T (list_to_set scc) ->
  (forall scc' x, scc' ∈ sccs -> x ∈ scc -> x ∈ scc' -> False) ->
  sccs_ok G T (sccs ++ [scc]).
Proof.
  induction sccs as [|s sccs IH]; simpl; intros Hok Hnd Hcl Hdis.
  - split; [exact Hnd|]. split; [exact Hcl|]. split; [|exact I].
    intros s' x Hs'. inversion Hs'.
  - destruct Hok as (Hnd1 & Hcl1 & Hdis1 & Hok).
    split; [exact Hnd1|]. split; [exact Hcl1|]. split.
    + intros s' x Hs' Hx Hx'. apply elem_of_app in Hs' as [Hs'|Hs'].
      * eapply Hdis1; eassumption.
      * apply list_elem_of_singleton in Hs' as ->.
        eapply (Hdis s x); [left | exact Hx' | exact Hx].
    + apply IH; try assumption.
      intros s' x Hs'. apply Hdis. right. exact Hs'.
Qed.

Lemma tarjanSCC_ok G todo :
  sccs_ok G (list_to_set todo) (tarjanSCC G todo) /\
  (forall x, x ∈ todo -> x ∈ nodes_of (tarjanSCC G todo)) /\
  nodes_of (tarjanSCC G todo) ⊆ list_to_set todo.
Proof.
  unfold tarjanSCC. set (T := list_to_set todo : gset node).
  assert (forall l acc,
            (forall x, x ∈ l -> x ∈ T) ->
            sccs_ok G T acc ->
            (forall scc, scc ∈ acc -> exists x, x ∈ T /\ scc = elements (scc_of G T x)) ->
            let r := foldl (fun sccs x =>
                       if bool_decide (Exists (fun scc => x ∈ scc) sccs) then sccs
                       else sccs ++ [elements (scc_of G T x)]) acc l in
            sccs_ok G T r /\
            (forall x, x ∈ nodes_of acc \/ x ∈ l -> x ∈ nodes_of r) /\
            (forall scc, scc ∈ r -> exists x, x ∈ T /\ scc = elements (scc_of G T x)))
    as Hfold.
  { induction l as [|x l IH]; intros acc Hl Hok Hacc; simpl.
    - split; [exact Hok|]. split; [|exact Hacc].
      intros x [Hx|Hx]; [exact Hx | inversion Hx].
    - assert (x ∈ T) as HxT by (apply Hl; left).
      assert (forall y, y ∈ l -> y ∈ T) as Hl' by (intros y Hy; apply Hl; right; exact Hy).
      destruct (bool_decide_reflect (Exists (fun scc => x ∈ scc) acc)) as [Hex|Hnex].
      + destruct (IH acc Hl' Hok Hacc) as (H1 & H2 & H3).
        split; [exact H1|]. split; [|exact H3].
        intros y [Hy|Hy]; [apply H2; left; exact Hy|].
        apply elem_of_cons in Hy as [->|Hy]; [|apply H2; right; exact Hy].
        apply H2. left. apply elem_of_nodes_of.
        apply Exists_exists in Hex as (scc & Hscc & Hx). eauto.
      + assert (sccs_ok G T (acc ++ [elements (scc_of G T x)])) as Hok'.
        { apply sccs_ok_snoc; [exact Hok | apply NoDup_elements | |].
          - rewrite list_to_set_elements_L. apply scc_of_class, HxT.
          - intros scc' z Hscc' Hz Hz'. apply Hnex. apply Exists_exists.
            exists scc'. split; [exact Hscc'|].
            destruct (Hacc scc' Hscc') as (x' & Hx'T & ->).
            apply elem_of_elements in Hz, Hz'. apply elem_of_elements.
            apply elem_of_scc_of in Hz; [|exact HxT].
            apply elem_of_scc_of in Hz'; [|exact Hx'T].
            apply elem_of_scc_of; [exact Hx'T|].
            eapply connected_in_trans; [exact Hz'|]. apply connected_in_sym, Hz. }
        assert (forall scc, scc ∈ acc ++ [elements (scc_of G T x)] ->
                  exists x0, x0 ∈ T /\ scc = elements (scc_of G T x0)) as Hacc'.
        { intros scc Hscc. apply elem_of_app in Hscc as [Hscc|Hscc]; [auto|].
          apply list_elem_of_singleton in Hscc as ->. eauto. }
        destruct (IH _ Hl' Hok' Hacc') as (H1 & H2 & H3).
        split; [exact H1|]. split; [|exact H3].
        intros y [Hy|Hy].
        * apply H2. left. apply elem_of_nodes_of in Hy as (scc & Hscc & Hy).
          apply elem_of_nodes_of. exists scc. split; [|exact Hy].
          apply elem_of_app. left. exact Hscc.
        * apply elem_of_cons in Hy as [->|Hy]; [|apply H2; right; exact Hy].
          apply H2. left. apply elem_of_nodes_of.
          exists (elements (scc_of G T x)). split.
          -- apply elem_of_app. right. left.
          -- apply elem_of_elements, elem_of_scc_of; [exact HxT|].
             apply connected_in_refl. }
  destruct (Hfold todo [] (fun x Hx => proj2 (elem_of_list_to_set x todo) Hx) I)
    as (H1 & H2 & H3).
  { intros scc Hscc. inversion Hscc. }
  split; [exact H1|]. split; [intros x Hx; apply H2; right; exact Hx|].
  intros x Hx. apply elem_of_nodes_of in Hx as (scc & Hscc & Hx).
  destruct (H3 scc Hscc) as (x0 & Hx0 & ->). apply elem_of_elements in Hx.
  apply elem_of_scc_of in Hx as [Hx _]; [|exact Hx0].
  eapply rtc_inside_elem; eassumption.
Qed.

(** *** Cloning a region of a component *)

Lemma original_duplicate M n : original M (duplicate M n) = n.
Proof.
  unfold original, duplicate.
  destruct (Pos.ltb_spec M (n + M)) as [_|H]; lia.
Qed.

Lemma original_below M n : (n <= M)%positive -> original M n = n.
Proof.
  unfold original. intros H. destruct (Pos.ltb_spec M n) as [H'|_]; [lia | reflexivity].
Qed.

Lemma duplicate_inj M n m : duplicate M n = duplicate M m -> n = m.
Proof. unfold duplicate. lia. Qed.

Lemma fresh_base_le nodes n : n ∈ nodes -> (n <= fresh_base nodes)%positive.
Proof.
  induction nodes as [|x nodes IH]; intros H; [inversion H|].
  simpl. apply elem_of_cons in H as [->|H]; [lia|]. specialize (IH H). lia.
Qed.

Lemma entry_of_connected (H : graph) x y e :
  connected H x y -> entry_of H x e -> entry_of H y e.
Proof.
  intros Hxy (Hxe & p & Hpe & Hp). split.
  - eapply connected_trans; [apply connected_sym, Hxy | exact Hxe].
  - exists p. split; [exact Hpe|]. intros Hc. apply Hp.
    eapply connected_trans; [exact Hxy | exact Hc].
Qed.

Lemma one_entry_connected (H : graph) x y e :
  connected H x y -> one_entry H x e -> one_entry H y e.
Proof.
  intros Hxy [He Huniq]. split; [eapply entry_of_connected; eassumption|].
  intros e' He'. apply Huniq. eapply entry_of_connected; [|exact He'].
  apply connected_sym, Hxy.
Qed.

Section Duplication.

Variables (G G' : graph) (nodes : list node) (M : positive).
Variables (T S R : gset node) (h : node).

Hypothesis HG : graph_of G nodes.
Hypothesis HM : forall n, n ∈ nodes -> (n <= M)%positive.
Hypothesis HT : forall n, n ∈ T -> n ∈ nodes.
Hypothesis HS : is_class_in G T S.
Hypothesis Hh : h ∈ S.
Hypothesis HR1 : forall n, n ∈ R -> n ∈ S /\ n <> h.
Hypothesis HR2 : forall a b, a ∈ R -> (a, b) ∈ G -> b ∈ S -> b <> h -> b ∈ R.
Hypothesis HR3 : forall n p, n ∈ S -> n <> h -> (p, n) ∈ G -> p ∉ S -> n ∈ R.
Hypothesis HR4 : forall n, n ∈ R ->
  exists e p, e ∈ R /\ (p, e) ∈ G /\ p ∉ S /\
              rtc (fun a b => (a, b) ∈ G /\ a ∈ R /\ b ∈ R) e n.

(** the edges of the graph after the cloning: the edges that are kept,
    the edges moved to a clone, and the edges of the clones *)
Hypothesis HE : forall a b, (a, b) ∈ G' <->
  ((a, b) ∈ G /\ ¬ (b ∈ R /\ a ∉ S)) \/
  (exists n, b = duplicate M n /\ (a, n) ∈ G /\ n ∈ R /\ a ∉ S) \/
  (exists p n, a = duplicate M p /\ b = duplicate M n /\
               (p, n) ∈ G /\ p ∈ R /\ n ∈ R) \/
  (exists p, a = duplicate M p /\ (p, b) ∈ G /\ p ∈ R /\ b ∉ R).

Lemma S_nodes n : n ∈ S -> n ∈ nodes.
Proof using HT HS. intros H. apply HT. destruct HS as (_ & Hsub & _). auto. Qed.

Lemma clone_fresh n : duplicate M n ∉ nodes.
Proof using HM. intros H. apply HM in H. unfold duplicate in H. lia. Qed.

Lemma original_node n : n ∈ nodes -> original M n = n.
Proof using HM. intros H. apply original_below, HM, H. Qed.

Lemma edge_original a b : (a, b) ∈ G' -> (original M a, original M b) ∈ G.
Proof using HG HM HE.
  intros H. apply HE in H as [[H _]|[(n & -> & H & _)|[(p & n & -> & -> & H & _)|(p & -> & H & _)]]].
  - destruct (HG _ _ H) as [Ha Hb]. rewrite !original_node by assumption. exact H.
  - destruct (HG _ _ H) as [Ha Hb].
    rewrite original_duplicate, original_node by assumption. exact H.
  - rewrite !original_duplicate. exact H.
  - destruct (HG _ _ H) as [Ha Hb].
    rewrite original_duplicate, original_node by assumption. exact H.
Qed.

Lemma reaches_original a b :
  reaches G' a b -> reaches G (original M a) (original M b).
Proof using HG HM HE.
  apply (rtc_congruence (original M)). intros x y. apply edge_original.
Qed.

Lemma connected_original a b :
  connected G' a b -> connected G (original M a) (original M b).
Proof using HG HM HE. intros [H1 H2]. split; apply reaches_original; assumption. Qed.

(** the end points of the edges after the cloning *)
Lemma edge_ends a b :
  (a, b) ∈ G' ->
  (a ∈ nodes \/ exists n, n ∈ R /\ a = duplicate M n) /\
  (b ∈ nodes \/ exists n, n ∈ R /\ b = duplicate M n).
Proof using HG HE.
  intros H. apply HE in H as [[H _]|[(n & -> & H & Hn & _)|[(p & n & -> & -> & H & Hp & Hn)|(p & -> & H & Hp & _)]]];
    destruct (HG _ _ H) as [Ha Hb]; split; eauto.
Qed.

Lemma reaches_ends a b :
  reaches G' a b -> a = b \/
  (b ∈ nodes \/ exists n, n ∈ R /\ b = duplicate M n).
Proof using HG HE.
  intros H. apply rtc_inv_r in H as [->|(z & _ & H)]; [left; reflexivity|].
  right. apply (edge_ends z b H).
Qed.

Lemma edge_kept a b : (a, b) ∈ G -> ¬ (b ∈ R /\ a ∉ S) -> (a, b) ∈ G'.
Proof using HE. intros H1 H2. apply HE. left. auto. Qed.

(** a component of the graph on [T] is strongly connected by its own
    edges *)
Lemma S_connected a b :
  a ∈ S -> b ∈ S -> rtc (fun u v => (u, v) ∈ G /\ u ∈ S /\ v ∈ S) a b.
Proof using HS.
  intros Ha Hb. destruct HS as (_ & _ & Hcl).
  apply (Hcl a Ha) in Hb as [Hab Hba].
  pose proof (rtc_in_class (inside G T) a a b (rtc_refl _ _) Hab Hba) as Hp.
  eapply rtc_subrel; [|exact Hp]. intros u v ((Huv & _) & Hu & Hv).
  split; [exact Huv|]. split; apply (Hcl a Ha); split; tauto.
Qed.

Lemma S_reaches a b : a ∈ S -> b ∈ S -> reaches G a b.
Proof using HS.
  intros Ha Hb. eapply rtc_subrel; [|apply S_connected; eassumption].
  intros u v [H _]. exact H.
Qed.

Lemma S_reaches' a b : a ∈ S -> b ∈ S -> reaches G' a b.
Proof using HS HE.
  intros Ha Hb. eapply rtc_subrel; [|apply S_connected; eassumption].
  intros u v (H & Hu & _). apply edge_kept; [exact H|]. tauto.
Qed.

Lemma S_connected_h a : a ∈ S -> connected G h a.
Proof using HS Hh. intros Ha. split; apply S_reaches; assumption. Qed.

(** a clone reaches the head *)
Lemma clone_reaches_head n : n ∈ R -> reaches G' (duplicate M n) h.
Proof using HS Hh HR1 HR2 HE.
  intros Hn.
  assert (forall a b, rtc (fun u v => (u, v) ∈ G /\ u ∈ S /\ v ∈ S) a b -> a ∈ R ->
            (b ∈ R /\ reaches G' (duplicate M a) (duplicate M b)) \/
            reaches G' (duplicate M a) h) as Hpath.
  { intros a b Hab. induction Hab as [a|a z b (Haz & _ & Hz) _ IH]; intros Ha.
    - left. split; [exact Ha | reflexivity].
    - destruct (decide (z = h)) as [->|Hzh].
      + right. apply rtc_once. apply HE. right. right. right.
        exists a. split; [reflexivity|]. split; [exact Haz|]. split; [exact Ha|].
        intros Hc. apply HR1 in Hc as [_ Hc]. congruence.
      + assert (z ∈ R) as HzR by (eapply HR2; eassumption).
        assert ((duplicate M a, duplicate M z) ∈ G') as He.
        { apply HE. right. right. left. exists a, z. auto. }
        destruct (IH HzR) as [[Hb Hr]|Hr].
        * left. split; [exact Hb|]. eapply rtc_l; eassumption.
        * right. eapply rtc_l; eassumption. }
  destruct (HR1 n Hn) as [HnS _].
  destruct (Hpath n h (S_connected n h HnS Hh) Hn) as [[HhR _]|Hr]; [|exact Hr].
  apply HR1 in HhR as [_ HhR]. congruence.
Qed.

(** a clone is reached from the clone of an entry, which a node outside
    the component enters *)
Lemma clone_reached n :
  n ∈ R ->
  exists e p, e ∈ R /\ (p, e) ∈ G /\ p ∉ S /\ (p, duplicate M e) ∈ G' /\
              reaches G' (duplicate M e) (duplicate M n).
Proof using HR4 HE.
  intros Hn. destruct (HR4 n Hn) as (e & p & He & Hpe & Hp & Hpath).
  exists e, p. split; [exact He|]. split; [exact Hpe|]. split; [exact Hp|]. split.
  - apply HE. right. left. exists e. auto.
  - unfold reaches. eapply (rtc_congruence (duplicate M)); [|exact Hpath].
    intros a b (Hab & Ha & Hb). apply HE. right. right. left. exists a, b. auto.
Qed.

(** a path of the graph before the cloning has a path after it: an edge
    that was moved leads to the clone, from there to the head, and on to
    the node that the edge entered *)
Lemma reaches_lift a b : reaches G a b -> reaches G' a b.
Proof using HS Hh HR1 HR2 HE.
  intros H. induction H as [a|a z b Haz _ IH]; [reflexivity|].
  etransitivity; [|exact IH].
  destruct (decide (z ∈ R /\ a ∉ S)) as [[Hz Ha]|Hn].
  - eapply rtc_l.
    + apply HE. right. left. exists z. auto.
    + etransitivity; [apply clone_reaches_head, Hz|].
      apply S_reaches'; [exact Hh | apply HR1, Hz].
  - apply rtc_once. apply edge_kept; assumption.
Qed.

Lemma connected_lift a b : connected G a b -> connected G' a b.
Proof using HS Hh HR1 HR2 HE. intros [H1 H2]. split; apply reaches_lift; assumption. Qed.

Lemma R_connected_h n : n ∈ R -> connected G h n.
Proof using HS Hh HR1. intros Hn. apply S_connected_h, HR1, Hn. Qed.

(** **** A component that does not hold the cloned one *)

Lemma outside_node x y :
  x ∈ nodes -> ¬ connected G x h -> connected G' x y -> y ∈ nodes.
Proof using HG HM HS Hh HR1 HE.
  intros Hx Hxh Hxy. destruct (reaches_ends x y (proj1 Hxy)) as [<-|[Hy|(n & Hn & ->)]];
    [exact Hx | exact Hy |].
  exfalso. apply Hxh. apply connected_original in Hxy.
  rewrite original_duplicate, original_node in Hxy by exact Hx.
  eapply connected_trans; [exact Hxy|]. apply connected_sym, R_connected_h, Hn.
Qed.

Lemma outside_connected x y :
  x ∈ nodes -> ¬ connected G x h -> connected G' x y <-> connected G x y.
Proof using HG HM HS Hh HR1 HR2 HE.
  intros Hx Hxh. split; [|apply connected_lift].
  intros Hxy. pose proof (outside_node x y Hx Hxh Hxy) as Hy.
  apply connected_original in Hxy. rewrite !original_node in Hxy by assumption.
  exact Hxy.
Qed.

Lemma outside_entry x e :
  x ∈ nodes -> ¬ connected G x h -> entry_of G' x e <-> entry_of G x e.
Proof using HG HM HS Hh HR1 HR2 HE.
  intros Hx Hxh. split.
  - intros (Hxe & p & Hpe & Hp).
    pose proof (outside_node x e Hx Hxh Hxe) as He.
    split; [apply outside_connected; assumption|].
    apply HE in Hpe as [[Hpe _]|[(n & -> & _)|[(q & n & _ & -> & _)|(q & -> & Hqe & Hq & _)]]].
    + exists p. split; [exact Hpe|]. intros Hc. apply Hp, connected_lift, Hc.
    + exfalso. eapply clone_fresh, He.
    + exfalso. eapply clone_fresh, He.
    + exists q. split; [exact Hqe|]. intros Hc. apply Hxh.
      eapply connected_trans; [exact Hc|]. apply connected_sym, R_connected_h, Hq.
  - intros (Hxe & p & Hpe & Hp). split; [apply connected_lift, Hxe|].
    exists p. split.
    + apply edge_kept; [exact Hpe|]. intros [He _]. apply Hxh.
      eapply connected_trans; [exact Hxe|]. apply connected_sym, R_connected_h, He.
    + intros Hc. apply Hp. apply outside_connected in Hc; assumption.
Qed.

(** **** The cloned component, when it is a component of the whole graph *)

Section Whole.

Hypothesis Hfull : forall y, connected G h y -> y ∈ S.
Hypothesis Hhp : exists p, (p, h) ∈ G /\ p ∉ S.

Lemma no_clone_from_S a b : a ∈ S -> reaches G' a b -> b ∈ nodes.
Proof using HG HM HT HS Hh HR1 HE Hfull.
  intros Ha Hab. revert b Hab.
  apply (rtc_ind_r (fun b => b ∈ nodes) a); [apply S_nodes, Ha|].
  intros z b Haz Hzb IH.
  apply HE in Hzb as [[H _]|[(n & -> & Hzn & Hn & Hz)|[(p & n & -> & _)|(p & -> & _)]]].
  - apply (HG _ _ H).
  - exfalso. apply Hz. apply Hfull.
    apply reaches_original in Haz.
    rewrite (original_node a), (original_node z) in Haz by first [assumption | apply S_nodes; assumption].
    eapply connected_trans; [apply S_connected_h, Ha|].
    split; [exact Haz|]. eapply rtc_l; [exact Hzn|].
    apply S_reaches; [apply HR1, Hn | exact Ha].
  - exfalso. eapply clone_fresh, IH.
  - exfalso. eapply clone_fresh, IH.
Qed.

Lemma S_class' x y : x ∈ S -> connected G' x y <-> y ∈ S.
Proof using HG HM HT HS Hh HR1 HE Hfull.
  intros Hx. split.
  - intros Hxy. pose proof (no_clone_from_S x y Hx (proj1 Hxy)) as Hy.
    apply connected_original in Hxy.
    rewrite (original_node x), (original_node y) in Hxy by first [assumption | apply S_nodes; assumption].
    apply Hfull. eapply connected_trans; [apply S_connected_h, Hx | exact Hxy].
  - intros Hy. split; apply S_reaches'; assumption.
Qed.

Lemma S_one_entry x : x ∈ S -> one_entry G' x h.
Proof using HG HM HT HS Hh HR1 HR2 HR3 HE Hfull Hhp.
  intros Hx. split.
  - split; [apply S_class'; assumption|].
    destruct Hhp as (p & Hph & Hp). exists p. split.
    + apply edge_kept; [exact Hph|]. intros [Hc _]. apply HR1 in Hc as [_ Hc]. congruence.
    + intros Hc. apply Hp. eapply S_class'; eassumption.
  - intros e' (Hxe & p & Hpe & Hp).
    assert (e' ∈ S) as He by (eapply S_class'; eassumption).
    assert (p ∈ S -> False) as HpS.
    { intros HpS. apply Hp. apply S_class'; assumption. }
    destruct (decide (e' = h)) as [|Hne]; [assumption|]. exfalso.
    apply HE in Hpe as [[Hpe Hk]|[(n & -> & _)|[(q & n & _ & -> & _)|(q & -> & Hqe & Hq & HeR)]]].
    + apply Hk. split; [|exact HpS]. eapply HR3; eassumption.
    + eapply clone_fresh, S_nodes, He.
    + eapply clone_fresh, S_nodes, He.
    + apply HeR. eapply HR2; eassumption.
Qed.

Lemma clone_class n y :
  n ∈ R -> connected G' (duplicate M n) y -> exists m, m ∈ R /\ y = duplicate M m.
Proof using HG HM HT HS Hh HR1 HE Hfull.
  intros Hn Hny.
  destruct (reaches_ends _ _ (proj1 Hny)) as [<-|[Hy|H]]; [eauto | | exact H].
  exfalso. pose proof Hny as Hc. apply connected_original in Hc.
  rewrite original_duplicate, original_node in Hc by exact Hy.
  assert (y ∈ S) as HyS.
  { apply Hfull. eapply connected_trans; [apply R_connected_h, Hn | exact Hc]. }
  eapply clone_fresh, (no_clone_from_S y _ HyS (proj2 Hny)).
Qed.

End Whole.

(** **** The cloned component, when it lies in a component with one entry *)

Section Nested.

Variable e0 : node.
Hypothesis He0 : one_entry G h e0.
Hypothesis He0S : e0 ∉ S.

Lemma nested_pred n p : n ∈ S -> (p, n) ∈ G -> connected G h p.
Proof using HG HS Hh He0 He0S.
  intros Hn Hpn. destruct (connected_dec G nodes h p HG) as [H|H]; [exact H|].
  exfalso. apply He0S. destruct He0 as [_ Huniq].
  rewrite <- (Huniq n); [exact Hn|].
  split; [apply S_connected_h, Hn|]. eauto.
Qed.

Lemma clone_connected n : n ∈ R -> connected G' (duplicate M n) h.
Proof using HG HS Hh HR1 HR2 HR4 HE He0 He0S.
  intros Hn. split; [apply clone_reaches_head, Hn|].
  destruct (clone_reached n Hn) as (e & p & He & Hpe & Hp & Hpe' & Hpath).
  etransitivity; [|exact Hpath].
  eapply rtc_r; [|exact Hpe'].
  apply reaches_lift. apply (nested_pred e p); [apply HR1, He | exact Hpe].
Qed.

Lemma nested_one_entry : one_entry G' h e0.
Proof using HG HM HT HS Hh HR1 HR2 HR4 HE He0 He0S.
  destruct He0 as [(Hhe & p0 & Hp0e & Hp0) Huniq].
  assert (forall p, p ∈ nodes -> connected G' h p -> connected G h p) as Hback.
  { intros p Hp Hc. apply connected_original in Hc.
    rewrite (original_node h), (original_node p) in Hc by first [assumption | apply S_nodes; assumption].
    exact Hc. }
  split.
  - split; [apply connected_lift, Hhe|]. exists p0. split.
    + apply edge_kept; [exact Hp0e|]. intros [Hc _]. apply He0S, HR1, Hc.
    + intros Hc. apply Hp0, Hback; [apply (HG _ _ Hp0e) | exact Hc].
  - intros e' (Hhe' & p & Hpe & Hp).
    apply HE in Hpe as [[Hpe _]|[(n & -> & Hpn & Hn & HpS)|[(q & n & -> & _ & _ & Hq & _)|(q & -> & _ & Hq & _)]]].
    + apply Huniq. split; [apply Hback; [apply (HG _ _ Hpe) | exact Hhe']|].
      exists p. split; [exact Hpe|]. intros Hc. apply Hp, connected_lift, Hc.
    + exfalso. apply Hp, connected_lift. apply (nested_pred n p); [apply HR1, Hn | exact Hpn].
    + exfalso. apply Hp, connected_sym, clone_connected, Hq.
    + exfalso. apply Hp, connected_sym, clone_connected, Hq.
Qed.

End Nested.

(** a component of the whole graph that lies in [T] is a component of the
    graph on [T] *)
Lemma full_class_S (rest : gset node) :
  (forall n, n ∈ rest -> n ∈ T) ->
  (forall y, connected G h y -> y ∈ rest) ->
  forall y, connected G h y -> y ∈ S.
Proof using HS Hh.
  intros Hrest Hfull y [Hhy Hyh]. destruct HS as (_ & _ & Hcl).
  apply (Hcl h Hh).
  assert (forall u v, rtc (fun a b => (a, b) ∈ G /\
            (reaches G h a /\ reaches G a h) /\ (reaches G h b /\ reaches G b h)) u v ->
            rtc (inside G T) u v) as Hin.
  { intros u v. apply rtc_subrel. intros a b (Hab & Ha & Hb).
    split; [exact Hab|]. split; apply Hrest, Hfull; assumption. }
  split; apply Hin.
  - apply (rtc_in_class _ h h y); [reflexivity | exact Hhy | exact Hyh].
  - apply (rtc_in_class _ h y h); [exact Hhy | exact Hyh | reflexivity].
Qed.

(** **** The components after the cloning *)

Variables (rest newtodo newtodo' heads_ : gset node).

Hypothesis HSrest : forall n, n ∈ S -> n ∈ rest.
Hypothesis Hrest : forall n, n ∈ rest -> n ∈ T.
Hypothesis Hheads : forall n, n ∈ heads_ -> n ∈ rest -> False.
Hypothesis Hnew : forall n, n ∈ rest -> n ∈ newtodo -> False.
Hypothesis HS2 : exists y, y ∈ S /\ y <> h.
Hypothesis Hhp : exists p, (p, h) ∈ G /\ p ∉ S.
Hypothesis Hnew' : forall y,
  y ∈ newtodo \/ (exists n, n ∈ R /\ y = duplicate M n) \/ y ∈ S ->
  y <> h -> y ∈ newtodo'.
Hypothesis Hsettled : forall x, nontrivial G x -> settled G rest newtodo heads_ x.

Lemma settled_after x :
  nontrivial G' x -> settled G' (rest ∖ S) newtodo' (heads_ ∪ {[ h ]}) x.
Proof using All.
  intros (y0 & Hy0 & Hxy0).
  assert (x ∈ nodes \/ exists n, n ∈ R /\ x = duplicate M n) as Hx.
  { destruct (reaches_ends _ _ (proj2 Hxy0)) as [Heq|Hx]; [congruence | exact Hx]. }
  destruct (connected_dec G nodes (original M x) h HG) as [Hc|Hnc].
  - assert (nontrivial G h) as Hnt.
    { destruct HS2 as (y & Hy & Hyh). exists y. split; [exact Hyh|].
      apply S_connected_h, Hy. }
    destruct (Hsettled h Hnt) as [Hfull0|[Hin|(e0 & He0 & Hone)]].
    + pose proof (full_class_S rest Hrest Hfull0) as Hfull.
      destruct Hx as [Hx|(n & Hn & ->)].
      * rewrite original_node in Hc by exact Hx.
        assert (x ∈ S) as HxS by (apply Hfull, connected_sym, Hc).
        right. right. exists h. split; [apply elem_of_union; right; apply elem_of_singleton; reflexivity|].
        apply S_one_entry; assumption.
      * right. left. intros y Hy.
        destruct (clone_class Hfull n y Hn Hy) as (m & Hm & ->).
        apply Hnew'; [eauto|].
        intros Heq. eapply clone_fresh. rewrite Heq. apply S_nodes, Hh.
    + exfalso. apply (Hnew h); [apply HSrest, Hh | apply Hin, connected_refl].
    + assert (e0 ∉ S) as He0S by (intros H; eapply Hheads; [exact He0 | apply HSrest, H]).
      assert (connected G' x h) as Hxh.
      { destruct Hx as [Hx|(n & Hn & ->)].
        - rewrite original_node in Hc by exact Hx. apply connected_lift, Hc.
        - eapply clone_connected; eassumption. }
      right. right. exists e0. split; [apply elem_of_union; left; exact He0|].
      eapply one_entry_connected; [apply connected_sym, Hxh|].
      eapply nested_one_entry; eassumption.
  - assert (x ∈ nodes) as Hxn.
    { destruct Hx as [Hx|(n & Hn & ->)]; [exact Hx|]. exfalso. apply Hnc.
      rewrite original_duplicate. apply connected_sym, R_connected_h, Hn. }
    rewrite original_node in Hnc by exact Hxn.
    assert (nontrivial G x) as Hnt.
    { exists y0. split; [exact Hy0|]. eapply outside_connected; eassumption. }
    destruct (Hsettled x Hnt) as [Hin|[Hin|(e & He & [Hent Huniq])]].
    + left. intros y Hy. apply outside_connected in Hy; [|assumption..].
      apply elem_of_difference. split; [apply Hin, Hy|].
      intros HyS. apply Hnc. eapply connected_trans; [exact Hy|].
      apply connected_sym, S_connected_h, HyS.
    + right. left. intros y Hy. apply outside_connected in Hy; [|assumption..].
      apply Hnew'; [left; apply Hin, Hy|].
      intros ->. contradiction.
    + right. right. exists e. split; [apply elem_of_union; left; exact He|].
      split; [apply outside_entry; assumption|].
      intros e' He'. apply Huniq. eapply outside_entry; eassumption.
Qed.

End Duplication.
(** *** [duplicateNodes] and [topologicalSort] *)

Lemma elem_of_duplicateNodes G nodes reachable (S : gset node) a b :
  let M := fresh_base nodes in
  let R : gset node := list_to_set reachable in
  (a, b) ∈ fst (duplicateNodes G nodes reachable S) <->
  ((a, b) ∈ G /\ ¬ (b ∈ R /\ a ∉ S)) \/
  (exists n, b = duplicate M n /\ (a, n) ∈ G /\ n ∈ R /\ a ∉ S) \/
  (exists p n, a = duplicate M p /\ b = duplicate M n /\
               (p, n) ∈ G /\ p ∈ R /\ n ∈ R) \/
  (exists p, a = duplicate M p /\ (p, b) ∈ G /\ p ∈ R /\ b ∉ R).
Proof.
  intros M R. unfold duplicateNodes. cbn [fst]. fold M. fold R.
  rewrite elem_of_set_bind. split.
  - intros ([p n] & He & H). unfold dup_edge in H. cbn [fst snd] in H.
    apply elem_of_union in H as [H|H].
    + destruct (bool_decide_reflect (n ∈ R /\ p ∉ S)) as [[Hn Hp]|Hk];
        apply elem_of_singleton in H; injection H as -> ->.
      * right. left. exists n. auto.
      * left. auto.
    + destruct (bool_decide_reflect (p ∈ R)) as [Hp|Hp]; [|inversion H].
      apply elem_of_singleton in H. injection H as -> ->.
      destruct (bool_decide_reflect (n ∈ R)) as [Hn|Hn].
      * right. right. left. exists p, n. auto.
      * right. right. right. exists p. auto.
  - intros [[H Hk]|[(n & -> & H & Hn & Ha)|[(p & n & -> & -> & H & Hp & Hn)|(p & -> & H & Hp & Hb)]]].
    + exists (a, b). split; [exact H|]. unfold dup_edge. cbn [fst snd].
      apply elem_of_union. left. rewrite bool_decide_eq_false_2 by exact Hk.
      apply elem_of_singleton. reflexivity.
    + exists (a, n). split; [exact H|]. unfold dup_edge. cbn [fst snd].
      apply elem_of_union. left. rewrite bool_decide_eq_true_2 by auto.
      apply elem_of_singleton. reflexivity.
    + exists (p, n). split; [exact H|]. unfold dup_edge. cbn [fst snd].
      apply elem_of_union. right. rewrite !bool_decide_eq_true_2 by assumption.
      apply elem_of_singleton. reflexivity.
    + exists (p, b). split; [exact H|]. unfold dup_edge. cbn [fst snd].
      apply elem_of_union. right. rewrite bool_decide_eq_true_2 by assumption.
      rewrite bool_decide_eq_false_2 by assumption.
      apply elem_of_singleton. reflexivity.
Qed.

(** the edges of a graph that is left as it is, read as a cloning of the
    empty region *)
Lemma elem_of_no_duplicate (G : graph) M (S : gset node) a b :
  (a, b) ∈ G <->
  ((a, b) ∈ G /\ ¬ (b ∈ (∅ : gset node) /\ a ∉ S)) \/
  (exists n, b = duplicate M n /\ (a, n) ∈ G /\ n ∈ (∅ : gset node) /\ a ∉ S) \/
  (exists p n, a = duplicate M p /\ b = duplicate M n /\
               (p, n) ∈ G /\ p ∈ (∅ : gset node) /\ n ∈ (∅ : gset node)) \/
  (exists p, a = duplicate M p /\ (p, b) ∈ G /\ p ∈ (∅ : gset node) /\ b ∉ (∅ : gset node)).
Proof.
  split.
  - intros H. left. split; [exact H|]. intros [Hb _]. set_solver.
  - intros [[H _]|[(n & _ & _ & Hn & _)|[(p & n & _ & _ & _ & Hp & _)|(p & _ & _ & Hp & _)]]];
      [exact H | set_solver..].
Qed.

Lemma not_subseteq_witness (X Y : gset node) :
  ¬ X ⊆ Y -> exists x, x ∈ X /\ x ∉ Y.
Proof.
  intros H. destruct (set_choose_or_empty (X ∖ Y)) as [[x Hx]|He].
  - exists x. apply elem_of_difference in Hx. exact Hx.
  - exfalso. apply H. intros x Hx. destruct (decide (x ∈ Y)) as [|Hn]; [assumption|].
    exfalso. apply (not_elem_of_empty (C:=gset node) x). rewrite <- He.
    apply elem_of_difference. auto.
Qed.

Lemma pop_Some {A} (l : list A) x l' : pop l = Some (x, l') -> l = l' ++ [x].
Proof.
  unfold pop. destruct (rev l) as [|y r] eqn:Hr; [discriminate|].
  intros [= <- <-]. rewrite <- (rev_involutive l), Hr. reflexivity.
Qed.

Lemma list_remove_NoDup x l l' :
  NoDup l -> list_remove x l = Ok l' -> x ∉ l'.
Proof.
  revert l'. induction l as [|y l IH]; intros l' Hnd H; simpl in H; [discriminate|].
  apply NoDup_cons in Hnd as [Hy Hnd].
  destruct (decide (x = y)) as [->|Hne].
  - injection H as <-. exact Hy.
  - apply rbind_Ok in H as (r & Hr & [= <-]).
    intros Hx. apply elem_of_cons in Hx as [Hx|Hx]; [congruence|].
    eapply IH; eassumption.
Qed.

Lemma list_remove_app x l1 l2 l' :
  x ∉ l1 -> list_remove x (l1 ++ l2) = Ok l' ->
  exists l2', list_remove x l2 = Ok l2' /\ l' = l1 ++ l2'.
Proof.
  revert l'. induction l1 as [|y l1 IH]; intros l' Hx H; simpl in H.
  - exists l'. auto.
  - destruct (decide (x = y)) as [->|Hne]; [exfalso; apply Hx; left|].
    apply rbind_Ok in H as (r & Hr & [= <-]).
    destruct (IH r) as (l2' & H2 & ->); [intros Hc; apply Hx; right; exact Hc | exact Hr|].
    exists l2'. auto.
Qed.

Lemma two_elements (l : list node) x z :
  x ∈ l -> z ∈ l -> x <> z -> (2 <= length l)%nat.
Proof.
  intros Hx Hz Hne. destruct l as [|a [|b l]]; simpl; try lia.
  - inversion Hx.
  - apply list_elem_of_singleton in Hx. apply list_elem_of_singleton in Hz. congruence.
Qed.

Lemma another_element (l : list node) x :
  NoDup l -> (2 <= length l)%nat -> exists y, y ∈ l /\ y <> x.
Proof.
  intros Hnd Hlen. destruct l as [|a [|b l]]; simpl in Hlen; try lia.
  apply NoDup_cons in Hnd as [Hab _].
  destruct (decide (a = x)) as [->|Hne].
  - exists b. split; [right; left|]. intros ->. apply Hab. left.
  - exists a. split; [left | exact Hne].
Qed.

Lemma settled_mono G (r1 r2 n1 n2 h1 h2 : gset node) x :
  r1 ⊆ r2 -> n1 ⊆ n2 -> h1 ⊆ h2 ->
  settled G r1 n1 h1 x -> settled G r2 n2 h2 x.
Proof.
  intros Hr Hn Hh [H|[H|(e & He & H)]].
  - left. intros y Hy. apply Hr, H, Hy.
  - right. left. intros y Hy. apply Hn, H, Hy.
  - right. right. exists e. split; [apply Hh, He | exact H].
Qed.

(** the region that [topologicalSort] returns for the entries [ents] of a
    component [S] with the head [h] *)
Lemma region_facts (G : graph) (S : gset node) h (ents : list node) :
  let R := reachable_along G (S ∖ {[ h ]}) (list_to_set ents) in
  (forall e, e ∈ ents -> e ∈ S /\ e <> h) ->
  (forall n, n ∈ R -> n ∈ S /\ n <> h) /\
  (forall a b, a ∈ R -> (a, b) ∈ G -> b ∈ S -> b <> h -> b ∈ R) /\
  (forall e, e ∈ ents -> e ∈ R) /\
  (forall n, n ∈ R ->
     exists e, e ∈ ents /\ rtc (fun a b => (a, b) ∈ G /\ a ∈ R /\ b ∈ R) e n).
Proof.
  intros R Hents.
  assert (forall e, e ∈ ents -> e ∈ R) as Hroots.
  { intros e He. apply elem_of_reachable_along. exists e.
    split; [apply elem_of_list_to_set, He | reflexivity]. }
  assert (forall a b, a ∈ R -> (a, b) ∈ G -> b ∈ S -> b <> h -> b ∈ R) as Hclosed.
  { intros a b Ha Hab Hb Hbh. apply elem_of_reachable_along in Ha as (e & He & Hea).
    apply elem_of_reachable_along. exists e. split; [exact He|].
    eapply rtc_r; [exact Hea|]. split; [exact Hab|].
    apply elem_of_difference. split; [exact Hb|].
    intros Hc. apply elem_of_singleton in Hc. contradiction. }
  split; [|split; [exact Hclosed|split; [exact Hroots|]]].
  - intros n Hn. apply elem_of_reachable_along in Hn as (e & He & Hen).
    apply elem_of_list_to_set in He.
    apply rtc_inv_r in Hen as [<-|(z & _ & _ & Hn)]; [apply Hents, He|].
    apply elem_of_difference in Hn as [Hn Hnh]. split; [exact Hn|].
    intros ->. apply Hnh, elem_of_singleton. reflexivity.
  - intros n Hn. apply elem_of_reachable_along in Hn as (e & He & Hen).
    apply elem_of_list_to_set in He. exists e. split; [exact He|].
    revert n Hen.
    apply (rtc_ind_r (fun n => rtc (fun a b => (a, b) ∈ G /\ a ∈ R /\ b ∈ R) e n));
      [reflexivity|].
    intros y z Hey [Hyz Hz] IH.
    assert (y ∈ R) as Hy.
    { apply elem_of_reachable_along. exists e.
      split; [apply elem_of_list_to_set, He | exact Hey]. }
    eapply rtc_r; [exact IH|]. split; [exact Hyz|]. split; [exact Hy|].
    apply elem_of_difference in Hz as [Hz Hzh].
    eapply Hclosed; [exact Hy | exact Hyz | exact Hz|].
    intros ->. apply Hzh, elem_of_singleton. reflexivity.
Qed.

(** the cloning changes no component of the graph on [T] *)
Lemma connected_in_after (G G' : graph) nodes M (T S R : gset node) x y :
  graph_of G nodes ->
  (forall n, n ∈ nodes -> (n <= M)%positive) ->
  (forall n, n ∈ T -> n ∈ nodes) ->
  is_class_in G T S ->
  (forall n, n ∈ R -> n ∈ S) ->
  (forall a b, (a, b) ∈ G' <->
     ((a, b) ∈ G /\ ¬ (b ∈ R /\ a ∉ S)) \/
     (exists n, b = duplicate M n /\ (a, n) ∈ G /\ n ∈ R /\ a ∉ S) \/
     (exists p n, a = duplicate M p /\ b = duplicate M n /\
                  (p, n) ∈ G /\ p ∈ R /\ n ∈ R) \/
     (exists p, a = duplicate M p /\ (p, b) ∈ G /\ p ∈ R /\ b ∉ R)) ->
  connected_in G' T x y <-> connected_in G T x y.
Proof.
  intros HG HM HT HS HR HE. unfold connected_in. symmetry.
  apply connected_remove.
  - intros a b (Hab & Ha & Hb). split; [|split; assumption].
    apply HE in Hab as [[H _]|[(n & -> & _)|[(p & n & -> & _)|(p & -> & _)]]];
      [exact H | exfalso..].
    + apply HT, HM in Hb. unfold duplicate in Hb. lia.
    + apply HT, HM in Ha. unfold duplicate in Ha. lia.
    + apply HT, HM in Ha. unfold duplicate in Ha. lia.
  - intros a b (Hab & Ha & Hb).
    destruct (decide (b ∈ R /\ a ∉ S)) as [[HbR HaS]|Hk].
    + right. intros Hba. apply HaS. destruct HS as (_ & _ & Hcl).
      apply (Hcl b (HR b HbR)). split; [exact Hba|].
      apply rtc_once. split; [exact Hab|]. split; assumption.
    + left. split; [|split; assumption]. apply HE. left. auto.
Qed.

Lemma sccs_ok_after (G G' : graph) (T : gset node) sccs :
  (forall x y, connected_in G' T x y <-> connected_in G T x y) ->
  sccs_ok G T sccs -> sccs_ok G' T sccs.
Proof.
  intros Hconn. induction sccs as [|scc sccs IH]; simpl; [auto|].
  intros (Hnd & (Hne & Hsub & Hcl) & Hdis & Hok).
  split; [exact Hnd|]. split; [|split; [exact Hdis | apply IH, Hok]].
  split; [exact Hne|]. split; [exact Hsub|].
  intros x Hx y. rewrite Hconn. apply Hcl, Hx.
Qed.

Lemma sccs_ok_elem G T sccs scc x :
  sccs_ok G T sccs -> scc ∈ sccs -> x ∈ scc -> x ∈ T.
Proof.
  induction sccs as [|s sccs IH]; simpl; intros Hok Hscc Hx; [inversion Hscc|].
  destruct Hok as (_ & (_ & Hsub & _) & _ & Hok).
  apply elem_of_cons in Hscc as [->|Hscc]; [|eauto].
  apply Hsub, elem_of_list_to_set, Hx.
Qed.

(** *** The loops of [structureLoops] *)

Lemma in_set_list (x : node) (l : list node) :
  x ∈ (list_to_set l : gset node) -> x ∈ l.
Proof. apply elem_of_list_to_set. Qed.

Lemma in_list_set (x : node) (l : list node) :
  x ∈ l -> x ∈ (list_to_set l : gset node).
Proof. apply elem_of_list_to_set. Qed.

Lemma structure_scc_inv T scc rest st st' :
  round_inv T (scc :: rest) st ->
  structure_scc st scc = Ok st' ->
  round_inv T rest st'.
Proof.
  intros [HG HT Hok Hheads Hnew Hhn Hnn Hhnodes Hset] H.
  assert (forall n, n ∈ nodes_of (scc :: rest) -> n ∈ T) as HrestT.
  { intros n Hn. apply elem_of_nodes_of in Hn as (s & Hs & Hn).
    eapply sccs_ok_elem; eassumption. }
  simpl in Hok. destruct Hok as (Hnd & Hcl & Hdis & Hok).
  assert (forall n, n ∈ nodes_of rest -> n ∈ nodes_of (scc :: rest)) as Hsub.
  { intros n Hn. apply elem_of_nodes_of in Hn as (s & Hs & Hn).
    apply elem_of_nodes_of. exists s. split; [right; exact Hs | exact Hn]. }
  assert (forall n, n ∈ scc -> n ∈ nodes_of (scc :: rest)) as Hscc.
  { intros n Hn. apply elem_of_nodes_of. exists scc. split; [left | exact Hn]. }
  assert (forall n, n ∈ scc -> n ∈ nodes_of rest -> False) as Hdis'.
  { intros n Hn Hr. apply elem_of_nodes_of in Hr as (s & Hs & Hr). eapply Hdis; eassumption. }
  unfold structure_scc in H.
  destruct (Nat.leb_spec (length scc) 1) as [Hlen|Hlen].
  - injection H as <-. constructor; try assumption.
    + intros n Hn Hr. eapply Hheads; [exact Hn | apply Hsub, Hr].
    + intros n Hr Hn. eapply Hnew; [apply Hsub, Hr | exact Hn].
    + intros x Hx. destruct (Hset x Hx) as [Hin|[Hin|Hone]].
      * left. intros y Hy. pose proof (Hin y Hy) as Hyin.
        apply elem_of_nodes_of in Hyin as (s & Hs & Hys).
        apply elem_of_cons in Hs as [->|Hs]; [|apply elem_of_nodes_of; eauto].
        exfalso.
        assert (forall z, connected (l_graph st) y z ->
                  z ∈ (list_to_set scc : gset node)) as Hfull.
        { apply (full_class_S (l_graph st) T (list_to_set scc) y Hcl
                   (in_list_set _ _ Hys) (nodes_of (scc :: rest)) HrestT).
          intros z Hz. apply Hin. eapply connected_trans; eassumption. }
        destruct Hx as (z & Hzx & Hxz).
        assert (x ∈ scc) as Hx1.
        { apply in_set_list, Hfull, connected_sym, Hy. }
        assert (z ∈ scc) as Hz1.
        { apply in_set_list, Hfull.
          eapply connected_trans; [apply connected_sym, Hy | exact Hxz]. }
        assert (x <> z) as Hne by congruence.
        pose proof (two_elements scc x z Hx1 Hz1 Hne). lia.
      * right. left. exact Hin.
      * right. right. exact Hone.
  - cbv zeta in H.
    set (G := l_graph st) in *. set (nodes := l_nodes st) in *.
    set (Sc := list_to_set scc : gset node) in *.
    destruct (pop (filter (fun n => ¬ predecessors G n ⊆ Sc) scc))
      as [[h ents]|] eqn:Hpop; [|discriminate].
    apply pop_Some in Hpop.
    apply rbind_Ok in H as (newtodo' & Hrem & [= <-]).
    match goal with |- context [mkLoop (fst ?d)] => set (dup := d) in * end.
    set (M := fresh_base nodes).
    set (R := reachable_along G (Sc ∖ {[ h ]}) (list_to_set ents)).
    assert (forall n, n ∈ ents ++ [h] <-> (¬ predecessors G n ⊆ Sc) /\ n ∈ scc)
      as Hentries.
    { intros n. rewrite <- Hpop.
      exact (list_elem_of_filter (fun n => ¬ predecessors G n ⊆ Sc) scc n). }
    assert (NoDup (ents ++ [h])) as Hnde.
    { rewrite <- Hpop. apply NoDup_filter, Hnd. }
    assert (forall n, n ∈ ents ++ [h] -> exists p, (p, n) ∈ G /\ p ∉ Sc) as Houter.
    { intros n Hn. apply Hentries in Hn as [Hn _].
      apply not_subseteq_witness in Hn as (p & Hp & HpS).
      exists p. split; [apply elem_of_predecessors, Hp | exact HpS]. }
    assert (h ∈ scc) as Hh.
    { apply (proj1 (Hentries h)). apply elem_of_app. right. left. }
    assert (exists p, (p, h) ∈ G /\ p ∉ Sc) as Hhp.
    { apply Houter. apply elem_of_app. right. left. }
    assert (forall e, e ∈ ents -> e ∈ Sc /\ e <> h) as Hents.
    { intros e He. split.
      - apply in_list_set. apply (proj1 (Hentries e)). apply elem_of_app. left. exact He.
      - intros ->. apply NoDup_app in Hnde as (_ & Hd & _). apply (Hd h He). left. }
    assert (forall n p, n ∈ Sc -> n <> h -> (p, n) ∈ G -> p ∉ Sc -> n ∈ ents) as Hentin.
    { intros n p Hn Hnh Hpn Hp.
      assert (n ∈ ents ++ [h]) as Hin.
      { apply (proj2 (Hentries n)). split; [|apply in_set_list, Hn].
        intros Hsubp. apply Hp, Hsubp, elem_of_predecessors, Hpn. }
      apply elem_of_app in Hin as [Hin|Hin]; [exact Hin|].
      apply list_elem_of_singleton in Hin. contradiction. }
    destruct (region_facts G Sc h ents Hents) as (HR1 & HR2 & Hroots & HR4').
    fold R in HR1, HR2, Hroots, HR4'.
    assert (forall n p, n ∈ Sc -> n <> h -> (p, n) ∈ G -> p ∉ Sc -> n ∈ R) as HR3.
    { intros n p Hn Hnh Hpn Hp. eapply Hroots, Hentin; eassumption. }
    assert (forall n, n ∈ R -> exists e p, e ∈ R /\ (p, e) ∈ G /\ p ∉ Sc /\
              rtc (fun a b => (a, b) ∈ G /\ a ∈ R /\ b ∈ R) e n) as HR4.
    { intros n Hn. destruct (HR4' n Hn) as (e & He & Hpath).
      destruct (Houter e) as (p & Hpe & Hp); [apply elem_of_app; left; exact He|].
      exists e, p. auto. }
    assert ((forall a b, (a, b) ∈ fst dup <->
               ((a, b) ∈ G /\ ¬ (b ∈ R /\ a ∉ Sc)) \/
               (exists n, b = duplicate M n /\ (a, n) ∈ G /\ n ∈ R /\ a ∉ Sc) \/
               (exists p n, a = duplicate M p /\ b = duplicate M n /\
                            (p, n) ∈ G /\ p ∈ R /\ n ∈ R) \/
               (exists p, a = duplicate M p /\ (p, b) ∈ G /\ p ∈ R /\ b ∉ R)) /\
            (forall y, y ∈ snd dup <-> exists n, n ∈ R /\ y = duplicate M n))
      as [HE Hclones].
    { subst dup. destruct ents as [|e0 ents'].
      - assert (R = ∅) as HR0.
        { apply leibniz_equiv. intros n. split; [|intros Hn; inversion Hn].
          intros Hn. apply elem_of_reachable_along in Hn as (e & He & _).
          inversion He. }
        rewrite HR0. cbn [fst snd]. split.
        + intros a b. apply elem_of_no_duplicate.
        + intros y. split; [intros Hy; inversion Hy|].
          intros (n & Hn & _). inversion Hn.
      - split.
        + intros a b.
          pose proof (elem_of_duplicateNodes G nodes
                        (topologicalSort G (Sc ∖ {[ h ]}) (e0 :: ents')) Sc a b) as Hd.
          cbv zeta in Hd. unfold topologicalSort in Hd.
          rewrite list_to_set_elements_L in Hd. exact Hd.
        + intros y. unfold duplicateNodes, topologicalSort. cbn [snd].
          rewrite list_elem_of_fmap. split.
          * intros (n & -> & Hn). exists n. split; [apply elem_of_elements, Hn | reflexivity].
          * intros (n & Hn & ->). exists n. split; [reflexivity | apply elem_of_elements, Hn]. }
    assert (forall n, n ∈ nodes -> (n <= M)%positive) as HM.
    { intros n Hn. apply fresh_base_le, Hn. }
    assert (forall y, y ∈ snd dup -> y ∉ nodes) as Hfresh.
    { intros y Hy. apply Hclones in Hy as (n & _ & ->). apply clone_fresh, HM. }
    assert (forall y, y ∈ newtodo' -> y ∈ l_newtodo st \/ y ∈ snd dup \/ y ∈ scc) as Hnew1.
    { intros y Hy. apply list_remove_Ok in Hrem as (_ & _ & Hr).
      apply Hr in Hy. rewrite !elem_of_app in Hy. exact Hy. }
    assert (forall y, y ∈ l_newtodo st \/ y ∈ snd dup \/ y ∈ scc -> y <> h ->
              y ∈ newtodo') as Hnew2.
    { intros y Hy Hyh. apply list_remove_Ok in Hrem as (_ & Hr & _).
      destruct (Hr y) as [->|Hy']; [rewrite !elem_of_app; exact Hy | contradiction | exact Hy']. }
    assert (h ∉ newtodo') as Hhnew.
    { apply list_remove_app in Hrem as (l2 & Hrem & ->);
        [|intros Hc; eapply Hnew; [apply Hscc, Hh | exact Hc]].
      apply list_remove_app in Hrem as (l3 & Hrem & ->);
        [|intros Hc; apply (Hfresh h Hc), HT, HrestT, Hscc, Hh].
      apply list_remove_NoDup in Hrem; [|exact Hnd].
      rewrite !elem_of_app. intros [Hc|[Hc|Hc]].
      - eapply Hnew; [apply Hscc, Hh | exact Hc].
      - apply (Hfresh h Hc), HT, HrestT, Hscc, Hh.
      - contradiction. }
    constructor; cbn [l_graph l_nodes l_newtodo l_heads].
    + intros p n Hpn.
      destruct (edge_ends G (fst dup) nodes M Sc R HG HE p n Hpn) as [Hp Hn].
      split; apply elem_of_app.
      * destruct Hp as [Hp|Hp]; [left; exact Hp | right; apply Hclones, Hp].
      * destruct Hn as [Hn|Hn]; [left; exact Hn | right; apply Hclones, Hn].
    + intros n Hn. apply elem_of_app. left. apply HT, Hn.
    + eapply sccs_ok_after; [|exact Hok].
      intros x y. eapply (connected_in_after G (fst dup) nodes M T Sc R); try eassumption.
      intros n Hn. apply HR1, Hn.
    + intros n Hn Hr. apply elem_of_app in Hn as [Hn|Hn].
      * eapply Hheads; [exact Hn | apply Hsub, Hr].
      * apply list_elem_of_singleton in Hn as ->. eapply Hdis'; eassumption.
    + intros n Hr Hn. destruct (Hnew1 n Hn) as [Hc|[Hc|Hc]].
      * eapply Hnew; [apply Hsub, Hr | exact Hc].
      * apply (Hfresh n Hc), HT, HrestT, Hsub, Hr.
      * eapply Hdis'; eassumption.
    + intros n Hn Hc. apply elem_of_app in Hn as [Hn|Hn].
      * destruct (Hnew1 n Hc) as [Hc'|[Hc'|Hc']].
        -- eapply Hhn; eassumption.
        -- apply (Hfresh n Hc'), Hhnodes, Hn.
        -- eapply Hheads; [exact Hn | apply Hscc, Hc'].
      * apply list_elem_of_singleton in Hn as ->. contradiction.
    + intros n Hn. apply elem_of_app. destruct (Hnew1 n Hn) as [Hc|[Hc|Hc]].
      * left. apply Hnn, Hc.
      * right. exact Hc.
      * left. apply HT, HrestT, Hscc, Hc.
    + intros n Hn. apply elem_of_app. left. apply elem_of_app in Hn as [Hn|Hn].
      * apply Hhnodes, Hn.
      * apply list_elem_of_singleton in Hn as ->. apply HT, HrestT, Hscc, Hh.
    + intros x Hx.
      eapply (settled_mono _ (nodes_of (scc :: rest) ∖ Sc) _
                (list_to_set newtodo') _ (list_to_set (l_heads st) ∪ {[ h ]})).
      * intros n Hn. apply elem_of_difference in Hn as [Hn HnS].
        apply elem_of_nodes_of in Hn as (s & Hs & Hn).
        apply elem_of_cons in Hs as [->|Hs]; [|apply elem_of_nodes_of; eauto].
        exfalso. apply HnS, in_list_set, Hn.
      * reflexivity.
      * intros n Hn. apply in_list_set. apply elem_of_app.
        apply elem_of_union in Hn as [Hn|Hn].
        -- left. apply elem_of_list_to_set in Hn. exact Hn.
        -- right. apply elem_of_singleton in Hn as ->. left.
      * apply (settled_after G (fst dup) nodes M T Sc R h HG HM HT Hcl
                 (in_list_set _ _ Hh) HR1 HR2 HR3 HR4 HE
                 (nodes_of (scc :: rest)) (list_to_set (l_newtodo st))
                 (list_to_set newtodo') (list_to_set (l_heads st))).
        -- intros n Hn. apply Hscc, in_set_list, Hn.
        -- exact HrestT.
        -- intros n Hn Hr. apply elem_of_list_to_set in Hn. eapply Hheads; eassumption.
        -- intros n Hr Hn. apply elem_of_list_to_set in Hn. eapply Hnew; eassumption.
        -- destruct (another_element scc h Hnd) as (y & Hy & Hyh); [lia|].
           exists y. split; [apply in_list_set, Hy | exact Hyh].
        -- exact Hhp.
        -- intros y Hy Hyh. apply in_list_set. apply Hnew2; [|exact Hyh].
           destruct Hy as [Hy|[Hy|Hy]].
           ++ left. apply elem_of_list_to_set in Hy. exact Hy.
           ++ right. left. apply Hclones, Hy.
           ++ right. right. apply elem_of_list_to_set in Hy. exact Hy.
        -- exact Hset.
        -- exact Hx.
Qed.

Lemma structure_sccs_inv T sccs :
  forall st st',
  round_inv T sccs st ->
  rfoldl structure_scc st sccs = Ok st' ->
  round_inv T [] st'.
Proof.
  induction sccs as [|scc sccs IH]; intros st st' Hinv H; simpl in H.
  - injection H as <-. exact Hinv.
  - apply rbind_Ok in H as (st1 & H1 & H).
    eapply IH; [|exact H]. eapply structure_scc_inv; eassumption.
Qed.

Lemma round_inv_start G nodes todo heads_ :
  todo_inv G nodes todo heads_ ->
  round_inv (list_to_set todo) (tarjanSCC G todo) (mkLoop G nodes [] heads_).
Proof.
  intros [HG Htodo Hheads Hht Hset].
  destruct (tarjanSCC_ok G todo) as (Hok & Hcover & Hin).
  constructor; cbn [l_graph l_nodes l_newtodo l_heads].
  - exact HG.
  - intros n Hn. apply Htodo, in_set_list, Hn.
  - exact Hok.
  - intros n Hn Hr. eapply Hht; [exact Hn | apply in_set_list, Hin, Hr].
  - intros n _ Hn. inversion Hn.
  - intros n _ Hn. inversion Hn.
  - intros n Hn. inversion Hn.
  - exact Hheads.
  - intros x Hx. destruct (Hset x Hx) as [H|[H|H]].
    + exfalso. apply (not_elem_of_empty (C:=gset node) x), H, connected_refl.
    + left. intros y Hy. apply Hcover, in_set_list, H, Hy.
    + right. right. exact H.
Qed.

Lemma round_inv_end T st :
  round_inv T [] st ->
  todo_inv (l_graph st) (l_nodes st) (l_newtodo st) (l_heads st).
Proof.
  intros [HG HT Hok Hheads Hnew Hhn Hnn Hhnodes Hset].
  constructor; assumption.
Qed.

Lemma structure_todo_inv fuel :
  forall G nodes todo heads_ G' nodes' heads',
  todo_inv G nodes todo heads_ ->
  structure_todo fuel G nodes todo heads_ = Ok (G', nodes', heads') ->
  todo_inv G' nodes' [] heads'.
Proof.
  induction fuel as [|fuel IH]; intros G nodes todo heads_ G' nodes' heads' Hinv H;
    destruct todo as [|n todo]; simpl in H; try discriminate;
    try (injection H as <- <- <-; exact Hinv).
  apply rbind_Ok in H as (st & Hst & H).
  eapply IH; [|exact H]. eapply round_inv_end.
  eapply structure_sccs_inv; [|exact Hst]. apply round_inv_start, Hinv.
Qed.

Lemma todo_inv_start G nodes :
  graph_of G nodes -> todo_inv G nodes nodes [].
Proof.
  intros HG. constructor.
  - exact HG.
  - auto.
  - intros n Hn. inversion Hn.
  - intros n Hn. inversion Hn.
  - intros x (z & Hzx & Hxz). right. left.
    assert (forall a b, reaches G a b -> a <> b -> b ∈ nodes) as Hend.
    { intros a b Hab Hne. apply rtc_inv_r in Hab as [->|(c & _ & Hcb)]; [congruence|].
      apply (HG _ _ Hcb). }
    intros y [Hxy _]. apply in_list_set.
    destruct (decide (x = y)) as [<-|Hne]; [|eapply Hend; eassumption].
    apply (Hend z x); [apply Hxz | exact Hzx].
Qed.

Lemma another_in_set (C : gset node) x :
  (2 <= size C)%nat -> exists y, y ∈ C /\ y <> x.
Proof.
  intros Hsize. destruct (set_choose_or_empty (C ∖ {[ x ]})) as [[y Hy]|He].
  - exists y. apply elem_of_difference in Hy as [Hy Hyx]. split; [exact Hy|].
    intros ->. apply Hyx, elem_of_singleton. reflexivity.
  - exfalso. assert (C ⊆ {[ x ]}) as Hsub.
    { intros y Hy. destruct (decide (y = x)) as [->|Hne]; [apply elem_of_singleton; reflexivity|].
      exfalso. apply (not_elem_of_empty (C:=gset node) y). rewrite <- He.
      apply elem_of_difference. split; [exact Hy|].
      intros Hc. apply elem_of_singleton in Hc. contradiction. }
    apply subseteq_size in Hsub. rewrite size_singleton in Hsub. lia.
Qed.

Lemma one_entry_single G (C : gset node) x e :
  is_scc G C -> x ∈ C -> one_entry G x e -> single_entry G C.
Proof.
  intros [_ Hcl] Hx [(Hxe & p & Hpe & Hp) Huniq]. exists e. split.
  - split; [apply (Hcl x Hx), Hxe|]. exists p. split; [exact Hpe|].
    intros Hc. apply Hp, (Hcl x Hx), Hc.
  - intros m (Hm & q & Hqm & Hq). apply Huniq. split; [apply (Hcl x Hx), Hm|].
    exists q. split; [exact Hqm|]. intros Hc. apply Hq, (Hcl x Hx), Hc.
Qed.

(** the predecessors outside the component that entered a node of the
    cloned region enter its clone *)
Lemma duplicateNodes_moves G nodes reachable (scc_set : gset node) p n :
  graph_of G nodes -> n ∈ reachable -> p ∉ scc_set -> (p, n) ∈ G ->
  (p, n) ∉ fst (duplicateNodes G nodes reachable scc_set) /\
  (p, duplicate (fresh_base nodes) n)
    ∈ fst (duplicateNodes G nodes reachable scc_set).
Proof.
  intros HG Hn Hp Hpn. destruct (HG _ _ Hpn) as [Hpn1 Hpn2].
  pose proof (fresh_base_le nodes) as HM. split.
  - intros H. apply elem_of_duplicateNodes in H
      as [[_ Hk]|[(m & -> & _)|[(q & m & -> & _)|(q & -> & _)]]].
    + apply Hk. split; [apply in_list_set, Hn | exact Hp].
    + apply HM in Hpn2. unfold duplicate in Hpn2. lia.
    + apply HM in Hpn1. unfold duplicate in Hpn1. lia.
    + apply HM in Hpn1. unfold duplicate in Hpn1. lia.
  - apply elem_of_duplicateNodes. right. left. exists n.
    split; [reflexivity|]. split; [exact Hpn|]. split; [apply in_list_set, Hn | exact Hp].
Qed.

Lemma graph_of_check (G : graph) nodes :
  forallb (fun e => bool_decide (fst e ∈ nodes) && bool_decide (snd e ∈ nodes))
          (elements G) = true ->
  graph_of G nodes.
Proof.
  intros H p n Hpn. rewrite forallb_forall in H.
  specialize (H (p, n)). cbn [fst snd] in H.
  assert (In (p, n) (elements G)) as Hin.
  { apply list_elem_of_In, elem_of_elements, Hpn. }
  apply H in Hin. apply andb_prop in Hin as [H1 H2].
  apply bool_decide_eq_true in H1, H2. auto.
Qed.

(** C4.  When [structureLoops] returns, every strongly connected
    component of the resulting graph that has at least two nodes has
    exactly one entry, that is, exactly one node with a predecessor outside
    the component; and where [duplicateNodes] clones a region, the
    predecessors outside the component that entered a node of the region
    enter its clone and no longer the node. *)
Theorem structureLoops_single_entry fuel G nodes G' nodes' heads_ :
  graph_of G nodes ->
  structureLoops fuel G nodes = Ok (G', nodes', heads_) ->
  (forall C, is_scc G' C -> (2 <= size C)%nat -> single_entry G' C) /\
  (forall H nodes0 reachable (scc_set : gset node) p n,
     graph_of H nodes0 -> n ∈ reachable -> p ∉ scc_set -> (p, n) ∈ H ->
     (p, n) ∉ fst (duplicateNodes H nodes0 reachable scc_set) /\
     (p, duplicate (fresh_base nodes0) n)
       ∈ fst (duplicateNodes H nodes0 reachable scc_set)).
Proof.
  intros HG H. split; [|intros; apply duplicateNodes_moves; assumption].
  unfold structureLoops in H.
  apply structure_todo_inv in H; [|apply todo_inv_start, HG].
  destruct H as [_ _ _ _ Hset].
  intros C HC Hsize. pose proof HC as [[x Hx] Hcl].
  destruct (another_in_set C x Hsize) as (y & Hy & Hyx).
  assert (nontrivial G' x) as Hnt.
  { exists y. split; [exact Hyx | apply (Hcl x Hx), Hy]. }
  destruct (Hset x Hnt) as [Hin|[Hin|(e & _ & He)]].
  - exfalso. apply (not_elem_of_empty (C:=gset node) x), Hin, connected_refl.
  - exfalso. specialize (Hin x (connected_refl _ _)).
    apply in_set_list in Hin. inversion Hin.
  - exact (one_entry_single G' C x e HC Hx He).
Qed.

Lemma structureLoops_single_entry_witness :
  graph_of ex_cfg ex_cfg_nodes /\
  structureLoops 5 ex_cfg ex_cfg_nodes
    = Ok (ex_cfg_loops,
          [1%positive; 2%positive; 3%positive; 6%positive], [2%positive]) /\
  ((forall C, is_scc ex_cfg_loops C -> (2 <= size C)%nat ->
              single_entry ex_cfg_loops C) /\
   (forall H nodes0 reachable (scc_set : gset node) p n,
      graph_of H nodes0 -> n ∈ reachable -> p ∉ scc_set -> (p, n) ∈ H ->
      (p, n) ∉ fst (duplicateNodes H nodes0 reachable scc_set) /\
      (p, duplicate (fresh_base nodes0) n)
        ∈ fst (duplicateNodes H nodes0 reachable scc_set))).
Proof.
  assert (graph_of ex_cfg ex_cfg_nodes) as HG.
  { apply graph_of_check. vm_compute. reflexivity. }
  assert (structureLoops 5 ex_cfg ex_cfg_nodes
            = Ok (ex_cfg_loops,
                  [1%positive; 2%positive; 3%positive; 6%positive], [2%positive])) as H.
  { vm_compute. reflexivity. }
  split; [exact HG|]. split; [exact H|].
  exact (structureLoops_single_entry 5 ex_cfg ex_cfg_nodes _ _ _ HG H).
Defined.

End LoopFacts.

(** * Further properties of the assembler *)

Section MoreAssembler.

Context (ins : instructions).
Context {ConstPool : Type}.
Context (getItemRaw : ConstPool -> arg * list arg -> ConstPool * result Z).

Lemma blen_app (a b : list byte) : blen (a ++ b) = blen a + blen b.
Proof. unfold blen. rewrite length_app. lia. Qed.

(** ** The two passes on a method *)

Lemma layout_emit_chunks fuel lines :
  forall labels0 offsets pos labels' offsets' pos' labels lbls cb s s' code,
  layout ins lines labels0 offsets pos = Ok (labels', offsets', pos') ->
  emit ins getItemRaw fuel lines labels lbls cb s = (s', Ok code) ->
  Forall (fun li => from_option distinct_keys True (snd li)) lines ->
  blen cb = pos ->
  exists chunks,
    code = cb ++ concat chunks /\
    offsets' = offsets ++ starts pos chunks /\
    pos' = blen code.
Proof.
  induction lines as [|[lbl [instr|]] lines IH];
    intros labels0 offsets pos labels' offsets' pos' labels lbls cb s s' code
           Hlay Hemit Hkeys Hpos; simpl in Hlay, Hemit.
  - injection Hlay as <- <- <-. apply ret_Ok in Hemit as [<- _].
    exists []. simpl. rewrite !app_nil_r. auto.
  - apply rbind_Ok in Hlay as (n & Hn & Hlay).
    apply bind_Ok in Hemit as (b & s1 & Hb & Hemit).
    destruct b as [b|]; [|apply raiseM_Ok in Hemit; contradiction].
    apply Forall_cons in Hkeys as [Hk Hkeys]. simpl in Hk.
    rewrite Hpos in Hb.
    pose proof (emit_length_agrees ins getItemRaw _ _ _ _ _ _ _ _ Hb Hk) as Hlen.
    rewrite Hn in Hlen. injection Hlen as ->.
    destruct (IH _ _ _ _ _ _ _ _ _ _ _ _ Hlay Hemit Hkeys) as (chunks & -> & -> & ->).
    { rewrite blen_app. lia. }
    exists (b :: chunks). simpl. rewrite <- !app_assoc. auto.
  - apply Forall_cons in Hkeys as [_ Hkeys]. eapply IH; eassumption.
Qed.


(** ** Labels *)

Lemma layout_app l1 l2 labels offsets pos :
  layout ins (l1 ++ l2) labels offsets pos =
  rbind (layout ins l1 labels offsets pos)
        (fun r => layout ins l2 (fst (fst r)) (snd (fst r)) (snd r)).
Proof.
  revert labels offsets pos. induction l1 as [|[lbl [instr|]] l1 IH];
    intros labels offsets pos; simpl; [reflexivity| |apply IH].
  destruct (getInstrLen ins instr pos) as [n|e]; simpl; [apply IH | reflexivity].
Qed.

Lemma layout_keeps_label lines :
  forall labels offsets pos labels' offsets' pos' lbl,
  layout ins lines labels offsets pos = Ok (labels', offsets', pos') ->
  lbl ∉ map fst lines ->
  labels' !! lbl = labels !! lbl.
Proof.
  induction lines as [|[l [instr|]] lines IH];
    intros labels offsets pos labels' offsets' pos' lbl H Hnot; simpl in H.
  - injection H as <- <- <-. reflexivity.
  - apply rbind_Ok in H as (n & _ & H).
    rewrite (IH _ _ _ _ _ _ lbl H).
    + apply lookup_insert_ne. intros ->. apply Hnot. left.
    + intros Hc. apply Hnot. right. exact Hc.
  - rewrite (IH _ _ _ _ _ _ lbl H).
    + apply lookup_insert_ne. intros ->. apply Hnot. left.
    + intros Hc. apply Hnot. right. exact Hc.
Qed.

(** X2.  The offset that the layout pass records for a label is the
    position of the last line that carries it: an earlier line with the
    same label is overridden, without an error.  The same holds for the
    key [None] of the lines without a label. *)
Theorem last_label_wins pre lbl instr post labels offsets pos
    labels1 offsets1 pos1 labels' offsets' pos' :
  layout ins pre labels offsets pos = Ok (labels1, offsets1, pos1) ->
  layout ins (pre ++ (lbl, instr) :: post) labels offsets pos
    = Ok (labels', offsets', pos') ->
  lbl ∉ map fst post ->
  labels' !! lbl = Some pos1.
Proof.
  intros Hpre H Hpost. rewrite layout_app, Hpre in H. cbn [rbind fst snd] in H.
  simpl in H. destruct instr as [instr|].
  - apply rbind_Ok in H as (n & _ & H).
    rewrite (layout_keeps_label _ _ _ _ _ _ _ lbl H Hpost).
    apply lookup_insert_eq.
  - rewrite (layout_keeps_label _ _ _ _ _ _ _ lbl H Hpost).
    apply lookup_insert_eq.
Qed.

(** ** The limits *)

Lemma least_of_step init l m n :
  least_of (Z.min init n) l m -> least_of init (n :: l) m.
Proof.
  intros (H1 & H2 & H3). split; [lia|]. split.
  - intros k Hk. apply elem_of_cons in Hk as [->|Hk]; [lia | auto].
  - destruct H3 as [H3|H3]; [|right; right; exact H3].
    destruct (Z.min_spec init n) as [[_ E]|[_ E]]; rewrite E in H3.
    + left. exact H3.
    + right. rewrite H3. left.
Qed.

Lemma do_directives_limits fuel ds :
  forall labels lbls jasmode stack locals_ excepts s s' r,
  do_directives getItemRaw fuel ds labels lbls jasmode stack locals_ excepts s
    = (s', Ok r) ->
  least_of stack (stack_limits ds) (fst (fst r)) /\
  least_of locals_ (locals_limits ds) (snd (fst r)).
Proof.
  induction ds as [|d ds IH];
    intros labels lbls jasmode stack locals_ excepts s s' r H; simpl in H.
  - apply ret_Ok in H as [<- _]. simpl.
    split; (split; [lia|]; split; [intros n Hn; inversion Hn | left; reflexivity]).
  - destruct d as [name start end_ target|n|n|].
    + apply bind_Ok in H as (hack & s1 & _ & H).
      apply bind_Ok in H as (? & s2 & _ & H).
      destruct (labels !! Some start), (labels !! Some end_), (labels !! Some target);
        try (apply raiseM_Ok in H; contradiction).
      apply bind_Ok in H as (i & s3 & _ & H).
      apply bind_Ok in H as (b & s4 & _ & H).
      apply IH in H. exact H.
    + apply IH in H as [H1 H2]. split; [|exact H2].
      apply least_of_step, H1.
    + apply IH in H as [H1 H2]. split; [exact H1|].
      apply least_of_step, H2.
    + apply IH in H. exact H.
Qed.

(** X3.  The limits that the directives leave are the least of 65535 and
    the values of the [stack] directives, and the least of 65535 and the
    values of the [locals] directives: a limit above 65535 is ignored
    without an error, and of several limits the least one counts. *)
Theorem limits_are_least fuel ds labels lbls jasmode s s' stack locals_ excepts :
  do_directives getItemRaw fuel ds labels lbls jasmode 65535 65535 [] s
    = (s', Ok (stack, locals_, excepts)) ->
  least_of 65535 (stack_limits ds) stack /\
  least_of 65535 (locals_limits ds) locals_.
Proof. intros H. apply do_directives_limits in H. exact H. Qed.

(** ** The catch directive of Jasmin *)

Lemma pack1_in_range c z :
  fmin c <= z <= fmax c -> pack1 c z = Ok (be_bytes (fsize c) z).
Proof.
  intros [H1 H2]. unfold pack1.
  destruct (Z.leb_spec (fmin c) z); [|lia].
  destruct (Z.leb_spec z (fmax c)); [|lia]. reflexivity.
Qed.

(** X4.  In Jasmin mode a catch directive whose class name is the Utf8
    string [all], still held as the tuple the parser built, catches
    everything: the catch type of the entry is 0, the index 0 is written
    into the reference, whatever index it had, and the constant pool is not
    touched. *)
Theorem jasmin_catch_all fuel name start end_ target labels lbls stack locals_
    excepts s o a0 r rest o1 s0 e0 t0 :
  heap s !! name = Some o -> args o = a0 :: APool r :: rest ->
  heap s !! r = Some o1 -> args_list o1 = false ->
  args o1 = [AStr "Utf8"; AStr "all"] ->
  labels !! Some start = Some s0 -> labels !! Some end_ = Some e0 ->
  labels !! Some target = Some t0 ->
  0 <= s0 <= 65535 -> 0 <= e0 <= 65535 -> 0 <= t0 <= 65535 ->
  do_directives getItemRaw (S fuel) [DCatch name start end_ target] labels lbls
    true stack locals_ excepts s
  = (mkState (alter (set_index 0) name (heap s)) (cpool s),
     Ok (stack, locals_,
         excepts ++ [be_bytes 2 s0 ++ be_bytes 2 e0 ++ be_bytes 2 t0
                     ++ be_bytes 2 0])).
Proof.
  intros Ho Hargs Ho1 Hl Hargs1 Hs He Ht Rs Re Rt.
  unfold do_directives.
  assert (jasmin_all name s = (s, Ok true)) as Hj.
  { unfold jasmin_all, bind, deref, ret. rewrite Ho, Hargs, Ho1, Hl, Hargs1.
    cbn [negb andb]. rewrite bool_decide_eq_true_2 by reflexivity. reflexivity. }
  unfold bind at 1. rewrite Hj. unfold bind at 1. unfold modify at 1.
  rewrite Hs, He, Ht. unfold bind at 1.
  assert (toIndex getItemRaw (S fuel) lbls name []
            {| heap := alter (set_index 0) name (heap s); cpool := cpool s |}
          = ({| heap := alter (set_index 0) name (heap s); cpool := cpool s |}, Ok 0))
    as Hi.
  { cbn [toIndex]. unfold bind, deref. cbn [heap].
    rewrite lookup_alter_eq, Ho. reflexivity. }
  rewrite Hi. unfold bind, liftR. cbn [pack].
  rewrite !pack1_in_range by (cbn [fmin fmax]; lia).
  cbn [rbind fsize]. unfold ret. rewrite ?app_nil_r, <- ?app_assoc. reflexivity.
Qed.

(** ** The line number table *)

Lemma rmap_pack_pairs offsets lntable :
  rmap (fun x => pack [fH; fH] [x; x]) offsets = Ok lntable ->
  lntable = map (fun x => be_bytes 2 x ++ be_bytes 2 x) offsets /\
  Forall (fun x => 0 <= x <= 65535) offsets.
Proof.
  intros H. apply rmap_Forall2 in H.
  induction H as [|x b offsets lntable Hx _ [IH1 IH2]]; [split; [reflexivity | constructor]|].
  apply pack_cons_Ok in Hx as (bs & Hbs & -> & Hr).
  apply pack_cons_Ok in Hbs as (bs' & Hbs' & -> & _).
  destruct bs'; [|discriminate]. simpl in Hr.
  split; [|constructor; [exact Hr | exact IH2]].
  cbn [map fsize]. rewrite ?app_nil_r, IH1. reflexivity.
Qed.


(** ** Instructions that cannot be assembled *)

(** X6.  No [wide] instruction is ever assembled: whatever its operands,
    the emit pass raises, as it hands the tuple of the operands to
    [struct.pack] as one argument. *)
Theorem wide_always_raises fuel vs labels pos lbls s :
  _op_structs ins "wide" = None ->
  exists s' e,
    assembleInstruction ins getItemRaw fuel ("wide"%string, vs) labels pos lbls s
      = (s', Raise e).
Proof.
  intros Hfmt. unfold assembleInstruction. cbn [fst snd]. rewrite Hfmt.
  unfold bind at 1. unfold liftR at 1.
  destruct (opcode ins "wide") as [first|e]; [|eauto].
  unfold bind at 1.
  destruct (mapM (resolve getItemRaw fuel lbls) vs s) as [s1 [vs1|e]]; [|eauto].
  unfold bind at 1.
  destruct (str_in "wide" (instrs_lbl ins)).
  - destruct vs1 as [|[n|l|r|a|so a|p j d|j d] vs1]; unfold raiseM; eauto.
    unfold bind at 1. unfold liftR at 1.
    destruct (lbl2Off labels pos l) as [off|e]; [|eauto].
    unfold ret. cbn [String.eqb Ascii.eqb Bool.eqb]. unfold raiseM. eauto.
  - unfold ret. cbn [String.eqb Ascii.eqb Bool.eqb].
    destruct vs1 as [|[n|l|r|a|so a|p j d|j d] vs1]; unfold raiseM; eauto.
    unfold bind at 1. unfold liftR at 1.
    destruct (opcode ins so) as [prefix|e]; [|eauto].
    unfold bind, liftR, pack_values. simpl. eauto.
Qed.

(** X7.  A jump to a label that no line defines, in a method in which some
    line has no label, is reported as an [AssemblerError] whose message
    names the label and lists the labels of the method in sorted order. *)
Theorem undefined_label_reported fuel op l labels pos lbls s first p :
  opcode ins op = Ok first ->
  str_in op (instrs_lbl ins) = true ->
  labels !! Some l = None -> labels !! None = Some p ->
  assembleInstruction ins getItemRaw fuel (op, [VStr l]) labels pos lbls s
  = (s, Raise (AssemblerError
         ("Undefined label: " +:+ l +:+ newline +:+
          "Defined labels for current method are: " +:+
          join ", " (sorted_labels labels)))).
Proof.
  intros Hop Hlbl Hl Hn. unfold assembleInstruction. cbn [fst snd].
  unfold bind at 1. unfold liftR at 1. rewrite Hop.
  unfold bind at 1. cbn [mapM resolve]. unfold bind at 1. unfold ret at 1.
  unfold bind at 1. unfold ret at 1. unfold ret at 1.
  unfold bind at 1. rewrite Hlbl. unfold bind at 1. unfold liftR at 1.
  rewrite (lbl2Off_undefined labels pos l p Hl Hn). reflexivity.
Qed.

(** ** The jump table of [tableswitch] *)

Lemma rmap_pack_i offs body :
  rmap (fun j => pack [fi] [j]) offs = Ok body ->
  body = map (be_bytes 4) offs.
Proof.
  intros H. apply rmap_Forall2 in H.
  induction H as [|x b offs body Hx _ IH]; [reflexivity|].
  apply pack_cons_Ok in Hx as (bs & Hbs & -> & _).
  destruct bs; [|discriminate]. cbn [map fsize]. rewrite ?app_nil_r, IH. reflexivity.
Qed.


(** ** References that the cycle check does not see *)

Lemma mapM_raises_at
    (f : arg -> @state ConstPool -> @state ConstPool * result arg) pre x rest e :
  Forall (fun a => forall s, f a s = (s, Ok a)) pre ->
  forall s, f x s = (s, Raise e) ->
  mapM f (pre ++ x :: rest) s = (s, Raise e).
Proof.
  induction 1 as [|a pre Ha _ IH]; intros s Hx; simpl.
  - unfold bind at 1. rewrite Hx. reflexivity.
  - unfold bind at 1. rewrite Ha. unfold bind at 1. rewrite (IH s Hx). reflexivity.
Qed.

(** X9.  The check for recursive references only follows labels.  When a
    reference without a label has an argument that refers, by a label, back
    to the reference itself, [toIndex] recurses until the recursion limit,
    whatever the limit is, and ends in a [RuntimeError], not in the
    [AssemblerError] of a recursive reference; nothing is resolved. *)
Theorem structural_cycle_overflows fuel forbidden lbls s r1 r2 o1 o2 l pre rest :
  heap s !! r1 = Some o1 -> index o1 = None -> lbl_true o1 = None ->
  args o1 = pre ++ APool r2 :: rest ->
  Forall (fun a => forall r, a <> APool r) pre ->
  heap s !! r2 = Some o2 -> index o2 = None -> lbl_true o2 = Some l ->
  lbls !! l = Some r1 ->
  toIndex getItemRaw fuel lbls r1 forbidden s = (s, Raise RuntimeError).
Proof.
  intros Ho1 Hi1 Hl1 Hargs Hpre Ho2 Hi2 Hl2 Hl. revert forbidden.
  induction fuel as [fuel IH] using lt_wf_ind. intros forbidden.
  destruct fuel as [|fuel]; [reflexivity|].
  cbn [toIndex]. unfold bind at 1. unfold deref at 1. rewrite Ho1, Hi1, Hl1.
  unfold bind at 1. rewrite Hargs.
  rewrite (mapM_raises_at _ pre (APool r2) rest RuntimeError); [reflexivity| |].
  - eapply Forall_impl; [exact Hpre|]. intros a Ha s0.
    destruct a as [t|n|r]; [reflexivity | reflexivity |].
    exfalso. apply (Ha r). reflexivity.
  - unfold bind at 1.
    destruct fuel as [|fuel]; [reflexivity|].
    cbn [toIndex]. unfold bind at 1. unfold deref at 1. rewrite Ho2, Hi2, Hl2.
    unfold bind at 1. unfold getLabel_body. cbn [str_in existsb]. rewrite Hl.
    rewrite (IH fuel) by lia. reflexivity.
Qed.

End MoreAssembler.
(** ** Instances *)


Lemma last_label_wins_witness :
  layout jvm [label_line] ∅ [] 0 = Ok ({[ Some "L"%string := 0 ]}, [0], 1) /\
  layout jvm ([label_line] ++ label_line :: []) ∅ [] 0
    = Ok ({[ Some "L"%string := 1 ]}, [0; 1], 2) /\
  Some "L"%string ∉ map fst ([] : list (option string * option instruction)) /\
  ({[ Some "L"%string := 1 ]} : labels_t) !! Some "L"%string = Some 1.
Proof.
  assert (layout jvm [label_line] ∅ [] 0
            = Ok ({[ Some "L"%string := 0 ]}, [0], 1)) as H1.
  { vm_compute. reflexivity. }
  assert (layout jvm ([label_line] ++ label_line :: []) ∅ [] 0
            = Ok ({[ Some "L"%string := 1 ]}, [0; 1], 2)) as H2.
  { vm_compute. reflexivity. }
  assert (Some "L"%string
            ∉ map fst ([] : list (option string * option instruction))) as H3.
  { intros H. inversion H. }
  split; [exact H1|]. split; [exact H2|]. split; [exact H3|].
  exact (last_label_wins jvm [label_line] (Some "L"%string)
           (Some ("nop"%string, [])) [] ∅ [] 0 _ _ _ _ _ _ H1 H2 H3).
Defined.

Lemma limits_are_least_witness :
  do_directives list_getItemRaw 1 [DStack 70000; DStack 5; DLocals 70000] ∅ ∅
    false 65535 65535 [] (mkState ∅ [])
    = (mkState ∅ [], Ok (5, 65535, [])) /\
  (least_of 65535 (stack_limits [DStack 70000; DStack 5; DLocals 70000]) 5 /\
   least_of 65535 (locals_limits [DStack 70000; DStack 5; DLocals 70000]) 65535).
Proof.
  assert (do_directives list_getItemRaw 1 [DStack 70000; DStack 5; DLocals 70000]
            ∅ ∅ false 65535 65535 [] (mkState ∅ [])
          = (mkState ∅ [], Ok (5, 65535, []))) as H.
  { vm_compute. reflexivity. }
  split; [exact H|].
  exact (limits_are_least list_getItemRaw _ _ _ _ _ _ _ _ _ _ H).
Defined.

Lemma jasmin_catch_all_witness :
  do_directives list_getItemRaw 1 [DCatch 1%positive "L" "L" "L"]
    {[ Some "L"%string := 0 ]} ∅ true 65535 65535 [] (mkState all_heap [])
  = (mkState (alter (set_index 0) 1%positive all_heap) [],
     Ok (65535, 65535,
         [] ++ [be_bytes 2 0 ++ be_bytes 2 0 ++ be_bytes 2 0 ++ be_bytes 2 0])).
Proof.
  apply (jasmin_catch_all list_getItemRaw 0 1%positive "L" "L" "L"
           {[ Some "L"%string := 0 ]} ∅ 65535 65535 [] (mkState all_heap [])
           (mkPoolRef None None [AStr "Class"; APool 2%positive] false)
           (AStr "Class") 2%positive []
           (mkPoolRef None None [AStr "Utf8"; AStr "all"] false) 0 0 0);
    try reflexivity; lia.
Defined.


Lemma wide_always_raises_witness :
  _op_structs jvm "wide" = None /\
  exists s' e,
    assembleInstruction jvm list_getItemRaw 1
      ("wide"%string, [VWide "iload" [1]]) ∅ 0 ∅ (mkState ∅ []) = (s', Raise e).
Proof.
  split; [reflexivity|].
  exact (wide_always_raises jvm list_getItemRaw 1 [VWide "iload" [1]] ∅ 0 ∅
           (mkState ∅ []) eq_refl).
Defined.

Lemma undefined_label_reported_witness :
  opcode jvm "goto" = Ok xa7 /\
  str_in "goto" (instrs_lbl jvm) = true /\
  ({[ None := 0 ]} : labels_t) !! Some "L1"%string = None /\
  ({[ None := 0 ]} : labels_t) !! None = Some 0 /\
  assembleInstruction jvm list_getItemRaw 0 ("goto"%string, [VStr "L1"])
    {[ None := 0 ]} 0 ∅ (mkState ∅ [])
  = (mkState ∅ [],
     Raise (AssemblerError
       ("Undefined label: " +:+ "L1" +:+ newline +:+
        "Defined labels for current method are: " +:+
        join ", " (sorted_labels {[ None := 0 ]})))).
Proof.
  split; [vm_compute; reflexivity|]. split; [vm_compute; reflexivity|].
  split; [reflexivity|]. split; [reflexivity|].
  apply (undefined_label_reported jvm list_getItemRaw 0 "goto" "L1"
           {[ None := 0 ]} 0 ∅ (mkState ∅ []) xa7 0).
  - vm_compute; reflexivity.
  - vm_compute; reflexivity.
  - reflexivity.
  - reflexivity.
Defined.


Lemma structural_cycle_overflows_witness :
  loop_heap !! 1%positive
    = Some (mkPoolRef None None [AStr "Class"; APool 2%positive] false) /\
  loop_heap !! 2%positive = Some (mkPoolRef None (Some "a"%string) [] false) /\
  loop_lbls !! "a"%string = Some 1%positive /\
  toIndex list_getItemRaw 1000 loop_lbls 1%positive [] (mkState loop_heap [])
    = (mkState loop_heap [], Raise RuntimeError).
Proof.
  split; [reflexivity|]. split; [reflexivity|]. split; [reflexivity|].
  apply (structural_cycle_overflows list_getItemRaw 1000 [] loop_lbls
           (mkState loop_heap []) 1%positive 2%positive
           (mkPoolRef None None [AStr "Class"; APool 2%positive] false)
           (mkPoolRef None (Some "a"%string) [] false) "a" [AStr "Class"] []);
    try reflexivity.
  constructor; [|constructor]. intros r H. discriminate.
Defined.


(** * Properties of the dominator information *)

Module DominatorFacts.
Import Structuring StructuringFacts Dominators.

(** ** One step of the inner loop *)

(** what a step that does not raise has done: nothing, when the path of
    [child] has no node outside [doms[cur] + (child,)]; or it has given
    [child] its first path, or has filtered the path of [child] *)
Lemma relax_Ok cur doms stack child st' :
  relax cur (doms, stack) child = Ok st' ->
  exists pu, doms !! cur = Some pu /\
    ((st' = (doms, stack) /\
      exists pv, doms !! child = Some pv /\ pv ⊆ pu ++ [child]) \/
     (exists new,
        st' = (<[child := new]> doms,
               if decide (child ∈ stack) then stack else stack ++ [child]) /\
        child ∈ new /\
        ((doms !! child = None /\ new = pu ++ [child]) \/
         (exists old, doms !! child = Some old /\
            new = filter (fun x => x ∈ pu ++ [child]) old /\ new <> old)))).
Proof.
  unfold relax. cbn [fst snd].
  destruct (doms !! cur) as [pu|] eqn:Hcur; [|discriminate].
  cbn [rbind]. intros H. exists pu. split; [reflexivity|].
  destruct (decide (Some (pu ++ [child]) = doms !! child)) as [E|NE].
  { left. injection H as <-. split; [reflexivity|].
    exists (pu ++ [child]). split; [symmetry; exact E|]. intros x Hx. exact Hx. }
  destruct (doms !! child) as [old|] eqn:Hold.
  - destruct (bool_decide (child ∈ filter (fun x => x ∈ pu ++ [child]) old))
      eqn:Hin; [|discriminate].
    apply bool_decide_eq_true_1 in Hin. cbn [assert rbind] in H.
    destruct (decide (Some (filter (fun x => x ∈ pu ++ [child]) old) = Some old))
      as [E2|NE2].
    + left. injection H as <-. split; [reflexivity|].
      exists old. split; [reflexivity|]. injection E2 as E2.
      intros x Hx. rewrite <- E2 in Hx.
      apply list_elem_of_filter in Hx. exact (proj1 Hx).
    + right. injection H as <-. eexists. split; [reflexivity|].
      split; [exact Hin|]. right. exists old. split; [reflexivity|].
      split; [reflexivity|]. intros E2. apply NE2. rewrite E2. reflexivity.
  - destruct (bool_decide (child ∈ pu ++ [child])) eqn:Hin; [|discriminate].
    apply bool_decide_eq_true_1 in Hin. cbn [assert rbind] in H.
    destruct (decide (Some (pu ++ [child]) = None)) as [E2|_]; [discriminate|].
    right. injection H as <-. eexists. split; [reflexivity|].
    split; [exact Hin|]. left. split; reflexivity.
Qed.

(** a step raises only when [cur] has no path, or when the path of [child]
    does not hold [child] *)
Lemma relax_total cur doms stack child pu :
  doms !! cur = Some pu ->
  (forall p, doms !! child = Some p -> child ∈ p) ->
  exists st', relax cur (doms, stack) child = Ok st'.
Proof.
  intros Hcur Hlast. unfold relax. cbn [fst snd]. rewrite Hcur. cbn [rbind].
  destruct (decide (Some (pu ++ [child]) = doms !! child)) as [E|NE];
    [eexists; reflexivity|].
  destruct (doms !! child) as [old|] eqn:Hold.
  - rewrite bool_decide_eq_true_2.
    + cbn [assert rbind]. destruct (decide _); eexists; reflexivity.
    + apply list_elem_of_filter. split.
      * apply elem_of_app. right. apply list_elem_of_singleton. reflexivity.
      * apply Hlast. reflexivity.
  - rewrite bool_decide_eq_true_2.
    + cbn [assert rbind]. destruct (decide _); eexists; reflexivity.
    + apply elem_of_app. right. apply list_elem_of_singleton. reflexivity.
Qed.

Lemma last_elem_of {A} (l : list A) x : last l = Some x -> x ∈ l.
Proof.
  intros H. apply last_Some in H as [l' ->].
  apply elem_of_app. right. apply list_elem_of_singleton. reflexivity.
Qed.

Lemma last_filter_keeps {A} (P : A -> Prop) `{forall x, Decision (P x)}
    (l : list A) x :
  last l = Some x -> P x -> last (filter P l) = Some x.
Proof.
  intros Hl HP. apply last_Some in Hl as [l' ->].
  rewrite filter_app. rewrite filter_cons_True by exact HP.
  rewrite filter_nil. apply last_snoc.
Qed.

Section Invariants.

Context (successors : node -> list node) (root : node).

Local Abbreviation walk := (walk successors root).
Local Abbreviation reachable := (reachable successors root).
Local Abbreviation dominates := (dominates successors root).
Local Abbreviation avoiding := (avoiding successors root).
Local Abbreviation doms_inv := (doms_inv successors root).
Local Abbreviation edges_inv := (edges_inv successors).
Local Abbreviation settled_doms := (settled_doms successors root).

Lemma doms_inv_start : doms_inv {[ root := [root] ]} [root].
Proof.
  constructor.
  - apply lookup_singleton_eq.
  - intros n p H. apply lookup_singleton_Some in H as [<- <-]. reflexivity.
  - apply NoDup_singleton.
  - intros n H. apply list_elem_of_singleton in H as ->.
    rewrite lookup_singleton_eq. eexists; reflexivity.
  - intros n p H. apply lookup_singleton_Some in H as [<- <-]. reflexivity.
  - intros n [p H]. apply lookup_singleton_Some in H as [<- <-].
    exists [root]. constructor.
  - intros n p d H Hd. apply lookup_singleton_Some in H as [<- <-].
    constructor. intros ->. apply Hd. apply list_elem_of_singleton. reflexivity.
Qed.

(** giving [child] its first path, or filtering its path, keeps the
    invariant *)
Lemma doms_inv_update doms order cur pu child new :
  doms_inv doms order ->
  doms !! cur = Some pu -> child ∈ successors cur -> child ∈ new ->
  (doms !! child = None /\ new = pu ++ [child]) \/
  (exists old, doms !! child = Some old /\
     new = filter (fun x => x ∈ pu ++ [child]) old /\ new <> old) ->
  exists order', doms_inv (<[child := new]> doms) order' /\
    length order' = (match doms !! child with Some _ => length order | None => S (length order) end).
Proof.
  intros I Hcur Hedge Hin [[Hnone ->]|(old & Hold & -> & Hne)].
  - exists (order ++ [child]). rewrite Hnone. split.
    2:{ rewrite length_app. simpl. lia. }
    assert (Hroot : root <> child).
    { intros <-. rewrite (inv_root _ _ _ _ I) in Hnone. discriminate. }
    assert (Hfresh : child ∉ order).
    { intros H. apply (inv_keys _ _ _ _ I) in H as [p Hp]. congruence. }
    constructor.
    + rewrite lookup_insert_ne by (intros E; apply Hroot; symmetry; exact E).
      apply (inv_root _ _ _ _ I).
    + intros n p H. apply lookup_insert_Some in H as [[<- <-]|[Hn H]].
      * apply last_snoc.
      * apply (inv_last _ _ _ _ I _ _ H).
    + apply NoDup_app. split; [apply (inv_order _ _ _ _ I)|]. split.
      * intros x Hx Hx'. apply list_elem_of_singleton in Hx' as ->.
        apply Hfresh, Hx.
      * apply NoDup_singleton.
    + intros n H. apply lookup_insert_is_Some'.
      apply elem_of_app in H as [H|H].
      * right. apply (inv_keys _ _ _ _ I _ H).
      * left. apply list_elem_of_singleton in H. symmetry; exact H.
    + intros n p H. apply lookup_insert_Some in H as [[<- <-]|[Hn H]].
      * apply sublist_app; [apply (inv_sub _ _ _ _ I _ _ Hcur)|reflexivity].
      * apply sublist_inserts_r. apply (inv_sub _ _ _ _ I _ _ H).
    + intros n H. apply lookup_insert_is_Some' in H as [<-|H].
      * destruct (inv_reach _ _ _ _ I cur) as [p Hp]; [eexists; exact Hcur|].
        exists (p ++ [child]). econstructor; eassumption.
      * apply (inv_reach _ _ _ _ I _ H).
    + intros n p d H Hd. apply lookup_insert_Some in H as [[<- <-]|[Hn H]].
      * apply (avoiding_step _ _ _ cur).
        -- apply (inv_complete _ _ _ _ I _ _ _ Hcur).
           intros Hd'. apply Hd. apply elem_of_app. left. exact Hd'.
        -- exact Hedge.
        -- intros ->. apply Hd. apply elem_of_app. right.
           apply list_elem_of_singleton. reflexivity.
      * apply (inv_complete _ _ _ _ I _ _ _ H Hd).
  - exists order. rewrite Hold. split; [|reflexivity].
    pose proof (inv_last _ _ _ _ I _ _ Hold) as Hlast.
    assert (Hlast' : last (filter (fun x => x ∈ pu ++ [child]) old) = Some child).
    { apply last_filter_keeps; [exact Hlast|].
      apply elem_of_app. right. apply list_elem_of_singleton. reflexivity. }
    constructor.
    + destruct (decide (child = root)) as [->|Hr].
      * exfalso. apply Hne. rewrite (inv_root _ _ _ _ I) in Hold.
        injection Hold as <-. rewrite filter_cons_True; [reflexivity|].
        apply elem_of_app. right. apply list_elem_of_singleton. reflexivity.
      * rewrite lookup_insert_ne by exact Hr. apply (inv_root _ _ _ _ I).
    + intros n p H. apply lookup_insert_Some in H as [[<- <-]|[Hn H]].
      * exact Hlast'.
      * apply (inv_last _ _ _ _ I _ _ H).
    + apply (inv_order _ _ _ _ I).
    + intros n H. apply lookup_insert_is_Some'. right.
      apply (inv_keys _ _ _ _ I _ H).
    + intros n p H. apply lookup_insert_Some in H as [[<- <-]|[Hn H]].
      * etransitivity; [apply sublist_filter|]. apply (inv_sub _ _ _ _ I _ _ Hold).
      * apply (inv_sub _ _ _ _ I _ _ H).
    + intros n H. apply lookup_insert_is_Some' in H as [<-|H].
      * apply (inv_reach _ _ _ _ I). eexists; exact Hold.
      * apply (inv_reach _ _ _ _ I _ H).
    + intros n p d H Hd. apply lookup_insert_Some in H as [[<- <-]|[Hn H]].
      * destruct (decide (d ∈ old)) as [Ho|Ho].
        -- assert (Hd' : d ∉ pu ++ [child]).
           { intros Hd'. apply Hd. apply list_elem_of_filter. split; assumption. }
           apply (avoiding_step _ _ _ cur).
           ++ apply (inv_complete _ _ _ _ I _ _ _ Hcur).
              intros Hd''. apply Hd'. apply elem_of_app. left. exact Hd''.
           ++ exact Hedge.
           ++ intros ->. apply Hd'. apply elem_of_app. right.
              apply list_elem_of_singleton. reflexivity.
        -- apply (inv_complete _ _ _ _ I _ _ _ Hold Ho).
      * apply (inv_complete _ _ _ _ I _ _ _ H Hd).
Qed.


Lemma elem_of_push (child x : node) (stack : list node) :
  x ∈ (if decide (child ∈ stack) then stack else stack ++ [child]) <->
  x ∈ stack \/ x = child.
Proof.
  destruct (decide (child ∈ stack)) as [Hc|Hc].
  - split; [intros H; left; exact H|]. intros [H| ->]; assumption.
  - rewrite elem_of_app, list_elem_of_singleton. reflexivity.
Qed.

(** one step of the inner loop keeps the invariants *)
Lemma relax_step doms stack cur done child st' order :
  doms_inv doms order -> edges_inv doms stack cur done ->
  child ∈ successors cur ->
  relax cur (doms, stack) child = Ok st' ->
  (exists order', doms_inv (fst st') order') /\
  edges_inv (fst st') (snd st') cur (done ++ [child]).
Proof.
  intros I E Hedge H.
  apply relax_Ok in H as (pu & Hcur & [[-> (pv & Hpv & Hsub)]|
                                       (new & -> & Hin & Hcase)]); cbn [fst snd].
  - split; [exists order; exact I|].
    intros u v Hv Hu Hor.
    destruct (decide (u = cur /\ v = child)) as [[-> ->]|Hn].
    + intros pu' Hpu'. rewrite Hcur in Hpu'. injection Hpu' as <-.
      exists pv. split; assumption.
    + apply E; [exact Hv | exact Hu |].
      destruct Hor as [Hor|Hor]; [left; exact Hor|].
      apply elem_of_app in Hor as [Hor|Hor]; [right; exact Hor|].
      apply list_elem_of_singleton in Hor.
      left. intros ->. apply Hn. split; [reflexivity | exact Hor].
  - destruct (doms_inv_update _ _ _ _ _ _ I Hcur Hedge Hin Hcase)
      as (order' & I' & _).
    split; [exists order'; exact I'|].
    intros u v Hv Hu Hor.
    assert (Hu1 : u ∉ stack).
    { intros Hs. apply Hu. apply elem_of_push. left. exact Hs. }
    assert (Hu2 : u <> child).
    { intros ->. apply Hu. apply elem_of_push. right. reflexivity. }
    assert (Hnew : new ⊆ pu ++ [child]).
    { destruct Hcase as [[_ ->]|(old & _ & -> & _)].
      - intros x Hx. exact Hx.
      - intros x Hx. apply list_elem_of_filter in Hx. exact (proj1 Hx). }
    intros pu' Hpu'.
    rewrite lookup_insert_ne in Hpu' by (intros Eq; apply Hu2; symmetry; exact Eq).
    destruct (decide (u = cur /\ v = child)) as [[-> ->]|Hn].
    + rewrite Hcur in Hpu'. injection Hpu' as <-.
      exists new. split; [apply lookup_insert_eq | exact Hnew].
    + assert (Hold : edge_ok doms u v).
      { apply E; [exact Hv | exact Hu1 |].
        destruct Hor as [Hor|Hor]; [left; exact Hor|].
        apply elem_of_app in Hor as [Hor|Hor]; [right; exact Hor|].
        apply list_elem_of_singleton in Hor.
        left. intros ->. apply Hn. split; [reflexivity | exact Hor]. }
      destruct (Hold pu' Hpu') as (pv & Hpv & Hsub).
      destruct (decide (v = child)) as [->|Hvc].
      * exists new. split; [apply lookup_insert_eq|].
        destruct Hcase as [[Hnone _]|(old & Ho & -> & _)]; [congruence|].
        rewrite Hpv in Ho. injection Ho as <-.
        intros x Hx. apply list_elem_of_filter in Hx. apply Hsub. exact (proj2 Hx).
      * exists pv. split; [|exact Hsub].
        rewrite lookup_insert_ne by (intros Eq; apply Hvc; symmetry; exact Eq).
        exact Hpv.
Qed.

(** the inner loop keeps the invariants *)
Lemma relax_all cur todo : forall doms stack done st' order,
  doms_inv doms order -> edges_inv doms stack cur done ->
  (forall c, c ∈ todo -> c ∈ successors cur) ->
  rfoldl (relax cur) (doms, stack) todo = Ok st' ->
  (exists order', doms_inv (fst st') order') /\
  edges_inv (fst st') (snd st') cur (done ++ todo).
Proof.
  induction todo as [|child todo IH]; intros doms stack done st' order I E Hsub H.
  - simpl in H. injection H as <-. rewrite app_nil_r.
    split; [exists order; exact I | exact E].
  - simpl in H. apply rbind_Ok in H as ([doms1 stack1] & H1 & H).
    destruct (relax_step _ _ _ _ _ _ _ I E (Hsub child ltac:(left)) H1)
      as [[order1 I1] E1]. cbn [fst snd] in I1, E1.
    destruct (IH doms1 stack1 (done ++ [child]) st' order1 I1 E1) as [I2 E2].
    + intros c Hc. apply Hsub. right. exact Hc.
    + exact H.
    + split; [exact I2|]. rewrite <- app_assoc in E2. exact E2.
Qed.

Lemma pop_snoc {A} (l : list A) x r : pop l = Some (x, r) -> l = r ++ [x].
Proof.
  unfold pop. destruct (rev l) as [|y t] eqn:E; [discriminate|].
  intros [= <- <-]. rewrite <- (rev_involutive l), E. reflexivity.
Qed.

Lemma pop_nil {A} (l : list A) : pop l = None -> l = [].
Proof.
  unfold pop. destruct (rev l) as [|y t] eqn:E; [|discriminate].
  intros _. rewrite <- (rev_involutive l), E. reflexivity.
Qed.

(** when the loop ends, every edge is in order *)
Lemma dominators_loop_inv fuel : forall doms stack order final,
  doms_inv doms order ->
  (forall u v, v ∈ successors u -> u ∉ stack -> edge_ok doms u v) ->
  dominators_loop successors fuel doms stack = Ok final ->
  (exists order', doms_inv final order') /\
  (forall u v, v ∈ successors u -> edge_ok final u v).
Proof.
  induction fuel as [|fuel IH]; intros doms stack order final I E H.
  - simpl in H. destruct (pop stack) as [[cur stack']|] eqn:Hpop; [discriminate|].
    injection H as <-. apply pop_nil in Hpop as ->.
    split; [exists order; exact I|].
    intros u v Hv. apply E; [exact Hv|]. apply not_elem_of_nil.
  - simpl in H. destruct (pop stack) as [[cur stack']|] eqn:Hpop.
    + apply pop_snoc in Hpop as ->.
      apply rbind_Ok in H as ([doms1 stack1] & H1 & H). cbn [fst snd] in H.
      destruct (relax_all cur (successors cur) doms stack' [] (doms1, stack1) order I)
        as [[order1 I1] E1];
        [| intros c Hc; exact Hc | exact H1 |].
      * intros u v Hv Hu [Hor|Hor]; [|inversion Hor].
        apply E; [exact Hv|]. intros Hin.
        apply elem_of_app in Hin as [Hin|Hin]; [exact (Hu Hin)|].
        apply list_elem_of_singleton in Hin. exact (Hor Hin).
      * cbn [fst snd] in I1, E1. rewrite app_nil_l in E1.
        apply (IH doms1 stack1 order1 final I1); [|exact H].
        intros u v Hv Hu. apply E1; [exact Hv | exact Hu |].
        destruct (decide (u = cur)) as [->|Hn]; [right; exact Hv | left; exact Hn].
    + injection H as <-. apply pop_nil in Hpop as ->.
      split; [exists order; exact I|].
      intros u v Hv. apply E; [exact Hv|]. apply not_elem_of_nil.
Qed.

(** ** Dominance *)

Lemma avoiding_walk d n : avoiding d n -> exists p, walk p n /\ d ∉ p.
Proof.
  induction 1 as [Hr|u v _ (p & Hp & Hd) Hv Hvd].
  - exists [root]. split; [constructor|].
    intros H. apply list_elem_of_singleton in H. apply Hr. symmetry; exact H.
  - exists (p ++ [v]). split; [econstructor; eassumption|].
    intros H. apply elem_of_app in H as [H|H]; [exact (Hd H)|].
    apply list_elem_of_singleton in H. apply Hvd. symmetry; exact H.
Qed.

Lemma walk_avoiding p n d : walk p n -> d ∉ p -> avoiding d n.
Proof.
  induction 1 as [|p u v _ IH Hv]; intros Hd.
  - constructor. intros ->. apply Hd. apply list_elem_of_singleton. reflexivity.
  - apply (avoiding_step _ _ _ u).
    + apply IH. intros H. apply Hd. apply elem_of_app. left. exact H.
    + exact Hv.
    + intros ->. apply Hd. apply elem_of_app. right.
      apply list_elem_of_singleton. reflexivity.
Qed.

Lemma walk_last p n : walk p n -> last p = Some n.
Proof. destruct 1; [reflexivity | apply last_snoc]. Qed.

Lemma settled_walk doms p n :
  settled_doms doms -> walk p n ->
  exists pn, doms !! n = Some pn /\ pn ⊆ p.
Proof.
  intros [[order I] E]. induction 1 as [|p u v _ (pu & Hpu & Hsub) Hv].
  - exists [root]. split; [apply (inv_root _ _ _ _ I)|]. intros x Hx. exact Hx.
  - destruct (E u v Hv pu Hpu) as (pv & Hpv & Hsub').
    exists pv. split; [exact Hpv|].
    intros x Hx. apply Hsub' in Hx. apply elem_of_app in Hx as [Hx|Hx].
    + apply elem_of_app. left. apply Hsub. exact Hx.
    + apply elem_of_app. right. exact Hx.
Qed.

Lemma settled_keys doms n :
  settled_doms doms -> is_Some (doms !! n) <-> reachable n.
Proof.
  intros S. split.
  - destruct S as [[order I] _]. apply (inv_reach _ _ _ _ I).
  - intros [p Hp]. destruct (settled_walk doms p n S Hp) as (pn & Hpn & _).
    eexists; exact Hpn.
Qed.

Lemma settled_dominates doms n pn d :
  settled_doms doms -> doms !! n = Some pn ->
  d ∈ pn <-> dominates d n.
Proof.
  intros S Hn. split.
  - intros Hd p Hp. destruct (settled_walk doms p n S Hp) as (pn' & Hpn' & Hsub).
    rewrite Hn in Hpn'. injection Hpn' as <-. apply Hsub. exact Hd.
  - intros Hdom. destruct (decide (d ∈ pn)) as [Hd|Hd]; [exact Hd|].
    destruct S as [[order I] _].
    apply (inv_complete _ _ _ _ I _ _ _ Hn) in Hd.
    apply avoiding_walk in Hd as (p & Hp & Hd). exfalso. apply Hd, Hdom, Hp.
Qed.

Lemma DominatorInfo_init_settled fuel doms :
  DominatorInfo_init successors fuel root = Ok doms -> settled_doms doms.
Proof.
  intros H. unfold DominatorInfo_init in H.
  apply (dominators_loop_inv fuel _ _ [root] doms doms_inv_start) in H; [exact H|].
  intros u v Hv Hu pu Hpu. apply lookup_singleton_Some in Hpu as [<- <-].
  exfalso. apply Hu. apply list_elem_of_singleton. reflexivity.
Qed.


(** ** The order of a path *)

Lemma sublist_pair_asym {A} (o : list A) x y :
  NoDup o -> sublist [x; y] o -> sublist [y; x] o -> False.
Proof.
  induction o as [|z o IH]; intros Hnd H1 H2; [inversion H1|].
  apply NoDup_cons in Hnd as [Hz Hnd].
  inversion H1 as [| ? l1 ? S1 | ? ? ? S1]; subst;
    inversion H2 as [| ? l2 ? S2 | ? ? ? S2]; subst.
  - apply Hz. apply singleton_sublist_l. exact S1.
  - apply Hz. apply (elem_of_sublist [y; z]); [right; left|exact S2].
  - apply Hz. apply (elem_of_sublist [x; z]); [right; left|exact S1].
  - exact (IH Hnd S1 S2).
Qed.

Lemma sublist_pair_app {A} (a b : list A) x d :
  x ∈ a -> d ∈ b -> sublist [x; d] (a ++ b).
Proof.
  intros Hx Hd. apply (sublist_app [x] a [d] b); apply singleton_sublist_l; assumption.
Qed.

(** two sublists of a list without duplicates that have the same elements
    are equal *)
Lemma sublist_same_elements {A} (o : list A) :
  NoDup o -> forall l1 l2, sublist l1 o -> sublist l2 o ->
  (forall x, x ∈ l1 <-> x ∈ l2) -> l1 = l2.
Proof.
  induction 1 as [|z o Hz Hnd IH]; intros l1 l2 S1 S2 Heq.
  - apply sublist_nil_r in S1, S2. congruence.
  - inversion S1 as [| ? l1' ? S1' | ? ? ? S1']; subst;
      inversion S2 as [| ? l2' ? S2' | ? ? ? S2']; subst.
    + f_equal. apply IH; [exact S1' | exact S2' |].
      intros x. split; intros Hx.
      * assert (Hx' : x ∈ z :: l2') by (apply Heq; right; exact Hx).
        apply elem_of_cons in Hx' as [->|Hx']; [|exact Hx'].
        exfalso. apply Hz. apply (elem_of_sublist l1'); assumption.
      * assert (Hx' : x ∈ z :: l1') by (apply Heq; right; exact Hx).
        apply elem_of_cons in Hx' as [->|Hx']; [|exact Hx'].
        exfalso. apply Hz. apply (elem_of_sublist l2'); assumption.
    + exfalso. apply Hz. apply (elem_of_sublist l2); [|exact S2'].
      apply Heq. left.
    + exfalso. apply Hz. apply (elem_of_sublist l1); [|exact S1'].
      apply Heq. left.
    + apply IH; assumption.
Qed.

Lemma walk_root_in p n : walk p n -> root ∈ p.
Proof.
  induction 1 as [|p u v _ IH _]; [left|]. apply elem_of_app. left. exact IH.
Qed.

(** a path that goes through [d] starts with a path to [d] *)
Lemma walk_through p n d :
  walk p n -> d ∈ p -> exists q, walk q d /\ q ⊆ p.
Proof.
  induction 1 as [|p u v Hw IH Hv]; intros Hd.
  - apply list_elem_of_singleton in Hd as ->. exists [root]. split; [constructor|].
    intros x Hx. exact Hx.
  - destruct (decide (d = v)) as [->|Hn].
    + exists (p ++ [v]). split; [econstructor; eassumption|]. intros x Hx. exact Hx.
    + apply elem_of_app in Hd as [Hd|Hd].
      * destruct (IH Hd) as (q & Hq & Hsub). exists q. split; [exact Hq|].
        intros x Hx. apply elem_of_app. left. apply Hsub, Hx.
      * apply list_elem_of_singleton in Hd. contradiction.
Qed.

Lemma dominates_trans x d n : dominates x d -> dominates d n -> dominates x n.
Proof.
  intros Hxd Hdn p Hp.
  destruct (walk_through p n d Hp (Hdn p Hp)) as (q & Hq & Hsub).
  apply Hsub, Hxd, Hq.
Qed.

(** of two nodes that both can be avoided on the way to the other, one can
    be avoided on the way to any node *)
Lemma avoiding_either d c p n :
  d <> c -> avoiding d c -> avoiding c d -> walk p n ->
  avoiding d n \/ avoiding c n.
Proof.
  intros Hne Hdc Hcd. induction 1 as [|p u v _ IH Hv].
  - destruct (decide (root = d)) as [->|Hr].
    + right. constructor. exact Hne.
    + left. constructor. exact Hr.
  - destruct IH as [IH|IH].
    + destruct (decide (v = d)) as [->|Hvd]; [right; exact Hcd|].
      left. apply (avoiding_step _ _ _ u); assumption.
    + destruct (decide (v = c)) as [->|Hvc]; [left; exact Hdc|].
      right. apply (avoiding_step _ _ _ u); assumption.
Qed.

Section Settled.

Context (doms : doms_t) (Hsettled : settled_doms doms).

Lemma settled_path_keys n p x :
  doms !! n = Some p -> x ∈ p -> is_Some (doms !! x).
Proof using Hsettled.
  intros Hn Hx. destruct Hsettled as [[order I] _].
  apply (inv_keys _ _ _ _ I). apply (elem_of_sublist p); [exact Hx|].
  apply (inv_sub _ _ _ _ I _ _ Hn).
Qed.

Lemma settled_not_avoiding n p d :
  doms !! n = Some p -> d ∈ p -> avoiding d n -> False.
Proof using Hsettled.
  intros Hn Hd Ha. apply avoiding_walk in Ha as (q & Hq & Hdq).
  apply Hdq. apply (proj1 (settled_dominates doms n p d Hsettled Hn) Hd q Hq).
Qed.

(** the dominators of a node are a chain *)
Lemma settled_chain n p d c pd pc :
  doms !! n = Some p -> d ∈ p -> c ∈ p ->
  doms !! d = Some pd -> doms !! c = Some pc ->
  d = c \/ d ∈ pc \/ c ∈ pd.
Proof using Hsettled.
  intros Hn Hd Hc Hpd Hpc.
  destruct (decide (d = c)) as [->|Hne]; [left; reflexivity|]. right.
  destruct (decide (d ∈ pc)) as [H1|H1]; [left; exact H1|].
  destruct (decide (c ∈ pd)) as [H2|H2]; [right; exact H2|]. exfalso.
  destruct Hsettled as [[order I] E].
  apply (inv_complete _ _ _ _ I _ _ _ Hpc) in H1.
  apply (inv_complete _ _ _ _ I _ _ _ Hpd) in H2.
  destruct (inv_reach _ _ _ _ I n) as [q Hq]; [eexists; exact Hn|].
  destruct (avoiding_either d c q n Hne H1 H2 Hq) as [Ha|Ha].
  - exact (settled_not_avoiding n p d Hn Hd Ha).
  - exact (settled_not_avoiding n p c Hn Hc Ha).
Qed.

(** a node that is on the path of another one, and is not that node, comes
    before it in the order of the keys *)
Lemma settled_before order x d pd :
  doms_inv doms order -> doms !! d = Some pd -> x ∈ pd -> x <> d ->
  sublist [x; d] order.
Proof.
  intros I Hpd Hx Hne.
  etransitivity; [|apply (inv_sub _ _ _ _ I _ _ Hpd)].
  pose proof (inv_last _ _ _ _ I _ _ Hpd) as Hl.
  apply last_Some in Hl as [l' ->].
  apply sublist_pair_app; [|left].
  apply elem_of_app in Hx as [Hx|Hx]; [exact Hx|].
  apply list_elem_of_singleton in Hx. contradiction.
Qed.

(** every prefix of a path is the path of its last node *)
Lemma settled_prefix n a d b :
  doms !! n = Some (a ++ d :: b) -> doms !! d = Some (a ++ [d]).
Proof using Hsettled.
  intros Hn.
  destruct (settled_path_keys n _ d Hn) as [pd Hpd].
  { apply elem_of_app. right. left. }
  rewrite Hpd. f_equal.
  pose proof Hsettled as [[order I] E].
  pose proof (inv_sub _ _ _ _ I _ _ Hn) as Hsub.
  pose proof (sublist_NoDup _ _ (inv_order _ _ _ _ I) Hsub) as Hnd.
  apply NoDup_app in Hnd as (_ & Hnd1 & Hnd2). apply NoDup_cons in Hnd2 as [Hdb _].
  assert (Hda : d ∉ a). { intros H. apply (Hnd1 d H). left. }
  apply (sublist_same_elements order (inv_order _ _ _ _ I)).
  - apply (inv_sub _ _ _ _ I _ _ Hpd).
  - etransitivity; [|exact Hsub].
    apply sublist_app; [reflexivity|]. apply singleton_sublist_l. left.
  - intros x. split; intros Hx.
    + destruct (decide (x = d)) as [->|Hne].
      { apply elem_of_app. right. left. }
      assert (Hxn : x ∈ a ++ d :: b).
      { apply (settled_dominates doms n _ x Hsettled Hn).
        apply (dominates_trans x d n).
        - apply (settled_dominates doms d pd x Hsettled Hpd). exact Hx.
        - apply (settled_dominates doms n _ d Hsettled Hn).
          apply elem_of_app. right. left. }
      apply elem_of_app in Hxn as [Hxa|Hxn]; [apply elem_of_app; left; exact Hxa|].
      apply elem_of_cons in Hxn as [->|Hxb]; [contradiction|].
      exfalso. apply (sublist_pair_asym order x d (inv_order _ _ _ _ I)).
      * exact (settled_before order x d pd I Hpd Hx Hne).
      * etransitivity; [|exact Hsub].
        apply (sublist_inserts_l a). apply (sublist_pair_app [d] b); [left|exact Hxb].
    + apply elem_of_app in Hx as [Hx|Hx].
      2:{ apply list_elem_of_singleton in Hx as ->.
          apply last_elem_of. apply (inv_last _ _ _ _ I _ _ Hpd). }
      assert (Hne : x <> d) by (intros ->; exact (Hda Hx)).
      destruct (settled_path_keys n _ x Hn) as [px Hpx].
      { apply elem_of_app. left. exact Hx. }
      destruct (settled_chain n _ x d px pd Hn) as [Heq|[H|H]];
        [apply elem_of_app; left; exact Hx | apply elem_of_app; right; left
        | exact Hpx | exact Hpd | contradiction | exact H |].
      exfalso. apply (sublist_pair_asym order x d (inv_order _ _ _ _ I)).
      * etransitivity; [|exact Hsub].
        apply sublist_pair_app; [exact Hx | left].
      * apply (settled_before order d x px I Hpx H).
        intros Heq. apply Hne. symmetry. exact Heq.
Qed.

(** every path starts with the root *)
Lemma settled_head n p : doms !! n = Some p -> p !! 0%nat = Some root.
Proof using Hsettled.
  intros Hn. destruct p as [|d b].
  - destruct Hsettled as [[order I] _].
    pose proof (inv_last _ _ _ _ I _ _ Hn). discriminate.
  - pose proof (settled_prefix n [] d b Hn) as Hd. simpl in Hd.
    assert (Hr : root ∈ [d]).
    { apply (settled_dominates doms d [d] root Hsettled Hd).
      intros q Hq. apply (walk_root_in q d Hq). }
    apply list_elem_of_singleton in Hr as ->. reflexivity.
Qed.

End Settled.


(** ** The loop ends *)

Lemma filter_all {A} (P : A -> Prop) `{forall x, Decision (P x)} (l : list A) :
  Forall P l -> filter P l = l.
Proof.
  induction 1 as [|x l Hx _ IH]; [reflexivity|].
  rewrite filter_cons_True by exact Hx. rewrite IH. reflexivity.
Qed.

Lemma length_filter_neq {A} (P : A -> Prop) `{forall x, Decision (P x)}
    (l : list A) :
  filter P l <> l -> (length (filter P l) < length l)%nat.
Proof.
  intros Hne. destruct (decide (Forall P l)) as [Hall|Hnot].
  - exfalso. apply Hne. apply filter_all. exact Hall.
  - apply not_Forall_Exists in Hnot; [|intros x; apply _].
    apply Exists_exists in Hnot as (x & Hx & HP).
    apply (length_filter_lt P l x Hx HP).
Qed.

Lemma sum_list_with_le {A} (f g : A -> nat) (l : list A) :
  (forall x, x ∈ l -> (f x <= g x)%nat) ->
  (sum_list_with f l <= sum_list_with g l)%nat.
Proof.
  induction l as [|y l IH]; intros Hle; simpl; [lia|].
  pose proof (Hle y ltac:(left)).
  assert (sum_list_with f l <= sum_list_with g l)%nat.
  { apply IH. intros x Hx. apply Hle. right. exact Hx. }
  lia.
Qed.

Lemma sum_list_with_lt {A} (f g : A -> nat) (l : list A) x :
  (forall y, y ∈ l -> (f y <= g y)%nat) -> x ∈ l -> (f x < g x)%nat ->
  (sum_list_with f l < sum_list_with g l)%nat.
Proof.
  induction l as [|y l IH]; intros Hle Hx Hlt; [inversion Hx|]. simpl.
  pose proof (Hle y ltac:(left)).
  assert (sum_list_with f l <= sum_list_with g l)%nat.
  { apply sum_list_with_le. intros z Hz. apply Hle. right. exact Hz. }
  apply elem_of_cons in Hx as [->|Hx]; [lia|].
  assert (sum_list_with f l < sum_list_with g l)%nat; [|lia].
  apply IH; [|exact Hx|exact Hlt]. intros z Hz. apply Hle. right. exact Hz.
Qed.

Lemma sum_list_with_bound {A} (f : A -> nat) (l : list A) b :
  (forall x, x ∈ l -> (f x <= b)%nat) ->
  (sum_list_with f l <= length l * b)%nat.
Proof.
  induction l as [|y l IH]; intros Hle; simpl; [lia|].
  pose proof (Hle y ltac:(left)).
  assert (sum_list_with f l <= length l * b)%nat.
  { apply IH. intros x Hx. apply Hle. right. exact Hx. }
  lia.
Qed.

Section Termination.

Context (N : gset node).
Context (Hroot : root ∈ N).
Context (Hclosed : forall u v, u ∈ N -> v ∈ successors u -> v ∈ N).

(** a path is not longer than the graph has nodes *)
Lemma path_length doms order n p :
  doms_inv doms order -> (forall x, is_Some (doms !! x) -> x ∈ N) ->
  doms !! n = Some p -> (length p <= size N)%nat.
Proof using Type.
  intros I Hkeys Hn.
  etransitivity; [apply sublist_length, (inv_sub _ _ _ _ I _ _ Hn)|].
  rewrite <- (size_list_to_set (C := gset node) order (inv_order _ _ _ _ I)).
  apply subseteq_size. intros x Hx. apply elem_of_list_to_set in Hx.
  apply Hkeys. apply (inv_keys _ _ _ _ I _ Hx).
Qed.

Lemma weight_bound doms order n :
  doms_inv doms order -> (forall x, is_Some (doms !! x) -> x ∈ N) ->
  (weight N doms n <= S (size N))%nat.
Proof using Type.
  intros I Hkeys. unfold weight. destruct (doms !! n) as [p|] eqn:Hn; [|lia].
  pose proof (path_length doms order n p I Hkeys Hn). lia.
Qed.

(** a step of the inner loop does not raise and does not let the measure
    of the state grow *)
Lemma relax_measure doms stack cur child order :
  doms_inv doms order -> (forall x, is_Some (doms !! x) -> x ∈ N) ->
  is_Some (doms !! cur) -> child ∈ successors cur ->
  exists doms' stack' order',
    relax cur (doms, stack) child = Ok (doms', stack') /\
    doms_inv doms' order' /\
    (forall x, is_Some (doms' !! x) -> x ∈ N) /\
    (forall x, is_Some (doms !! x) -> is_Some (doms' !! x)) /\
    (forall x, x ∈ stack' -> x ∈ stack \/ is_Some (doms' !! x)) /\
    (measure N doms' + length stack' <= measure N doms + length stack)%nat.
Proof using Hclosed.
  intros I Hkeys [pu Hcur] Hedge.
  destruct (relax_total cur doms stack child pu Hcur) as [[doms' stack'] H].
  { intros p Hp. apply last_elem_of. apply (inv_last _ _ _ _ I _ _ Hp). }
  exists doms', stack'. pose proof H as H0.
  apply relax_Ok in H as (pu' & Hcur' & [[Heq _]|(new & Heq & Hin & Hcase)]);
    injection Heq as -> ->.
  { exists order. split; [exact H0|]. split; [exact I|]. split; [exact Hkeys|].
    split; [intros x Hx; exact Hx|]. split; [intros x Hx; left; exact Hx|]. lia. }
  rewrite Hcur in Hcur'. injection Hcur' as <-.
  destruct (doms_inv_update _ _ _ _ _ _ I Hcur Hedge Hin Hcase) as (order' & I' & _).
  assert (HchildN : child ∈ N).
  { apply (Hclosed cur); [|exact Hedge]. apply Hkeys. eexists; exact Hcur. }
  assert (Hkeys' : forall x, is_Some (<[child := new]> doms !! x) -> x ∈ N).
  { intros x Hx. apply lookup_insert_is_Some' in Hx as [<-|Hx];
      [exact HchildN | exact (Hkeys x Hx)]. }
  exists order'. split; [exact H0|]. split; [exact I'|]. split; [exact Hkeys'|].
  split. { intros x Hx. apply lookup_insert_is_Some'. right. exact Hx. }
  split.
  { intros x Hx. apply elem_of_push in Hx as [Hx| ->]; [left; exact Hx|].
    right. rewrite lookup_insert_eq. eexists; reflexivity. }
  assert (Hlt : (measure N (<[child := new]> doms) < measure N doms)%nat).
  { unfold measure. apply (sum_list_with_lt _ _ _ child).
    - intros y _. unfold weight.
      destruct (decide (y = child)) as [->|Hy].
      + rewrite lookup_insert_eq.
        destruct Hcase as [[Hnone ->]|(old & Hold & -> & Hne)].
        * rewrite Hnone.
          pose proof (path_length _ order' child _ I' Hkeys' (lookup_insert_eq _ _ _)).
          lia.
        * rewrite Hold. apply length_filter.
      + rewrite lookup_insert_ne by (intros E; apply Hy; symmetry; exact E).
        reflexivity.
    - apply elem_of_elements. exact HchildN.
    - unfold weight. rewrite lookup_insert_eq.
      destruct Hcase as [[Hnone ->]|(old & Hold & -> & Hne)].
      + rewrite Hnone.
        pose proof (path_length _ order' child _ I' Hkeys' (lookup_insert_eq _ _ _)).
        lia.
      + rewrite Hold. apply length_filter_neq. exact Hne. }
  assert (length (if decide (child ∈ stack) then stack else stack ++ [child])
          <= S (length stack))%nat.
  { destruct (decide (child ∈ stack)); [lia|]. rewrite length_app. simpl. lia. }
  lia.
Qed.

(** the inner loop does not raise and does not let the measure grow *)
Lemma relax_all_measure cur todo : forall doms stack order,
  doms_inv doms order -> (forall x, is_Some (doms !! x) -> x ∈ N) ->
  (forall x, x ∈ stack -> is_Some (doms !! x)) ->
  is_Some (doms !! cur) -> (forall c, c ∈ todo -> c ∈ successors cur) ->
  exists doms' stack' order',
    rfoldl (relax cur) (doms, stack) todo = Ok (doms', stack') /\
    doms_inv doms' order' /\
    (forall x, is_Some (doms' !! x) -> x ∈ N) /\
    (forall x, x ∈ stack' -> is_Some (doms' !! x)) /\
    (measure N doms' + length stack' <= measure N doms + length stack)%nat.
Proof using Hclosed.
  induction todo as [|child todo IH]; intros doms stack order I Hkeys Hstack Hcur Hsub.
  - exists doms, stack, order. simpl. split; [reflexivity|]. split; [exact I|].
    split; [exact Hkeys|]. split; [exact Hstack|]. lia.
  - destruct (relax_measure doms stack cur child order I Hkeys Hcur
                (Hsub child ltac:(left)))
      as (doms1 & stack1 & order1 & H1 & I1 & Hkeys1 & Hmono & Hstack1 & Hm1).
    destruct (IH doms1 stack1 order1 I1 Hkeys1)
      as (doms2 & stack2 & order2 & H2 & I2 & Hkeys2 & Hstack2 & Hm2).
    + intros x Hx. destruct (Hstack1 x Hx) as [Hs|Hs]; [|exact Hs].
      apply Hmono, Hstack, Hs.
    + apply Hmono, Hcur.
    + intros c Hc. apply Hsub. right. exact Hc.
    + exists doms2, stack2, order2. simpl. rewrite H1. cbn [rbind].
      split; [exact H2|]. split; [exact I2|]. split; [exact Hkeys2|].
      split; [exact Hstack2|]. lia.
Qed.

(** the loop returns when it is given at least as many iterations as the
    measure of its state *)
Lemma dominators_loop_total fuel : forall doms stack order,
  doms_inv doms order -> (forall x, is_Some (doms !! x) -> x ∈ N) ->
  (forall x, x ∈ stack -> is_Some (doms !! x)) ->
  (measure N doms + length stack <= fuel)%nat ->
  exists final, dominators_loop successors fuel doms stack = Ok final.
Proof using Hclosed.
  induction fuel as [|fuel IH]; intros doms stack order I Hkeys Hstack Hm.
  - destruct stack as [|x stack]; [|simpl in Hm; lia].
    exists doms. reflexivity.
  - simpl. destruct (pop stack) as [[cur stack']|] eqn:Hpop; [|eexists; reflexivity].
    apply pop_snoc in Hpop as ->.
    destruct (relax_all_measure cur (successors cur) doms stack' order I Hkeys)
      as (doms1 & stack1 & order1 & H1 & I1 & Hkeys1 & Hstack1 & Hm1).
    + intros x Hx. apply Hstack. apply elem_of_app. left. exact Hx.
    + apply Hstack. apply elem_of_app. right. left.
    + intros c Hc. exact Hc.
    + rewrite H1. cbn [rbind fst snd].
      apply (IH doms1 stack1 order1 I1 Hkeys1 Hstack1).
      rewrite length_app in Hm. simpl in Hm. lia.
Qed.

Lemma measure_start :
  (measure N {[ root := [root] ]} <= size N * S (size N))%nat.
Proof using Hroot successors.
  unfold measure. etransitivity.
  - apply (sum_list_with_bound _ _ (S (size N))). intros x _.
    apply (weight_bound _ [root] x doms_inv_start).
    intros y [p Hy]. apply lookup_singleton_Some in Hy as [<- _]. exact Hroot.
  - reflexivity.
Qed.

End Termination.


(** ** The common dominator *)

Lemma heads_tails_heads ls : forall hs ts col,
  heads_tails ls = Some (hs, ts) ->
  Forall2 (fun p x => p !! 0%nat = Some x) ls col <-> col = hs.
Proof.
  induction ls as [|p ls IH]; intros hs ts col H; simpl in H.
  - injection H as <- <-. split; [intros F; inversion F; reflexivity|].
    intros ->. constructor.
  - destruct p as [|x l]; [discriminate|].
    destruct (heads_tails ls) as [[hs' ts']|] eqn:E; [|discriminate].
    injection H as <- <-. split.
    + intros F. inversion F as [|? y ? col' Hy F']; subst.
      simpl in Hy. injection Hy as <-. f_equal. apply (IH hs' ts' col' eq_refl), F'.
    + intros ->. constructor; [reflexivity|]. apply (IH hs' ts' hs' eq_refl). reflexivity.
Qed.

Lemma heads_tails_tails ls : forall hs ts j col,
  heads_tails ls = Some (hs, ts) ->
  Forall2 (fun p x => p !! S j = Some x) ls col <->
  Forall2 (fun p x => p !! j = Some x) ts col.
Proof.
  induction ls as [|p ls IH]; intros hs ts j col H; simpl in H.
  - injection H as <- <-. split; intros F; inversion F; constructor.
  - destruct p as [|x l]; [discriminate|].
    destruct (heads_tails ls) as [[hs' ts']|] eqn:E; [|discriminate].
    injection H as <- <-. split.
    + intros F. inversion F as [|? y ? col' Hy F']; subst.
      constructor; [exact Hy|]. apply (IH hs' ts' j col' eq_refl), F'.
    + intros F. inversion F as [|? y ? col' Hy F']; subst.
      constructor; [exact Hy|]. apply (IH hs' ts' j col' eq_refl), F'.
Qed.

Lemma heads_tails_None ls j col :
  heads_tails ls = None -> ~ Forall2 (fun p x => p !! j = Some x) ls col.
Proof.
  revert col. induction ls as [|p ls IH]; intros col H F; simpl in H; [discriminate|].
  inversion F as [|? y ? col' Hy F']; subst.
  destruct p as [|x l]; [discriminate|].
  destruct (heads_tails ls) as [[hs' ts']|] eqn:E; [discriminate|].
  exact (IH col' eq_refl F').
Qed.

(** the columns of [zip( *ls )] *)
Lemma zip_star_n_lookup n : forall ls j col,
  zip_star_n n ls !! j = Some col <->
  (j < n)%nat /\ Forall2 (fun p x => p !! j = Some x) ls col.
Proof.
  induction n as [|n IH]; intros ls j col; simpl.
  - split; [discriminate | intros [H _]; lia].
  - destruct (heads_tails ls) as [[hs ts]|] eqn:E.
    + destruct j as [|j]; simpl.
      * rewrite (heads_tails_heads ls hs ts col E).
        split; [intros [= <-]; split; [lia | reflexivity]|].
        intros [_ ->]. reflexivity.
      * rewrite IH. rewrite (heads_tails_tails ls hs ts j col E).
        split; intros [H1 H2]; (split; [lia | exact H2]).
    + split; [discriminate|]. intros [_ F].
      exfalso. exact (heads_tails_None ls j col E F).
Qed.

Lemma zip_star_lookup p ls j col :
  zip_star (p :: ls) !! j = Some col <->
  Forall2 (fun p x => p !! j = Some x) (p :: ls) col.
Proof.
  unfold zip_star. rewrite zip_star_n_lookup. split; [intros [_ F]; exact F|].
  intros F. split; [|exact F].
  inversion F as [|? y ? col' Hy F']; subst.
  apply lookup_lt_Some in Hy. exact Hy.
Qed.

Lemma column_const {A B} (f : A -> option B) (ls : list A) (c : B) :
  Forall (fun p => f p = Some c) ls ->
  Forall2 (fun p x => f p = Some x) ls ((fun _ => c) <$> ls).
Proof.
  induction 1 as [|p ls Hp _ IH]; [constructor|].
  simpl. constructor; assumption.
Qed.

Lemma column_unique {A B} (f : A -> option B) (ls : list A) (c1 c2 : list B) :
  Forall2 (fun p x => f p = Some x) ls c1 ->
  Forall2 (fun p x => f p = Some x) ls c2 -> c1 = c2.
Proof.
  intros F1. revert c2. induction F1 as [|p x ls c1 Hx _ IH]; intros c2 F2.
  - inversion F2. reflexivity.
  - inversion F2 as [|? y ? c2' Hy F2']; subst.
    rewrite Hx in Hy. injection Hy as <-. f_equal. apply IH, F2'.
Qed.

(** the test [len(set(x))==1] *)
Lemma one_value_const (ls : list (list node)) (c : node) :
  ls <> [] -> size (list_to_set ((fun _ => c) <$> ls) : gset node) = 1%nat.
Proof.
  intros Hne. replace (list_to_set ((fun _ => c) <$> ls) : gset node) with ({[ c ]} : gset node).
  - apply size_singleton.
  - apply set_eq. intros x. rewrite elem_of_singleton, elem_of_list_to_set, list_elem_of_fmap.
    split.
    + intros ->. destruct ls as [|p ls]; [contradiction|].
      exists p. split; [reflexivity | left].
    + intros (p & -> & _). reflexivity.
Qed.

Lemma one_value (col : list node) :
  size (list_to_set col : gset node) = 1%nat ->
  exists d col', col = d :: col' /\ forall x, x ∈ col -> x = d.
Proof.
  intros H. apply size_1_elem_of in H as (d & Hd).
  apply leibniz_equiv in Hd.
  assert (Hall : forall x, x ∈ col -> x = d).
  { intros x Hx. apply (elem_of_list_to_set (C := gset node)) in Hx.
    rewrite Hd in Hx. apply elem_of_singleton in Hx. exact Hx. }
  destruct col as [|y col'].
  - exfalso. simpl in Hd. assert (Hin : d ∈ (∅ : gset node)).
    { rewrite Hd. apply elem_of_singleton. reflexivity. }
    exact (not_elem_of_empty _ Hin).
  - pose proof (Hall y ltac:(left)) as ->.
    exists d, col'. split; [reflexivity | exact Hall].
Qed.

Lemma Forall2_column_elem {A B} (f : A -> option B) ls col d :
  Forall2 (fun p x => f p = Some x) ls col ->
  (forall x, x ∈ col -> x = d) -> Forall (fun p => f p = Some d) ls.
Proof.
  induction 1 as [|p x ls col Hx _ IH]; intros Hall; [constructor|].
  constructor.
  - rewrite Hx. f_equal. apply Hall. left.
  - apply IH. intros y Hy. apply Hall. right. exact Hy.
Qed.

Section CommonDominator.

Context (doms : doms_t) (Hsettled : settled_doms doms).

(** the place of a node on any path on which it is *)
Lemma settled_position n p c pc :
  doms !! n = Some p -> c ∈ p -> doms !! c = Some pc ->
  p !! (length pc - 1)%nat = Some c /\ (0 < length pc)%nat.
Proof using Hsettled.
  intros Hn Hc Hpc. apply list_elem_of_split in Hc as (a & b & ->).
  pose proof (settled_prefix doms Hsettled n a c b Hn) as H.
  rewrite Hpc in H. injection H as ->. rewrite length_app. simpl.
  split; [|lia].
  replace (length a + 1 - 1)%nat with (length a + 0)%nat by lia.
  rewrite lookup_app_r by lia. replace (length a + 0 - length a)%nat with 0%nat by lia.
  reflexivity.
Qed.

Lemma settled_upto n p j d i c :
  doms !! n = Some p -> p !! j = Some d -> p !! i = Some c -> (i <= j)%nat ->
  exists pd, doms !! d = Some pd /\ c ∈ pd.
Proof using Hsettled.
  intros Hn Hj Hi Hle.
  pose proof (take_drop_middle p j d Hj) as Hsplit.
  rewrite <- Hsplit in Hn.
  pose proof (settled_prefix doms Hsettled n _ d _ Hn) as Hd.
  eexists. split; [exact Hd|].
  destruct (decide (i = j)) as [->|Hne].
  - rewrite Hj in Hi. injection Hi as <-. apply elem_of_app. right. left.
  - apply elem_of_app. left. apply (list_elem_of_lookup_2 _ i).
    rewrite lookup_take_lt by lia. exact Hi.
Qed.

(** the last column of the paths in which all entries are the same node
    holds the lowest node that is on all the paths *)
Lemma common_column ns paths :
  ns <> [] -> Forall2 (fun n p => doms !! n = Some p) ns paths ->
  exists d col pd,
    last (filter (fun x => size (list_to_set x : gset node) = 1%nat)
            (zip_star paths)) = Some (d :: col) /\
    doms !! d = Some pd /\
    Forall (fun p => d ∈ p) paths /\
    forall c, Forall (fun p => c ∈ p) paths -> c ∈ pd.
Proof using Hsettled.
  intros Hne F.
  destruct F as [|n1 p1 ns' paths' Hn1 F']; [contradiction|].
  set (paths := p1 :: paths'). set (P := fun x : list node => size (list_to_set x : gset node) = 1%nat).
  assert (Fall : Forall (fun p => exists n, doms !! n = Some p) paths).
  { constructor; [exists n1; exact Hn1|].
    clear -F'. induction F' as [|n p ns ps Hn _ IH]; constructor; [exists n; exact Hn | exact IH]. }
  assert (Hnonempty : paths <> []) by discriminate.
  (* the first column holds the root *)
  assert (H0 : zip_star paths !! 0%nat = Some ((fun _ => root) <$> paths)).
  { apply zip_star_lookup. apply column_const.
    eapply Forall_impl; [exact Fall|]. intros p [n Hn].
    apply (settled_head doms Hsettled n p Hn). }
  destruct (last (filter P (zip_star paths))) as [cstar|] eqn:Hlast.
  2:{ exfalso. apply last_None in Hlast.
      assert (Hin : ((fun _ => root) <$> paths) ∈ filter P (zip_star paths)).
      { apply list_elem_of_filter. split; [apply one_value_const; exact Hnonempty|].
        apply (list_elem_of_lookup_2 _ 0%nat). exact H0. }
      rewrite Hlast in Hin. inversion Hin. }
  pose proof (last_elem_of _ _ Hlast) as Hin.
  apply list_elem_of_filter in Hin as [HP Hin].
  apply one_value in HP as (d & col & -> & Hall).
  apply last_filter_Some in Hlast as (l1 & l2 & Hsplit & Hl2).
  assert (Hj : zip_star paths !! length l1 = Some (d :: col)).
  { rewrite Hsplit. rewrite lookup_app_r by lia.
    replace (length l1 - length l1)%nat with 0%nat by lia. reflexivity. }
  apply zip_star_lookup in Hj.
  pose proof (Forall2_column_elem _ _ _ d Hj Hall) as Hd.
  assert (Hd1 : p1 !! length l1 = Some d) by (inversion Hd; assumption).
  destruct (settled_upto n1 p1 (length l1) d (length l1) d Hn1 Hd1 Hd1 ltac:(lia))
    as (pd & Hpd & _).
  exists d, col, pd. split; [reflexivity|]. split; [exact Hpd|]. split.
  { eapply Forall_impl; [exact Hd|]. intros p Hp.
    apply (list_elem_of_lookup_2 _ _ _ Hp). }
  intros c Hc.
  assert (Hc1 : c ∈ p1) by (inversion Hc; assumption).
  destruct (settled_path_keys doms Hsettled n1 p1 c Hn1 Hc1) as [pc Hpc].
  assert (Hcol : Forall (fun p => p !! (length pc - 1)%nat = Some c) paths).
  { apply Forall_forall. intros p Hp.
    pose proof (proj1 (Forall_forall _ _) Fall p Hp) as [n Hn].
    pose proof (proj1 (Forall_forall _ _) Hc p Hp) as Hcp.
    apply (settled_position n p c pc Hn Hcp Hpc). }
  assert (Hjc : zip_star paths !! (length pc - 1)%nat = Some ((fun _ => c) <$> paths)).
  { apply zip_star_lookup. apply column_const. exact Hcol. }
  assert (Hle : (length pc - 1 <= length l1)%nat).
  { destruct (decide (length pc - 1 <= length l1)%nat) as [Hle|Hgt]; [exact Hle|].
    exfalso. rewrite Hsplit in Hjc.
    rewrite lookup_app_r in Hjc by lia.
    destruct (length pc - 1 - length l1)%nat as [|k] eqn:Ek; [lia|].
    change (l2 !! k = Some ((fun _ => c) <$> paths)) in Hjc.
    apply list_elem_of_lookup_2 in Hjc.
    apply (proj1 (Forall_forall _ _) Hl2 _ Hjc).
    apply one_value_const. exact Hnonempty. }
  assert (Hc1' : p1 !! (length pc - 1)%nat = Some c) by (inversion Hcol; assumption).
  destruct (settled_upto n1 p1 (length l1) d _ c Hn1 Hd1 Hc1' Hle) as (pd' & Hpd' & Hin').
  rewrite Hpd in Hpd'. injection Hpd' as <-. exact Hin'.
Qed.

End CommonDominator.


(** ** What the dominator information holds *)

Lemma dominators_lookup doms n p : dominators doms n = Ok p <-> doms !! n = Some p.
Proof.
  unfold dominators. destruct (doms !! n) as [q|]; split; intros H;
    try discriminate; injection H as ->; reflexivity.
Qed.

(** X10.  When [DominatorInfo(root)] returns, its node set is the set of
    the nodes that can be reached from the root, [dominators(n)] holds
    exactly the nodes that are on every path from the root to [n], and it
    raises [KeyError] for a node that cannot be reached. *)
Theorem dominators_correct fuel doms :
  DominatorInfo_init successors fuel root = Ok doms ->
  (forall n, n ∈ nodeset doms <-> reachable n) /\
  (forall n p d, dominators doms n = Ok p -> d ∈ p <-> dominates d n) /\
  (forall n, ~ reachable n -> dominators doms n = Raise KeyError).
Proof.
  intros H. apply DominatorInfo_init_settled in H.
  split; [|split].
  - intros n. unfold nodeset. rewrite elem_of_dom. apply settled_keys. exact H.
  - intros n p d Hp. apply dominators_lookup in Hp.
    apply (settled_dominates doms n p d H Hp).
  - intros n Hn. unfold dominators.
    destruct (doms !! n) as [p|] eqn:E; [|reflexivity].
    exfalso. apply Hn. apply (settled_keys doms n H). eexists; exact E.
Qed.

(** X11.  The tuple that [dominators(n)] returns starts with the root, ends
    with [n], holds no node twice, and each of its prefixes is the tuple of
    the last node of the prefix: the tuple lists the dominators of [n] from
    the root down. *)
Theorem dominators_nested fuel doms n p :
  DominatorInfo_init successors fuel root = Ok doms ->
  dominators doms n = Ok p ->
  p !! 0%nat = Some root /\ last p = Some n /\ NoDup p /\
  forall a d b, p = a ++ d :: b -> dominators doms d = Ok (a ++ [d]).
Proof.
  intros H Hp. apply DominatorInfo_init_settled in H.
  apply dominators_lookup in Hp. pose proof H as [[order I] _].
  split; [exact (settled_head doms H n p Hp)|].
  split; [exact (inv_last _ _ _ _ I n p Hp)|].
  split.
  - apply (sublist_NoDup p order (inv_order _ _ _ _ I)).
    apply (inv_sub _ _ _ _ I n p Hp).
  - intros a d b ->. apply dominators_lookup.
    apply (settled_prefix doms H n a d b Hp).
Qed.

(** X12.  On a graph of finitely many nodes [DominatorInfo(root)] returns:
    none of its lookups and assertions fails, and the loop ends within
    [|N| * (|N| + 1) + 1] iterations, [N] being any set of nodes that holds
    the root and the successors of its nodes. *)
Theorem DominatorInfo_init_returns (N : gset node) fuel :
  root ∈ N -> (forall u v, u ∈ N -> v ∈ successors u -> v ∈ N) ->
  (size N * S (size N) + 1 <= fuel)%nat ->
  exists doms, DominatorInfo_init successors fuel root = Ok doms.
Proof.
  intros Hroot Hclosed Hfuel. unfold DominatorInfo_init.
  apply (dominators_loop_total N Hclosed fuel _ _ [root] doms_inv_start).
  - intros x [p Hx]. apply lookup_singleton_Some in Hx as [<- _]. exact Hroot.
  - intros x Hx. apply list_elem_of_singleton in Hx as ->.
    rewrite lookup_singleton_eq. eexists; reflexivity.
  - pose proof (measure_start N Hroot). simpl. lia.
Qed.

Lemma rmap_lookup (doms : doms_t) ns :
  Forall (fun n => is_Some (doms !! n)) ns ->
  exists paths,
    rmap (fun n => match doms !! n with
                   | Some p => Ok p
                   | None => Raise TypeError
                   end) ns = Ok paths /\
    Forall2 (fun n p => doms !! n = Some p) ns paths.
Proof.
  induction 1 as [|n ns [p Hn] _ (paths & Hr & F)].
  - exists []. split; [reflexivity | constructor].
  - exists (p :: paths). simpl. rewrite Hn, Hr. split; [reflexivity|].
    constructor; assumption.
Qed.

(** X13.  For a set of nodes that is not empty and whose nodes can be
    reached from the root, [dominator(nodes)] returns the lowest common
    dominator: a node that dominates every node of the set, and that every
    node that dominates every node of the set dominates. *)
Theorem dominator_lowest_common fuel doms (nodes : gset node) :
  DominatorInfo_init successors fuel root = Ok doms ->
  nodes <> ∅ -> (forall n, n ∈ nodes -> reachable n) ->
  exists d, dominator doms nodes = Ok d /\
    (forall n, n ∈ nodes -> dominates d n) /\
    (forall c, (forall n, n ∈ nodes -> dominates c n) -> dominates c d).
Proof.
  intros H Hne Hreach. apply DominatorInfo_init_settled in H.
  assert (Hkeys : Forall (fun n => is_Some (doms !! n)) (elements nodes)).
  { apply Forall_forall. intros n Hn. apply elem_of_elements in Hn.
    apply (settled_keys doms n H). apply Hreach, Hn. }
  destruct (rmap_lookup doms _ Hkeys) as (paths & Hr & F).
  assert (Hne' : elements nodes <> []).
  { intros E. apply Hne. apply elements_empty_inv in E.
    apply leibniz_equiv in E. exact E. }
  destruct (common_column doms H (elements nodes) paths Hne' F)
    as (d & col & pd & Hlast & Hpd & Hd & Hlow).
  exists d. unfold dominator. rewrite Hr. cbn [rbind]. rewrite Hlast.
  split; [reflexivity|]. split.
  - intros n Hn. apply elem_of_elements in Hn.
    apply list_elem_of_lookup in Hn as [i Hi].
    destruct (Forall2_lookup_l _ _ _ _ _ F Hi) as (p & Hp & Hnp).
    apply (settled_dominates doms n p d H Hnp).
    apply (proj1 (Forall_forall _ _) Hd p). apply (list_elem_of_lookup_2 _ _ _ Hp).
  - intros c Hc. apply (settled_dominates doms d pd c H Hpd).
    apply Hlow. apply Forall_forall. intros p Hp.
    apply list_elem_of_lookup in Hp as [i Hi].
    destruct (Forall2_lookup_r _ _ _ _ _ F Hi) as (n & Hn & Hnp).
    apply (settled_dominates doms n p c H Hnp). apply Hc.
    apply elem_of_elements. apply (list_elem_of_lookup_2 _ _ _ Hn).
Qed.

(** X14.  [area(n)] is the set of the nodes that can be reached from the
    root and that [n] dominates. *)
Theorem area_dominated fuel doms n m :
  DominatorInfo_init successors fuel root = Ok doms ->
  m ∈ area doms n <-> reachable m /\ dominates n m.
Proof.
  intros H. apply DominatorInfo_init_settled in H.
  unfold area. rewrite elem_of_dom. split.
  - intros [p Hp]. apply map_lookup_filter_Some in Hp as [Hp Hn]. cbn [snd] in Hn.
    split.
    + apply (settled_keys doms m H). eexists; exact Hp.
    + apply (settled_dominates doms m p n H Hp). exact Hn.
  - intros [Hm Hn]. apply (settled_keys doms m H) in Hm as [p Hp].
    exists p. apply map_lookup_filter_Some. split; [exact Hp|]. cbn [snd].
    apply (settled_dominates doms m p n H Hp). exact Hn.
Qed.

End Invariants.

Lemma rmap_raises {A B} (f : A -> result B) (l : list A) (e : exn) x :
  x ∈ l -> f x = Raise e -> (forall y, y ∈ l -> forall e', f y = Raise e' -> e' = e) ->
  rmap f l = Raise e.
Proof.
  induction l as [|y l IH]; intros Hx Hfx Hall; [inversion Hx|].
  simpl. destruct (f y) as [b|e'] eqn:Ey.
  - cbn [rbind]. apply elem_of_cons in Hx as [->|Hx]; [congruence|].
    rewrite IH; [reflexivity | exact Hx | exact Hfx |].
    intros z Hz. apply Hall. right. exact Hz.
  - cbn [rbind]. f_equal. apply (Hall y ltac:(left) e' Ey).
Qed.

(** X15.  [dominator] raises [IndexError] for the empty set, and
    [TypeError] for a set one node of which has no dominator tuple. *)
Theorem dominator_errors (doms : doms_t) :
  dominator doms ∅ = Raise IndexError /\
  forall (nodes : gset node) n, n ∈ nodes -> doms !! n = None ->
    dominator doms nodes = Raise TypeError.
Proof.
  split.
  - unfold dominator. rewrite elements_empty. reflexivity.
  - intros nodes n Hn Hnone.
    unfold dominator. rewrite (rmap_raises _ _ TypeError n); [reflexivity | | |].
    + apply elem_of_elements. exact Hn.
    + rewrite Hnone. reflexivity.
    + intros y _ e' He. destruct (doms !! y); [discriminate|].
      injection He as <-. reflexivity.
Qed.

Lemma reachable_of_key successors root fuel doms n :
  DominatorInfo_init successors fuel root = Ok doms ->
  is_Some (doms !! n) -> reachable successors root n.
Proof.
  intros H. apply DominatorInfo_init_settled in H. apply settled_keys. exact H.
Qed.

(** ** The order of the successors *)

Lemma walk_same_edges successors1 successors2 root :
  (forall n x, x ∈ successors1 n <-> x ∈ successors2 n) ->
  forall p n, walk successors1 root p n -> walk successors2 root p n.
Proof.
  intros Hsame p n. induction 1 as [|p u v _ IH Hv]; [constructor|].
  econstructor; [exact IH|]. apply Hsame, Hv.
Qed.

Lemma same_elements_length {A} `{EqDecision A} (l k : list A) :
  NoDup l -> NoDup k -> (forall x, x ∈ l <-> x ∈ k) -> length l = length k.
Proof.
  intros Hl Hk Hsame. apply Permutation_length.
  apply NoDup_Permutation; assumption.
Qed.

Lemma settled_NoDup successors root doms n p :
  settled_doms successors root doms -> doms !! n = Some p -> NoDup p.
Proof.
  intros [[order I] _] Hn.
  apply (sublist_NoDup p order (inv_order _ _ _ _ I)).
  apply (inv_sub _ _ _ _ I n p Hn).
Qed.

(** the place of a node on a path is the length of its own path *)
Lemma settled_place successors root doms n p i d :
  settled_doms successors root doms -> doms !! n = Some p -> p !! i = Some d ->
  exists pd, doms !! d = Some pd /\ length pd = S i.
Proof.
  intros Hs Hn Hi.
  pose proof (take_drop_middle p i d Hi) as Hsplit. rewrite <- Hsplit in Hn.
  pose proof (settled_prefix successors root doms Hs n _ d _ Hn) as Hd.
  eexists. split; [exact Hd|].
  rewrite length_app, length_take. simpl.
  apply lookup_lt_Some in Hi. lia.
Qed.

(** X29.  The dominator information depends on the graph only: two runs
    of [DominatorInfo(root)] on graphs with the same edges, whatever the
    order in which the successors of a node are listed, return the same
    dictionary. *)
Theorem dominators_order_independent successors1 successors2 root fuel1 fuel2
    doms1 doms2 :
  (forall n x, x ∈ successors1 n <-> x ∈ successors2 n) ->
  DominatorInfo_init successors1 fuel1 root = Ok doms1 ->
  DominatorInfo_init successors2 fuel2 root = Ok doms2 ->
  doms1 = doms2.
Proof.
  intros Hsame H1 H2.
  apply DominatorInfo_init_settled in H1, H2.
  assert (Hwalk : forall p n, walk successors1 root p n <-> walk successors2 root p n).
  { intros p n. split; apply walk_same_edges; [exact Hsame|].
    intros m x. symmetry. apply Hsame. }
  assert (Hreach : forall n, reachable successors1 root n <-> reachable successors2 root n).
  { intros n. split; intros [p Hp]; exists p; apply Hwalk, Hp. }
  assert (Hdom : forall d n, dominates successors1 root d n <-> dominates successors2 root d n).
  { intros d n. split; intros H p Hp; apply H, Hwalk, Hp. }
  assert (Helems : forall n p1 p2, doms1 !! n = Some p1 -> doms2 !! n = Some p2 ->
                     forall x, x ∈ p1 <-> x ∈ p2).
  { intros n p1 p2 Hp1 Hp2 x.
    rewrite (settled_dominates successors1 root doms1 n p1 x H1 Hp1).
    rewrite (settled_dominates successors2 root doms2 n p2 x H2 Hp2).
    apply Hdom. }
  assert (Hlen : forall n p1 p2, doms1 !! n = Some p1 -> doms2 !! n = Some p2 ->
                   length p1 = length p2).
  { intros n p1 p2 Hp1 Hp2. apply same_elements_length.
    - apply (settled_NoDup successors1 root doms1 n p1 H1 Hp1).
    - apply (settled_NoDup successors2 root doms2 n p2 H2 Hp2).
    - apply (Helems n p1 p2 Hp1 Hp2). }
  apply map_eq. intros n.
  destruct (doms1 !! n) as [p1|] eqn:Hp1; destruct (doms2 !! n) as [p2|] eqn:Hp2.
  - f_equal. apply list_eq. intros i.
    destruct (p1 !! i) as [d|] eqn:Hi.
    + destruct (settled_place successors1 root doms1 n p1 i d H1 Hp1 Hi)
        as (pd1 & Hpd1 & Hl1).
      assert (Hd2 : d ∈ p2).
      { apply (Helems n p1 p2 Hp1 Hp2). apply (list_elem_of_lookup_2 _ _ _ Hi). }
      destruct (settled_path_keys successors2 root doms2 H2 n p2 d Hp2 Hd2) as [pd2 Hpd2].
      destruct (settled_position successors2 root doms2 H2 n p2 d pd2 Hp2 Hd2 Hpd2)
        as [Hpos _].
      rewrite <- (Hlen d pd1 pd2 Hpd1 Hpd2), Hl1 in Hpos.
      replace (S i - 1)%nat with i in Hpos by lia. symmetry. exact Hpos.
    + symmetry. apply lookup_ge_None. rewrite <- (Hlen n p1 p2 Hp1 Hp2).
      apply lookup_ge_None. exact Hi.
  - exfalso. assert (is_Some (doms2 !! n)) as [p Hp]; [|congruence].
    apply (settled_keys successors2 root doms2 n H2). apply Hreach.
    apply (settled_keys successors1 root doms1 n H1). eexists; exact Hp1.
  - exfalso. assert (is_Some (doms1 !! n)) as [p Hp]; [|congruence].
    apply (settled_keys successors1 root doms1 n H1). apply Hreach.
    apply (settled_keys successors2 root doms2 n H2). eexists; exact Hp2.
  - reflexivity.
Qed.

(** ** Instances *)

Lemma dominators_correct_witness :
  DominatorInfo_init ex_successors 100 1%positive = Ok ex_doms_final /\
  ((forall n, n ∈ nodeset ex_doms_final <-> reachable ex_successors 1%positive n) /\
   (forall n p d, dominators ex_doms_final n = Ok p ->
      d ∈ p <-> dominates ex_successors 1%positive d n) /\
   (forall n, ~ reachable ex_successors 1%positive n ->
      dominators ex_doms_final n = Raise KeyError)).
Proof.
  split; [vm_compute; reflexivity|].
  apply (dominators_correct ex_successors 1%positive 100 ex_doms_final).
  vm_compute. reflexivity.
Defined.

Lemma dominators_nested_witness :
  dominators ex_doms_final 5%positive = Ok [1%positive; 4%positive; 5%positive] /\
  forall a d b, [1%positive; 4%positive; 5%positive] = a ++ d :: b ->
    dominators ex_doms_final d = Ok (a ++ [d]).
Proof.
  split; [vm_compute; reflexivity|].
  apply (dominators_nested ex_successors 1%positive 100 ex_doms_final 5%positive).
  - vm_compute. reflexivity.
  - vm_compute. reflexivity.
Defined.

Lemma DominatorInfo_init_returns_witness :
  exists doms, DominatorInfo_init ex_successors 31 1%positive = Ok doms.
Proof.
  apply (DominatorInfo_init_returns ex_successors 1%positive
           {[1%positive; 2%positive; 3%positive; 4%positive; 5%positive]} 31).
  - vm_compute. reflexivity.
  - intros u v Hu Hv.
    assert (Hcases : u = 1%positive \/ u = 2%positive \/ u = 3%positive \/
                     u = 4%positive \/ u = 5%positive) by set_solver.
    destruct Hcases as [->|[->|[->|[->| ->]]]]; simpl in Hv; set_solver.
  - vm_compute. lia.
Defined.

Lemma dominator_lowest_common_witness :
  exists d, dominator ex_doms_final {[4%positive; 5%positive]} = Ok d /\
    (forall n, n ∈ ({[4%positive; 5%positive]} : gset node) ->
       dominates ex_successors 1%positive d n) /\
    (forall c, (forall n, n ∈ ({[4%positive; 5%positive]} : gset node) ->
                  dominates ex_successors 1%positive c n) ->
       dominates ex_successors 1%positive c d).
Proof.
  apply (dominator_lowest_common ex_successors 1%positive 100 ex_doms_final).
  - vm_compute. reflexivity.
  - intros E. assert (H : 4%positive ∈ (∅ : gset node)) by (rewrite <- E; set_solver).
    exact (not_elem_of_empty _ H).
  - intros n Hn. apply (reachable_of_key _ _ 100 ex_doms_final).
    + vm_compute. reflexivity.
    + apply elem_of_union in Hn as [Hn|Hn]; apply elem_of_singleton in Hn as ->;
        vm_compute; eexists; reflexivity.
Defined.

Lemma dominator_errors_witness :
  dominator ex_doms_final {[7%positive]} = Raise TypeError.
Proof.
  apply (proj2 (dominator_errors ex_doms_final) {[7%positive]} 7%positive).
  - apply elem_of_singleton. reflexivity.
  - vm_compute. reflexivity.
Defined.

Lemma area_dominated_witness :
  5%positive ∈ area ex_doms_final 4%positive <->
  reachable ex_successors 1%positive 5%positive /\
  dominates ex_successors 1%positive 4%positive 5%positive.
Proof.
  apply (area_dominated ex_successors 1%positive 100 ex_doms_final).
  vm_compute. reflexivity.
Defined.

Lemma same_edges_ex n x : x ∈ ex_successors n <-> x ∈ ex_successors' n.
Proof.
  destruct n as [[[|n|]|[|n|]|]|[[|n|]|[|n|]|]|]; simpl; set_solver.
Qed.

Lemma dominators_order_independent_witness :
  exists doms1 doms2,
    DominatorInfo_init ex_successors 100 1%positive = Ok doms1 /\
    DominatorInfo_init ex_successors' 50 1%positive = Ok doms2 /\
    doms1 = doms2.
Proof.
  exists ex_doms_final. eexists.
  assert (H1 : DominatorInfo_init ex_successors 100 1%positive = Ok ex_doms_final)
    by (vm_compute; reflexivity).
  split; [exact H1|].
  split; [vm_compute; reflexivity|].
  apply (dominators_order_independent ex_successors ex_successors' 1%positive
           100 50 _ _ same_edges_ex H1).
  vm_compute. reflexivity.
Defined.

End DominatorFacts.

(** * Further properties of the passes of the restructurer *)

Module PassesFacts.
Import Structuring StructuringFacts Dominators DominatorFacts Passes.

(** ** The closure of an upper bound *)

Section Closure.

Context (predecessors_nl : node -> list node) (udom : node).

Local Abbreviation pred_closed := (pred_closed predecessors_nl udom).
Local Abbreviation closure_pass := (closure_pass predecessors_nl udom).
Local Abbreviation closure_loop := (fun fuel => closure_loop predecessors_nl fuel udom).

(** one pass over the nodes [xs] of the bound *)
Lemma closure_pass_spec xs : forall ub done ub1 d1,
  NoDup xs -> (forall x, x ∈ xs -> x ∈ ub) ->
  closure_pass xs ub done = (ub1, d1) ->
  ub1 ⊆ ub /\
  (forall S : gset node, S ⊆ ub -> pred_closed S -> S ⊆ ub1) /\
  (d1 = true -> done = true /\ ub1 = ub /\
     forall x y, x ∈ xs -> x <> udom -> y ∈ predecessors_nl x -> y ∈ ub) /\
  (d1 = false -> done = false \/ (size ub1 < size ub)%nat).
Proof.
  induction xs as [|x xs IH]; intros ub done ub1 d1 Hnd Hin H; simpl in H.
  - injection H as <- <-. split; [reflexivity|]. split; [intros S HS _; exact HS|].
    split.
    + intros ->. split; [reflexivity|]. split; [reflexivity|].
      intros x y Hx. inversion Hx.
    + intros ->. left. reflexivity.
  - apply NoDup_cons in Hnd as [Hx Hnd].
    destruct (decide (x = udom)) as [->|Hne].
    { destruct (IH ub done ub1 d1 Hnd) as (H1 & H2 & H3 & H4);
        [intros z Hz; apply Hin; right; exact Hz | exact H |].
      split; [exact H1|]. split; [exact H2|]. split; [|exact H4].
      intros Hd. destruct (H3 Hd) as (Hd1 & Hd2 & Hd3).
      split; [exact Hd1|]. split; [exact Hd2|].
      intros z y Hz Hzu Hy. apply elem_of_cons in Hz as [->|Hz]; [contradiction|].
      apply (Hd3 z y Hz Hzu Hy). }
    destruct (bool_decide (Exists (fun y => y ∉ ub) (predecessors_nl x))) eqn:Hex.
    + apply bool_decide_eq_true_1 in Hex. apply Exists_exists in Hex as (y & Hy & Hyub).
      destruct (IH (ub ∖ {[ x ]}) false ub1 d1 Hnd) as (H1 & H2 & H3 & H4).
      { intros z Hz. apply elem_of_difference. split; [apply Hin; right; exact Hz|].
        intros Hzx. apply elem_of_singleton in Hzx as ->. contradiction. }
      { exact H. }
      assert (Hsize : (size (ub ∖ {[ x ]}) < size ub)%nat).
      { apply subset_size. apply strict_spec_alt. split; [set_solver|].
        intros Heq. assert (Hx' : x ∈ ub ∖ {[ x ]}).
        { rewrite Heq. apply Hin. left. }
        set_solver. }
      split; [set_solver|]. split.
      { intros S HS Hcl. apply H2; [|exact Hcl].
        intros z Hz. apply elem_of_difference. split; [apply HS, Hz|].
        intros Hzx. apply elem_of_singleton in Hzx as ->.
        apply Hyub. apply HS. apply (Hcl x y Hz Hne Hy). }
      split.
      { intros Hd. destruct (H3 Hd) as (Hd1 & _). discriminate. }
      { intros Hd. right. destruct (H4 Hd) as [_|Hlt].
        - pose proof (subseteq_size _ _ H1). lia.
        - lia. }
    + apply bool_decide_eq_false_1 in Hex.
      destruct (IH ub done ub1 d1 Hnd) as (H1 & H2 & H3 & H4);
        [intros z Hz; apply Hin; right; exact Hz | exact H |].
      split; [exact H1|]. split; [exact H2|]. split; [|exact H4].
      intros Hd. destruct (H3 Hd) as (Hd1 & Hd2 & Hd3).
      split; [exact Hd1|]. split; [exact Hd2|].
      intros z y Hz Hzu Hy. apply elem_of_cons in Hz as [->|Hz].
      * destruct (decide (y ∈ ub)) as [Hyes|Hno]; [exact Hyes|].
        exfalso. apply Hex. apply Exists_exists. exists y. split; assumption.
      * apply (Hd3 z y Hz Hzu Hy).
Qed.

Lemma closure_loop_spec fuel : forall ub,
  (size ub < fuel)%nat ->
  exists ub', closure_loop fuel ub = Ok ub' /\ ub' ⊆ ub /\ pred_closed ub' /\
    forall S : gset node, S ⊆ ub -> pred_closed S -> S ⊆ ub'.
Proof.
  induction fuel as [|fuel IH]; intros ub Hfuel; [lia|].
  simpl. destruct (closure_pass (elements ub) ub true) as [ub1 d1] eqn:Hpass.
  destruct (closure_pass_spec (elements ub) ub true ub1 d1 (NoDup_elements ub))
    as (H1 & H2 & H3 & H4);
    [intros x Hx; apply elem_of_elements, Hx | exact Hpass |].
  destruct d1.
  - destruct (H3 eq_refl) as (_ & Heq & Hcl). subst ub1.
    exists ub. split; [reflexivity|]. split; [reflexivity|]. split.
    + intros x y Hx Hne Hy. apply (Hcl x y); [apply elem_of_elements, Hx | exact Hne | exact Hy].
    + intros S HS _. exact HS.
  - destruct (H4 eq_refl) as [Hd|Hlt]; [discriminate|].
    destruct (IH ub1 ltac:(lia)) as (ub' & Hloop & Hsub & Hcl & Hmax).
    exists ub'. split; [exact Hloop|]. split; [set_solver|]. split; [exact Hcl|].
    intros S HS HS'. apply Hmax; [|exact HS']. apply H2; assumption.
Qed.

(** X16.  The loop [while not done] of [_dominatorUBoundClosure] ends
    after at most as many passes as the bound has nodes, and leaves the
    greatest subset of the bound that holds, for each of its nodes but
    [udom], all the predecessors of the node. *)
Theorem closure_loop_greatest (ub : gset node) :
  exists ub', closure_loop (S (size ub)) ub = Ok ub' /\
    ub' ⊆ ub /\ pred_closed ub' /\
    forall S : gset node, S ⊆ ub -> pred_closed S -> S ⊆ ub'.
Proof. apply closure_loop_spec. lia. Qed.

End Closure.

(** X17.  When [_dominatorUBoundClosure] returns, the new bound lies
    between [lbound] and the nodes of [ubound] that the dominator of
    [lbound] dominates, [dom.extend] leaves it as it is, and its dominator
    is the dominator of [lbound]; unless the loop was skipped because the
    two bounds were equal, it is the greatest such subset that holds the
    predecessors of its nodes. *)
Theorem dominatorUBoundClosure_spec _doms extend predecessors_nl lb ub ub' :
  _dominatorUBoundClosure _doms extend predecessors_nl lb ub = Ok ub' ->
  exists udom,
    dominator _doms lb = Ok udom /\ dominator _doms ub' = Ok udom /\
    lb ⊆ ub' /\ ub' ⊆ ub ∩ area _doms udom /\ extend ub' = Ok ub' /\
    (ub ∩ area _doms udom <> lb ->
       pred_closed predecessors_nl udom ub' /\
       forall S : gset node, S ⊆ ub ∩ area _doms udom ->
         pred_closed predecessors_nl udom S -> S ⊆ ub').
Proof.
  unfold _dominatorUBoundClosure. intros H.
  apply rbind_Ok in H as (udom & Hudom & H).
  apply rbind_Ok in H as (ub1 & H1 & H).
  apply rbind_Ok in H as (e & He & H).
  apply rbind_Ok in H as (u1 & Ha1 & H). apply assert_Ok, bool_decide_eq_true in Ha1.
  apply rbind_Ok in H as (u2 & Ha2 & H). apply assert_Ok, bool_decide_eq_true in Ha2.
  apply rbind_Ok in H as (d & Hd & H).
  apply rbind_Ok in H as (u3 & Ha3 & [= <-]). apply assert_Ok, bool_decide_eq_true in Ha3.
  subst e d. exists udom. split; [exact Hudom|]. split; [exact Hd|].
  split; [exact Ha2|].
  destruct (decide (ub ∩ area _doms udom = lb)) as [Heq|Hne].
  - injection H1 as <-. split; [reflexivity|]. split; [exact He|].
    intros Hc. contradiction.
  - destruct (closure_loop_greatest predecessors_nl udom (ub ∩ area _doms udom))
      as (ub2 & Hloop & Hsub & Hcl & Hmax).
    rewrite Hloop in H1. injection H1 as <-.
    split; [exact Hsub|]. split; [exact He|]. intros _. split; assumption.
Qed.

Lemma dominatorUBoundClosure_spec_witness :
  exists udom,
    dominator ex_doms {[1%positive; 2%positive]} = Ok udom /\
    dominator ex_doms {[1%positive; 2%positive; 3%positive]} = Ok udom /\
    ({[1%positive; 2%positive]} : gset node) ⊆ {[1%positive; 2%positive; 3%positive]} /\
    ({[1%positive; 2%positive; 3%positive]} : gset node)
      ⊆ {[1%positive; 2%positive; 3%positive]} ∩ area ex_doms udom /\
    ex_extend {[1%positive; 2%positive; 3%positive]}
      = Ok {[1%positive; 2%positive; 3%positive]} /\
    (({[1%positive; 2%positive; 3%positive]} : gset node) ∩ area ex_doms udom
       <> {[1%positive; 2%positive]} ->
     pred_closed ex_predecessors_nl udom {[1%positive; 2%positive; 3%positive]} /\
     forall S : gset node,
       S ⊆ {[1%positive; 2%positive; 3%positive]} ∩ area ex_doms udom ->
       pred_closed ex_predecessors_nl udom S ->
       S ⊆ {[1%positive; 2%positive; 3%positive]}).
Proof.
  apply (dominatorUBoundClosure_spec ex_doms ex_extend ex_predecessors_nl
           {[1%positive; 2%positive]} {[1%positive; 2%positive; 3%positive]}
           {[1%positive; 2%positive; 3%positive]}).
  vm_compute. reflexivity.
Defined.

(** ** The tree of [orderConstraints] *)

Lemma placed_insert (children : children_t) k c :
  placed (<[k := kids children k ++ [c]]> children) ≡ₚ c :: placed children.
Proof.
  unfold placed, kids. destruct (children !! k) as [v|] eqn:Hk; cbn [default].
  - rewrite <- (insert_delete_eq children k (v ++ [c])).
    rewrite map_to_list_insert by apply lookup_delete_eq.
    rewrite <- (insert_delete_id children k v Hk) at 2.
    rewrite map_to_list_insert by apply lookup_delete_eq.
    rewrite !fmap_cons. cbn [snd concat].
    rewrite <- app_assoc. simpl.
    rewrite <- Permutation_middle. reflexivity.
  - rewrite map_to_list_insert by exact Hk.
    rewrite fmap_cons. cbn [snd concat]. reflexivity.
Qed.

Lemma list_remove_Permutation x l l' :
  list_remove x l = Ok l' -> l ≡ₚ x :: l'.
Proof.
  revert l'. induction l as [|y l IH]; intros l' H; simpl in H; [discriminate|].
  destruct (decide (x = y)) as [->|Hne].
  - injection H as <-. reflexivity.
  - apply rbind_Ok in H as (r & Hr & [= <-]).
    rewrite (IH r Hr). apply perm_swap.
Qed.

Section Partition.

Context (extend : gset node -> result (gset node)).
Context (constraints : list cid).

(** an iteration of the loop [while todo] moves one constraint from
    [todo] into the tree *)
Lemma place_one_moves st first st' :
  place_one extend constraints st first = Ok (Some st') ->
  placed (o_children st') ++ o_todo st' ≡ₚ placed (o_children st) ++ o_todo st.
Proof.
  unfold place_one. intros H.
  apply rbind_Ok in H as (comp & _ & H).
  apply rbind_Ok in H as (e & _ & H).
  apply rbind_Ok in H as (u0 & _ & H).
  apply rbind_Ok in H as (candidates & _ & H).
  apply rbind_Ok in H as (assigns & _ & H).
  destruct (pop assigns) as [[[cnode svals] rest]|]; [|discriminate].
  apply rbind_Ok in H as (cn & _ & H).
  apply rbind_Ok in H as (u1 & _ & H).
  apply rbind_Ok in H as (ss & _ & H).
  apply rbind_Ok in H as (u2 & _ & H).
  apply rbind_Ok in H as (u3 & _ & H).
  apply rbind_Ok in H as (parent & _ & H).
  apply rbind_Ok in H as (u4 & _ & H).
  apply rbind_Ok in H as (todo & Htodo & H).
  injection H as <-. cbn [o_children o_todo].
  rewrite placed_insert. rewrite (list_remove_Permutation _ _ _ Htodo).
  simpl. apply Permutation_middle.
Qed.

Lemma place_all_moves fuel : forall st st',
  place_all extend fuel constraints st = Ok (Some st') ->
  placed (o_children st') ≡ₚ placed (o_children st) ++ o_todo st.
Proof.
  induction fuel as [|fuel IH]; intros st st' H; simpl in H.
  - destruct (o_todo st) eqn:E; [|discriminate]. injection H as <-.
    rewrite app_nil_r. reflexivity.
  - destruct (o_todo st) as [|first todo] eqn:E.
    { injection H as <-. rewrite app_nil_r. reflexivity. }
    apply rbind_Ok in H as ([st1|] & H1 & H); [|discriminate].
    rewrite (IH st1 st' H). rewrite <- E.
    apply (place_one_moves st first st1 H1).
Qed.

(** X18.  When [orderConstraints] returns a tree, the lists of children
    of the tree hold every constraint of the list [constraints], each as
    often as the list holds it: every constraint has been given exactly
    one parent. *)
Theorem orderConstraints_places_all store nodes t :
  orderConstraints extend store constraints nodes = Ok (Some t) ->
  placed (t_children t) ≡ₚ constraints.
Proof using Type.
  unfold orderConstraints. intros H.
  apply rbind_Ok in H as (r0 & _ & H).
  apply rbind_Ok in H as ([st|] & Hall & H); [|discriminate].
  apply rbind_Ok in H as (u & _ & [= <-]). cbn [t_children].
  rewrite (place_all_moves _ _ _ Hall). cbn [o_children o_todo].
  unfold placed. rewrite map_to_list_empty. reflexivity.
Qed.

End Partition.

Lemma orderConstraints_places_all_witness :
  orderConstraints ex_extend ex_store [1%positive; 2%positive] ex_nodes
    = Ok (Some ex_tree) /\
  placed (t_children ex_tree) ≡ₚ [1%positive; 2%positive].
Proof.
  assert (H : orderConstraints ex_extend ex_store [1%positive; 2%positive] ex_nodes
              = Ok (Some ex_tree)) by (vm_compute; reflexivity).
  split; [exact H|].
  exact (orderConstraints_places_all ex_extend [1%positive; 2%positive]
           ex_store ex_nodes ex_tree H).
Defined.

(** ** The edges that are not back edges *)

Lemma rmap_all_Ok {A B} (f : A -> result B) (l : list A) :
  (forall x, x ∈ l -> exists y, f x = Ok y) -> exists r, rmap f l = Ok r.
Proof.
  induction l as [|x l IH]; intros H; [exists []; reflexivity|].
  destruct (H x ltac:(left)) as [y Hy].
  destruct IH as [r Hr]; [intros z Hz; apply H; right; exact Hz|].
  exists (y :: r). simpl. rewrite Hy, Hr. reflexivity.
Qed.

Section NoLoopEdgesFacts.

Context (successors predecessors : node -> list node).
Context (outvars : node -> gset node).
Context (doms : doms_t).

Local Abbreviation set_nl := (set_nl successors predecessors outvars doms).

Local Abbreviation nl_successors := (nl_successors successors doms).
Local Abbreviation nl_predecessors := (nl_predecessors predecessors doms).

Lemma set_nl_all nodes : forall st,
  (forall n, n ∈ nodes -> is_Some (doms !! n)) ->
  exists st', rfoldl set_nl st nodes = Ok st' /\
    forall n,
      (n ∈ nodes ->
         a_successors_nl st' !! n = Some (nl_successors n) /\
         a_predecessors_nl st' !! n = Some (nl_predecessors n)) /\
      (n ∉ nodes ->
         a_successors_nl st' !! n = a_successors_nl st !! n /\
         a_predecessors_nl st' !! n = a_predecessors_nl st !! n).
Proof.
  induction nodes as [|m nodes IH]; intros st Hkeys.
  - exists st. split; [reflexivity|]. intros n. split; [intros H; inversion H|].
    intros _. split; reflexivity.
  - destruct (Hkeys m ltac:(left)) as [pm Hpm].
    simpl. unfold Passes.set_nl at 1. unfold dominators. rewrite Hpm. cbn [rbind].
    match goal with |- context [rfoldl _ ?s nodes] => destruct (IH s) as (st' & Hst' & Hall) end.
    { intros n Hn. apply Hkeys. right. exact Hn. }
    exists st'. split; [exact Hst'|]. intros n.
    destruct (Hall n) as [Hin Hout]. split.
    + intros Hn. destruct (decide (n ∈ nodes)) as [Hn'|Hn']; [exact (Hin Hn')|].
      apply elem_of_cons in Hn as [->|Hn]; [|contradiction].
      destruct (Hout Hn') as [-> ->]. cbn [a_successors_nl a_predecessors_nl].
      rewrite !lookup_insert_eq. unfold nl_successors. rewrite Hpm. split; reflexivity.
    + intros Hn. apply not_elem_of_cons in Hn as [Hne Hn].
      destruct (Hout Hn) as [-> ->]. cbn [a_successors_nl a_predecessors_nl].
      rewrite !lookup_insert_ne by (intros E; apply Hne; symmetry; exact E).
      split; reflexivity.
Qed.

End NoLoopEdgesFacts.

Lemma elem_of_area (doms : doms_t) n m :
  m ∈ area doms n <-> exists p, doms !! m = Some p /\ n ∈ p.
Proof.
  unfold area. rewrite elem_of_dom. split.
  - intros [p Hp]. apply map_lookup_filter_Some in Hp as [Hp Hn].
    exists p. split; assumption.
  - intros (p & Hp & Hn). exists p. apply map_lookup_filter_Some. split; assumption.
Qed.

Lemma check_list_Ok (m : gmap node (list node)) (F : node -> list node) n l :
  (forall n2, n2 ∈ l -> m !! n2 = Some (F n2) /\ n ∈ F n2) ->
  exists r, rmap (fun n2 => let* p2 := attr m n2 in
                            assert (bool_decide (n ∈ p2))) l = Ok r.
Proof.
  intros H. apply rmap_all_Ok. intros n2 Hn2.
  destruct (H n2 Hn2) as [Hm Hin]. unfold attr. rewrite Hm. cbn [rbind].
  rewrite bool_decide_eq_true_2 by exact Hin. exists tt. reflexivity.
Qed.

(** X19.  The loops of [structure] that compute [successors_nl] and
    [predecessors_nl] and check them against each other succeed when the
    nodes can all be reached from the root and [predecessors] is the
    converse of [successors] on them: none of the assertions fails.  The
    edges that are kept are the edges that are not back edges: those whose
    target does not dominate their source. *)
Theorem no_loop_edges_consistent successors predecessors outvars root fuel
    doms nodes :
  DominatorInfo_init successors fuel root = Ok doms ->
  (forall n, n ∈ nodes -> reachable successors root n) ->
  (forall x y, x ∈ nodes -> y ∈ nodes ->
     y ∈ successors x <-> x ∈ predecessors y) ->
  (forall n x, n ∈ nodes -> x ∈ successors n \/ x ∈ predecessors n -> x ∈ nodes) ->
  exists st, no_loop_edges successors predecessors outvars doms nodes = Ok st /\
    forall n, n ∈ nodes ->
      exists s p, a_successors_nl st !! n = Some s /\
        a_predecessors_nl st !! n = Some p /\
        (forall x, x ∈ s <-> x ∈ successors n /\ ~ dominates successors root x n) /\
        (forall x, x ∈ p <-> x ∈ predecessors n /\ ~ dominates successors root n x).
Proof.
  intros Hinit Hreach Hconv Hclosed.
  pose proof (DominatorInfo_init_settled successors root fuel doms Hinit) as Hs.
  assert (Hkeys : forall n, n ∈ nodes -> is_Some (doms !! n)).
  { intros n Hn. apply (settled_keys successors root doms n Hs). apply Hreach, Hn. }
  destruct (set_nl_all successors predecessors outvars doms nodes (mkNl ∅ ∅ ∅) Hkeys)
    as (st & Hst & Hall).
  assert (Hcheck : exists r, rmap (check_nl st) nodes = Ok r).
  { apply rmap_all_Ok. intros n Hn.
    destruct (proj1 (Hall n) Hn) as [Hsn Hpn]. destruct (Hkeys n Hn) as [pn Hdn].
    unfold check_nl, attr at 1. rewrite Hsn. cbn [rbind].
    destruct (check_list_Ok (a_predecessors_nl st) (nl_predecessors predecessors doms)
                n (nl_successors successors doms n)) as [r1 Hr1].
    { intros n2 Hn2. apply list_elem_of_filter in Hn2 as [Hnd Hn2].
      rewrite Hdn in Hnd. cbn [default] in Hnd.
      assert (Hn2' : n2 ∈ nodes) by (apply (Hclosed n); [exact Hn | left; exact Hn2]).
      split; [apply (proj1 (Hall n2) Hn2')|].
      apply list_elem_of_filter. split.
      - intros Ha. apply elem_of_area in Ha as (p & Hp & Hin).
        rewrite Hdn in Hp. injection Hp as <-. exact (Hnd Hin).
      - apply (Hconv n n2 Hn Hn2'). exact Hn2. }
    rewrite Hr1. cbn [rbind]. unfold attr at 1. rewrite Hpn. cbn [rbind].
    destruct (check_list_Ok (a_successors_nl st) (nl_successors successors doms)
                n (nl_predecessors predecessors doms n)) as [r2 Hr2].
    { intros n2 Hn2. apply list_elem_of_filter in Hn2 as [Hnd Hn2].
      assert (Hn2' : n2 ∈ nodes) by (apply (Hclosed n); [exact Hn | right; exact Hn2]).
      split; [apply (proj1 (Hall n2) Hn2')|].
      destruct (Hkeys n2 Hn2') as [p2 Hp2].
      apply list_elem_of_filter. rewrite Hp2. cbn [default]. split.
      - intros Hin. apply Hnd. apply elem_of_area. exists p2. split; assumption.
      - apply (Hconv n2 n Hn2' Hn). exact Hn2. }
    rewrite Hr2. cbn [rbind]. exists tt. reflexivity. }
  destruct Hcheck as [r Hr].
  exists st. unfold no_loop_edges. rewrite Hst. cbn [rbind]. rewrite Hr. cbn [rbind].
  split; [reflexivity|].
  intros n Hn. destruct (proj1 (Hall n) Hn) as [Hsn Hpn].
  destruct (Hkeys n Hn) as [pn Hdn].
  exists (nl_successors successors doms n), (nl_predecessors predecessors doms n).
  split; [exact Hsn|]. split; [exact Hpn|]. split.
  - intros x. unfold nl_successors. rewrite list_elem_of_filter, Hdn. cbn [default].
    rewrite (settled_dominates successors root doms n pn x Hs Hdn). tauto.
  - intros x. unfold nl_predecessors. rewrite list_elem_of_filter. split.
    + intros [Ha Hx]. split; [exact Hx|]. intros Hd. apply Ha.
      assert (Hx' : x ∈ nodes) by (apply (Hclosed n); [exact Hn | right; exact Hx]).
      destruct (Hkeys x Hx') as [px Hpx].
      apply elem_of_area. exists px. split; [exact Hpx|].
      apply (settled_dominates successors root doms x px n Hs Hpx). exact Hd.
    + intros [Hx Hd]. split; [|exact Hx]. intros Ha. apply Hd.
      apply elem_of_area in Ha as (px & Hpx & Hin).
      apply (settled_dominates successors root doms x px n Hs Hpx). exact Hin.
Qed.

Lemma no_loop_edges_consistent_witness :
  exists st,
    no_loop_edges ex_successors ex_predecessors (fun _ => ∅) ex_doms_final
      [1%positive; 2%positive; 3%positive; 4%positive; 5%positive] = Ok st /\
    forall n, n ∈ [1%positive; 2%positive; 3%positive; 4%positive; 5%positive] ->
      exists s p, a_successors_nl st !! n = Some s /\
        a_predecessors_nl st !! n = Some p /\
        (forall x, x ∈ s <->
           x ∈ ex_successors n /\ ~ dominates ex_successors 1%positive x n) /\
        (forall x, x ∈ p <->
           x ∈ ex_predecessors n /\ ~ dominates ex_successors 1%positive n x).
Proof.
  apply (no_loop_edges_consistent ex_successors ex_predecessors (fun _ => ∅)
           1%positive 100 ex_doms_final).
  - vm_compute. reflexivity.
  - intros n Hn. apply (reachable_of_key _ _ 100 ex_doms_final).
    + vm_compute. reflexivity.
    + repeat (apply elem_of_cons in Hn as [->|Hn];
              [vm_compute; eexists; reflexivity|]).
      inversion Hn.
  - intros x y Hx Hy.
    repeat (apply elem_of_cons in Hx as [->|Hx];
      [repeat (apply elem_of_cons in Hy as [->|Hy]; [simpl; set_solver|]);
       inversion Hy|]).
    inversion Hx.
  - intros n x Hn Hx.
    repeat (apply elem_of_cons in Hn as [->|Hn]; [simpl in Hx; set_solver|]).
    inversion Hn.
Defined.

(** ** The passes only let lower bounds grow *)

Lemma scope_grown_refl s : scope_grown s s.
Proof. split; reflexivity. Qed.

Lemma scope_grown_trans s1 s2 s3 :
  scope_grown s1 s2 -> scope_grown s2 s3 -> scope_grown s1 s3.
Proof. intros [A1 A2] [B1 B2]. split; [set_solver | congruence]. Qed.

Lemma scopes_grown_refl ss : Forall2 scope_grown ss ss.
Proof. induction ss; constructor; [apply scope_grown_refl | assumption]. Qed.

Lemma scopes_grown_trans ss1 ss2 ss3 :
  Forall2 scope_grown ss1 ss2 -> Forall2 scope_grown ss2 ss3 ->
  Forall2 scope_grown ss1 ss3.
Proof.
  intros F. revert ss3. induction F as [|s1 s2 ss1 ss2 Hs _ IH]; intros ss3 G.
  - inversion G. constructor.
  - inversion G as [|? s3 ? ss3' Hs' G']; subst.
    constructor; [eapply scope_grown_trans; eassumption | apply IH, G'].
Qed.

Lemma con_grown_refl x : con_grown x x.
Proof. repeat split; try reflexivity. apply scopes_grown_refl. Qed.

Lemma con_grown_trans x y z : con_grown x y -> con_grown y z -> con_grown x z.
Proof.
  intros (A1 & A2 & A3 & A4 & A5 & A6 & A7) (B1 & B2 & B3 & B4 & B5 & B6 & B7).
  split; [congruence|]. split; [congruence|]. split; [congruence|].
  split; [congruence|]. split; [congruence|]. split; [set_solver|].
  eapply scopes_grown_trans; eassumption.
Qed.

Lemma tree_grown_refl t : tree_grown t t.
Proof.
  split; [apply con_grown_refl|]. intros c x Hx. exists x.
  split; [exact Hx | apply con_grown_refl].
Qed.

Lemma tree_grown_trans t1 t2 t3 :
  tree_grown t1 t2 -> tree_grown t2 t3 -> tree_grown t1 t3.
Proof.
  intros [A1 A2] [B1 B2]. split; [eapply con_grown_trans; eassumption|].
  intros c x Hx. destruct (A2 c x Hx) as (y & Hy & Hxy).
  destruct (B2 c y Hy) as (z & Hz & Hyz). exists z.
  split; [exact Hz | eapply con_grown_trans; eassumption].
Qed.

Lemma tree_grown_set_con t k x x' :
  con_of t k = Ok x -> con_grown x x' -> tree_grown t (set_con t k x').
Proof.
  intros Hk Hg. destruct k as [c|]; simpl in Hk.
  - apply get_Ok in Hk. split; [apply con_grown_refl|].
    intros c' y Hy. cbn [set_con t_store].
    destruct (decide (c' = c)) as [->|Hne].
    + exists x'. rewrite lookup_insert_eq. split; [reflexivity|]. congruence.
    + exists y. rewrite lookup_insert_ne by (intros E; apply Hne; symmetry; exact E).
      split; [exact Hy | apply con_grown_refl].
  - injection Hk as <-. split; [exact Hg|].
    intros c y Hy. exists y. split; [exact Hy | apply con_grown_refl].
Qed.

Lemma tree_grown_store t store :
  (forall c x, t_store t !! c = Some x -> store !! c = Some x) ->
  forall children, tree_grown t (mkTree store (t_root t) children).
Proof.
  intros H children. split; [apply con_grown_refl|].
  intros c x Hx. exists x. split; [apply H, Hx | apply con_grown_refl].
Qed.

Section CompleteScopesGrows.

Context (_doms : gmap node (list node)).
Context (extend : gset node -> result (gset node)).
Context (successors_nl predecessors_nl : node -> list node).
Context (Hextend : forall X Y, extend X = Ok Y -> X ⊆ Y).

Lemma complete_one_grows fuel nodeorder t parent revorder cnode frozen tf :
  complete_one _doms extend successors_nl predecessors_nl fuel nodeorder t
    parent revorder cnode frozen = Ok tf ->
  tree_grown t (fst tf) /\ dom (t_store (fst tf)) = dom (t_store t).
Proof using Hextend.
  intros H. unfold complete_one in H.
  apply rbind_Ok in H as (pc & Hpc & H).
  apply rbind_Ok in H as (cn & Hcn & H).
  apply rbind_Ok in H as (? & _ & H).
  destruct (filter _ (scopes pc)) as [|s0 ?]; [discriminate|].
  apply rbind_Ok in H as (ub0 & Hub0 & H).
  apply rbind_Ok in H as (? & _ & H).
  apply rbind_Ok in H as (ub1 & Hub1 & H).
  apply rbind_Ok in H as (flow & _ & H).
  apply rbind_Ok in H as (? & _ & H).
  apply rbind_Ok in H as (body1 & Hbody1 & H).
  apply rbind_Ok in H as (? & _ & H).
  apply rbind_Ok in H as (e1 & _ & H).
  apply rbind_Ok in H as (? & _ & H).
  apply rbind_Ok in H as (bn & Hbn & H).
  apply rbind_Ok in H as (? & _ & H).
  apply rbind_Ok in H as (e2 & _ & H).
  apply rbind_Ok in H as (? & _ & H).
  injection H as <-. cbn [fst].
  apply Hextend in Hbody1.
  assert (Hgrow : body1 ⊆ fst bn).
  { revert Hbn. apply (rfoldl_inv (fun bn => body1 ⊆ fst bn)); [|reflexivity].
    intros b child b' Hb _ Hf. apply rbind_Ok in Hf as (c0 & _ & [= <-]).
    destruct (bool_decide _); [cbn [fst]; set_solver | exact Hb]. }
  cbn [set_kids set_con t_store t_root t_children].
  split.
  - eapply tree_grown_trans; [|apply tree_grown_store; intros c' y' Hy'; exact Hy'].
    apply (tree_grown_set_con t (Some cnode) cn); [exact Hcn|].
    split; [reflexivity|]. split; [reflexivity|]. split; [reflexivity|].
    split; [reflexivity|]. split; [reflexivity|]. split.
    + cbn [lbound]. set_solver.
    + cbn [scopes]. apply Forall2_fmap_r. apply Forall_Forall2_diag.
      apply Forall_forall. intros s _. split; cbn [slbound subound]; [set_solver | reflexivity].
  - apply get_Ok in Hcn. rewrite dom_insert_L.
    assert (cnode ∈ dom (t_store t)) by (apply elem_of_dom; eexists; exact Hcn).
    set_solver.
Qed.

Lemma complete_children_grows fuel nodeorder parent rs : forall t frozen t',
  complete_children _doms extend successors_nl predecessors_nl fuel nodeorder t
    parent rs frozen = Ok t' ->
  tree_grown t t' /\ dom (t_store t') = dom (t_store t).
Proof using Hextend.
  induction rs as [|cnode rs IH]; intros t frozen t' H; simpl in H.
  - injection H as <-. split; [apply tree_grown_refl | reflexivity].
  - destruct (decide _) as [_|_]; [|eapply IH; exact H].
    apply rbind_Ok in H as (tf & Hone & H).
    apply complete_one_grows in Hone as [G1 D1].
    apply IH in H as [G2 D2].
    split; [eapply tree_grown_trans; eassumption | congruence].
Qed.

Lemma complete_loop_grows fuel nodeorder : forall t stack t',
  complete_loop _doms extend successors_nl predecessors_nl fuel nodeorder t stack
    = Ok t' ->
  tree_grown t t' /\ dom (t_store t') = dom (t_store t).
Proof using Hextend.
  induction fuel as [|fuel IH]; intros t stack t' H; simpl in H;
    destruct (pop stack) as [[parent stack']|]; try discriminate;
    try (injection H as <-; split; [apply tree_grown_refl | reflexivity]).
  apply rbind_Ok in H as (keyed & _ & H).
  apply rbind_Ok in H as (t1 & Ht1 & H).
  apply complete_children_grows in Ht1 as [G1 D1].
  apply IH in H as [G2 D2].
  split; [eapply tree_grown_trans; eassumption | congruence].
Qed.

End CompleteScopesGrows.

(** X20.  Provided [dom.extend] returns a superset of its argument,
    [completeScopes] only lets lower bounds grow: it adds and removes no
    constraint, and changes of a constraint neither the tag, the head, the
    forced relations, the upper bound nor the upper bounds of its scopes;
    the lower bound of the constraint and of each of its scopes after the
    pass holds the one before. *)
Theorem completeScopes_grows _doms root extend successors_nl predecessors_nl
    topologicalSort_nl fuel t t' :
  (forall X Y, extend X = Ok Y -> X ⊆ Y) ->
  completeScopes _doms root extend successors_nl predecessors_nl
    topologicalSort_nl fuel t = Ok t' ->
  tree_grown t t' /\ dom (t_store t') = dom (t_store t).
Proof.
  intros Hextend H. unfold completeScopes in H.
  apply rbind_Ok in H as (? & _ & H).
  eapply complete_loop_grows; eassumption.
Qed.

Lemma completeScopes_grows_witness :
  exists t',
    completeScopes ex_doms 1%positive ex_extend ex_successors_nl
      ex_predecessors_nl ex_topologicalSort 10 ex_tree = Ok t' /\
    tree_grown ex_tree t' /\ dom (t_store t') = dom (t_store ex_tree).
Proof.
  eexists. split; [vm_compute; reflexivity|].
  apply (completeScopes_grows ex_doms 1%positive ex_extend ex_successors_nl
           ex_predecessors_nl ex_topologicalSort 10 ex_tree).
  - intros X Y [= <-]. reflexivity.
  - vm_compute. reflexivity.
Defined.

(** ** [addBreakScopes] appends scope constraints *)

Lemma appended_refl t cs : appended t cs t cs.
Proof.
  split; [apply tree_grown_refl|]. exists []. rewrite app_nil_r.
  split; [reflexivity|]. split; [constructor|]. split.
  - intros c. split; [intros H; left; exact H|]. intros [H|H]; [exact H | inversion H].
  - intros c H. inversion H.
Qed.

Lemma scopes_grown_insert ss i ps ps' :
  ss !! i = Some ps -> scope_grown ps ps' ->
  Forall2 scope_grown ss (<[i := ps']> ss).
Proof.
  intros Hi Hg. rewrite <- (list_insert_id ss i ps Hi) at 1.
  apply Forall2_insert; [apply scopes_grown_refl | exact Hg].
Qed.

Lemma set_con_store_dom t k x x' :
  con_of t k = Ok x ->
  forall c, is_Some (t_store (set_con t k x') !! c) <-> is_Some (t_store t !! c).
Proof.
  intros Hk c. destruct k as [p|]; simpl in *; [|reflexivity].
  apply get_Ok in Hk. rewrite lookup_insert_is_Some'. split; [|intros H; right; exact H].
  intros [<-|H]; [eexists; exact Hk | exact H].
Qed.

(** one new scope: the parent [parent] grows, and a scope with the bounds
    [body] is added under a new identifier *)
Lemma appended_step t0 cs0 t cs parent pc pc' body children' :
  appended t0 cs0 t cs ->
  con_of t parent = Ok pc -> con_grown pc pc' -> lbound pc' ⊆ ubound pc' ->
  appended t0 cs0
    (mkTree (<[fresh (dom (t_store (set_con t parent pc'))) := FixedScopeCon body]>
               (t_store (set_con t parent pc')))
            (t_root (set_con t parent pc')) children')
    (cs ++ [fresh (dom (t_store (set_con t parent pc')))]).
Proof.
  intros (G & news & -> & Hnd & Hdom & Hnews) Hpc Hg Hlu.
  set (t1 := set_con t parent pc').
  set (new := fresh (dom (t_store t1))).
  assert (Hfresh : t_store t1 !! new = None).
  { apply not_elem_of_dom. apply is_fresh. }
  assert (Hdom1 : forall c, is_Some (t_store t1 !! c) <-> is_Some (t_store t !! c))
    by (apply (set_con_store_dom t parent pc pc' Hpc)).
  assert (G1 : tree_grown t t1) by (apply (tree_grown_set_con t parent pc pc' Hpc Hg)).
  assert (Hnew_t : t_store t !! new = None).
  { destruct (t_store t !! new) eqn:E; [|reflexivity].
    assert (is_Some (t_store t1 !! new)) as [z Hz] by (apply Hdom1; eexists; exact E).
    congruence. }
  split.
  - eapply tree_grown_trans; [exact G|]. eapply tree_grown_trans; [exact G1|].
    apply tree_grown_store. intros c x Hx.
    rewrite lookup_insert_ne; [exact Hx|]. intros <-. congruence.
  - exists (news ++ [new]). split; [rewrite app_assoc; reflexivity|]. split.
    { apply NoDup_app. split; [exact Hnd|]. split; [|apply NoDup_singleton].
      intros c Hc Hc'. apply list_elem_of_singleton in Hc' as ->.
      destruct (Hnews new Hc) as (_ & y & Hy & _). congruence. }
    split.
    { intros c. cbn [t_store]. rewrite lookup_insert_is_Some', Hdom1, Hdom.
      rewrite elem_of_app, list_elem_of_singleton.
      split; [intros [<-|[H|H]]; auto | intros [H|[H| ->]]; auto]. }
    intros c Hc. cbn [t_store]. apply elem_of_app in Hc as [Hc|Hc].
    + destruct (Hnews c Hc) as (Hnone & y & Hy & Htag & Hhead & Hlb).
      split; [exact Hnone|].
      assert (Hne : new <> c) by (intros <-; congruence).
      rewrite lookup_insert_ne by exact Hne.
      destruct (decide (parent = Some c)) as [->|Hp].
      * exists pc'. unfold t1. cbn [set_con t_store]. rewrite lookup_insert_eq.
        split; [reflexivity|]. simpl in Hpc. apply get_Ok in Hpc.
        assert (pc = y) as -> by congruence.
        destruct Hg as (A1 & A2 & _ & _ & A5 & A6 & _).
        split; [congruence|]. split; [congruence|].
        apply set_eq. intros z. split; [apply Hlu|].
        intros Hz. apply A6. rewrite Hlb. rewrite <- A5. exact Hz.
      * exists y. split; [|split; [exact Htag | split; [exact Hhead | exact Hlb]]].
        unfold t1. destruct parent as [p|]; cbn [set_con t_store]; [|exact Hy].
        rewrite lookup_insert_ne; [exact Hy|]. intros ->. apply Hp. reflexivity.
    + apply list_elem_of_singleton in Hc as ->. split.
      * destruct (t_store t0 !! new) eqn:E; [|reflexivity].
        assert (is_Some (t_store t !! new)) as [z Hz].
        { apply Hdom. left. eexists; exact E. }
        congruence.
      * eexists. rewrite lookup_insert_eq. split; [reflexivity|].
        split; [reflexivity|]. split; reflexivity.
Qed.

Section AddBreakScopesAppends.

Context (extend : gset node -> result (gset node)).
Context (predecessors_nl norm_suc_nl : node -> list node).
Context (topologicalSort_nl : list node -> list node).

Lemma add_break_appends t0 cs0 fuel sortednodes st st' :
  appended t0 cs0 (b_tree st) (b_constraints st) ->
  add_break extend predecessors_nl norm_suc_nl topologicalSort_nl fuel
    sortednodes st = Ok st' ->
  appended t0 cs0 (b_tree st') (b_constraints st').
Proof.
  intros J H. unfold add_break in H.
  destruct (_ <$> map_to_list _) as [|v0 vs]; [discriminate|].
  apply rbind_Ok in H as (? & _ & H).
  apply rbind_Ok in H as (? & _ & H).
  apply rbind_Ok in H as (keyed & _ & H).
  destruct keyed as [|k0 ks]; [discriminate|].
  apply rbind_Ok in H as (lbs & _ & H).
  apply rbind_Ok in H as (body & _ & H).
  apply rbind_Ok in H as (otherSets & _ & H).
  apply rbind_Ok in H as (e & _ & H).
  apply rbind_Ok in H as (? & _ & H).
  apply rbind_Ok in H as (? & _ & H).
  apply rbind_Ok in H as (? & _ & H).
  apply rbind_Ok in H as (? & _ & H).
  apply rbind_Ok in H as (pp & Hpp & H).
  apply rbind_Ok in H as (pc & Hpc & H).
  destruct (scopes pc !! snd pp) as [ps|] eqn:Hps; [|discriminate].
  apply rbind_Ok in H as (? & _ & H).
  apply rbind_Ok in H as (? & Hlu%assert_Ok%bool_decide_eq_true & H).
  apply rbind_Ok in H as (temp & _ & H).
  apply rbind_Ok in H as (moved & _ & H).
  apply rbind_Ok in H as (? & _ & H).
  injection H as <-. cbn [b_tree b_constraints].
  cbn [set_kids t_store t_root t_children].
  apply (appended_step t0 cs0 (b_tree st) (b_constraints st) (fst pp) pc);
    [exact J | exact Hpc | | exact Hlu].
  split; [reflexivity|]. split; [reflexivity|]. split; [reflexivity|].
  split; [reflexivity|]. split; [reflexivity|]. split; [cbn [lbound]; set_solver|].
  cbn [scopes]. apply (scopes_grown_insert _ _ ps); [exact Hps|].
  split; cbn [slbound subound]; [set_solver | reflexivity].
Qed.

Lemma add_breaks_appends t0 cs0 fuel sortednodes : forall st st',
  appended t0 cs0 (b_tree st) (b_constraints st) ->
  add_breaks extend predecessors_nl norm_suc_nl topologicalSort_nl fuel
    sortednodes st = Ok st' ->
  appended t0 cs0 (b_tree st') (b_constraints st').
Proof.
  induction fuel as [|fuel IH]; intros st st' J H; simpl in H;
    destruct (b_todo st); try discriminate; try (injection H as <-; exact J).
  apply rbind_Ok in H as (st1 & H1 & H).
  eapply IH; [|exact H]. eapply add_break_appends; eassumption.
Qed.

End AddBreakScopesAppends.

(** X21.  [addBreakScopes] appends scope constraints: the list
    [constraints] after the pass is the list before it followed by new
    constraints, each under an identifier that was not in use, with the
    tag [scope], no head and equal bounds; the constraints that were there
    before have at most grown lower bounds, and no constraint has been
    removed. *)
Theorem addBreakScopes_appends root extend predecessors_nl norm_suc_nl
    topologicalSort_nl fuel t cs t' cs' :
  addBreakScopes root extend predecessors_nl norm_suc_nl topologicalSort_nl
    fuel t cs = Ok (t', cs') ->
  appended t cs t' cs'.
Proof.
  intros H. unfold addBreakScopes in H.
  apply rbind_Ok in H as (todo & _ & H).
  apply rbind_Ok in H as (? & _ & H).
  apply rbind_Ok in H as (st & Hst & [= <- <-]).
  apply (add_breaks_appends _ _ _ _ t cs) in Hst; [exact Hst|].
  apply appended_refl.
Qed.

Lemma addBreakScopes_appends_witness :
  exists t1 t2 cs2,
    completeScopes ex_doms 1%positive ex_extend ex_successors_nl
      ex_predecessors_nl ex_topologicalSort 10 ex_tree = Ok t1 /\
    addBreakScopes 1%positive ex_extend ex_predecessors_nl ex_successors_nl
      ex_topologicalSort 10 t1 [1%positive; 2%positive] = Ok (t2, cs2) /\
    cs2 = [1%positive; 2%positive; 3%positive] /\
    appended t1 [1%positive; 2%positive] t2 cs2.
Proof.
  eexists. eexists. eexists.
  split; [vm_compute; reflexivity|].
  split; [vm_compute; reflexivity|].
  split; [reflexivity|].
  apply (addBreakScopes_appends 1%positive ex_extend ex_predecessors_nl
           ex_successors_nl ex_topologicalSort 10).
  vm_compute. reflexivity.
Defined.

End PassesFacts.

(** * Properties of the class file *)

(** ** The flags of a field *)

Lemma dict_get_elem d k v : dict_get d k = Some v -> (k, v) ∈ d.
Proof.
  induction d as [|[k' v'] d IH]; simpl; [discriminate|].
  destruct (String.eqb k k') eqn:E.
  - apply String.eqb_eq in E as ->. intros [= ->]. left.
  - intros H. right. apply IH, H.
Qed.

(** the masks of [Field.flagVals] have no bit in common *)
Lemma Field_flagVals_bits p q :
  p ∈ Field_flagVals -> q ∈ Field_flagVals ->
  Z.land (snd p) (snd q) <> 0 <-> fst p = fst q.
Proof.
  intros Hp Hq.
  assert (H : Forall (fun p => Forall (fun q =>
                bool_decide (Z.land (snd p) (snd q) <> 0)
                = bool_decide (fst p = fst q)) Field_flagVals) Field_flagVals).
  { repeat constructor. }
  pose proof (proj1 (Forall_forall _ _) (proj1 (Forall_forall _ _) H p Hp) q Hq) as E.
  cbv beta in E. split; intros H1.
  - apply (bool_decide_eq_true_1 (fst p = fst q)). rewrite <- E.
    apply bool_decide_eq_true_2. exact H1.
  - apply (bool_decide_eq_true_1 (Z.land (snd p) (snd q) <> 0)). rewrite E.
    apply bool_decide_eq_true_2. exact H1.
Qed.

Lemma flag_bits_spec flags : forall acc z,
  flag_bits Field_flagVals flags acc = Ok z ->
  (forall f, f ∈ flags -> exists m, (f, m) ∈ Field_flagVals) /\
  forall nm, nm ∈ Field_flagVals ->
    Z.land (snd nm) z <> 0 <-> Z.land (snd nm) acc <> 0 \/ fst nm ∈ flags.
Proof.
  induction flags as [|f flags IH]; intros acc z H; cbn [flag_bits] in H.
  - injection H as <-. split; [intros f Hf; inversion Hf|].
    intros nm _. split; [intros H; left; exact H|].
    intros [H|H]; [exact H | inversion H].
  - destruct (dict_get Field_flagVals f) as [m|] eqn:Hm; [|discriminate].
    apply dict_get_elem in Hm.
    destruct (IH _ _ H) as [Hall Hbits]. split.
    + intros g Hg. apply elem_of_cons in Hg as [->|Hg]; [eauto | apply Hall, Hg].
    + intros nm Hnm. rewrite (Hbits nm Hnm).
      rewrite Z.land_lor_distr_r. rewrite Z.lor_eq_0_iff.
      pose proof (Field_flagVals_bits nm (f, m) Hnm Hm) as Hb. cbn [fst snd] in Hb.
      rewrite elem_of_cons. split.
      * intros [Hne|Hin]; [|right; right; exact Hin].
        destruct (decide (Z.land (snd nm) acc = 0)) as [E0|NE0]; [|left; exact NE0].
        right. left. apply Hb. intros E1. apply Hne. split; assumption.
      * intros [Hacc|[Heq|Hin]].
        -- left. intros [E0 _]. exact (Hacc E0).
        -- left. intros [_ E1]. apply (proj2 Hb Heq E1).
        -- right. exact Hin.
Qed.

Section ClassFile.

Context (ins : instructions).
Context {ConstPool : Type}.
Context (getItemRaw : ConstPool -> arg * list arg -> ConstPool * result Z).
Context (pool_bytes : ConstPool -> result (list byte)).
Context (getArgs : ConstPool -> Z -> result (list arg)).
Context (Method_flagVals ClassFile_flagVals : list (string * Z)).

(** X22.  The flags of a field survive the round trip through the class
    file: the first two bytes of the field that [assemble] writes are the
    flag bits, and the set of names that [Field.__init__] reads from these
    bits is the set of the flags that the field was given. *)
Theorem field_flags_round_trip fuel lbls flags name desc const s s' code :
  assemble_field getItemRaw fuel lbls (flags, name, desc, const) s
    = (s', Ok code) ->
  exists flagbits rest,
    code = be_bytes 2 flagbits ++ rest /\ 0 <= flagbits <= 65535 /\
    Field_flags flagbits = list_to_set flags.
Proof using Type.
  unfold assemble_field. intros H.
  apply bind_Ok in H as (flagbits & s1 & Hfb & H).
  apply liftR_Ok in Hfb as [Hfb ->].
  apply bind_Ok in H as (ni & s2 & _ & H).
  apply bind_Ok in H as (di & s3 & _ & H).
  apply bind_Ok in H as (fattrs & s4 & _ & H).
  apply bind_Ok in H as (hdr & s5 & Hhdr & H).
  apply liftR_Ok in Hhdr as [Hhdr ->].
  apply ret_Ok in H as [<- _].
  apply pack_cons_Ok in Hhdr as (bs & _ & -> & Hrange).
  exists flagbits, (bs ++ concat fattrs).
  split; [rewrite <- app_assoc; reflexivity|]. split; [exact Hrange|].
  destruct (flag_bits_spec flags 0 flagbits Hfb) as [Hall Hbits].
  apply set_eq. intros x. unfold Field_flags.
  rewrite !elem_of_list_to_set, list_elem_of_fmap. split.
  - intros (nm & -> & Hnm). apply list_elem_of_filter in Hnm as [Hne Hnm].
    apply (Hbits nm Hnm) in Hne as [Hacc|Hin]; [|exact Hin].
    rewrite Z.land_0_r in Hacc. contradiction.
  - intros Hx. destruct (Hall x Hx) as [m Hm].
    exists (x, m). split; [reflexivity|]. apply list_elem_of_filter.
    split; [|exact Hm]. apply (Hbits (x, m) Hm). right. exact Hx.
Qed.

Lemma flag_bits_unknown d flags f : forall acc,
  f ∈ flags -> dict_get d f = None -> flag_bits d flags acc = Raise TypeError.
Proof.
  induction flags as [|g flags IH]; intros acc Hf Hnone; [inversion Hf|].
  simpl. destruct (dict_get d g) as [m|] eqn:Hg; [|reflexivity].
  apply elem_of_cons in Hf as [->|Hf]; [congruence|].
  apply IH; assumption.
Qed.

(** X23.  A field with a flag that [Field.flagVals] does not have is
    refused with [TypeError], before any reference of the field is
    resolved: the objects and the constant pool are left as they were. *)
Theorem unknown_field_flag fuel lbls flags name desc const f s :
  f ∈ flags -> dict_get Field_flagVals f = None ->
  assemble_field getItemRaw fuel lbls (flags, name, desc, const) s
    = (s, Raise TypeError).
Proof using Type.
  intros Hf Hnone. unfold assemble_field, bind at 1, liftR.
  rewrite (flag_bits_unknown _ _ f 0 Hf Hnone). reflexivity.
Qed.

(** ** The class *)

(** X24.  A class that declares an interface is never assembled: the
    indices of the interfaces are joined as if they were byte strings, and
    whatever the rest of the class, [assemble] raises. *)
Theorem interfaces_never_assembled fuel classdec superdec interface_decs
    topitems addLineNumbers jasmode s s' r :
  interface_decs <> [] ->
  assemble ins getItemRaw pool_bytes getArgs Method_flagVals ClassFile_flagVals
    fuel (classdec, superdec, interface_decs, topitems) addLineNumbers jasmode s
    <> (s', Ok r).
Proof using Type.
  intros Hne H. unfold assemble in H.
  apply bind_Ok in H as (lbls & s1 & _ & H).
  apply bind_Ok in H as (fields & s2 & _ & H).
  apply bind_Ok in H as (methods & s3 & _ & H).
  apply bind_Ok in H as (attributes & s4 & _ & H).
  apply bind_Ok in H as (interfaces & s5 & Hi & H).
  destruct classdec as [[intf cflags] this].
  apply bind_Ok in H as (flagbits & s6 & _ & H).
  apply bind_Ok in H as (thisi & s7 & _ & H).
  apply bind_Ok in H as (superi & s8 & _ & H).
  apply bind_Ok in H as (version & s9 & _ & H).
  apply bind_Ok in H as (pool & s10 & _ & H).
  apply bind_Ok in H as (header & s11 & _ & H).
  apply bind_Ok in H as (t1 & s12 & Ht1 & H).
  apply liftR_Ok in Ht1 as [Ht1 _].
  apply mapM_length in Hi.
  unfold counted_indices in Ht1. apply rbind_Ok in Ht1 as (n & _ & Ht1).
  destruct interfaces as [|i interfaces]; [|discriminate].
  destruct interface_decs; [contradiction | discriminate].
Qed.

Lemma assemble_consts_index consts : forall lbls (s : @state ConstPool),
  (forall slot value, (slot, value) ∈ consts -> is_Some (heap s !! slot)) ->
  (exists slot value o i,
     (slot, value) ∈ consts /\ heap s !! slot = Some o /\ index o = Some i) ->
  assemble_consts consts lbls s
    = (s, Raise (AssemblerError
         "Assigning to directly constant pool indices is not currently supported.")).
Proof using Type.
  induction consts as [|[slot0 value0] consts IH]; intros lbls s Hall Hex.
  - destruct Hex as (slot & value & o & i & Hin & _). inversion Hin.
  - cbn [assemble_consts]. unfold bind at 1, deref at 1.
    destruct (Hall slot0 value0 ltac:(left)) as [o0 Ho0]. rewrite Ho0.
    destruct (index o0) as [i0|] eqn:Hi0; [reflexivity|].
    apply IH.
    + intros slot value Hin. apply (Hall slot value). right. exact Hin.
    + destruct Hex as (slot & value & o & i & Hin & Ho & Hi).
      apply elem_of_cons in Hin as [[= -> ->]|Hin]; [congruence|].
      exists slot, value, o, i. split; [exact Hin|]. split; assumption.
Qed.

(** X25.  A [const] item that assigns to a slot given by its index is
    refused with [AssemblerError], whatever the rest of the class, and
    nothing has been resolved or added to the constant pool by then. *)
Theorem const_index_rejected fuel tree_head topitems addLineNumbers jasmode
    (s : @state ConstPool) slot value o i :
  (forall sl v, TConst sl v ∈ topitems -> is_Some (heap s !! sl)) ->
  TConst slot value ∈ topitems -> heap s !! slot = Some o -> index o = Some i ->
  assemble ins getItemRaw pool_bytes getArgs Method_flagVals ClassFile_flagVals
    fuel (tree_head, topitems) addLineNumbers jasmode s
    = (s, Raise (AssemblerError
         "Assigning to directly constant pool indices is not currently supported.")).
Proof using Type.
  intros Hall Hin Ho Hi. destruct tree_head as [[classdec superdec] interface_decs].
  unfold assemble. unfold bind at 1.
  rewrite assemble_consts_index; [reflexivity | |].
  - intros sl v Hsl. apply list_elem_of_omap in Hsl as (t & Ht & Hsl).
    destruct t; try discriminate. injection Hsl as -> ->. exact (Hall _ _ Ht).
  - exists slot, value, o, i. split; [|split; assumption].
    apply list_elem_of_omap. exists (TConst slot value). split; [exact Hin | reflexivity].
Qed.

Lemma counted_Ok stuff b :
  counted stuff = Ok b ->
  b = be_bytes 2 (Z.of_nat (length stuff)) ++ concat stuff.
Proof.
  unfold counted. intros H. apply rbind_Ok in H as (n & Hn & [= <-]).
  apply pack_cons_Ok in Hn as (bs & Hbs & -> & _). injection Hbs as <-.
  rewrite app_nil_r. reflexivity.
Qed.


End ClassFile.

(** ** Instances *)

Lemma field_flags_round_trip_witness :
  exists s' code,
    assemble_field list_getItemRaw 10 ∅
      (["PUBLIC"; "STATIC"]%string, 3%positive, 4%positive, None)
      (mkState cls_heap []) = (s', Ok code) /\
    exists flagbits rest,
      code = be_bytes 2 flagbits ++ rest /\ 0 <= flagbits <= 65535 /\
      Field_flags flagbits = list_to_set ["PUBLIC"; "STATIC"]%string.
Proof.
  eexists. eexists. split; [vm_compute; reflexivity|].
  eapply (field_flags_round_trip list_getItemRaw 10 ∅ ["PUBLIC"; "STATIC"]%string
            3%positive 4%positive None (mkState cls_heap [])).
  vm_compute. reflexivity.
Defined.

Lemma unknown_field_flag_witness :
  assemble_field list_getItemRaw 10 ∅
    (["PUBLIC"; "ABSTRACT"]%string, 3%positive, 4%positive, None)
    (mkState cls_heap [])
  = (mkState cls_heap [], Raise TypeError).
Proof.
  apply (unknown_field_flag list_getItemRaw 10 ∅ ["PUBLIC"; "ABSTRACT"]%string
           3%positive 4%positive None "ABSTRACT"%string).
  - right. left.
  - reflexivity.
Defined.

Lemma interfaces_never_assembled_witness :
  assemble jvm list_getItemRaw cls_pool_bytes cls_getArgs [] cls_flagVals 10
    (cls_tree [2%positive] []) false true (mkState cls_heap [])
  <> (mkState cls_heap [], Ok (AStr "C", [])).
Proof.
  eapply (interfaces_never_assembled jvm list_getItemRaw cls_pool_bytes cls_getArgs
           [] cls_flagVals 10 (false, ["PUBLIC"%string], 1%positive) 2%positive
           [2%positive] [] false true).
  discriminate.
Defined.

Lemma const_index_rejected_witness :
  assemble jvm list_getItemRaw cls_pool_bytes cls_getArgs [] cls_flagVals 10
    (cls_tree [] [TConst 5%positive 1%positive]) false true (mkState cls_heap [])
  = (mkState cls_heap [],
     Raise (AssemblerError
       "Assigning to directly constant pool indices is not currently supported.")).
Proof.
  apply (const_index_rejected jvm list_getItemRaw cls_pool_bytes cls_getArgs
           [] cls_flagVals 10 ((false, ["PUBLIC"%string], 1%positive), 2%positive, [])
           [TConst 5%positive 1%positive] false true (mkState cls_heap [])
           5%positive 1%positive (mkPoolRef (Some 7) None [] false) 7).
  - intros sl v H. apply list_elem_of_singleton in H. injection H as -> ->.
    eexists. reflexivity.
  - left.
  - reflexivity.
  - reflexivity.
Defined.



(** * Reading back the attributes of the class file *)

Section ReadBack.

Context {bytestream : Type}.
Context (get_H : bytestream -> result (Z * bytestream)).
Context (get_HL : bytestream -> result (Z * Z * bytestream)).
Context (getRaw : Z -> bytestream -> result (list byte * bytestream)).
Context (of_bytes : list byte -> bytestream).
Context (Hreader : big_endian_reader get_H get_HL getRaw of_bytes).

Local Abbreviation get_attribute_raw := (get_attribute_raw get_HL getRaw).
Local Abbreviation get_attributes_n := (get_attributes_n get_HL getRaw).
Local Abbreviation get_attributes_raw := (get_attributes_raw get_H get_HL getRaw).

(** an attribute whose name index and length fit their fields *)
Local Abbreviation fits := (fun a : Z * list byte =>
  0 <= fst a <= 65535 /\ blen (snd a) <= 4294967295).

Lemma read_attribute a rest :
  fits a ->
  get_attribute_raw (of_bytes (attribute_bytes a ++ rest)) = Ok (a, of_bytes rest).
Proof using Hreader.
  destruct a as [n d]. cbn [fst snd]. intros [Hn Hd].
  destruct Hreader as (_ & HHL & Hraw).
  unfold get_attribute_raw, attribute_bytes. cbn [fst snd].
  rewrite <- !app_assoc. rewrite HHL; [|exact Hn | unfold blen in *; lia].
  cbn [rbind]. rewrite Hraw. reflexivity.
Qed.

Lemma read_attributes attrs rest :
  Forall fits attrs ->
  get_attributes_n (length attrs)
    (of_bytes (concat (attribute_bytes <$> attrs) ++ rest))
  = Ok (attrs, of_bytes rest).
Proof using Hreader.
  induction 1 as [|a attrs Ha _ IH]; [reflexivity|].
  cbn [length get_attributes_n fmap list_fmap concat].
  rewrite <- app_assoc. rewrite (read_attribute a _ Ha). cbn [rbind].
  rewrite IH. reflexivity.
Qed.

Lemma read_table attrs rest :
  Forall fits attrs -> Z.of_nat (length attrs) <= 65535 ->
  get_attributes_raw
    (of_bytes ((be_bytes 2 (Z.of_nat (length attrs))
                ++ concat (attribute_bytes <$> attrs)) ++ rest))
  = Ok (attrs, of_bytes rest).
Proof using Hreader.
  intros Hfits Hlen. destruct Hreader as (HH & _ & _).
  unfold get_attributes_raw. rewrite <- app_assoc. rewrite HH by lia.
  cbn [rbind]. rewrite Nat2Z.id. apply read_attributes. exact Hfits.
Qed.

Lemma drop_header (a b c r : list byte) :
  length a = 2%nat -> length b = 2%nat -> length c = 2%nat ->
  drop 6 (a ++ b ++ c ++ r) = r.
Proof.
  intros Ha Hb Hc. rewrite (app_assoc b), (app_assoc a).
  apply drop_app_length'. rewrite !length_app. lia.
Qed.

Section Written.

Context (ins : instructions) {ConstPool : Type}.
Context (getItemRaw : ConstPool -> arg * list arg -> ConstPool * result Z).
Context (Method_flagVals : list (string * Z)).
Implicit Types s : @state ConstPool.

(** the Code attribute is an attribute whose fields fit *)
Lemma code_attr_shape fuel statements lbls addLineNumbers jasmode s s' attr :
  assembleCodeAttr ins getItemRaw fuel statements lbls addLineNumbers jasmode s
    = (s', Ok (Some attr)) ->
  exists a, attr = attribute_bytes a /\ fits a.
Proof using Type.
  unfold assembleCodeAttr. destruct statements as [|st statements].
  { intros H. apply ret_Ok in H as [[=] _]. }
  set (sts := st :: statements). clearbody sts. intros H.
  apply bind_Ok in H as (lay & s0 & _ & H).
  destruct lay as [[labels offsets] pos].
  apply bind_Ok in H as (code & s1 & _ & H).
  apply bind_Ok in H as (dirs & s2 & Hd & H).
  destruct dirs as [[stack locals_] excepts].
  apply bind_Ok in H as (attributes & s3 & _ & H).
  apply bind_Ok in H as (name_ind & s4 & _ & H).
  apply bind_Ok in H as (hdr & s5 & Hhdr & H). apply liftR_Ok in Hhdr as [Hhdr ->].
  apply bind_Ok in H as (ne & s6 & Hne & H). apply liftR_Ok in Hne as [Hne ->].
  apply bind_Ok in H as (na & s7 & Hna & H). apply liftR_Ok in Hna as [Hna ->].
  apply ret_Ok in H as [[= <-] _].
  apply do_directives_excepts in Hd; [|constructor]. cbn [snd] in Hd.
  apply pack_cons_Ok in Hhdr as (b1 & Hhdr & -> & Hname).
  apply pack_cons_Ok in Hhdr as (b2 & Hhdr & -> & Hlen).
  apply pack_cons_Ok in Hhdr as (b3 & Hhdr & -> & _).
  apply pack_cons_Ok in Hhdr as (b4 & Hhdr & -> & _).
  apply pack_cons_Ok in Hhdr as (b5 & Hhdr & -> & _).
  destruct b5; [|discriminate].
  apply pack_cons_Ok in Hne as (b6 & Hne & -> & _). destruct b6; [|discriminate].
  apply pack_cons_Ok in Hna as (b7 & Hna & -> & _). destruct b7; [|discriminate].
  change (fsize fH) with 2%nat in *. change (fsize fI) with 4%nat in *.
  rewrite !app_nil_r, <- !app_assoc.
  set (attr_len := 12 + blen code + 8 * Z.of_nat (length excepts) + sum_len attributes) in *.
  match goal with |- context [be_bytes 4 attr_len ++ ?b] => set (body := b) end.
  assert (blen body = attr_len) as Hbody.
  { subst body attr_len. unfold blen. rewrite !length_app, !be_bytes_length.
    rewrite (concat_length_const 8 excepts Hd).
    pose proof (sum_len_concat attributes) as Hs. unfold blen in *. lia. }
  exists (name_ind, body). unfold attribute_bytes. cbn [fst snd]. rewrite Hbody.
  split; [reflexivity|]. split; [exact Hname|]. simpl in Hlen. lia.
Qed.



End Written.

End ReadBack.

(** ** Instances *)

Lemma list_reader_ok :
  big_endian_reader list_get_H list_get_HL list_getRaw (fun l => l).
Proof.
  split; [|split].
  - intros z rest Hz. unfold list_get_H.
    rewrite length_app, be_bytes_length. cbn [Nat.leb Nat.add].
    rewrite take_app_length' by (symmetry; apply be_bytes_length).
    rewrite drop_app_length' by (symmetry; apply be_bytes_length).
    rewrite be_decode_be_bytes; [reflexivity|].
    change (256 ^ Z.of_nat 2) with 65536. lia.
  - intros n l rest Hn Hl. unfold list_get_HL.
    rewrite !length_app, !be_bytes_length. cbn [Nat.leb Nat.add].
    rewrite take_app_length' by (symmetry; apply be_bytes_length).
    rewrite (drop_app_length' _ _ 2) by (symmetry; apply be_bytes_length).
    rewrite take_app_length' by (symmetry; apply be_bytes_length).
    rewrite app_assoc.
    rewrite drop_app_length' by (rewrite length_app, !be_bytes_length; reflexivity).
    rewrite !be_decode_be_bytes; [reflexivity | |].
    + change (256 ^ Z.of_nat 4) with 4294967296. lia.
    + change (256 ^ Z.of_nat 2) with 65536. lia.
  - intros d rest. unfold list_getRaw, blen. rewrite Nat2Z.id.
    rewrite take_app_length, drop_app_length. reflexivity.
Qed.



